(** * Graph containers of the canvas: bounding box, centring, rotation,
      connectivity-based splitting and joining.

    A shallow embedding of [graph.cpp] (class [Graph]), of the parts of
    [node.cpp] and [edge.cpp] those functions call, and of the split and
    join code of [canvasscene.cpp].

    Numbers.  A [qreal] is a double.  In the definitions below a
    coordinate or an angle is a rational number of [Q] and one operation
    of the code is one exact operation (every finite double is a
    rational); equality of coordinates is [Qeq], written [==].  Rounding
    is not modelled there.  A theorem that states a property of the code
    is worded so that it does not rest on it: it compares coordinates, or
    gives a coordinate as the result of the operations the code performs
    on the operands the code has, and uses no law of exact arithmetic
    (such as [a + (b - a) == b]) between two results.  Where rounding
    decides, [Graph::centerGraph] is taken again over the doubles
    themselves, in the module [Double].  The lemmas said to hold with
    exact arithmetic are facts about the rationals, not about the code. *)

From Stdlib Require Import QArith Qminmax Lqa ZArith List Bool String Lia Permutation.
From Stdlib Require PrimFloat.
Import ListNotations.

Local Open Scope Q_scope.

(** ** What the platform supplies

    Functions and globals that are not computed by this repository: the
    screen resolution [currentPhysicalDPI] (a global set from the screen
    or from the settings), the C library's sine, cosine and arc tangent
    (reached through [qSin], [qCos], [qAtan2]), [qRadiansToDegrees], and
    the two [QString] conversions used when nodes are renumbered. *)

Class Platform : Type := {
  currentPhysicalDPI : Q;
  qSin : Q -> Q;
  qCos : Q -> Q;
  qAtan2 : Q -> Q -> Q;
  qRadiansToDegrees : Q -> Q;
  QString_toInt_ok : string -> bool;
  QString_number : Z -> string
}.

(** ** Points and rectangles *)

Record QPointF : Type := mkPoint { px : Q; py : Q }.

Record QRectF : Type := mkRect { rect_x : Q; rect_y : Q; rect_w : Q; rect_h : Q }.

Definition padd (p q : QPointF) : QPointF := mkPoint (px p + px q) (py p + py q).
Definition psub (p q : QPointF) : QPointF := mkPoint (px p - px q) (py p - py q).

(** Coordinate-wise equality of points. *)
Definition peq (p q : QPointF) : Prop := px p == px q /\ py p == py q.

Definition origin : QPointF := mkPoint 0 0.

(** The right edge and bottom edge of a rectangle. *)
Definition rect_right (r : QRectF) : Q := rect_x r + rect_w r.
Definition rect_bottom (r : QRectF) : Q := rect_y r + rect_h r.

(** [QTransform::rotate(a)] applied to a point: the sine and cosine of the
    angle (in degrees) are exact at the quarter turns Qt singles out and
    come from the C library otherwise. *)
Definition deg2rad : Q := 17453292519943295 # 1000000000000000000.

Definition sincos `{Platform} (a : Q) : Q * Q :=
  if Qeq_bool a 0 then (0, 1)
  else if Qeq_bool a 90 || Qeq_bool a (-270) then (1, 0)
  else if Qeq_bool a 270 || Qeq_bool a (-90) then (-1, 0)
  else if Qeq_bool a 180 then (0, -1)
  else (qSin (deg2rad * a), qCos (deg2rad * a)).

Definition rotatePoint `{Platform} (a : Q) (p : QPointF) : QPointF :=
  let '(sina, cosa) := sincos a in
  mkPoint (cosa * px p - sina * py p) (sina * px p + cosa * py p).

(** ** Lists of pointers

    [QList::contains], [QList::removeOne] and [QList::indexOf] on lists of
    item identities. *)

Definition contains (l : list nat) (x : nat) : bool := existsb (Nat.eqb x) l.

Fixpoint removeOne (x : nat) (l : list nat) : list nat :=
  match l with
  | [] => []
  | y :: r => if Nat.eqb y x then r else y :: removeOne x r
  end.

Fixpoint indexOf (l : list nat) (x : nat) : nat :=
  match l with
  | [] => 0
  | y :: r => if Nat.eqb y x then 0%nat else S (indexOf r x)
  end.

(** ** Nodes, edges and graphs

    Items are identified by a number standing for the C++ pointer. *)

Module Node.

Record t : Type := mk {
  id : nat;
  pos : QPointF;                (* relative to the owning graph *)
  rotation : Q;
  nodeDiameter : Q;             (* stored in pixels *)
  physicalDotsPerInchX : Q;
  edgeList : list nat;          (* incident edges, by identity *)
  checked : Z;
  label : string
}.

Definition setPos (n : t) (p : QPointF) : t :=
  mk (id n) p (rotation n) (nodeDiameter n) (physicalDotsPerInchX n)
     (edgeList n) (checked n) (label n).

Definition setRotation (n : t) (rotationAmount : Q) : t :=
  mk (id n) (pos n) rotationAmount (nodeDiameter n) (physicalDotsPerInchX n)
     (edgeList n) (checked n) (label n).

Definition getRotation (n : t) : Q := rotation n.

Definition getDiameter (n : t) : Q := nodeDiameter n / physicalDotsPerInchX n.

Definition setEdgeList (n : t) (l : list nat) : t :=
  mk (id n) (pos n) (rotation n) (nodeDiameter n) (physicalDotsPerInchX n)
     l (checked n) (label n).

Definition setChecked (n : t) (c : Z) : t :=
  mk (id n) (pos n) (rotation n) (nodeDiameter n) (physicalDotsPerInchX n)
     (edgeList n) c (label n).

Definition setLabel (n : t) (l : string) : t :=
  mk (id n) (pos n) (rotation n) (nodeDiameter n) (physicalDotsPerInchX n)
     (edgeList n) (checked n) l.

(** [edgeList << edge] *)
Definition addEdge (n : t) (edge : nat) : t := setEdgeList n (edgeList n ++ [edge]).

(** The first occurrence of [edge] is removed from the list. *)
Definition removeEdge (n : t) (edge : nat) : t :=
  setEdgeList n (removeOne edge (edgeList n)).

Definition edges (n : t) : list nat := edgeList n.

Definition setNodeLabel `{Platform} (n : t) (number : Z) : t :=
  setLabel n (QString_number number).

Definition getLabel (n : t) : string := label n.

(** [setDiameter]: the argument is in inches and is stored in pixels.
    (The edges of the node are then asked to [adjust], which recomputes
    the end points they are drawn between from the node positions and
    from the radii the edges themselves store; no attribute kept here
    changes.) *)
Definition setDiameter (n : t) (diameter : Q) : t :=
  mk (id n) (pos n) (rotation n) (diameter * physicalDotsPerInchX n)
     (physicalDotsPerInchX n) (edgeList n) (checked n) (label n).

(** The loop of [removeEdge] with the value it returns: the list without
    the first entry equal to [edge] and [true], or the list as it is and
    [false]. *)
Fixpoint removeAtFirst (edge : nat) (l : list nat) : list nat * bool :=
  match l with
  | [] => ([], false)
  | y :: r =>
      if Nat.eqb y edge then (r, true)
      else let '(r', found) := removeAtFirst edge r in (y :: r', found)
  end.

Definition removeEdgeReturning (n : t) (edge : nat) : t * bool :=
  let '(l, found) := removeAtFirst edge (edgeList n) in (setEdgeList n l, found).

End Node.

Module Edge.

Record t : Type := mk {
  id : nat;
  source : nat;
  dest : nat;
  pos : QPointF;
  rotation : Q;
  sourceRadius : Q;
  destRadius : Q;
  checked : Z
}.

Definition sourceNode (e : t) : nat := source e.
Definition destNode (e : t) : nat := dest e.

Definition setPos (e : t) (p : QPointF) : t :=
  mk (id e) (source e) (dest e) p (rotation e) (sourceRadius e) (destRadius e)
     (checked e).

Definition setRotation (e : t) (rotationAmount : Q) : t :=
  mk (id e) (source e) (dest e) (pos e) rotationAmount (sourceRadius e)
     (destRadius e) (checked e).

Definition getRotation (e : t) : Q := rotation e.

Definition setChecked (e : t) (c : Z) : t :=
  mk (id e) (source e) (dest e) (pos e) (rotation e) (sourceRadius e)
     (destRadius e) c.

(** [dest = node; setDestRadius(node->getDiameter() / 2.)] *)
Definition setDestNode (e : t) (node : Node.t) : t :=
  mk (id e) (source e) (Node.id node) (pos e) (rotation e) (sourceRadius e)
     (Node.getDiameter node / 2) (checked e).

(** [source = node; setSourceRadius(node->getDiameter() / 2.)] *)
Definition setSourceNode (e : t) (node : Node.t) : t :=
  mk (id e) (Node.id node) (dest e) (pos e) (rotation e)
     (Node.getDiameter node / 2) (destRadius e) (checked e).

End Edge.

(** A child of a graph.  Graphs are never children of graphs (since V1.16
    of canvasscene.cpp), so a child is a node or an edge. *)
Inductive Item : Type :=
| NodeItem (n : Node.t)
| EdgeItem (e : Edge.t).

Definition isNode (it : Item) : bool :=
  match it with NodeItem _ => true | EdgeItem _ => false end.

Definition isEdge (it : Item) : bool :=
  match it with NodeItem _ => false | EdgeItem _ => true end.

Module Graph.

(** A graph is a top-level item of the scene: its position and rotation
    are relative to the scene.  [childItems] holds the children in the
    order in which they were given to the graph.  The order in which Qt
    returns them is not modelled: [QGraphicsItem::childItems()] sorts by
    stacking order, and [Node::itemChange] takes a node whose position
    has changed out of its graph and puts it back, which makes it the last
    child.  What is proved of the children is proved of each child by its
    identity, or of the children up to their order. *)
Record t : Type := mk {
  pos : QPointF;
  rotation : Q;
  childItems : list Item
}.

(** [new Graph()]: at the origin, not rotated, no children. *)
Definition new : t := mk origin 0 [].

Definition getRotation (g : t) : Q := rotation g.

Definition setPos (g : t) (p : QPointF) : t := mk p (rotation g) (childItems g).

Definition moveBy (g : t) (dx dy : Q) : t :=
  mk (mkPoint (px (pos g) + dx) (py (pos g) + dy)) (rotation g) (childItems g).

(** [item->scenePos()] for a child whose position in the graph is [p]:
    the graph's rotation about its origin, then its translation. *)
Definition mapToScene `{Platform} (g : t) (p : QPointF) : QPointF :=
  padd (pos g) (rotatePoint (rotation g) p).

Definition itemPos (it : Item) : QPointF :=
  match it with
  | NodeItem n => Node.pos n
  | EdgeItem e => Edge.pos e
  end.

Definition scenePos `{Platform} (g : t) (it : Item) : QPointF :=
  mapToScene g (itemPos it).

(** The node children and the edge children, in the order of
    [childItems]. *)
Fixpoint nodesOf (items : list Item) : list Node.t :=
  match items with
  | [] => []
  | NodeItem n :: r => n :: nodesOf r
  | EdgeItem _ :: r => nodesOf r
  end.

Fixpoint edgesOf (items : list Item) : list Edge.t :=
  match items with
  | [] => []
  | NodeItem _ :: r => edgesOf r
  | EdgeItem e :: r => e :: edgesOf r
  end.

Definition nodes (g : t) : list Node.t := nodesOf (childItems g).
Definition edges (g : t) : list Edge.t := edgesOf (childItems g).

(** *** boundingBox *)

Record Acc : Type := mkAcc {
  minx : Q; maxx : Q; miny : Q; maxy : Q;
  RGminx : Q; RGmaxx : Q; RGminy : Q; RGmaxy : Q;
  firstNode : bool
}.

Definition acc0 : Acc := mkAcc 0 0 0 0 0 0 0 0 true.

(** The radius of a node in scene units, or 0 when node sizes are not
    asked for. *)
Definition radius `{Platform} (useNodeSizes : bool) (n : Node.t) : Q :=
  if useNodeSizes then Node.getDiameter n / 2 * currentPhysicalDPI else 0.

(** [if (v_hi > hi) hi = v_hi; else if (v_lo < lo) lo = v_lo;] *)
Definition widen (lo hi v_lo v_hi : Q) : Q * Q :=
  if Qlt_le_dec hi v_hi then (lo, v_hi)
  else if Qlt_le_dec v_lo lo then (v_lo, hi)
  else (lo, hi).

(** One iteration of the loop over the children. *)
Definition step `{Platform} (g : t) (useNodeSizes : bool) (a : Acc) (item : Item) : Acc :=
  match item with
  | NodeItem n =>
      let x := px (scenePos g item) in
      let y := py (scenePos g item) in
      let RGx := px (Node.pos n) in
      let RGy := py (Node.pos n) in
      let r := radius useNodeSizes n in
      if firstNode a then
        mkAcc (x - r) (x + r) (y - r) (y + r) RGx RGx RGy RGy false
      else
        let '(minx', maxx') := widen (minx a) (maxx a) (x - r) (x + r) in
        let '(miny', maxy') := widen (miny a) (maxy a) (y - r) (y + r) in
        let '(RGminx', RGmaxx') := widen (RGminx a) (RGmaxx a) RGx RGx in
        let '(RGminy', RGmaxy') := widen (RGminy a) (RGmaxy a) RGy RGy in
        mkAcc minx' maxx' miny' maxy' RGminx' RGmaxx' RGminy' RGmaxy' false
  | EdgeItem _ => a
  end.

Definition accumulate `{Platform} (g : t) (useNodeSizes : bool) : Acc :=
  fold_left (step g useNodeSizes) (childItems g) acc0.

(** The returned rectangle, the copy-out [center] (scene coordinates)
    and the copy-out [RGcenter] (graph coordinates). *)
Definition boundingBox `{Platform} (g : t) (useNodeSizes : bool)
  : QRectF * QPointF * QPointF :=
  let a := accumulate g useNodeSizes in
  (mkRect (minx a) (miny a) (maxx a - minx a) (maxy a - miny a),
   mkPoint ((maxx a + minx a) / 2) ((maxy a + miny a) / 2),
   mkPoint ((RGmaxx a + RGminx a) / 2) ((RGmaxy a + RGminy a) / 2)).

(** *** setRotation

    The work list starts as the children; every child found is turned
    (a node or an edge) and taken off the list, so one pass over the
    children empties it. *)
Definition turnChild (newRotation : Q) (child : Item) : Item :=
  match child with
  | NodeItem n => NodeItem (Node.setRotation n (- newRotation))
  | EdgeItem e => EdgeItem (Edge.setRotation e (- newRotation))
  end.

Definition setRotation (g : t) (rotationAmount : Q) (rotationIsRelative : bool) : t :=
  let newRotation :=
    if rotationIsRelative then getRotation g + rotationAmount
    else rotationAmount in
  mk (pos g) newRotation (map (turnChild newRotation) (childItems g)).

(** *** centerGraph *)
Definition recenter (RGcenter : QPointF) (item : Item) : Item :=
  match item with
  | NodeItem n => NodeItem (Node.setPos n (psub (Node.pos n) RGcenter))
  | EdgeItem e => EdgeItem e
  end.

Definition centerGraph `{Platform} (g : t) : t :=
  let RGcenter := snd (boundingBox g false) in
  mk (padd (pos g) RGcenter) (rotation g) (map (recenter RGcenter) (childItems g)).

End Graph.


(** ** The scene

    The graphs that are items of the scene, each under the number that
    stands for its pointer, the canvas-wide list of graphs, the nodes
    picked for a join, and the signals emitted so far. *)

Inductive ItemRef : Type :=
| NodeRef (n : nat)
| EdgeRef (e : nat).

Definition refOf (it : Item) : ItemRef :=
  match it with
  | NodeItem n => NodeRef (Node.id n)
  | EdgeItem e => EdgeRef (Edge.id e)
  end.

Definition refEqb (a b : ItemRef) : bool :=
  match a, b with
  | NodeRef x, NodeRef y => Nat.eqb x y
  | EdgeRef x, EdgeRef y => Nat.eqb x y
  | _, _ => false
  end.

Definition containsRef (l : list ItemRef) (x : ItemRef) : bool := existsb (refEqb x) l.

Definition setItemPos (it : Item) (p : QPointF) : Item :=
  match it with
  | NodeItem n => NodeItem (Node.setPos n p)
  | EdgeItem e => EdgeItem (Edge.setPos e p)
  end.

Definition setItemRotation (it : Item) (r : Q) : Item :=
  match it with
  | NodeItem n => NodeItem (Node.setRotation n r)
  | EdgeItem e => EdgeItem (Edge.setRotation e r)
  end.

Inductive Signal : Type :=
| graphDropped
| graphJoined
| graphSeparated
| somethingChanged.

(** The graphs of a scene with their identities. *)
Definition Graphs : Type := list (nat * Graph.t).

Module Items.

Definition lookupGraph (gs : Graphs) (gid : nat) : option Graph.t :=
  match find (fun kg => Nat.eqb (fst kg) gid) gs with
  | Some kg => Some (snd kg)
  | None => None
  end.

Definition updateGraph (gid : nat) (f : Graph.t -> Graph.t) (gs : Graphs) : Graphs :=
  map (fun kg => if Nat.eqb (fst kg) gid then (fst kg, f (snd kg)) else kg) gs.

Definition removeGraph (gid : nat) (gs : Graphs) : Graphs :=
  filter (fun kg => negb (Nat.eqb (fst kg) gid)) gs.

Definition setChildren (g : Graph.t) (items : list Item) : Graph.t :=
  Graph.mk (Graph.pos g) (Graph.rotation g) items.

(** Apply [f] to every child of every graph. *)
Definition mapItems (f : Item -> Item) (gs : Graphs) : Graphs :=
  map (fun kg => (fst kg, setChildren (snd kg) (map f (Graph.childItems (snd kg))))) gs.

(** A node is changed in its place.  (Where the code gives a node
    another position, [Node::itemChange] makes it the last child of its
    graph; see [Graph.t].) *)
Definition updateNode (nid : nat) (f : Node.t -> Node.t) (gs : Graphs) : Graphs :=
  mapItems (fun it => match it with
                      | NodeItem n => if Nat.eqb (Node.id n) nid then NodeItem (f n) else it
                      | EdgeItem _ => it
                      end) gs.

Definition updateEdge (eid : nat) (f : Edge.t -> Edge.t) (gs : Graphs) : Graphs :=
  mapItems (fun it => match it with
                      | NodeItem _ => it
                      | EdgeItem e => if Nat.eqb (Edge.id e) eid then EdgeItem (f e) else it
                      end) gs.

(** The item with a given identity among some children. *)
Definition findIn (items : list Item) (r : ItemRef) : option Item :=
  find (fun it => refEqb (refOf it) r) items.

(** The owning graph of an item and the item itself. *)
Fixpoint findItem (gs : Graphs) (r : ItemRef) : option (nat * Item) :=
  match gs with
  | [] => None
  | (gid, g) :: rest =>
      match findIn (Graph.childItems g) r with
      | Some it => Some (gid, it)
      | None => findItem rest r
      end
  end.

Definition findNode (gs : Graphs) (nid : nat) : option Node.t :=
  match findItem gs (NodeRef nid) with
  | Some (_, NodeItem n) => Some n
  | _ => None
  end.

Definition findEdge (gs : Graphs) (eid : nat) : option Edge.t :=
  match findItem gs (EdgeRef eid) with
  | Some (_, EdgeItem e) => Some e
  | _ => None
  end.

(** [item->parentItem()]: the owning graph, or no parent. *)
Definition parentItem (gs : Graphs) (r : ItemRef) : option nat :=
  match findItem gs r with
  | Some (gid, _) => Some gid
  | None => None
  end.

(** [item->scenePos()] of an item that is a child of a graph. *)
Definition scenePos `{Platform} (gs : Graphs) (r : ItemRef) : option QPointF :=
  match findItem gs r with
  | Some (gid, it) =>
      match lookupGraph gs gid with
      | Some g => Some (Graph.scenePos g it)
      | None => None
      end
  | None => None
  end.

(** [removeItem(item)] followed by [delete item], or the first half of
    a change of parent: the item is taken out of its graph. *)
Definition detach (r : ItemRef) (gs : Graphs) : Graphs :=
  map (fun kg => (fst kg,
                  setChildren (snd kg)
                    (filter (fun it => negb (refEqb (refOf it) r))
                            (Graph.childItems (snd kg))))) gs.

(** The item becomes the last child of graph [gid]. *)
Definition attach (gid : nat) (it : Item) (gs : Graphs) : Graphs :=
  updateGraph gid (fun g => setChildren g (Graph.childItems g ++ [it])) gs.

(** [item->setParentItem(graph); item->setPos(p); item->setRotation(0)] *)
Definition reparent (gid : nat) (it : Item) (p : QPointF) (gs : Graphs) : Graphs :=
  attach gid (setItemRotation (setItemPos it p) 0) (detach (refOf it) gs).

Definition nodeChecked (gs : Graphs) (nid : nat) : Z :=
  match findNode gs nid with
  | Some n => Node.checked n
  | None => 0%Z
  end.

Definition edgesOfNode (gs : Graphs) (nid : nat) : list nat :=
  match findNode gs nid with
  | Some n => Node.edges n
  | None => []
  end.

Definition allItems (gs : Graphs) : list Item :=
  flat_map (fun kg => Graph.childItems (snd kg)) gs.

Definition allNodes (gs : Graphs) : list Node.t := Graph.nodesOf (allItems gs).
Definition allEdges (gs : Graphs) : list Edge.t := Graph.edgesOf (allItems gs).

(** A number that is not the identity of a graph of the scene: the
    pointer returned by [new Graph]. *)
Definition fresh (gs : Graphs) (others : list nat) : nat :=
  S (list_max (map fst gs ++ others)).

End Items.

Module CanvasScene.

Record t : Type := mk {
  graphs : Graphs;
  canvasGraphList : list nat;
  connectNode1a : option nat;
  connectNode1b : option nat;
  connectNode2a : option nat;
  connectNode2b : option nat;
  emitted : list Signal
}.

Definition setGraphs (s : t) (gs : Graphs) : t :=
  mk gs (canvasGraphList s) (connectNode1a s) (connectNode1b s)
     (connectNode2a s) (connectNode2b s) (emitted s).

Definition setCanvasGraphList (s : t) (l : list nat) : t :=
  mk (graphs s) l (connectNode1a s) (connectNode1b s)
     (connectNode2a s) (connectNode2b s) (emitted s).

Definition emit (s : t) (sig : Signal) : t :=
  mk (graphs s) (canvasGraphList s) (connectNode1a s) (connectNode1b s)
     (connectNode2a s) (connectNode2b s) (emitted s ++ [sig]).

(** All four picked nodes are forgotten (the end of the 'j' case). *)
Definition unselect (s : t) : t :=
  mk (graphs s) (canvasGraphList s) None None None None (emitted s).

(** *** searchAndSeparate *)

(** The indices [j] with [from <= j <= lastIdx] at which [Nodes] holds
    [node], in increasing order. *)
Fixpoint reached (Nodes : list nat) (node : nat) (j : nat) (count : nat) : list nat :=
  match count with
  | O => []
  | S c =>
      if Nat.eqb (nth j Nodes 0%nat) node
      then j :: reached Nodes node (S j) c
      else reached Nodes node (S j) c
  end.

Record Search : Type := mkSearch {
  sGraphs : Graphs;
  graphNodes : list nat;
  graphItems : list ItemRef;
  skipList : list nat
}.

Definition enqueue (st : Search) (n : nat) : Search :=
  mkSearch (sGraphs st) (graphNodes st ++ [n])
           (if containsRef (graphItems st) (NodeRef n) then graphItems st
            else graphItems st ++ [NodeRef n])
           (skipList st).

(** The body of the loop over [node->edgeList]. *)
Definition visitEdge (st : Search) (edge : nat) : Search :=
  match Items.findEdge (sGraphs st) edge with
  | None => st
  | Some e =>
      let st1 :=
        if negb (contains (graphNodes st) (Edge.destNode e))
           && Z.eqb (Items.nodeChecked (sGraphs st) (Edge.destNode e)) 0
        then enqueue st (Edge.destNode e)
        else if negb (contains (graphNodes st) (Edge.sourceNode e))
                && Z.eqb (Items.nodeChecked (sGraphs st) (Edge.sourceNode e)) 0
        then enqueue st (Edge.sourceNode e)
        else st in
      mkSearch (Items.updateEdge edge (fun e' => Edge.setChecked e' 1) (sGraphs st1))
               (graphNodes st1)
               (if containsRef (graphItems st1) (EdgeRef edge) then graphItems st1
                else graphItems st1 ++ [EdgeRef edge])
               (skipList st1)
  end.

(** The body of the loop over [graphNodes]: [i] is the index of the
    node the search started from, [lastIdx] the index of the last
    node of [Nodes]. *)
Definition visitNode (Nodes : list nat) (i lastIdx : nat) (st : Search) (node : nat) : Search :=
  let st1 :=
    mkSearch (Items.updateNode node (fun n => Node.setChecked n 1) (sGraphs st))
             (graphNodes st) (graphItems st)
             (skipList st ++ reached Nodes node (S i) (lastIdx - i)) in
  let st2 := fold_left visitEdge (Items.edgesOfNode (sGraphs st) node) st1 in
  mkSearch (sGraphs st2) (removeOne node (graphNodes st2)) (graphItems st2) (skipList st2).

(** [while (!graphNodes.isEmpty()) for (Node * node : graphNodes) ...]:
    one pass of the inner loop visits the nodes that are in the list
    when the pass starts (a visited node is taken off the front, the
    nodes found are put at the back). *)
Fixpoint search (fuel : nat) (Nodes : list nat) (i lastIdx : nat) (st : Search)
  : option Search :=
  match graphNodes st with
  | [] => Some st
  | _ :: _ =>
      match fuel with
      | O => None
      | S f => search f Nodes i lastIdx
                      (fold_left (visitNode Nodes i lastIdx) (graphNodes st) st)
      end
  end.

(** Moving the items found into a new graph. *)
Definition moveInto `{Platform} (graph : nat) (gs : Graphs) (r : ItemRef) : Graphs :=
  match Items.findItem gs r, Items.scenePos gs r with
  | Some (_, it), Some itemPos => Items.reparent graph it itemPos gs
  | _, _ => gs
  end.

Definition resetChecked (gs : Graphs) (r : ItemRef) : Graphs :=
  match r with
  | NodeRef n => Items.updateNode n (fun x => Node.setChecked x 0) gs
  | EdgeRef e => Items.updateEdge e (fun x => Edge.setChecked x 0) gs
  end.

(** [i++; while (skipList.contains(i)) i++;] *)
Fixpoint skipPast (skip : list nat) (fuel : nat) (i : nat) : nat :=
  match fuel with
  | O => i
  | S f => if contains skip i then skipPast skip f (S i) else i
  end.

(** The body of the outer loop, for the start index [i]. *)
Definition separateFrom `{Platform} (fuel : nat) (Nodes : list nat) (lastIdx : nat)
           (s : t) (graphAdded : bool) (i : nat) : option (t * bool * nat) :=
  let node1 := nth i Nodes 0%nat in
  match search fuel Nodes i lastIdx
               (mkSearch (graphs s) [node1] [NodeRef node1] []) with
  | None => None
  | Some st =>
      let split := negb (Nat.eqb (List.length (skipList st)) (List.length Nodes - i - 1)) in
      let s1 :=
        if split then
          let graph := Items.fresh (sGraphs st) (canvasGraphList s) in
          let gs := sGraphs st ++ [(graph, Graph.new)] in
          mk (fold_left (moveInto graph) (graphItems st) gs)
             (canvasGraphList s ++ [graph])
             (connectNode1a s) (connectNode1b s) (connectNode2a s) (connectNode2b s)
             (emitted s)
        else setGraphs s (sGraphs st) in
      let s2 := setGraphs s1 (fold_left resetChecked (graphItems st) (graphs s1)) in
      Some (s2, graphAdded || split,
            skipPast (skipList st) (S (List.length (skipList st))) (S i))
  end.

Fixpoint separateLoop `{Platform} (fuel : nat) (bfsFuel : nat) (Nodes : list nat)
         (lastIdx : nat) (s : t) (graphAdded : bool) (i : nat) : option (t * bool) :=
  if Nat.ltb i lastIdx then
    match fuel with
    | O => None
    | S f =>
        match separateFrom bfsFuel Nodes lastIdx s graphAdded i with
        | None => None
        | Some (s', added, i') => separateLoop f bfsFuel Nodes lastIdx s' added i'
        end
    end
  else Some (s, graphAdded).

(** [searchAndSeparate(Nodes)].  The list is assumed to be non-empty
    (the function's header asks for at least two nodes).  [None] is
    returned only when the loops are cut short by lack of fuel. *)
Definition searchAndSeparateFuel `{Platform} (fuel bfsFuel : nat) (Nodes : list nat) (s : t)
  : option t :=
  let lastIdx := indexOf Nodes (last Nodes 0%nat) in
  match separateLoop fuel bfsFuel Nodes lastIdx s false 0 with
  | None => None
  | Some (s', graphAdded) => Some (if graphAdded then emit s' graphSeparated else s')
  end.

(** Enough fuel for both loops: the outer index grows in every round,
    and every pass of the search marks a node that was not marked. *)
Definition searchAndSeparate `{Platform} (Nodes : list nat) (s : t) : option t :=
  searchAndSeparateFuel (List.length Nodes)
                        (S (List.length (Items.allNodes (graphs s)))) Nodes s.

(** *** mousePressEvent, delete mode *)

(** The loop over the edges of the node being deleted: the neighbours
    are collected and each edge is taken off both of its ends and
    destroyed. *)
Definition dropEdgeOf (node : nat) (acc : Graphs * list nat) (edge : nat)
  : Graphs * list nat :=
  let '(gs, adjacentNodes) := acc in
  match Items.findEdge gs edge with
  | None => acc
  | Some e =>
      let adjacentNodes' :=
        if negb (contains adjacentNodes (Edge.destNode e))
           && negb (Nat.eqb (Edge.destNode e) node)
        then adjacentNodes ++ [Edge.destNode e]
        else if negb (contains adjacentNodes (Edge.sourceNode e))
                && negb (Nat.eqb (Edge.sourceNode e) node)
        then adjacentNodes ++ [Edge.sourceNode e]
        else adjacentNodes in
      let gs1 := Items.updateNode (Edge.destNode e) (fun n => Node.removeEdge n edge) gs in
      let gs2 := Items.updateNode (Edge.sourceNode e) (fun n => Node.removeEdge n edge) gs1 in
      (Items.detach (EdgeRef edge) gs2, adjacentNodes')
  end.

(** A graph left without children is removed from the scene and from
    the canvas-wide list. *)
Definition dropIfEmpty (parent : nat) (s : t) : t :=
  match Items.lookupGraph (graphs s) parent with
  | Some g =>
      match Graph.childItems g with
      | [] => mk (Items.removeGraph parent (graphs s))
                 (removeOne parent (canvasGraphList s))
                 (connectNode1a s) (connectNode1b s) (connectNode2a s) (connectNode2b s)
                 (emitted s)
      | _ :: _ => s
      end
  | None => s
  end.

(** The node under the pointer is deleted. *)
Definition deleteNode `{Platform} (node : nat) (s : t) : option t :=
  match Items.findNode (graphs s) node with
  | None => Some s
  | Some n =>
      let '(gs, adjacentNodes) :=
        fold_left (dropEdgeOf node) (Node.edgeList n) (graphs s, []) in
      let s1 := setGraphs s gs in
      match (if Nat.ltb 1 (List.length adjacentNodes)
             then searchAndSeparate adjacentNodes s1 else Some s1) with
      | None => None
      | Some s2 =>
          let parent := Items.parentItem (graphs s2) (NodeRef node) in
          let s3 := setGraphs s2 (Items.detach (NodeRef node) (graphs s2)) in
          let s4 := match parent with
                    | Some p => dropIfEmpty p s3
                    | None => s3
                    end in
          Some (emit s4 somethingChanged)
      end
  end.

(** The edge under the pointer is deleted. *)
Definition deleteEdge `{Platform} (edge : nat) (s : t) : option t :=
  match Items.findEdge (graphs s) edge with
  | None => Some s
  | Some e =>
      let gs1 := Items.updateNode (Edge.destNode e) (fun n => Node.removeEdge n edge)
                                  (graphs s) in
      let gs2 := Items.updateNode (Edge.sourceNode e) (fun n => Node.removeEdge n edge) gs1 in
      let s1 := setGraphs s (Items.detach (EdgeRef edge) gs2) in
      match searchAndSeparate [Edge.destNode e; Edge.sourceNode e] s1 with
      | None => None
      | Some s2 => Some (emit s2 somethingChanged)
      end
  end.

(** *** keyReleaseEvent, key 'j' *)

Definition ANIMATION_STEPS : nat := 10.

(** Every edge of [from] gets [to] at the end where it had [from], and
    is added to the edge list of [to]. *)
Definition rewireEdge (from to : nat) (gs : Graphs) (edge : nat) : Graphs :=
  match Items.findNode gs to with
  | None => gs
  | Some nto =>
      let gs1 :=
        Items.updateEdge edge
          (fun e => if Nat.eqb (Edge.sourceNode e) from
                    then Edge.setSourceNode e nto
                    else Edge.setDestNode e nto) gs in
      Items.updateNode to (fun n => Node.addEdge n edge) gs1
  end.

Definition rewire (from to : nat) (gs : Graphs) : Graphs :=
  fold_left (rewireEdge from to) (Items.edgesOfNode gs from) gs.

Definition connects (gs : Graphs) (node : nat) (edge : nat) : bool :=
  match Items.findEdge gs edge with
  | Some e => Nat.eqb (Edge.sourceNode e) node || Nat.eqb (Edge.destNode e) node
  | None => false
  end.

(** The second edge of [edges] that has [node] at one end, if any. *)
Fixpoint secondConnecting (gs : Graphs) (node : nat) (existingEdge : option nat)
         (edges : list nat) : option nat :=
  match edges with
  | [] => None
  | edge :: rest =>
      if connects gs node edge then
        match existingEdge with
        | None => secondConnecting gs node (Some edge) rest
        | Some _ => Some edge
        end
      else secondConnecting gs node existingEdge rest
  end.

(** If two edges join [n1a] and [n1b], the second one found in the
    edge list of [n1a] is destroyed. *)
Definition removeDuplicate (n1a n1b n2a n2b : nat) (gs : Graphs) : Graphs :=
  match secondConnecting gs n1b None (Items.edgesOfNode gs n1a) with
  | None => gs
  | Some edge =>
      let gs1 := Items.updateNode n1a (fun n => Node.removeEdge n edge) gs in
      let gs2 := Items.updateNode n1b (fun n => Node.removeEdge n edge) gs1 in
      let gs3 := Items.updateNode n2a (fun n => Node.removeEdge n edge) gs2 in
      let gs4 := Items.updateNode n2b (fun n => Node.removeEdge n edge) gs3 in
      Items.detach (EdgeRef edge) gs4
  end.

(** All children of graph [root] become children of [newRoot], keeping
    their place in the scene ([newRoot] sits at [root1Pos]). *)
Definition moveChildren `{Platform} (root newRoot : nat) (root1Pos : QPointF) (gs : Graphs)
  : Graphs :=
  match Items.lookupGraph gs root with
  | None => gs
  | Some g =>
      fold_left (fun acc item =>
                   Items.reparent newRoot item (psub (Graph.scenePos g item) root1Pos) acc)
                (Graph.childItems g) gs
  end.

(** The nodes of the new graph are numbered from 0, the nodes about to
    be destroyed left out. *)
Fixpoint renumberItems `{Platform} (skip : list nat) (count : Z) (items : list Item)
  : list Item :=
  match items with
  | [] => []
  | NodeItem n :: rest =>
      if contains skip (Node.id n)
      then NodeItem n :: renumberItems skip count rest
      else NodeItem (Node.setNodeLabel n count) :: renumberItems skip (count + 1)%Z rest
  | EdgeItem e :: rest => EdgeItem e :: renumberItems skip count rest
  end.

Definition renumber `{Platform} (n1 : nat) (skip : list nat) (newRoot : nat) (gs : Graphs)
  : Graphs :=
  match Items.findNode gs n1 with
  | Some n =>
      if QString_toInt_ok (Node.getLabel n)
      then Items.updateGraph newRoot
             (fun g => Items.setChildren g (renumberItems skip 0%Z (Graph.childItems g))) gs
      else gs
  | None => gs
  end.

(** The common end of both joins: the new graph is centred and
    registered, the merged-away nodes and the two old graphs are
    destroyed, and [graphJoined] is emitted. *)
Definition finishJoin `{Platform} (newRoot root1 root2 : nat) (gone : list nat)
           (gs : Graphs) (s : t) : t :=
  let gs1 := Items.updateGraph newRoot Graph.centerGraph gs in
  let gs2 := fold_left (fun acc n => Items.detach (NodeRef n) acc) gone gs1 in
  let gs3 := Items.removeGraph root2 (Items.removeGraph root1 gs2) in
  mk gs3
     (removeOne root2 (removeOne root1 (canvasGraphList s ++ [newRoot])))
     (connectNode1a s) (connectNode1b s) (connectNode2a s) (connectNode2b s)
     (emitted s ++ [graphJoined]).

Definition optEqb (a b : option nat) : bool :=
  match a, b with
  | Some x, Some y => Nat.eqb x y
  | None, None => true
  | _, _ => false
  end.

(** The four-node join.  [None] stands for the dereference of a null
    or dangling pointer. *)
Definition joinFour `{Platform} (n1a n1b n2a n2b : nat) (s : t) : option t :=
  let gs0 := graphs s in
  let newRoot := Items.fresh gs0 (canvasGraphList s) in
  let gs := gs0 ++ [(newRoot, Graph.new)] in
  match Items.parentItem gs (NodeRef n1a), Items.parentItem gs (NodeRef n2a) with
  | Some root1, Some root2 =>
      match Items.lookupGraph gs root1,
            Items.scenePos gs (NodeRef n1a), Items.scenePos gs (NodeRef n1b),
            Items.scenePos gs (NodeRef n2a), Items.scenePos gs (NodeRef n2b) with
      | Some g1, Some cn1a, Some cn1b, Some cn2a, Some cn2b =>
          let root1Pos := Graph.pos g1 in
          let gs := Items.updateGraph newRoot (fun g => Graph.setPos g root1Pos) gs in
          let angle1 := qAtan2 (py cn1b - py cn1a) (px cn1b - px cn1a) in
          let angle2 := qAtan2 (py cn2b - py cn2a) (px cn2b - px cn2a) in
          let angle := angle1 - angle2 in
          let animate_angle := angle / inject_Z (Z.of_nat ANIMATION_STEPS) in
          let gs := Nat.iter ANIMATION_STEPS
                      (Items.updateGraph root2
                         (fun g => Graph.setRotation g (qRadiansToDegrees animate_angle) true))
                      gs in
          match Items.scenePos gs (NodeRef n2a), Items.scenePos gs (NodeRef n2b) with
          | Some cn2a', Some cn2b' =>
              let midcn1X := (px cn1a + px cn1b) / 2 in
              let midcn1Y := (py cn1a + py cn1b) / 2 in
              let midcn2X := (px cn2a' + px cn2b') / 2 in
              let midcn2Y := (py cn2a' + py cn2b') / 2 in
              let deltaX := midcn1X - midcn2X in
              let deltaY := midcn1Y - midcn2Y in
              let animate_x := deltaX / inject_Z (Z.of_nat ANIMATION_STEPS) in
              let animate_y := deltaY / inject_Z (Z.of_nat ANIMATION_STEPS) in
              let gs := Nat.iter ANIMATION_STEPS
                          (Items.updateGraph root2
                             (fun g => Graph.moveBy g animate_x animate_y)) gs in
              let gs := rewire n2a n1a gs in
              let gs := rewire n2b n1b gs in
              let gs := removeDuplicate n1a n1b n2a n2b gs in
              let gs := moveChildren root1 newRoot root1Pos gs in
              let gs := moveChildren root2 newRoot root1Pos gs in
              let gs := renumber n1a [n2a; n2b] newRoot gs in
              Some (finishJoin newRoot root1 root2 [n2a; n2b] gs s)
          | _, _ => None
          end
      | _, _, _, _, _ => None
      end
  | _, _ => None
  end.

(** The two-node join. *)
Definition joinTwo `{Platform} (n1 n2 : nat) (s : t) : option t :=
  let gs0 := graphs s in
  let newRoot := Items.fresh gs0 (canvasGraphList s) in
  let gs := gs0 ++ [(newRoot, Graph.new)] in
  match Items.parentItem gs (NodeRef n1), Items.parentItem gs (NodeRef n2) with
  | Some root1, Some root2 =>
      match Items.lookupGraph gs root1,
            Items.scenePos gs (NodeRef n1), Items.scenePos gs (NodeRef n2) with
      | Some g1, Some p1, Some p2 =>
          let root1Pos := Graph.pos g1 in
          let gs := Items.updateGraph newRoot (fun g => Graph.setPos g root1Pos) gs in
          let animate_x := px (psub p1 p2) / inject_Z (Z.of_nat ANIMATION_STEPS) in
          let animate_y := py (psub p1 p2) / inject_Z (Z.of_nat ANIMATION_STEPS) in
          let gs := Nat.iter ANIMATION_STEPS
                      (Items.updateGraph root2
                         (fun g => Graph.moveBy g animate_x animate_y)) gs in
          let gs := rewire n2 n1 gs in
          let gs := moveChildren root1 newRoot root1Pos gs in
          let gs := moveChildren root2 newRoot root1Pos gs in
          let gs := renumber n1 [n2] newRoot gs in
          Some (finishJoin newRoot root1 root2 [n2] gs s)
      | _, _, _ => None
      end
  | _, _ => None
  end.

(** The guards of the two joins, on the parents of the picked nodes. *)
Definition guardFour (gs : Graphs) (n1a n1b n2a n2b : nat) : bool :=
  negb (optEqb (Items.parentItem gs (NodeRef n1a)) (Items.parentItem gs (NodeRef n2a)))
  && negb (optEqb (Items.parentItem gs (NodeRef n1a)) (Items.parentItem gs (NodeRef n2b)))
  && negb (optEqb (Items.parentItem gs (NodeRef n1b)) (Items.parentItem gs (NodeRef n2a)))
  && negb (optEqb (Items.parentItem gs (NodeRef n1b)) (Items.parentItem gs (NodeRef n2b))).

Definition guardTwo (gs : Graphs) (n1 n2 : nat) : bool :=
  negb (optEqb (Items.parentItem gs (NodeRef n1)) (Items.parentItem gs (NodeRef n2))).

(** [keyReleaseEvent] for the key 'j'. *)
Definition keyReleaseEvent_J `{Platform} (s : t) : option t :=
  match connectNode1a s, connectNode2a s, connectNode1b s, connectNode2b s with
  | Some n1a, Some n2a, Some n1b, Some n2b =>
      if guardFour (graphs s) n1a n1b n2a n2b
      then option_map unselect (joinFour n1a n1b n2a n2b s)
      else Some (unselect s)
  | Some n1a, Some n2a, _, _ =>
      if guardTwo (graphs s) n1a n2a
      then option_map unselect (joinTwo n1a n2a s)
      else Some (unselect s)
  | _, _, _, _ => Some (unselect s)
  end.

(** *** mousePressEvent, join mode *)

Definition setPicks (s : t) (n1a n1b n2a n2b : option nat) : t :=
  mk (graphs s) (canvasGraphList s) n1a n1b n2a n2b (emitted s).

(** The second half of the join case: the node under the pointer is
    tried as the first, then as the second, node of the second graph
    ([connectNode1a] is not null when this is reached). *)
Definition pickSecond (item : nat) (s : t) : t :=
  let root r := Items.parentItem (graphs s) (NodeRef r) in
  match connectNode1a s with
  | None => s
  | Some n1a =>
      match connectNode2a s with
      | None =>
          if negb (optEqb (root n1a) (root item))
          then setPicks s (connectNode1a s) (connectNode1b s) (Some item) (connectNode2b s)
          else s
      | Some n2a =>
          match connectNode2b s with
          | None =>
              if optEqb (root item) (root n2a) && negb (Nat.eqb n2a item)
              then setPicks s (connectNode1a s) (connectNode1b s) (connectNode2a s) (Some item)
              else s
          | Some _ => s
          end
      end
  end.

(** The join case, with the node [item] under the pointer. *)
Definition pickNode (item : nat) (s : t) : t :=
  let root r := Items.parentItem (graphs s) (NodeRef r) in
  match connectNode1a s with
  | None => setPicks s (Some item) (connectNode1b s) (connectNode2a s) (connectNode2b s)
  | Some n1a =>
      match connectNode1b s with
      | None =>
          if optEqb (root item) (root n1a) && negb (Nat.eqb n1a item)
          then setPicks s (connectNode1a s) (Some item) (connectNode2a s) (connectNode2b s)
          else pickSecond item s
      | Some _ => pickSecond item s
      end
  end.

(** The modes of the canvas. *)
Inductive Mode : Type := drag | join | del | edit | freestyle | select.

(** [mousePressEvent] with one node or edge of the scene under the
    pointer, in the modes that pick or delete; in the other modes the
    structure of the graphs is not touched. *)
Definition mousePressEvent `{Platform} (mode : Mode) (item : ItemRef) (s : t) : option t :=
  match Items.findItem (graphs s) item with
  | None => Some s
  | Some _ =>
      match mode, item with
      | join, NodeRef n => Some (pickNode n s)
      | del, NodeRef n => deleteNode n s
      | del, EdgeRef e => deleteEdge e s
      | _, _ => Some s
      end
  end.

(** [setCanvasMode]: the picked nodes are forgotten. *)
Definition setCanvasMode (s : t) : t := unselect s.

End CanvasScene.
(** ** Specification-side notions used in the statements *)

(** Least and greatest element of a list of numbers (0 on the empty list). *)
Definition minOf (l : list Q) : Q :=
  match l with
  | [] => 0
  | x :: r => fold_left Qmin r x
  end.

Definition maxOf (l : list Q) : Q :=
  match l with
  | [] => 0
  | x :: r => fold_left Qmax r x
  end.

Definition sumOf (l : list Q) : Q := fold_right Qplus 0 l.

Definition localXs (g : Graph.t) : list Q := map (fun n => px (Node.pos n)) (Graph.nodes g).
Definition localYs (g : Graph.t) : list Q := map (fun n => py (Node.pos n)) (Graph.nodes g).

Definition itemRotation (it : Item) : Q :=
  match it with
  | NodeItem n => Node.rotation n
  | EdgeItem e => Edge.rotation e
  end.

(** A platform on which the examples are evaluated: 96 dots per inch.
    The examples only use rotations by 0 and by quarter turns, for which
    the C library is not consulted. *)
Definition digitsOnly (s : string) : bool :=
  match s with
  | EmptyString => false
  | _ => forallb (fun c => (48 <=? Ascii.nat_of_ascii c)%nat && (Ascii.nat_of_ascii c <=? 57)%nat)
                 (list_ascii_of_string s)
  end.

#[local] Instance screen : Platform := {|
  currentPhysicalDPI := 96;
  qSin := fun _ => 0;
  qCos := fun _ => 1;
  qAtan2 := fun _ _ => 0;
  qRadiansToDegrees := fun r => r * (57295779513 # 1000000000);
  QString_toInt_ok := digitsOnly;
  QString_number := fun z => String (Ascii.ascii_of_nat (48 + Z.to_nat z)) EmptyString
|}.

(** *** Example graphs *)

Definition exNode (i : nat) (x y : Q) (rot : Q) (diameter : Q) (es : list nat) : Node.t :=
  Node.mk i (mkPoint x y) rot diameter 96 es 0%Z "v".

Definition exEdge (i : nat) (s d : nat) (rot : Q) : Edge.t :=
  Edge.mk i s d origin rot (1 # 96) (1 # 96) 0%Z.

(** Three unconnected nodes on a line, two of them at the same place. *)
Definition gThree : Graph.t :=
  Graph.mk origin 0
    [NodeItem (exNode 1 0 0 0 2 []); NodeItem (exNode 2 0 0 0 2 []);
     NodeItem (exNode 3 3 0 0 2 [])].

(** Two nodes joined by an edge, in a graph turned by half a turn. *)
Definition gTurned : Graph.t :=
  Graph.mk origin 180
    [NodeItem (exNode 1 0 0 (-180) 2 [3%nat]); NodeItem (exNode 2 2 0 (-180) 2 [3%nat]);
     EdgeItem (exEdge 3 1 2 (-180))].

(** Two nodes at the same place, of radius 1 and 2 in scene units. *)
Definition gNested : Graph.t :=
  Graph.mk origin 0
    [NodeItem (exNode 1 0 0 0 2 []); NodeItem (exNode 2 0 0 0 4 [])].

(** Nodes at (0,0) with radius 1 and at (10,0) with radius 2. *)
Definition gPair : Graph.t :=
  Graph.mk origin 0
    [NodeItem (exNode 1 0 0 0 2 [3%nat]); NodeItem (exNode 2 10 0 0 4 [3%nat]);
     EdgeItem (exEdge 3 1 2 0)].

(** The scene-space extent of a node along x and y, radius included. *)
Definition sceneX `{Platform} (g : Graph.t) (n : Node.t) : Q := px (Graph.scenePos g (NodeItem n)).
Definition sceneY `{Platform} (g : Graph.t) (n : Node.t) : Q := py (Graph.scenePos g (NodeItem n)).

(** *** Example scenes *)

(** One graph holding A = 1, B = 2, C = 3, D = 4 and the edges A-B and
    C-D. *)
Definition gTwoParts : Graph.t :=
  Graph.mk (mkPoint 5 7) 0
    [NodeItem (exNode 1 0 0 0 2 [1%nat]); NodeItem (exNode 2 10 0 0 2 [1%nat]);
     NodeItem (exNode 3 0 10 0 2 [2%nat]); NodeItem (exNode 4 10 10 0 2 [2%nat]);
     EdgeItem (exEdge 1 1 2 0); EdgeItem (exEdge 2 3 4 0)].

Definition sceneTwoParts : CanvasScene.t :=
  CanvasScene.mk [(1%nat, gTwoParts)] [1%nat] None None None None [].

(** The identities of the children of a graph. *)
Definition childRefs (g : Graph.t) : list ItemRef := map refOf (Graph.childItems g).

(** The graphs of a scene, as lists of child identities. *)
Definition layout (s : CanvasScene.t) : list (nat * list ItemRef) :=
  map (fun kg => (fst kg, childRefs (snd kg))) (CanvasScene.graphs s).

(** The ends of every edge of the scene. *)
Definition wiring (s : CanvasScene.t) : list (nat * (nat * nat)) :=
  map (fun e => (Edge.id e, (Edge.sourceNode e, Edge.destNode e)))
      (Items.allEdges (CanvasScene.graphs s)).

(** The edge list of every node of the scene. *)
Definition incidence (s : CanvasScene.t) : list (nat * list nat) :=
  map (fun n => (Node.id n, Node.edgeList n)) (Items.allNodes (CanvasScene.graphs s)).

(** Graph A = 1 with x1 = 1, x2 = 2 and the edge x1-x2; graph B = 2 with
    y1 = 3, y2 = 4 and the edge y1-y2; x2 and y1 are picked. *)
Definition sceneTwoPairs : CanvasScene.t :=
  CanvasScene.mk
    [(1%nat, Graph.mk (mkPoint 0 0) 0
               [NodeItem (exNode 1 0 0 0 2 [1%nat]); NodeItem (exNode 2 10 0 0 2 [1%nat]);
                EdgeItem (exEdge 1 1 2 0)]);
     (2%nat, Graph.mk (mkPoint 100 50) 0
               [NodeItem (exNode 3 0 0 0 2 [2%nat]); NodeItem (exNode 4 10 0 0 2 [2%nat]);
                EdgeItem (exEdge 2 3 4 0)])]
    [1%nat; 2%nat] (Some 2%nat) None (Some 3%nat) None [].

(** *** Scenes with arbitrary attributes

    A node or an edge with a prescribed identity and prescribed
    connections, every other attribute (position, rotation, size, label)
    taken from a given item. *)
Definition nodeWith (i : nat) (es : list nat) (n : Node.t) : Node.t :=
  Node.mk i (Node.pos n) (Node.rotation n) (Node.nodeDiameter n)
          (Node.physicalDotsPerInchX n) es 0%Z (Node.label n).

(** The edge [i] between [u] and [v], from [u] to [v] when [forward]. *)
Definition edgeWith (i : nat) (u v : nat) (forward : bool) (e : Edge.t) : Edge.t :=
  Edge.mk i (if forward then u else v) (if forward then v else u)
          (Edge.pos e) (Edge.rotation e) (Edge.sourceRadius e) (Edge.destRadius e) 0%Z.

(** One graph (number 1) anywhere in the scene, holding A = 1, B = 2,
    C = 3, D = 4 and the edges 1 = A-B and 2 = C-D. *)
Definition splitScene (p : QPointF) (r : Q) (a b c d : Node.t) (ab cd : Edge.t)
           (fab fcd : bool) : CanvasScene.t :=
  CanvasScene.mk
    [(1%nat, Graph.mk p r
               [NodeItem (nodeWith 1 [1%nat] a); NodeItem (nodeWith 2 [1%nat] b);
                NodeItem (nodeWith 3 [2%nat] c); NodeItem (nodeWith 4 [2%nat] d);
                EdgeItem (edgeWith 1 1 2 fab ab); EdgeItem (edgeWith 2 3 4 fcd cd)])]
    [1%nat] None None None None [].

(** Graph A (number 1) with x1 = 1, x2 = 2 and the edge 1 = x1-x2, graph B
    (number 2) with y1 = 3, y2 = 4 and the edge 2 = y1-y2; x2 and y1 are
    the nodes picked. *)
Definition joinScene (pA pB : QPointF) (rA rB : Q) (x1 x2 y1 y2 : Node.t)
           (ex ey : Edge.t) (fx fy : bool) : CanvasScene.t :=
  CanvasScene.mk
    [(1%nat, Graph.mk pA rA
               [NodeItem (nodeWith 1 [1%nat] x1); NodeItem (nodeWith 2 [1%nat] x2);
                EdgeItem (edgeWith 1 1 2 fx ex)]);
     (2%nat, Graph.mk pB rB
               [NodeItem (nodeWith 3 [2%nat] y1); NodeItem (nodeWith 4 [2%nat] y2);
                EdgeItem (edgeWith 2 3 4 fy ey)])]
    [1%nat; 2%nat] (Some 2%nat) None (Some 3%nat) None [].

(** A graph is gone from the scene, or has no child left. *)
Definition goneOrEmpty (s : CanvasScene.t) (gid : nat) : Prop :=
  match Items.lookupGraph (CanvasScene.graphs s) gid with
  | None => True
  | Some g => Graph.childItems g = []
  end.

(** The two ends of an edge, whichever way round. *)
Definition joins (u v : nat) (e : Edge.t) : bool :=
  (Nat.eqb (Edge.sourceNode e) u && Nat.eqb (Edge.destNode e) v)
  || (Nat.eqb (Edge.sourceNode e) v && Nat.eqb (Edge.destNode e) u).

(** The graphs of [sceneTwoPairs], with x2 picked twice on the first
    graph and y1, y2 picked on the second. *)
Definition sceneSamePick : CanvasScene.t :=
  CanvasScene.mk (CanvasScene.graphs sceneTwoPairs) [1%nat; 2%nat]
                 (Some 2%nat) (Some 2%nat) (Some 3%nat) (Some 4%nat) [].

(** The graphs of [sceneTwoPairs], with x1 and x2 picked, which are in the
    same graph. *)
Definition sceneSameGraph : CanvasScene.t :=
  CanvasScene.mk (CanvasScene.graphs sceneTwoPairs) [1%nat; 2%nat]
                 (Some 1%nat) None (Some 2%nat) None [].

(** Two nodes have the same parent graph (or both have none). *)
Definition sameParent (s : CanvasScene.t) (a b : nat) : Prop :=
  Items.parentItem (CanvasScene.graphs s) (NodeRef a)
  = Items.parentItem (CanvasScene.graphs s) (NodeRef b).

(** The picked nodes do not pass the guard of [keyReleaseEvent]: a node
    picked on the first graph has the same parent as a node picked on the
    second, or fewer than two nodes are picked. *)
Definition rejectedJoin (s : CanvasScene.t) : Prop :=
  match CanvasScene.connectNode1a s, CanvasScene.connectNode2a s,
        CanvasScene.connectNode1b s, CanvasScene.connectNode2b s with
  | Some n1a, Some n2a, Some n1b, Some n2b =>
      sameParent s n1a n2a \/ sameParent s n1a n2b \/
      sameParent s n1b n2a \/ sameParent s n1b n2b
  | Some n1, Some n2, _, _ => sameParent s n1 n2
  | _, _, _, _ => True
  end.

(** *** Well-formed scenes and connectivity *)

(** An item is a child of the graph [gid] of the scene. *)
Definition InGraph (gs : Graphs) (gid : nat) (it : Item) : Prop :=
  exists g, In (gid, g) gs /\ In it (Graph.childItems g).

Definition nodeAt (gs : Graphs) (gid : nat) (n : Node.t) : Prop := InGraph gs gid (NodeItem n).
Definition edgeAt (gs : Graphs) (gid : nat) (e : Edge.t) : Prop := InGraph gs gid (EdgeItem e).

Definition keys (gs : Graphs) : list nat := map fst gs.
Definition refs (gs : Graphs) : list ItemRef := map refOf (Items.allItems gs).

(** The graph [gid] has a node [nid] with the edge list [es] and the
    search mark [c]. *)
Definition NodeT (gs : Graphs) (gid nid : nat) (es : list nat) (c : Z) : Prop :=
  exists n, nodeAt gs gid n /\ Node.id n = nid /\ Node.edgeList n = es /\ Node.checked n = c.

(** The graph [gid] has an edge [eid] from [s] to [d]. *)
Definition EdgeT (gs : Graphs) (gid eid s d : nat) : Prop :=
  exists e, edgeAt gs gid e /\ Edge.id e = eid /\ Edge.source e = s /\ Edge.dest e = d.

(** The graph [gid] has a node [nid]. *)
Definition hasNode (gs : Graphs) (gid nid : nat) : Prop := exists es c, NodeT gs gid nid es c.

(** Graphs and items have one identity each, every edge is a child of
    the graph of its two (distinct) ends, the edge list of a node lists
    exactly the edges that end there, once each, and no search mark is
    left on a node. *)
Record WellFormed (gs : Graphs) : Prop := {
  wf_keys : NoDup (keys gs);
  wf_refs : NoDup (refs gs);
  wf_ends : forall gid eid s d, EdgeT gs gid eid s d ->
      hasNode gs gid s /\ hasNode gs gid d /\ s <> d;
  wf_listed : forall gid nid es c x, NodeT gs gid nid es c -> In x es ->
      exists s d, EdgeT gs gid x s d /\ (s = nid \/ d = nid);
  wf_lists : forall gid eid s d nid es c, EdgeT gs gid eid s d -> NodeT gs gid nid es c ->
      (s = nid \/ d = nid) -> In eid es;
  wf_once : forall gid nid es c, NodeT gs gid nid es c -> NoDup es;
  wf_unchecked : forall gid nid es c, NodeT gs gid nid es c -> c = 0%Z
}.

(** Two nodes are the ends of an edge of the graph [gid]. *)
Definition adjacent (gs : Graphs) (gid : nat) (u v : nat) : Prop :=
  exists eid, EdgeT gs gid eid u v \/ EdgeT gs gid eid v u.

(** Reachability along the edges of the graph [gid]. *)
Inductive reach (gs : Graphs) (gid : nat) : nat -> nat -> Prop :=
| reach_refl u : reach gs gid u u
| reach_step u v w : reach gs gid u v -> adjacent gs gid v w -> reach gs gid u w.

(** Container membership is connected-component membership: from a node
    of a graph, the nodes reachable along the edges of that graph are
    exactly the nodes of that graph. *)
Definition Connected (gs : Graphs) : Prop :=
  forall gid u, hasNode gs gid u ->
    forall v, reach gs gid u v <-> hasNode gs gid v.

(** ** Sequences of operations

    What the user can do to the graphs of the canvas: change the mode,
    press the mouse button on a node or an edge (this picks a node in
    join mode and deletes the item in delete mode), release the key 'j'
    (this joins the graphs of the picked nodes), turn a graph. *)
Inductive Event : Type :=
| SetMode (mode : CanvasScene.Mode)
| Press (item : ItemRef)
| KeyJ
| Rotate (graph : nat) (amount : Q) (relative : bool).

Definition handle `{Platform} (ev : Event) (st : CanvasScene.Mode * CanvasScene.t)
  : option (CanvasScene.Mode * CanvasScene.t) :=
  let (mode, s) := st in
  match ev with
  | SetMode m => Some (m, CanvasScene.setCanvasMode s)
  | Press item => option_map (pair mode) (CanvasScene.mousePressEvent mode item s)
  | KeyJ => option_map (pair mode) (CanvasScene.keyReleaseEvent_J s)
  | Rotate g amount relative =>
      Some (mode,
            CanvasScene.setGraphs s
              (Items.updateGraph g (fun x => Graph.setRotation x amount relative)
                                 (CanvasScene.graphs s)))
  end.

Fixpoint run `{Platform} (evs : list Event) (st : CanvasScene.Mode * CanvasScene.t)
  : option (CanvasScene.Mode * CanvasScene.t) :=
  match evs with
  | [] => Some st
  | ev :: rest =>
      match handle ev st with
      | Some st' => run rest st'
      | None => None
      end
  end.

(** No node is picked. *)
Definition nothingPicked (s : CanvasScene.t) : Prop :=
  CanvasScene.connectNode1a s = None /\ CanvasScene.connectNode1b s = None /\
  CanvasScene.connectNode2a s = None /\ CanvasScene.connectNode2b s = None.

(** The nodes picked are nodes of the scene, the two picked on the first
    graph are two nodes of one graph, and so are the two picked on the
    second graph. *)
Record Selected (s : CanvasScene.t) : Prop := {
  sel_1a : forall a, CanvasScene.connectNode1a s = Some a ->
                     exists g, hasNode (CanvasScene.graphs s) g a;
  sel_1b : forall b, CanvasScene.connectNode1b s = Some b ->
                     exists a g, CanvasScene.connectNode1a s = Some a
                                 /\ hasNode (CanvasScene.graphs s) g a
                                 /\ hasNode (CanvasScene.graphs s) g b /\ a <> b;
  sel_2a : forall c, CanvasScene.connectNode2a s = Some c ->
                     exists g, hasNode (CanvasScene.graphs s) g c;
  sel_2b : forall d, CanvasScene.connectNode2b s = Some d ->
                     exists c g, CanvasScene.connectNode2a s = Some c
                                 /\ hasNode (CanvasScene.graphs s) g c
                                 /\ hasNode (CanvasScene.graphs s) g d /\ c <> d
}.

(** * Definitions used in the proofs *)

(** Two items with the same identity, connections and search mark. *)
Definition sameTopo (a b : Item) : Prop :=
  match a, b with
  | NodeItem n, NodeItem n' =>
      Node.id n' = Node.id n /\ Node.edgeList n' = Node.edgeList n
      /\ Node.checked n' = Node.checked n
  | EdgeItem e, EdgeItem e' =>
      Edge.id e' = Edge.id e /\ Edge.source e' = Edge.source e /\ Edge.dest e' = Edge.dest e
  | _, _ => False
  end.

(** A change of the graphs that keeps, graph by graph, the children up to
    their geometry. *)
Definition topoStep (gs gs' : Graphs) : Prop :=
  keys gs' = keys gs /\
  refs gs' = refs gs /\
  (forall gid it', InGraph gs' gid it' -> exists it, InGraph gs gid it /\ sameTopo it it') /\
  (forall gid it, InGraph gs gid it -> exists it', InGraph gs' gid it' /\ sameTopo it it').

(** The ends of an edge of [from] once rewired: [to] takes the place of
    [from] (the source is tested first, as in the loop of the join). *)
Definition redirect (from to : nat) (s d : nat) : nat * nat :=
  if Nat.eqb s from then (to, d) else (s, to).

(** An item put at [p] in its new graph, its rotation reset. *)
Definition place (it : Item) (p : QPointF) : Item := setItemRotation (setItemPos it p) 0.

(** The graphs at the end of a join, from the graphs [gs] in which the
    edges have been rewired and the new, still empty, graph created. *)
Definition joinedGraphs `{Platform} (n1 : nat) (newRoot root1 root2 : nat) (off : QPointF)
           (gone : list nat) (gs : Graphs) : Graphs :=
  Items.removeGraph root2
    (Items.removeGraph root1
       (fold_left (fun acc n => Items.detach (NodeRef n) acc) gone
          (Items.updateGraph newRoot Graph.centerGraph
             (CanvasScene.renumber n1 gone newRoot
                (CanvasScene.moveChildren root2 newRoot off
                   (CanvasScene.moveChildren root1 newRoot off gs)))))).

(** [to] for [from], any other node for itself. *)
Definition subst1 (from to : nat) (x : nat) : nat := if Nat.eqb x from then to else x.

(** While the graphs [M] are being merged they count as one graph. *)
Definition sameGraph (M : list nat) (g g' : nat) : Prop := g = g' \/ (In g M /\ In g' M).

(** The graphs in the course of a join: [M] lists the graphs being
    merged, [S] the nodes already merged away (their edge lists are
    stale, and no edge ends at them any more). *)
Record Merging (M S : list nat) (gs : Graphs) : Prop := {
  mg_keys : NoDup (keys gs);
  mg_refs : NoDup (refs gs);
  mg_ends : forall gid eid s d, EdgeT gs gid eid s d ->
      s <> d /\ (exists g, hasNode gs g s /\ sameGraph M gid g)
      /\ (exists g, hasNode gs g d /\ sameGraph M gid g)
      /\ ~ In s S /\ ~ In d S;
  mg_listed : forall gid nid es c x, NodeT gs gid nid es c -> ~ In nid S -> In x es ->
      exists g s d, EdgeT gs g x s d /\ (s = nid \/ d = nid);
  mg_lists : forall gid eid s d g nid es c, EdgeT gs gid eid s d -> NodeT gs g nid es c ->
      (s = nid \/ d = nid) -> In eid es;
  mg_once : forall gid nid es c, NodeT gs gid nid es c -> ~ In nid S -> NoDup es;
  mg_unchecked : forall gid nid es c, NodeT gs gid nid es c -> c = 0%Z
}.

(** [s] and [d] are [u] and [v], either way round. *)
Definition joined (u v s d : nat) : Prop := (s = u /\ d = v) \/ (s = v /\ d = u).

(** The edge list [es] of node [nid] once edge [x] is taken off the
    nodes [ks], one after the other. *)
Definition dropFrom (ks : list nat) (x nid : nat) (es : list nat) : list nat :=
  fold_left (fun acc k => if Nat.eqb nid k then removeOne x acc else acc) ks es.

(** Graph [g0] of the scene before the end of the join is graph [gid]
    after it. *)
Definition mergedInto (new r1 r2 g0 gid : nat) : Prop :=
  (g0 = gid /\ gid <> new /\ gid <> r1 /\ gid <> r2) \/ (gid = new /\ (g0 = r1 \/ g0 = r2)).

(** Two nodes that are the ends of an edge, of whatever graph. *)
Definition linked (gs : Graphs) (u v : nat) : Prop :=
  exists gid eid, EdgeT gs gid eid u v \/ EdgeT gs gid eid v u.

(** Paths along edges. *)
Inductive path (gs : Graphs) : nat -> nat -> Prop :=
| path_refl u : path gs u u
| path_step u v w : path gs u v -> linked gs v w -> path gs u w.

(** The nodes of a scene: graph, identity, edge list, search mark. *)
Definition nodeViews (gs : Graphs) : list (nat * nat * list nat * Z) :=
  flat_map (fun kg => map (fun n => (fst kg, Node.id n, Node.edgeList n, Node.checked n))
                          (Graph.nodes (snd kg))) gs.

(** The edges of a scene: graph, identity, source, destination. *)
Definition edgeViews (gs : Graphs) : list (nat * nat * nat * nat) :=
  flat_map (fun kg => map (fun e => (fst kg, Edge.id e, Edge.source e, Edge.dest e))
                          (Graph.edges (snd kg))) gs.

(** No element occurs twice. *)
Fixpoint nodupb {A : Type} (eqb : A -> A -> bool) (l : list A) : bool :=
  match l with
  | [] => true
  | x :: r => negb (existsb (eqb x) r) && nodupb eqb r
  end.

(** The checks of [wellFormedb], one for each clause of [WellFormed]. *)
Definition hasNodeb (gs : Graphs) (gid nid : nat) : bool :=
  existsb (fun v => match v with (g, n, _, _) => Nat.eqb g gid && Nat.eqb n nid end)
          (nodeViews gs).

Definition endsb (gs : Graphs) : bool :=
  forallb (fun v => match v with
                    | (gid, _, s, d) =>
                        hasNodeb gs gid s && hasNodeb gs gid d && negb (Nat.eqb s d)
                    end) (edgeViews gs).

Definition listedb (gs : Graphs) : bool :=
  forallb (fun v => match v with
                    | (gid, nid, es, c) =>
                        forallb (fun x =>
                                   existsb (fun w => match w with
                                                     | (g', e', s, d) =>
                                                         Nat.eqb g' gid && Nat.eqb e' x
                                                         && (Nat.eqb s nid || Nat.eqb d nid)
                                                     end) (edgeViews gs)) es
                        && nodupb Nat.eqb es && Z.eqb c 0
                    end) (nodeViews gs).

Definition listsb (gs : Graphs) : bool :=
  forallb (fun w => match w with
                    | (gid, eid, s, d) =>
                        forallb (fun v => match v with
                                          | (g', nid, es, _) =>
                                              implb (Nat.eqb g' gid
                                                     && (Nat.eqb s nid || Nat.eqb d nid))
                                                    (contains es eid)
                                          end) (nodeViews gs)
                    end) (edgeViews gs).

Definition wellFormedb (gs : Graphs) : bool :=
  nodupb Nat.eqb (keys gs) && nodupb refEqb (refs gs)
  && endsb gs && listedb gs && listsb gs.

(** The scene has the nodes and edges of another, in the same graphs. *)
Definition sameViews (gs gs' : Graphs) : Prop :=
  keys gs' = keys gs /\ NoDup (refs gs') /\
  (forall gid nid es c, NodeT gs' gid nid es c <-> NodeT gs gid nid es c) /\
  (forall gid eid s d, EdgeT gs' gid eid s d <-> EdgeT gs gid eid s d).

(** The nodes [vis] and their edges have been moved to the graph [new]. *)
Definition splitOff (vis : list nat) (new : nat) (gs gs' : Graphs) : Prop :=
  keys gs' = keys gs ++ [new] /\ ~ In new (keys gs) /\ NoDup (refs gs') /\
  (forall gid nid es c,
      NodeT gs' gid nid es c <->
      (NodeT gs gid nid es c /\ ~ In nid vis) \/
      (gid = new /\ In nid vis /\ exists g, NodeT gs g nid es c)) /\
  (forall gid eid s d,
      EdgeT gs' gid eid s d <->
      (EdgeT gs gid eid s d /\ ~ In s vis) \/
      (gid = new /\ In s vis /\ exists g, EdgeT gs g eid s d)).

Record Separating (G : nat) (ign Nodes : list nat) (lastIdx N i : nat) (gs : Graphs)
  : Prop := {
  sp_wf : WellFormed gs;
  sp_G : In G (keys gs);
  sp_count : List.length (Items.allNodes gs) = N;
  sp_nodes : forall j, (j <= lastIdx)%nat -> exists g, hasNode gs g (nth j Nodes 0%nat);
  sp_ign : forall x, In x ign ->
      hasNode gs G x /\ (forall gid e s d, EdgeT gs gid e s d -> s <> x /\ d <> x)
      /\ (forall j, (j <= lastIdx)%nat -> nth j Nodes 0%nat <> x);
  sp_others : forall gid u v, gid <> G -> hasNode gs gid u -> hasNode gs gid v -> path gs u v;
  sp_rest :
    (forall u v, hasNode gs G u -> hasNode gs G v -> ~ In u ign -> ~ In v ign -> path gs u v)
    \/ ((i <= lastIdx)%nat /\
        forall u, hasNode gs G u -> ~ In u ign ->
                  exists j, (i <= j <= lastIdx)%nat /\ path gs u (nth j Nodes 0%nat))
}.

(** The graphs once searchAndSeparate is over. *)
Record Separated (G : nat) (ign : list nat) (gs : Graphs) : Prop := {
  sd_wf : WellFormed gs;
  sd_G : In G (keys gs);
  sd_ign : forall x, In x ign ->
      hasNode gs G x /\ (forall gid e s d, EdgeT gs gid e s d -> s <> x /\ d <> x);
  sd_others : forall gid u v, gid <> G -> hasNode gs gid u -> hasNode gs gid v -> path gs u v;
  sd_rest : forall u v, hasNode gs G u -> hasNode gs G v -> ~ In u ign -> ~ In v ign ->
                        path gs u v
}.

(** The four nodes picked. *)
Definition picksOf (s : CanvasScene.t) : option nat * option nat * option nat * option nat :=
  (CanvasScene.connectNode1a s, CanvasScene.connectNode1b s,
   CanvasScene.connectNode2a s, CanvasScene.connectNode2b s).

(** What holds between two operations: the graphs are well formed and
    connected, the nodes picked are as [mousePressEvent] leaves them, and
    no node is picked outside of join mode. *)
Definition Stable (st : CanvasScene.Mode * CanvasScene.t) : Prop :=
  WellFormed (CanvasScene.graphs (snd st)) /\ Connected (CanvasScene.graphs (snd st)) /\
  Selected (snd st) /\ (fst st <> CanvasScene.join -> nothingPicked (snd st)).

(** Graph 1 with x1 = 1, x2 = 2 and the edge x1-x2, graph 2 with y1 = 3,
    y2 = 4 and the edge y1-y2, all four nodes picked. *)
Definition sceneFourPicked : CanvasScene.t :=
  CanvasScene.mk (CanvasScene.graphs sceneTwoPairs) [1%nat; 2%nat]
                 (Some 1%nat) (Some 2%nat) (Some 3%nat) (Some 4%nat) [].

(** Graph [k] of a scene (an empty graph if there is none). *)
Definition graphOf (s : CanvasScene.t) (k : nat) : Graph.t :=
  match Items.lookupGraph (CanvasScene.graphs s) k with
  | Some g => g
  | None => Graph.new
  end.

(** The two graphs of [sceneTwoPairs], no node picked. *)
Definition sceneStart : CanvasScene.t :=
  CanvasScene.mk (CanvasScene.graphs sceneTwoPairs) [1%nat; 2%nat] None None None None [].

(** x2 and y1 are picked and joined, the edge x1-x2 is deleted, the new
    graph is turned, the node y2 is deleted. *)
Definition sampleEvents : list Event :=
  [SetMode CanvasScene.join; Press (NodeRef 2); Press (NodeRef 3); KeyJ;
   SetMode CanvasScene.del; Press (EdgeRef 1); Rotate 3 90 true; Press (NodeRef 4)].

(** * Labels: the HTML shown for a TeX-like label (html-label.cpp)

    [Node::setNodeLabel] and [Edge::setEdgeLabel] store the label and hand
    it to [HTML_Label::strToHtml], which checks it, has [strToHtml2] cut
    it at subscripts, superscripts and brace groups, and has
    [mathFontify] write the pieces.

    A [QString] is modelled as a [string] and the [QByteArray] got from
    it by [toLocal8Bit] as the list of its characters: the labels are
    taken to be made of characters that the local 8-bit encoding writes
    as one byte each. *)

From Stdlib Require Import Ascii.

(** What a computation of this file comes to: a value; a read outside
    the byte array (at an index greater than its length: the byte at the
    index equal to the length is the zero byte that ends the array); or
    no result within the number of steps allowed (never the case with
    the number of steps that [strToHtml] allows, as is proved below). *)
Inductive Outcome (A : Type) : Type :=
| Returns (a : A)
| ReadsPastEnd
| MoreFuel.

Arguments Returns {A} a.
Arguments ReadsPastEnd {A}.
Arguments MoreFuel {A}.

Definition andThen {A B : Type} (o : Outcome A) (k : A -> Outcome B) : Outcome B :=
  match o with
  | Returns a => k a
  | ReadsPastEnd => ReadsPastEnd
  | MoreFuel => MoreFuel
  end.

Declare Scope outcome_scope.
Delimit Scope outcome_scope with outcome.
Notation "x <- e ;; k" := (andThen e (fun x => k))
  (at level 61, e at next level, right associativity) : outcome_scope.

Module HTML_Label.

Local Open Scope string_scope.
Local Open Scope outcome_scope.

(** Comparison of a byte with a character. *)
Local Notation "a =c b" := (Ascii.eqb a b%char) (at level 70).

(** The double quote, which a string of this file cannot hold as such. *)
Definition dquote : ascii := ascii_of_nat 34.

(** [chars[i]] for [i] up to the length of the array. *)
Definition byteAt (chars : list ascii) (i : nat) : ascii := nth i chars zero.

(** [chars.indexOf(c, from)], [None] standing for -1. *)
Fixpoint indexOf (c : ascii) (from : nat) (chars : list ascii) : option nat :=
  match chars with
  | [] => None
  | x :: r =>
      match from with
      | O => if Ascii.eqb x c then Some O else option_map S (indexOf c O r)
      | S from' => option_map S (indexOf c from' r)
      end
  end.

(** [chars.mid(pos, len)]: a negative [len] (the default is -1) asks for
    everything from [pos] on. *)
Definition mid (chars : list ascii) (pos : nat) (len : Z) : list ascii :=
  if (len <? 0)%Z then skipn pos chars else firstn (Z.to_nat len) (skipn pos chars).

(** [chars.left(len)] *)
Definition left (chars : list ascii) (len : nat) : list ascii := firstn len chars.

(** *** mathFontify *)

Definition nbsp : string :=
  "<font face = " ++ String dquote "cmr10" ++ String dquote ">&nbsp;</font>".

(** The loop of [mathFontify], from the character it has reached. *)
Fixpoint mathFontifyFrom (prevWasBS : bool) (chars : list ascii) : string :=
  match chars with
  | [] => ""
  | c :: rest =>
      if (c =c "\") && negb prevWasBS then mathFontifyFrom true rest
      else if ((c =c "{") || (c =c "}") || (c =c " ")) && negb prevWasBS
      then mathFontifyFrom prevWasBS rest
      else
        (if c =c "<" then "&lt;"
         else if c =c ">" then "&gt;"
         else if (c =c " ") && prevWasBS then nbsp
         else if (c =c "^") && prevWasBS then "^"
         else if (c =c "_") && prevWasBS then "_"
         else if c =c "'" then "<sup>'</sup>"
         else String c "")
        ++ mathFontifyFrom false rest
  end.

Definition mathFontify (chars : list ascii) : string := mathFontifyFrom false chars.

(** *** strToHtml2 *)

(** [while (first > 0 && chars[first - 1] == '\\')
       first = chars.indexOf('_', first + 1);]
    Both loops of [strToHtml2] look for an underscore, the one that
    starts from the first circumflex too. *)
Fixpoint skipEscaped (fuel : nat) (chars : list ascii) (first : option nat)
  : Outcome (option nat) :=
  match first with
  | Some (S k) =>
      if byteAt chars k =c "\" then
        match fuel with
        | O => MoreFuel
        | S fuel' => skipEscaped fuel' chars (indexOf "_"%char (S (S k)) chars)
        end
      else Returns first
  | _ => Returns first
  end.

(** [i == 0 || chars[i - 1] != '\\'] *)
Definition notAfterBackslash (chars : list ascii) (i : nat) : bool :=
  (i =? 0)%nat || negb (byteAt chars (i - 1) =c "\").

(** The body of the three loops that count braces. *)
Definition braceStep (chars : list ascii) (depth : Z) (i : nat) : Z :=
  if (byteAt chars i =c "{") && notAfterBackslash chars i then (depth + 1)%Z
  else if (byteAt chars i =c "}") && notAfterBackslash chars i then (depth - 1)%Z
  else depth.

(** [for (int i = 0; i < first; i++) ...]: the depth at [first]. *)
Definition depthBefore (chars : list ascii) (first : nat) : Z :=
  fold_left (braceStep chars) (seq 0 first) 0%Z.

(** [for (end = from; end < length && depth > 0; end++) ...]: the value
    of [end] when the loop is left.  The loop makes at most [length]
    rounds, which [n] counts. *)
Fixpoint closing (n : nat) (chars : list ascii) (end_ : nat) (depth : Z) : nat :=
  match n with
  | O => end_
  | S n' =>
      if (end_ <? List.length chars)%nat && (0 <? depth)%Z
      then closing n' chars (S end_) (braceStep chars depth end_)
      else end_
  end.

(** [while (chars[firstBrace] != '{'
           || (firstBrace != 0 && chars[firstBrace - 1] == '\\'))
       firstBrace++;] *)
Fixpoint firstBraceFrom (fuel : nat) (chars : list ascii) (firstBrace : nat) : Outcome nat :=
  match fuel with
  | O => MoreFuel
  | S fuel' =>
      if (List.length chars <? firstBrace)%nat then ReadsPastEnd
      else if negb (byteAt chars firstBrace =c "{")
              || (negb (firstBrace =? 0)%nat && (byteAt chars (firstBrace - 1) =c "\"))
      then firstBraceFrom fuel' chars (S firstBrace)
      else Returns firstBrace
  end.

(** The sub- or superscript tags around [inner], by [chars[0]]. *)
Definition scripted (c0 : ascii) (inner : string) : string :=
  if c0 =c "^" then "<sup>" ++ inner ++ "</sup>" else "<sub>" ++ inner ++ "</sub>".

Fixpoint strToHtml2 (fuel : nat) (chars : list ascii) : Outcome string :=
  match fuel with
  | O => MoreFuel
  | S fuel =>
      let length := List.length chars in
      firstUnderscore <- skipEscaped length chars (indexOf "_"%char 0 chars) ;;
      firstCircumflex <- skipEscaped length chars (indexOf "^"%char 0 chars) ;;
      match firstUnderscore, firstCircumflex with
      | None, None =>
          (* Case 1 *)
          Returns (mathFontify chars)
      | _, _ =>
          let first :=
            match firstUnderscore, firstCircumflex with
            | None, Some c => c
            | Some u, None => u
            | Some u, Some c => if (u <? c)%nat then u else c
            | None, None => O
            end in
          if (first =? 0)%nat then
            if negb (byteAt chars 1 =c "{") then
              (* Case 2a *)
              if (byteAt chars 1 =c "\") && (length =? 2)%nat then Returns ""
              else
                let chrs := if byteAt chars 1 =c "\" then 2%nat else 1%nat in
                rest <- strToHtml2 fuel (mid chars (chrs + 1) (-1)) ;;
                Returns (scripted (byteAt chars 0)
                                  (mathFontify (mid chars 1 (Z.of_nat chrs))) ++ rest)
            else
              (* Case 2b *)
              let end_ := (Z.of_nat (closing length chars 2 1) - 1)%Z in
              inner <- strToHtml2 fuel (mid chars 2 (end_ - 2)) ;;
              if (end_ <? Z.of_nat length - 1)%Z then
                rest <- strToHtml2 fuel (mid chars (Z.to_nat (end_ + 1)) (-1)) ;;
                Returns (scripted (byteAt chars 0) inner ++ rest)
              else Returns (scripted (byteAt chars 0) inner)
          else if (depthBefore chars first =? 0)%Z then
            (* Case 3 *)
            before <- strToHtml2 fuel (left chars first) ;;
            rest <- strToHtml2 fuel (mid chars first (-1)) ;;
            Returns (before ++ rest)
          else
            (* Case 4 *)
            firstBrace <- firstBraceFrom (length + 2) chars 0 ;;
            prefix <- (if (firstBrace =? 0)%nat then Returns ""
                       else strToHtml2 fuel (left chars firstBrace)) ;;
            let end_ := (Z.of_nat (closing length chars (firstBrace + 1) 1) - 1)%Z in
            inner <- strToHtml2 fuel
                       (mid chars (firstBrace + 1) (end_ - Z.of_nat firstBrace - 1)) ;;
            rest <- (if (end_ <? Z.of_nat length - 1)%Z
                     then strToHtml2 fuel (mid chars (Z.to_nat (end_ + 1)) (-1))
                     else Returns "") ;;
            Returns (prefix ++ inner ++ rest)
      end
  end.

(** *** strToHtml *)

(** The syntactic value of the previous character: ['o'], ['{'], ['}'],
    ['\\'] and ['_'] (a subscript or superscript sign). *)
Inductive Prev : Type := other | opening | closingBrace | backslash | script.

Definition isBackslash (p : Prev) : bool :=
  match p with backslash => true | _ => false end.

Definition isOpening (p : Prev) : bool :=
  match p with opening => true | _ => false end.

Definition isScript (p : Prev) : bool :=
  match p with script => true | _ => false end.

(** The checking loop, from the character it has reached; [None] is the
    jump to BOGUS. *)
Fixpoint check (rest : list ascii) (depth : Z) (prev : Prev) : option (Z * Prev) :=
  match rest with
  | [] => Some (depth, prev)
  | c :: rest' =>
      if (depth <? 0)%Z then Some (depth, prev)
      else if c =c "{" then
        if isBackslash prev then check rest' depth other
        else check rest' (depth + 1)%Z opening
      else if c =c "}" then
        if isBackslash prev then check rest' depth other
        else check rest' (depth - 1)%Z closingBrace
      else if c =c "\" then
        if isBackslash prev then check rest' depth other
        else check rest' depth backslash
      else if (c =c "^") || (c =c "_") then
        if isOpening prev then None
        else if match rest' with x :: _ => x =c "}" | [] => false end then None
        else check rest' depth (if isBackslash prev then other else script)
      else check rest' depth other
  end.

Definition fontOpen : string := "<font face=" ++ String dquote "cmzsd10" ++ String dquote ">".

Definition strToHtml (str : string) : Outcome string :=
  let chars := list_ascii_of_string str in
  match chars with
  | [] => Returns ""
  | c0 :: rest =>
      if (c0 =c "}") || (c0 =c "^") || (c0 =c "_") then Returns str
      else
        match check rest (if c0 =c "{" then 1%Z else 0%Z)
                    (if c0 =c "\" then backslash else other) with
        | None => Returns str
        | Some (depth, prev) =>
            if negb (depth =? 0)%Z || isBackslash prev || isScript prev then Returns str
            else
              html <- strToHtml2 (S (List.length chars)) chars ;;
              if (String.length html =? 0)%nat then Returns str
              else Returns (fontOpen ++ html ++ "</font>")
        end
  end.

End HTML_Label.

(** ** The labels of nodes and edges (node.cpp, edge.cpp) *)

(** [Node::setNodeLabel(QString aLabel, QString subscript)] and
    [Edge::setEdgeLabel(QString aLabel, QString subscript)]: the label
    that is set. *)
Definition withSubscript (aLabel subscript : string) : string :=
  (aLabel ++ "_{" ++ subscript ++ "}")%string.

(** [Node::labelToHtml()] and [Edge::labelToHtml()]: the text handed to
    the label item. *)
Definition labelToHtml (label : string) : Outcome string := HTML_Label.strToHtml label.

(** * The mouse and the keys (canvasscene.cpp)

    The handlers of [CanvasScene] with the members the split and join
    code does not look at: the item being dragged, the snap-to-grid
    setting and the positions kept for undoing node moves. *)

From Stdlib Require Import Qround.

Module Pointer.

(** An entry of the list [items(event->scenePos(), ...)] gives, from the
    top: a node, an edge, the label of a node or of an edge, or a graph. *)
Inductive Hit : Type :=
| HitNode (n : nat)
| HitEdge (e : nat)
| HitLabel (owner : ItemRef)
| HitGraph (g : nat).

(** [mDragged] when it is not null: a graph or a node. *)
Inductive Dragged : Type :=
| DraggedGraph (g : nat)
| DraggedNode (n : nat).

Record undo_Node_Pos : Type := mkUndo { pos : QPointF; node : nat }.

Record t : Type := mk {
  scene : CanvasScene.t;
  modeType : CanvasScene.Mode;
  snapToGrid : bool;
  moved : bool;
  mCellSize : Z * Z;                     (* width and height, two ints *)
  mDragged : option Dragged;
  mDragOffset : QPointF;
  undoPositions : list undo_Node_Pos
}.

(** [CanvasScene()] *)
Definition new : t :=
  mk (CanvasScene.mk [] [] None None None None []) CanvasScene.drag true false
     (25%Z, 25%Z) None origin [].

Definition setScene (p : t) (s : CanvasScene.t) : t :=
  mk s (modeType p) (snapToGrid p) (moved p) (mCellSize p) (mDragged p) (mDragOffset p)
     (undoPositions p).

Definition setUndoPositions (p : t) (l : list undo_Node_Pos) : t :=
  mk (scene p) (modeType p) (snapToGrid p) (moved p) (mCellSize p) (mDragged p)
     (mDragOffset p) l.

Definition setDragged (p : t) (d : option Dragged) (offset : QPointF) : t :=
  mk (scene p) (modeType p) (snapToGrid p) (moved p) (mCellSize p) d offset
     (undoPositions p).

Definition setMoved (p : t) (b : bool) : t :=
  mk (scene p) (modeType p) (snapToGrid p) b (mCellSize p) (mDragged p) (mDragOffset p)
     (undoPositions p).

Definition graphs (p : t) : Graphs := CanvasScene.graphs (scene p).

Definition setGraphs (p : t) (gs : Graphs) : t :=
  setScene p (CanvasScene.setGraphs (scene p) gs).

(** A mouse event: where the pointer is in the scene, whether the left
    button is the one concerned, what is under the pointer, and the
    position the scene gives for the pointer in the frame of the parent
    of the item being dragged
    ([mDragged->mapToParent(mDragged->mapFromScene(event->scenePos()))]). *)
Record MouseEvent : Type := mkMouse {
  scenePos : QPointF;
  leftButton : bool;
  itemList : list Hit;
  inParent : QPointF
}.

(** The lists handed over by the scene hold items of the scene; an entry
    that names none is passed over. *)
Definition present (gs : Graphs) (h : Hit) : bool :=
  match h with
  | HitNode n => match Items.findNode gs n with Some _ => true | None => false end
  | HitEdge e => match Items.findEdge gs e with Some _ => true | None => false end
  | HitLabel owner => match Items.findItem gs owner with Some _ => true | None => false end
  | HitGraph g => match Items.lookupGraph gs g with Some _ => true | None => false end
  end.

(** *** mousePressEvent *)

Definition samePicks (s s' : CanvasScene.t) : bool :=
  CanvasScene.optEqb (CanvasScene.connectNode1a s) (CanvasScene.connectNode1a s')
  && CanvasScene.optEqb (CanvasScene.connectNode1b s) (CanvasScene.connectNode1b s')
  && CanvasScene.optEqb (CanvasScene.connectNode2a s) (CanvasScene.connectNode2a s')
  && CanvasScene.optEqb (CanvasScene.connectNode2b s) (CanvasScene.connectNode2b s').

(** Join mode: the nodes of the list are tried in turn, until one is
    picked (the [break]s; a node that is not picked leaves the four
    pointers as they were). *)
Fixpoint pickFrom (hits : list Hit) (s : CanvasScene.t) : CanvasScene.t :=
  match hits with
  | [] => s
  | HitNode n :: rest =>
      let s' := CanvasScene.pickNode n s in
      if samePicks s s' then pickFrom rest s else s'
  | _ :: rest => pickFrom rest s
  end.

(** [for (int i = 0; i < undoPositions.length(); i++)
       if (undoPositions.at(i)->node == node) undoPositions.removeAt(i);]
    After a removal the entry that follows takes the index [i], and
    [i++] goes past it. *)
Fixpoint forget (n : nat) (l : list undo_Node_Pos) : list undo_Node_Pos :=
  match l with
  | [] => []
  | u :: rest =>
      if Nat.eqb (node u) n then
        match rest with
        | [] => []
        | v :: rest' => v :: forget n rest'
        end
      else u :: forget n rest
  end.

(** Delete mode: the first node or edge of the list is deleted. *)
Fixpoint deleteFrom `{Platform} (hits : list Hit) (p : t) : option t :=
  match hits with
  | [] => Some p
  | HitNode n :: _ =>
      match CanvasScene.deleteNode n (scene p) with
      | Some s' => Some (setUndoPositions (setScene p s') (forget n (undoPositions p)))
      | None => None
      end
  | HitEdge e :: _ =>
      match CanvasScene.deleteEdge e (scene p) with
      | Some s' => Some (setScene p s')
      | None => None
      end
  | _ :: rest => deleteFrom rest p
  end.

(** Edit mode: the first node of the list is the one dragged, and its
    position is kept for undoing. *)
Fixpoint editFrom (ev : MouseEvent) (hits : list Hit) (p : t) : t :=
  match hits with
  | [] => p
  | HitNode n :: rest =>
      match Items.findNode (graphs p) n with
      | Some nd =>
          mk (scene p) (modeType p) (snapToGrid p) (moved p) (mCellSize p)
             (Some (DraggedNode n))
             (if snapToGrid p then psub (scenePos ev) (Node.pos nd) else mDragOffset p)
             (undoPositions p ++ [mkUndo (Node.pos nd) n])
      | None => editFrom ev rest p
      end
  | _ :: rest => editFrom ev rest p
  end.

(** The graph that holds what was hit. *)
Definition topLevel (gs : Graphs) (h : Hit) : option nat :=
  match h with
  | HitNode n => Items.parentItem gs (NodeRef n)
  | HitEdge e => Items.parentItem gs (EdgeRef e)
  | HitLabel owner => Items.parentItem gs owner
  | HitGraph g => Some g
  end.

Definition isGraphHit (h : Hit) : bool :=
  match h with HitGraph _ => true | _ => false end.

(** The graph [g] becomes the item dragged, the pointer staying where it
    is on it. *)
Definition grab (ev : MouseEvent) (g : nat) (p : t) : t :=
  match Items.lookupGraph (graphs p) g with
  | Some gr => setDragged p (Some (DraggedGraph g)) (psub (scenePos ev) (Graph.pos gr))
  | None => p
  end.

(** Drag mode: the graph of the first node, edge or label of the list,
    or else the first graph of the list. *)
Definition dragFrom (ev : MouseEvent) (hits : list Hit) (p : t) : t :=
  match find (fun h => negb (isGraphHit h)) hits with
  | Some h =>
      match topLevel (graphs p) h with
      | Some g => grab ev g p
      | None => p
      end
  | None =>
      match find isGraphHit hits with
      | Some (HitGraph g) => grab ev g p
      | _ => p
      end
  end.

Definition mousePressEvent `{Platform} (ev : MouseEvent) (p : t) : option t :=
  match filter (present (graphs p)) (itemList ev) with
  | [] => Some (setDragged p None (mDragOffset p))
  | hits =>
      match modeType p with
      | CanvasScene.join => Some (setScene p (pickFrom hits (scene p)))
      | CanvasScene.del => deleteFrom hits p
      | CanvasScene.edit => Some (if leftButton ev then editFrom ev hits p else p)
      | CanvasScene.drag => Some (dragFrom ev hits p)
      | _ => Some p
      end
  end.

(** *** mouseMoveEvent *)

Definition dragging (p : t) : bool :=
  match modeType p with
  | CanvasScene.drag | CanvasScene.edit => true
  | _ => false
  end.

(** An item being dragged that the scene no longer holds is a pointer to
    a deleted object: there is no result. *)
Definition mouseMoveEvent (ev : MouseEvent) (p : t) : option t :=
  match mDragged p with
  | Some d =>
      if dragging p then
        let p1 := setMoved p true in
        match d with
        | DraggedGraph g =>
            match Items.lookupGraph (graphs p) g with
            | Some _ =>
                Some (setGraphs p1
                        (Items.updateGraph g
                           (fun gr => Graph.setPos gr (psub (scenePos ev) (mDragOffset p)))
                           (graphs p)))
            | None => None
            end
        | DraggedNode n =>
            match Items.findNode (graphs p) n with
            | Some _ =>
                Some (setGraphs p1
                        (Items.updateNode n (fun nd => Node.setPos nd (inParent ev))
                                          (graphs p)))
            | None => None
            end
        end
      else Some p
  | None => Some p
  end.

(** *** mouseReleaseEvent *)

(** The values of an [int]. *)
Definition isInt (z : Z) : bool := ((- 2 ^ 31 <=? z) && (z <=? 2 ^ 31 - 1))%Z.

(** [round]: to the nearest whole number, halves away from zero. *)
Definition round (q : Q) : Z :=
  if Qle_bool 0 q then Qfloor (q + (1 # 2)) else (- Qfloor (- q + (1 # 2)))%Z.

(** [int x = floor(v / size) * size;] and [int x = round(v / size) * size;]
    There is no value when the size of the cells is zero or when the
    product is not the value of an [int]. *)
Definition snapDown (v : Q) (size : Z) : option Z :=
  if (size =? 0)%Z then None
  else let x := (Qfloor (v / inject_Z size) * size)%Z in
       if isInt x then Some x else None.

Definition snapNear (v : Q) (size : Z) : option Z :=
  if (size =? 0)%Z then None
  else let x := (round (v / inject_Z size) * size)%Z in
       if isInt x then Some x else None.

Definition snapped (p : t) (gs : Graphs) : t :=
  let p1 := setMoved (setGraphs p gs) false in
  match modeType p with
  | CanvasScene.edit => setScene p1 (CanvasScene.emit (scene p1) somethingChanged)
  | _ => p1
  end.

Definition dropped (p : t) : t := setDragged p None (mDragOffset p).

Definition mouseReleaseEvent (p : t) : option t :=
  match mDragged p with
  | Some d =>
      if snapToGrid p && moved p && dragging p then
        match d with
        | DraggedGraph g =>
            match Items.lookupGraph (graphs p) g with
            | Some gr =>
                match snapDown (px (Graph.pos gr)) (fst (mCellSize p)),
                      snapDown (py (Graph.pos gr)) (snd (mCellSize p)) with
                | Some x, Some y =>
                    Some (dropped (snapped p
                            (Items.updateGraph g
                               (fun gr' => Graph.setPos gr' (mkPoint (inject_Z x) (inject_Z y)))
                               (graphs p))))
                | _, _ => None
                end
            | None => None
            end
        | DraggedNode n =>
            match Items.findNode (graphs p) n with
            | Some nd =>
                match snapNear (px (Node.pos nd)) (fst (mCellSize p)),
                      snapNear (py (Node.pos nd)) (snd (mCellSize p)) with
                | Some x, Some y =>
                    Some (dropped (snapped p
                            (Items.updateNode n
                               (fun nd' => Node.setPos nd' (mkPoint (inject_Z x) (inject_Z y)))
                               (graphs p))))
                | _, _ => None
                end
            | None => None
            end
        end
      else Some (dropped p)
  | None => Some (dropped p)
  end.

(** *** mouseDoubleClickEvent *)

(** Delete mode: the graph under the pointer, or the graph of the node
    or edge under the pointer, is removed with all it holds. *)
Definition mouseDoubleClickEvent (ev : MouseEvent) (p : t) : t :=
  match modeType p with
  | CanvasScene.del =>
      match filter (present (graphs p)) (itemList ev) with
      | [] => p
      | HitLabel _ :: _ => p
      | h :: _ =>
          match topLevel (graphs p) h with
          | Some g =>
              let s := scene p in
              setScene p
                (CanvasScene.emit
                   (CanvasScene.setCanvasGraphList
                      (CanvasScene.setGraphs s (Items.removeGraph g (CanvasScene.graphs s)))
                      (removeOne g (CanvasScene.canvasGraphList s)))
                   somethingChanged)
          | None => p
          end
      end
  | _ => p
  end.

(** *** keyReleaseEvent *)

Inductive Key : Type := Key_J | Key_Escape | Key_other.

(** The last entry of a list and the entries before it. *)
Fixpoint takeLast {A : Type} (l : list A) : option (list A * A) :=
  match l with
  | [] => None
  | [x] => Some ([], x)
  | x :: rest =>
      match takeLast rest with
      | Some (front, last) => Some (x :: front, last)
      | None => None
      end
  end.

Definition keyReleaseEvent `{Platform} (k : Key) (p : t) : option t :=
  match k with
  | Key_J =>
      match CanvasScene.keyReleaseEvent_J (scene p) with
      | Some s' => Some (setScene p s')
      | None => None
      end
  | Key_Escape =>
      match takeLast (undoPositions p) with
      | Some (front, u) =>
          match Items.findNode (graphs p) (node u) with
          | Some _ =>
              let gs := Items.updateNode (node u) (fun nd => Node.setPos nd (pos u)) (graphs p) in
              let p1 := setUndoPositions (setGraphs p gs) front in
              Some (setScene p1 (CanvasScene.emit (scene p1) somethingChanged))
          | None => None
          end
      | None => Some p
      end
  | Key_other => Some p
  end.

(** *** setCanvasMode, isSnappedToGrid, getMode, updateCellSize *)

Definition setCanvasMode (mode : CanvasScene.Mode) (p : t) : t :=
  mk (CanvasScene.setCanvasMode (scene p)) mode (snapToGrid p) (moved p) (mCellSize p)
     (mDragged p) (mDragOffset p) [].

Definition isSnappedToGrid (snap : bool) (p : t) : t :=
  mk (scene p) (modeType p) snap (moved p) (mCellSize p) (mDragged p) (mDragOffset p)
     (undoPositions p).

Definition getMode (p : t) : CanvasScene.Mode := modeType p.

(** The setting [gridCellSize] is read for both sides of the cells. *)
Definition updateCellSize (gridCellSize : Z) (p : t) : t :=
  mk (scene p) (modeType p) (snapToGrid p) (moved p) (gridCellSize, gridCellSize)
     (mDragged p) (mDragOffset p) (undoPositions p).

End Pointer.

(** ** What reaches the scene

    The calls the view and the main window make on the scene: a change
    of mode, the events of the mouse and of the keys, the two settings of
    the grid, and the rotation of a graph from the canvas graph tab. *)
Inductive Input : Type :=
| SetCanvasMode (mode : CanvasScene.Mode)
| MousePress (ev : Pointer.MouseEvent)
| MouseMove (ev : Pointer.MouseEvent)
| MouseRelease
| MouseDoubleClick (ev : Pointer.MouseEvent)
| KeyRelease (k : Pointer.Key)
| IsSnappedToGrid (snap : bool)
| UpdateCellSize (gridCellSize : Z)
| SetRotation (graph : nat) (amount : Q) (relative : bool).

Definition input `{Platform} (i : Input) (p : Pointer.t) : option Pointer.t :=
  match i with
  | SetCanvasMode mode => Some (Pointer.setCanvasMode mode p)
  | MousePress ev => Pointer.mousePressEvent ev p
  | MouseMove ev => Pointer.mouseMoveEvent ev p
  | MouseRelease => Pointer.mouseReleaseEvent p
  | MouseDoubleClick ev => Some (Pointer.mouseDoubleClickEvent ev p)
  | KeyRelease k => Pointer.keyReleaseEvent k p
  | IsSnappedToGrid snap => Some (Pointer.isSnappedToGrid snap p)
  | UpdateCellSize size => Some (Pointer.updateCellSize size p)
  | SetRotation g amount relative =>
      Some (Pointer.setGraphs p
              (Items.updateGraph g (fun x => Graph.setRotation x amount relative)
                                 (Pointer.graphs p)))
  end.

Fixpoint inputs `{Platform} (l : list Input) (p : Pointer.t) : option Pointer.t :=
  match l with
  | [] => Some p
  | i :: rest =>
      match input i p with
      | Some p' => inputs rest p'
      | None => None
      end
  end.

(** * The view of the canvas (canvasview.cpp)

    [CanvasView] holds the scene and, for freestyle mode, the graph the
    new nodes go to and the two nodes an edge is to be drawn between.
    The rubber band and the list of selected items of select mode, the
    zoom and the drawing parameters other than the node diameter are not
    part of the model. *)

Module CanvasView.

Record t : Type := mk {
  aScene : Pointer.t;
  modeType : CanvasScene.Mode;
  freestyleGraph : option nat;
  node1 : option nat;
  node2 : option nat;
  nodeParams_diameter : Q
}.

Definition scene (v : t) : CanvasScene.t := Pointer.scene (aScene v).
Definition graphs (v : t) : Graphs := Pointer.graphs (aScene v).
Definition canvasGraphList (v : t) : list nat := CanvasScene.canvasGraphList (scene v).

Definition setScene (v : t) (p : Pointer.t) : t :=
  mk p (modeType v) (freestyleGraph v) (node1 v) (node2 v) (nodeParams_diameter v).

Definition setGraphs (v : t) (gs : Graphs) : t := setScene v (Pointer.setGraphs (aScene v) gs).

Definition setCanvasGraphList (v : t) (l : list nat) : t :=
  setScene v (Pointer.setScene (aScene v) (CanvasScene.setCanvasGraphList (scene v) l)).

Definition setNodes (v : t) (n1 n2 : option nat) : t :=
  mk (aScene v) (modeType v) (freestyleGraph v) n1 n2 (nodeParams_diameter v).

Definition setFreestyleGraph (v : t) (g : option nat) : t :=
  mk (aScene v) (modeType v) g (node1 v) (node2 v) (nodeParams_diameter v).

(** The pointers returned by [new Node] and [new Edge] differ from the
    nodes and the edges of the scene. *)
Definition freshNode (gs : Graphs) : nat := S (list_max (map Node.id (Items.allNodes gs))).
Definition freshEdge (gs : Graphs) : nat := S (list_max (map Edge.id (Items.allEdges gs))).

(** [Node::Node()] *)
Definition newNode `{Platform} (id : nat) : Node.t :=
  Node.mk id origin 0 1 currentPhysicalDPI [] 0%Z "".

(** [createNode]: a node of the diameter of [nodeParams], not rotated, a
    child of the freestyle graph at [pos].  The result is the view with
    the node in place; there is none when there is no freestyle graph
    (the caller goes on to [freestyleGraph->update()]). *)
Definition createNode `{Platform} (pos : QPointF) (v : t) : option t :=
  match freestyleGraph v with
  | Some fg =>
      match Items.lookupGraph (graphs v) fg with
      | Some _ =>
          let node :=
            Node.setPos
              (Node.setRotation
                 (Node.setDiameter (newNode (freshNode (graphs v))) (nodeParams_diameter v)) 0)
              pos in
          Some (setGraphs v (Items.attach fg (NodeItem node) (graphs v)))
      | None => None
      end
  | None => None
  end.

(** [mouseDoubleClickEvent]: in freestyle mode a node is created where
    the pointer is, and the freestyle graph is listed when this is its
    first child; in the other modes the event goes on to the scene. *)
Definition mouseDoubleClickEvent `{Platform} (ev : Pointer.MouseEvent) (v : t) : option t :=
  match modeType v with
  | CanvasScene.freestyle =>
      match createNode (Pointer.scenePos ev) v, freestyleGraph v with
      | Some v1, Some fg =>
          let v2 :=
            match Items.lookupGraph (graphs v1) fg with
            | Some g =>
                if (List.length (Graph.childItems g) =? 1)%nat
                then setCanvasGraphList v1 (canvasGraphList v1 ++ [fg])
                else v1
            | None => v1
            end in
          Some (setNodes v2 None None)
      | _, _ => None
      end
  | _ => Some (setScene v (Pointer.mouseDoubleClickEvent ev (aScene v)))
  end.

(** [createEdge]: [new Edge(source, destination)] puts the edge in the
    edge lists of its two ends; the two radii are then set from the
    diameters of [node1] and [node2], which are the two ends. *)
Definition createEdge (id : nat) (source destination : Node.t) : Edge.t :=
  Edge.mk id (Node.id source) (Node.id destination) origin 0
          (Node.getDiameter source / 2) (Node.getDiameter destination / 2) 0%Z.

(** [foreach (QGraphicsItem * item, parent->childItems())
       { itemPos = item->scenePos(); item->setParentItem(root);
         item->setPos(itemPos); item->setRotation(0); }] *)
Definition adopt `{Platform} (parent root : nat) (gs : Graphs) : Graphs :=
  match Items.lookupGraph gs parent with
  | None => gs
  | Some g =>
      fold_left (fun acc item => Items.reparent root item (Graph.scenePos g item) acc)
                (Graph.childItems g) gs
  end.

Definition isGraph (fg : option nat) (g : nat) : bool :=
  match fg with Some f => Nat.eqb f g | None => false end.

(** [addEdgeToScene(source, destination)].  The parents are read from the
    members [node1] and [node2]; at its one call, in [mousePressEvent],
    these are the two arguments. *)
Definition addEdgeToScene `{Platform} (n1 n2 : nat) (v : t) : option t :=
  let gs := graphs v in
  match Items.findNode gs n1, Items.findNode gs n2 with
  | Some source, Some destination =>
      let id := freshEdge gs in
      let edge := EdgeItem (createEdge id source destination) in
      let gs := Items.updateNode n1 (fun n => Node.addEdge n id) gs in
      let gs := Items.updateNode n2 (fun n => Node.addEdge n id) gs in
      match Items.parentItem gs (NodeRef n1), Items.parentItem gs (NodeRef n2) with
      | Some parent1, Some parent2 =>
          if Nat.eqb parent1 parent2 then
            Some (setGraphs v (Items.attach parent1 edge gs))
          else
            let root := Items.fresh gs (canvasGraphList v) in
            let gs := gs ++ [(root, Graph.new)] in
            let gs := adopt parent1 root gs in
            let gs := adopt parent2 root gs in
            let gs := Items.attach root edge gs in
            let l := canvasGraphList v ++ [root] in
            let renew := isGraph (freestyleGraph v) parent1
                         || isGraph (freestyleGraph v) parent2 in
            let fg := Items.fresh gs l in
            let gs := if renew then gs ++ [(fg, Graph.new)] else gs in
            let gs := Items.removeGraph parent2 (Items.removeGraph parent1 gs) in
            let l := removeOne parent2 (removeOne parent1 l) in
            let v := if renew then setFreestyleGraph v (Some fg) else v in
            Some (setCanvasGraphList (setGraphs v gs) l)
      | _, _ => None
      end
  | _, _ => None
  end.

(** The test that keeps a second edge from being drawn between two
    nodes: an edge of the list of [node1] goes from one to the other. *)
Fixpoint edgeBetween (gs : Graphs) (n1 n2 : nat) (l : list nat) : option bool :=
  match l with
  | [] => Some false
  | e :: rest =>
      match Items.findEdge gs e, edgeBetween gs n1 n2 rest with
      | Some ed, Some found =>
          Some ((Nat.eqb (Edge.sourceNode ed) n1 && Nat.eqb (Edge.destNode ed) n2)
                || (Nat.eqb (Edge.sourceNode ed) n2 && Nat.eqb (Edge.destNode ed) n1)
                || found)
      | _, _ => None
      end
  end.

(** What the loop of [mousePressEvent] does with one item under the
    pointer, in freestyle mode. *)
Definition pick (h : Pointer.Hit) (v : t) : t :=
  match h with
  | Pointer.HitNode n =>
      match node1 v with
      | None => setNodes v (Some n) None
      | Some a =>
          match node2 v with
          | None => if Nat.eqb n a then v else setNodes v (Some a) (Some n)
          | Some _ => v
          end
      end
  | _ => v
  end.

Definition isNodeHit (h : Pointer.Hit) : bool :=
  match h with Pointer.HitNode _ => true | _ => false end.

(** The edge from [node1] to [node2], unless there is one, and [node2]
    for [node1]. *)
Definition connect `{Platform} (a b : nat) (v : t) : option t :=
  match Items.findNode (graphs v) a with
  | Some na =>
      match edgeBetween (graphs v) a b (Node.edges na) with
      | Some true => Some (setNodes v (Some b) None)
      | Some false =>
          match addEdgeToScene a b v with
          | Some v' =>
              (* freestyleGraph->update() *)
              match freestyleGraph v' with
              | Some fg =>
                  match Items.lookupGraph (graphs v') fg with
                  | Some _ => Some (setNodes v' (Some b) None)
                  | None => None
                  end
              | None => None
              end
          | None => None
          end
      | None => None
      end
  | None => None
  end.

(** The loop over the items under the pointer; the boolean is
    [clickedInEmptySpace]. *)
Fixpoint pressItems `{Platform} (hits : list Pointer.Hit) (v : t) (empty : bool)
  : option (t * bool) :=
  match hits with
  | [] => Some (v, empty)
  | h :: rest =>
      let v1 := pick h v in
      let empty1 := empty && negb (isNodeHit h) in
      match node1 v1, node2 v1 with
      | Some a, Some b =>
          if Nat.eqb a b then pressItems rest v1 empty1
          else
            match connect a b v1 with
            | Some v2 => Some (v2, empty1)
            | None => None
            end
      | _, _ => pressItems rest v1 empty1
      end
  end.

(** [mousePressEvent]: freestyle mode as above; in select mode the
    rubber band is started; in the other modes the two nodes are
    forgotten and the event goes on to the scene. *)
Definition mousePressEvent `{Platform} (ev : Pointer.MouseEvent) (v : t) : option t :=
  match modeType v with
  | CanvasScene.freestyle =>
      match
        (if Pointer.leftButton ev
         then pressItems (filter (Pointer.present (graphs v)) (Pointer.itemList ev)) v true
         else Some (v, true))
      with
      | Some (v1, empty) => Some (if empty then setNodes v1 None None else v1)
      | None => None
      end
  | CanvasScene.select => Some v
  | _ =>
      match Pointer.mousePressEvent ev (aScene v) with
      | Some p => Some (setScene (setNodes v None None) p)
      | None => None
      end
  end.

(** [node->setPos(node->pos() - center)] for the nodes of a graph. *)
Definition recentre (center : QPointF) (it : Item) : Item :=
  match it with
  | NodeItem n => NodeItem (Node.setPos n (psub (Node.pos n) center))
  | EdgeItem _ => it
  end.

(** Leaving freestyle mode: an empty freestyle graph is removed; one
    with children gets the middle of its nodes for origin. *)
Definition finalize `{Platform} (fg : nat) (gs : Graphs) : option Graphs :=
  match Items.lookupGraph gs fg with
  | Some g =>
      match Graph.childItems g with
      | [] => Some (Items.removeGraph fg gs)
      | _ =>
          let center := snd (fst (Graph.boundingBox g false)) in
          Some (Items.updateGraph fg
                  (fun g => Graph.setPos
                              (Items.setChildren g (map (recentre center) (Graph.childItems g)))
                              center)
                  gs)
      end
  | None => None
  end.

Definition modeEqb (a b : CanvasScene.Mode) : bool :=
  match a, b with
  | CanvasScene.drag, CanvasScene.drag | CanvasScene.join, CanvasScene.join
  | CanvasScene.del, CanvasScene.del | CanvasScene.edit, CanvasScene.edit
  | CanvasScene.freestyle, CanvasScene.freestyle
  | CanvasScene.select, CanvasScene.select => true
  | _, _ => false
  end.

(** [setMode] *)
Definition setMode `{Platform} (m : CanvasScene.Mode) (v : t) : option t :=
  if modeEqb (modeType v) m then Some v
  else
    match
      (match modeType v, freestyleGraph v with
       | CanvasScene.freestyle, Some fg => finalize fg (graphs v)
       | _, _ => Some (graphs v)
       end)
    with
    | Some gs =>
        let gs' :=
          match m with
          | CanvasScene.freestyle => gs ++ [(Items.fresh gs (canvasGraphList v), Graph.new)]
          | _ => gs
          end in
        let fg' :=
          match m with
          | CanvasScene.freestyle => Some (Items.fresh gs (canvasGraphList v))
          | _ => None
          end in
        let n2 := match m with CanvasScene.freestyle => None | _ => node2 v end in
        Some (mk (Pointer.setCanvasMode m (Pointer.setGraphs (aScene v) gs'))
                 m fg' None n2 (nodeParams_diameter v))
    | None => None
    end.

(** [clearCanvas]: every graph is removed and the list of the graphs is
    emptied; in freestyle mode there is a new freestyle graph. *)
Definition clearCanvas (v : t) : t :=
  match modeType v with
  | CanvasScene.freestyle =>
      let fg := Items.fresh (graphs v) (canvasGraphList v) in
      mk (Pointer.setScene (aScene v)
            (CanvasScene.setCanvasGraphList
               (CanvasScene.setGraphs (scene v) [(fg, Graph.new)]) []))
         (modeType v) (Some fg) None (node2 v) (nodeParams_diameter v)
  | _ =>
      setScene v (Pointer.setScene (aScene v)
                    (CanvasScene.setCanvasGraphList (CanvasScene.setGraphs (scene v) []) []))
  end.

End CanvasView.

(** ** What reaches the view in freestyle mode *)
Inductive Stroke : Type :=
| Click (ev : Pointer.MouseEvent)
| DoubleClick (ev : Pointer.MouseEvent).

Definition stroke `{Platform} (s : Stroke) (v : CanvasView.t) : option CanvasView.t :=
  match s with
  | Click ev => CanvasView.mousePressEvent ev v
  | DoubleClick ev => CanvasView.mouseDoubleClickEvent ev v
  end.

Fixpoint strokes `{Platform} (l : list Stroke) (v : CanvasView.t) : option CanvasView.t :=
  match l with
  | [] => Some v
  | s :: rest =>
      match stroke s v with
      | Some v' => strokes rest v'
      | None => None
      end
  end.

(** * Further notions used in the statements *)

(** The scene coordinates of the node centres of a graph, and the lowest
    and highest coordinate each node covers (its radius counted when
    [u] is set). *)
Definition sceneXs `{Platform} (g : Graph.t) : list Q := map (sceneX g) (Graph.nodes g).
Definition sceneYs `{Platform} (g : Graph.t) : list Q := map (sceneY g) (Graph.nodes g).

Definition lowX `{Platform} (g : Graph.t) (u : bool) (n : Node.t) : Q := sceneX g n - Graph.radius u n.
Definition lowY `{Platform} (g : Graph.t) (u : bool) (n : Node.t) : Q := sceneY g n - Graph.radius u n.
Definition highX `{Platform} (g : Graph.t) (u : bool) (n : Node.t) : Q := sceneX g n + Graph.radius u n.
Definition highY `{Platform} (g : Graph.t) (u : bool) (n : Node.t) : Q := sceneY g n + Graph.radius u n.

(** The rectangle and the two centres [boundingBox] hands back. *)
Definition boxRect `{Platform} (g : Graph.t) (u : bool) : QRectF := fst (fst (Graph.boundingBox g u)).
Definition boxCenter `{Platform} (g : Graph.t) (u : bool) : QPointF := snd (fst (Graph.boundingBox g u)).
Definition boxRGcenter `{Platform} (g : Graph.t) (u : bool) : QPointF := snd (Graph.boundingBox g u).

(** ** Labels *)

(** The characters the label code treats in a way of their own, and the
    labels made of other characters only. *)
Definition special : list ascii :=
  ["\"; "{"; "}"; " "; "<"; ">"; "^"; "_"; "'"]%char.

Definition plain (c : ascii) : Prop := ~ In c special.

Definition plainLabel (str : string) : Prop := Forall plain (list_ascii_of_string str).

(** The HTML of a label that is accepted: the pieces in the font of the
    labels. *)
Definition inLabelFont (html : string) : string :=
  (HTML_Label.fontOpen ++ html ++ "</font>")%string.

(** No backslash of the label is followed by another one. *)
Fixpoint noDoubleBackslash (chars : list ascii) : bool :=
  match chars with
  | [] => true
  | c :: rest =>
      match rest with
      | [] => true
      | d :: _ => negb (Ascii.eqb c "\" && Ascii.eqb d "\")
      end && noDoubleBackslash rest
  end.

(** *** Braces, read from left to right

    The loops of [strToHtml2] count the braces that do not follow a
    backslash.  The same count on a list read from its head, [bs] telling
    whether the character before the head is a backslash. *)
Definition stepRel (bs : bool) (c : ascii) (d : Z) : Z :=
  if Ascii.eqb c "{" && negb bs then (d + 1)%Z
  else if Ascii.eqb c "}" && negb bs then (d - 1)%Z
  else d.

Fixpoint depthRel (bs : bool) (l : list ascii) (d : Z) : Z :=
  match l with
  | [] => d
  | c :: r => depthRel (Ascii.eqb c "\") r (stepRel bs c d)
  end.

(** Whether the character after [l] follows a backslash. *)
Definition bsAfter (bs : bool) (l : list ascii) : bool :=
  fold_left (fun _ c => Ascii.eqb c "\") l bs.

(** The depth never falls below zero. *)
Fixpoint nestedRel (bs : bool) (l : list ascii) (d : Z) : Prop :=
  (0 <= d)%Z /\
  match l with
  | [] => True
  | c :: r => nestedRel (Ascii.eqb c "\") r (stepRel bs c d)
  end.

(** The number of characters read until the depth comes down to zero. *)
Fixpoint matchRel (bs : bool) (l : list ascii) (d : Z) : nat :=
  match l with
  | [] => O
  | c :: r => if (0 <? d)%Z then S (matchRel (Ascii.eqb c "\") r (stepRel bs c d)) else O
  end.

(** Braces that match: every closing brace that counts closes an opening
    one, and none is left open. *)
Definition braced (l : list ascii) : Prop :=
  nestedRel false l 0 /\ depthRel false l 0 = 0%Z.

(** The sign at which [strToHtml2] cuts. *)
Definition isSign (c : ascii) : Prop := c = "_"%char \/ c = "^"%char.

(** ** The scene between two inputs

    The graphs are well formed and connected and the picked nodes are as
    the join code expects them; positions are kept for undoing in edit
    mode only, and each is the position of a node of the scene. *)
Definition Steady (p : Pointer.t) : Prop :=
  Stable (Pointer.modeType p, Pointer.scene p) /\
  (Pointer.modeType p <> CanvasScene.edit -> Pointer.undoPositions p = []) /\
  Forall (fun u => exists g, hasNode (Pointer.graphs p) g (Pointer.node u))
         (Pointer.undoPositions p).

(** The item being dragged, if any, is an item of the scene. *)
Definition Held (p : Pointer.t) : Prop :=
  match Pointer.mDragged p with
  | Some (Pointer.DraggedGraph g) => Items.lookupGraph (Pointer.graphs p) g <> None
  | Some (Pointer.DraggedNode n) => Items.findNode (Pointer.graphs p) n <> None
  | None => True
  end.

Definition isMouseMove (i : Input) : bool :=
  match i with MouseMove _ | MouseRelease => true | _ => false end.

(** *** Example scenes and inputs *)

(** The two graphs of [sceneStart] in drag mode, nothing being dragged. *)
Definition pointerStart : Pointer.t :=
  Pointer.mk sceneStart CanvasScene.drag true false (25%Z, 25%Z) None origin [].

Definition mouseAt (x y : Q) (hits : list Pointer.Hit) (x' y' : Q) : Pointer.MouseEvent :=
  Pointer.mkMouse (mkPoint x y) true hits (mkPoint x' y').

(** Graph 1 is dragged by the node x2 and let go; in edit mode the node
    y1 is moved and the move is undone; x2 and y1 are picked and their
    graphs joined; the edge x1-x2 is deleted, and then the whole graph. *)
Definition sampleInputs : list Input :=
  [MousePress (mouseAt 10 0 [Pointer.HitNode 2; Pointer.HitGraph 1] 10 0);
   MouseMove (mouseAt 47 (-8) [] 47 (-8));
   MouseRelease;
   SetCanvasMode CanvasScene.edit;
   MousePress (mouseAt 100 50 [Pointer.HitLabel (NodeRef 3); Pointer.HitNode 3;
                               Pointer.HitGraph 2] 0 0);
   MouseMove (mouseAt 113 88 [] 13 38);
   MouseRelease;
   KeyRelease Pointer.Key_Escape;
   SetCanvasMode CanvasScene.join;
   MousePress (mouseAt 35 (-25) [Pointer.HitNode 2] 10 0);
   MousePress (mouseAt 100 50 [Pointer.HitNode 3] 0 0);
   KeyRelease Pointer.Key_J;
   SetCanvasMode CanvasScene.del;
   MousePress (mouseAt 30 (-25) [Pointer.HitEdge 1] 5 0);
   MouseDoubleClick (mouseAt 35 (-25) [Pointer.HitNode 2] 10 0)].

(** Graph 1 of [sceneStart] has been dragged to (37, -8) and is still
    held. *)
Definition pointerDragging : Pointer.t :=
  Pointer.mk
    (CanvasScene.setGraphs sceneStart
       (Items.updateGraph 1 (fun g => Graph.setPos g (mkPoint 37 (-8)))
                          (CanvasScene.graphs sceneStart)))
    CanvasScene.drag true true (25%Z, 25%Z) (Some (Pointer.DraggedGraph 1)) (mkPoint 10 0) [].

(** In edit mode the node y1 of [sceneStart] has been dragged to (13, 38)
    in its graph and is still held. *)
Definition pointerEditing : Pointer.t :=
  Pointer.mk
    (CanvasScene.setGraphs sceneStart
       (Items.updateNode 3 (fun nd => Node.setPos nd (mkPoint 13 38))
                         (CanvasScene.graphs sceneStart)))
    CanvasScene.edit true true (25%Z, 25%Z) (Some (Pointer.DraggedNode 3)) (mkPoint 100 50)
    [Pointer.mkUndo (mkPoint 0 0) 3].

(** [pointerStart] in edit mode. *)
Definition pointerEdit : Pointer.t := Pointer.setCanvasMode CanvasScene.edit pointerStart.

(** *** While the button is down

    What holds from a press on the node [n] in edit mode, made in the
    state [p], to the release: the node is the item dragged, its position
    at the press is the last one kept for undoing, and the graphs are
    those of [p] but for the position of [n]. *)
Definition EditingNode (p : Pointer.t) (n : nat) (nd : Node.t) (q : Pointer.t) : Prop :=
  Pointer.modeType q = CanvasScene.edit /\
  Pointer.mDragged q = Some (Pointer.DraggedNode n) /\
  Pointer.undoPositions q = Pointer.undoPositions p ++ [Pointer.mkUndo (Node.pos nd) n] /\
  exists a, Pointer.graphs q
            = Items.updateNode n (fun x => Node.setPos x a) (Pointer.graphs p).

(** The same for a press in drag mode that takes hold of the graph [g]:
    the graphs are those of [p] but for the position of [g]. *)
Definition DraggingGraph (p : Pointer.t) (g : nat) (gr : Graph.t) (offset : QPointF)
           (q : Pointer.t) : Prop :=
  Pointer.modeType q = CanvasScene.drag /\
  Pointer.mDragged q = Some (Pointer.DraggedGraph g) /\
  Pointer.mDragOffset q = offset /\
  (exists a, Items.lookupGraph (Pointer.graphs q) g = Some (Graph.setPos gr a)) /\
  (forall k, k <> g ->
             Items.lookupGraph (Pointer.graphs q) k = Items.lookupGraph (Pointer.graphs p) k).

(** ** Freestyle mode

    What holds between two inputs in freestyle mode: the graphs are well
    formed, the freestyle graph is a graph of the scene, the node an
    edge is to start from, if there is one, is a node of the scene, and
    no second node is kept. *)
Definition Sketching (v : CanvasView.t) : Prop :=
  CanvasView.modeType v = CanvasScene.freestyle /\
  WellFormed (CanvasView.graphs v) /\
  (exists fg, CanvasView.freestyleGraph v = Some fg /\ In fg (keys (CanvasView.graphs v))) /\
  (forall a, CanvasView.node1 v = Some a -> exists g, hasNode (CanvasView.graphs v) g a) /\
  CanvasView.node2 v = None.

(** The edge [e] in the lists of its two ends [a] and [b]. *)
Definition extraEdge (a b e : nat) (nid : nat) : list nat :=
  if Nat.eqb nid a || Nat.eqb nid b then [e] else [].

(** The graph a child of [pa] or of [pb] is in once both are merged into
    [root]. *)
Definition mergedTo (pa pb root : nat) (g : nat) : nat :=
  if Nat.eqb g pa || Nat.eqb g pb then root else g.

(** *** Example views

    [pointerStart] in freestyle mode: the graph 3 is the freestyle graph
    and has no node yet. *)
Definition viewFreestyle : CanvasView.t :=
  CanvasView.mk
    (Pointer.setCanvasMode CanvasScene.freestyle
       (Pointer.setGraphs pointerStart (CanvasScene.graphs sceneStart ++ [(3%nat, Graph.new)])))
    CanvasScene.freestyle (Some 3%nat) None None (1 # 4).

(** [viewFreestyle] when the nodes [a] and [b] are the two nodes an edge
    is about to be drawn between. *)
Definition viewPicked (a b : nat) : CanvasView.t :=
  CanvasView.setNodes viewFreestyle (Some a) (Some b).

Definition clickAt (x y : Q) (hits : list Pointer.Hit) : Pointer.MouseEvent :=
  Pointer.mkMouse (mkPoint x y) true hits (mkPoint x y).

(** [viewFreestyle] after a double click at (200, 10): the node 5 is the
    one node of the freestyle graph. *)
Definition viewOneNode : CanvasView.t :=
  match CanvasView.mouseDoubleClickEvent (clickAt 200 10 []) viewFreestyle with
  | Some v => v
  | None => viewFreestyle
  end.

(** Two nodes are made, an edge is drawn between them, a second edge
    from the second one to the node x2 of graph 1, and the button is
    pressed where there is nothing. *)
Definition sampleStrokes : list Stroke :=
  [DoubleClick (clickAt 200 10 []);
   DoubleClick (clickAt 260 30 []);
   Click (clickAt 200 10 [Pointer.HitNode 5; Pointer.HitGraph 3]);
   Click (clickAt 260 30 [Pointer.HitNode 6; Pointer.HitGraph 3]);
   Click (clickAt 10 0 [Pointer.HitNode 2; Pointer.HitGraph 1]);
   Click (clickAt 400 400 [])].

(** Where the graph [k] is and how it is turned. *)
Definition frameOf (gs : Graphs) (k : nat) : option (QPointF * Q) :=
  option_map (fun g => (Graph.pos g, Graph.rotation g)) (Items.lookupGraph gs k).

(** The freestyle graph is where [new Graph()] has put it. *)
Definition AtOrigin (v : CanvasView.t) : Prop :=
  exists fg g,
    CanvasView.freestyleGraph v = Some fg
    /\ Items.lookupGraph (CanvasView.graphs v) fg = Some g
    /\ Graph.pos g = origin /\ Graph.rotation g = 0.

(** [pointerStart] seen in drag mode. *)
Definition viewStart : CanvasView.t :=
  CanvasView.mk pointerStart CanvasScene.drag None None None (1 # 4).

(** Two nodes are made and an edge is drawn between them. *)
Definition sampleSketch : list Stroke :=
  [DoubleClick (clickAt 200 10 []);
   DoubleClick (clickAt 260 30 []);
   Click (clickAt 200 10 [Pointer.HitNode 5; Pointer.HitGraph 3]);
   Click (clickAt 260 30 [Pointer.HitNode 6; Pointer.HitGraph 3])].

(** The same graph up to the order of its children: placed and turned
    alike, with the same children. *)
Definition sameContent (g g' : Graph.t) : Prop :=
  Graph.pos g = Graph.pos g' /\ Graph.rotation g = Graph.rotation g'
  /\ Permutation (Graph.childItems g) (Graph.childItems g').

(** The same graphs under the same identities, each up to the order of
    its children. *)
Definition sameContents (gs gs' : Graphs) : Prop :=
  forall k,
    match Items.lookupGraph gs k, Items.lookupGraph gs' k with
    | Some g, Some g' => sameContent g g'
    | None, None => True
    | _, _ => False
    end.

(** * [Graph::centerGraph] over the doubles of the machine

    The same function as [Graph.centerGraph], with [qreal] as IEEE 754
    binary64 ([PrimFloat]): every sum, difference and quotient rounds.
    Of a node only its identity and its position are kept, of an edge its
    identity; the graph is one that is not turned, so that the position
    of a child in the scene is the position of the graph plus its own. *)

Module Double.

Import PrimFloat.
Local Open Scope float_scope.

Record QPointF : Type := mkPoint { px : float; py : float }.

Definition padd (p q : QPointF) : QPointF := mkPoint (px p + px q) (py p + py q).
Definition psub (p q : QPointF) : QPointF := mkPoint (px p - px q) (py p - py q).

(** The two points have the same coordinates. *)
Definition samePoint (p q : QPointF) : bool := eqb (px p) (px q) && eqb (py p) (py q).

Module Node.

Record t : Type := mk { id : nat; pos : QPointF }.

End Node.

Inductive Item : Type :=
| NodeItem (n : Node.t)
| EdgeItem (id : nat).

Fixpoint nodesOf (items : list Item) : list Node.t :=
  match items with
  | [] => []
  | NodeItem n :: r => n :: nodesOf r
  | EdgeItem _ :: r => nodesOf r
  end.

(** The children without the node [nid]. *)
Fixpoint without (nid : nat) (items : list Item) : list Item :=
  match items with
  | [] => []
  | NodeItem n :: r => if Nat.eqb (Node.id n) nid then without nid r else NodeItem n :: without nid r
  | EdgeItem e :: r => EdgeItem e :: without nid r
  end.

(** [node->setPos(p)] for a child of a graph with the children [items]:
    nothing happens when [p] is the position the node has; otherwise the
    node takes the position, and [Node::itemChange] takes it out of its
    graph and puts it back, last of the children. *)
Definition setPos (n : Node.t) (p : QPointF) (items : list Item) : list Item :=
  if samePoint (Node.pos n) p then items
  else without (Node.id n) items ++ [NodeItem (Node.mk (Node.id n) p)].

Module Graph.

Record t : Type := mk { pos : QPointF; childItems : list Item }.

Definition nodes (g : t) : list Node.t := nodesOf (childItems g).

Definition findNode (g : t) (nid : nat) : option Node.t :=
  find (fun n => Nat.eqb (Node.id n) nid) (nodes g).

(** [item->scenePos()] for a node of a graph that is not turned. *)
Definition scenePos (g : t) (n : Node.t) : QPointF := padd (pos g) (Node.pos n).

(** [boundingBox(nullptr, false, &RGcenter)]: what the loop keeps of the
    positions of the nodes in the graph, and the centre it hands back. *)
Record Acc : Type := mkAcc {
  RGminx : float; RGmaxx : float; RGminy : float; RGmaxy : float;
  firstNode : bool
}.

Definition acc0 : Acc := mkAcc 0 0 0 0 true.

(** [if (v > hi) hi = v; else if (v < lo) lo = v;] *)
Definition widen (lo hi v : float) : float * float :=
  if ltb hi v then (lo, v)
  else if ltb v lo then (v, hi)
  else (lo, hi).

Definition step (a : Acc) (item : Item) : Acc :=
  match item with
  | NodeItem n =>
      let RGx := px (Node.pos n) in
      let RGy := py (Node.pos n) in
      if firstNode a then mkAcc RGx RGx RGy RGy false
      else
        let '(RGminx', RGmaxx') := widen (RGminx a) (RGmaxx a) RGx in
        let '(RGminy', RGmaxy') := widen (RGminy a) (RGmaxy a) RGy in
        mkAcc RGminx' RGmaxx' RGminy' RGmaxy' false
  | EdgeItem _ => a
  end.

Definition RGcenter (g : t) : QPointF :=
  let a := fold_left step (childItems g) acc0 in
  mkPoint ((RGmaxx a + RGminx a) / 2) ((RGmaxy a + RGminy a) / 2).

(** [centerGraph]: the loop runs over the list [childItems()] has
    returned; every node is given its position less [RGcenter], then the
    graph its position plus [RGcenter]. *)
Definition centerGraph (g : t) : t :=
  let c := RGcenter g in
  mk (padd (pos g) c)
     (fold_left (fun items item =>
                   match item with
                   | NodeItem n => setPos n (psub (Node.pos n) c) items
                   | EdgeItem _ => items
                   end)
                (childItems g) (childItems g)).

End Graph.

(** Two nodes at x = 1000000.1 and x = 1000000.7, joined by an edge, in
    a graph at the origin.  (The quotient of two integers is the double
    nearest to it, which is what the decimal is read as.) *)
Definition gFar : Graph.t :=
  Graph.mk (mkPoint 0 0)
           [NodeItem (Node.mk 1 (mkPoint (10000001 / 10) 0));
            NodeItem (Node.mk 2 (mkPoint (10000007 / 10) 0));
            EdgeItem 1].

Definition zero : float := 0.

(** 1e-10 *)
Definition tenBillionth : float := 1 / 10000000000.

(** What [centerGraph] has moved the node [nid] by in the scene, along
    x: where it was less where it is. *)
Definition movedLeftBy (before after : Graph.t) (nid : nat) : option float :=
  match Graph.findNode before nid, Graph.findNode after nid with
  | Some a, Some b => Some (px (Graph.scenePos before a) - px (Graph.scenePos after b))
  | _, _ => None
  end.

End Double.

(** * Properties of [Graph] *)

(** Halving is a multiplication by 1/2, which linear arithmetic accepts. *)
Ltac halves := unfold Qdiv in *; change (/ 2) with (1 # 2) in *.

Section GraphFacts.
Context `{Platform}.

Lemma fold_min_compat (l : list Q) (a b : Q) :
  a == b -> fold_left Qmin l a == fold_left Qmin l b.
Proof.
  revert a b; induction l as [|x l IH]; intros a b E; simpl; [exact E|].
  apply IH. now rewrite E.
Qed.

Lemma fold_max_compat (l : list Q) (a b : Q) :
  a == b -> fold_left Qmax l a == fold_left Qmax l b.
Proof.
  revert a b; induction l as [|x l IH]; intros a b E; simpl; [exact E|].
  apply IH. now rewrite E.
Qed.

Lemma fold_min_shift (c : Q) (l : list Q) (a : Q) :
  fold_left Qmin (map (fun x => x - c) l) (a - c) == fold_left Qmin l a - c.
Proof.
  revert a; induction l as [|x l IH]; intros a; simpl; [reflexivity|].
  rewrite <- IH. apply fold_min_compat.
  destruct (Q.min_spec a x) as [[? E]|[? E]];
    destruct (Q.min_spec (a - c) (x - c)) as [[? E']|[? E']]; lra.
Qed.

Lemma fold_max_shift (c : Q) (l : list Q) (a : Q) :
  fold_left Qmax (map (fun x => x - c) l) (a - c) == fold_left Qmax l a - c.
Proof.
  revert a; induction l as [|x l IH]; intros a; simpl; [reflexivity|].
  rewrite <- IH. apply fold_max_compat.
  destruct (Q.max_spec a x) as [[? E]|[? E]];
    destruct (Q.max_spec (a - c) (x - c)) as [[? E']|[? E']]; lra.
Qed.

Lemma minOf_shift (c : Q) (l : list Q) :
  l <> [] -> minOf (map (fun x => x - c) l) == minOf l - c.
Proof. destruct l; [congruence|]; intros _; apply fold_min_shift. Qed.

Lemma maxOf_shift (c : Q) (l : list Q) :
  l <> [] -> maxOf (map (fun x => x - c) l) == maxOf l - c.
Proof. destruct l; [congruence|]; intros _; apply fold_max_shift. Qed.

(** With equal low and high candidates the two-branch update of
    [boundingBox] is the usual running minimum and maximum. *)
Lemma widen_point (lo hi v : Q) :
  lo <= hi ->
  fst (Graph.widen lo hi v v) == Qmin lo v /\
  snd (Graph.widen lo hi v v) == Qmax hi v /\
  fst (Graph.widen lo hi v v) <= snd (Graph.widen lo hi v v).
Proof.
  intros Hle. unfold Graph.widen.
  destruct (Qlt_le_dec hi v); [|destruct (Qlt_le_dec v lo)]; simpl;
    destruct (Q.min_spec lo v) as [[? ?]|[? ?]];
    destruct (Q.max_spec hi v) as [[? ?]|[? ?]]; repeat split; lra.
Qed.

Definition xsOf (items : list Item) : list Q := map (fun n => px (Node.pos n)) (Graph.nodesOf items).
Definition ysOf (items : list Item) : list Q := map (fun n => py (Node.pos n)) (Graph.nodesOf items).

(** The graph-relative part of the accumulator once a first node has
    been seen. *)
Lemma fold_step_RG (g : Graph.t) (u : bool) (items : list Item) (a : Graph.Acc) :
  Graph.firstNode a = false ->
  Graph.RGminx a <= Graph.RGmaxx a ->
  Graph.RGminy a <= Graph.RGmaxy a ->
  let a' := fold_left (Graph.step g u) items a in
  Graph.RGminx a' == fold_left Qmin (xsOf items) (Graph.RGminx a) /\
  Graph.RGmaxx a' == fold_left Qmax (xsOf items) (Graph.RGmaxx a) /\
  Graph.RGminy a' == fold_left Qmin (ysOf items) (Graph.RGminy a) /\
  Graph.RGmaxy a' == fold_left Qmax (ysOf items) (Graph.RGmaxy a).
Proof.
  revert a; induction items as [|it items IH]; intros a Hf Hx Hy; simpl.
  - repeat split; reflexivity.
  - destruct it as [n|e]; [|apply IH; assumption].
    unfold xsOf, ysOf; simpl.
    pose proof (widen_point _ _ (px (Node.pos n)) Hx) as (Ex1 & Ex2 & Ex3).
    pose proof (widen_point _ _ (py (Node.pos n)) Hy) as (Ey1 & Ey2 & Ey3).
    simpl Graph.step. rewrite Hf.
    destruct (Graph.widen (Graph.minx a) _ _ _) as [a1 a2].
    destruct (Graph.widen (Graph.miny a) _ _ _) as [b1 b2].
    destruct (Graph.widen (Graph.RGminx a) _ _ _) as [c1 c2].
    destruct (Graph.widen (Graph.RGminy a) _ _ _) as [d1 d2].
    simpl in Ex1, Ex2, Ex3, Ey1, Ey2, Ey3.
    match goal with |- context [fold_left _ items ?acc] =>
      destruct (IH acc eq_refl Ex3 Ey3) as (I1 & I2 & I3 & I4) end.
    simpl in I1, I2, I3, I4.
    repeat split.
    + rewrite I1. now apply fold_min_compat.
    + rewrite I2. now apply fold_max_compat.
    + rewrite I3. now apply fold_min_compat.
    + rewrite I4. now apply fold_max_compat.
Qed.

(** Before the first node the loop leaves the accumulator alone. *)
Lemma fold_step_no_node (g : Graph.t) (u : bool) (items : list Item) (a : Graph.Acc) :
  Graph.nodesOf items = [] -> fold_left (Graph.step g u) items a = a.
Proof.
  revert a; induction items as [|[n|e] items IH]; intros a Hn; simpl in *;
    [reflexivity|discriminate|now apply IH].
Qed.

Lemma fold_step_first (g : Graph.t) (u : bool) (items : list Item) (a : Graph.Acc) :
  Graph.firstNode a = true ->
  Graph.nodesOf items <> [] ->
  let a' := fold_left (Graph.step g u) items a in
  Graph.RGminx a' == minOf (xsOf items) /\
  Graph.RGmaxx a' == maxOf (xsOf items) /\
  Graph.RGminy a' == minOf (ysOf items) /\
  Graph.RGmaxy a' == maxOf (ysOf items).
Proof.
  revert a; induction items as [|[n|e] items IH]; intros a Hf Hn; simpl in *.
  - congruence.
  - rewrite Hf. unfold xsOf, ysOf; simpl.
    match goal with |- context [fold_left _ items ?acc] =>
      pose proof (fold_step_RG g u items acc eq_refl) as HRG end.
    exact (HRG (Qle_refl _) (Qle_refl _)).
  - apply IH; assumption.
Qed.

(** The copy-out [RGcenter] is the midpoint of the extreme node
    coordinates in the graph's frame. *)
Lemma RGcenter_midpoint (g : Graph.t) (u : bool) :
  Graph.nodes g <> [] ->
  px (snd (Graph.boundingBox g u)) == (maxOf (localXs g) + minOf (localXs g)) / 2 /\
  py (snd (Graph.boundingBox g u)) == (maxOf (localYs g) + minOf (localYs g)) / 2.
Proof.
  intros Hn. unfold Graph.boundingBox, Graph.accumulate; simpl.
  destruct (fold_step_first g u (Graph.childItems g) Graph.acc0 eq_refl Hn)
    as (E1 & E2 & E3 & E4).
  unfold localXs, localYs, Graph.nodes. fold (xsOf (Graph.childItems g)).
  fold (ysOf (Graph.childItems g)).
  split; [rewrite E1, E2 | rewrite E3, E4]; reflexivity.
Qed.

Lemma RGcenter_no_node (g : Graph.t) (u : bool) :
  Graph.nodes g = [] -> peq (snd (Graph.boundingBox g u)) origin.
Proof.
  intros Hn. unfold Graph.boundingBox, Graph.accumulate.
  rewrite (fold_step_no_node g u _ _ Hn). split; reflexivity.
Qed.

Lemma nodesOf_recenter (c : QPointF) (items : list Item) :
  Graph.nodesOf (map (Graph.recenter c) items)
  = map (fun n => Node.setPos n (psub (Node.pos n) c)) (Graph.nodesOf items).
Proof.
  induction items as [|[n|e] items IH]; simpl; [reflexivity| |assumption].
  now rewrite IH.
Qed.

Lemma centerGraph_unfold (g : Graph.t) :
  Graph.centerGraph g
  = Graph.mk (padd (Graph.pos g) (snd (Graph.boundingBox g false)))
             (Graph.rotation g)
             (map (Graph.recenter (snd (Graph.boundingBox g false))) (Graph.childItems g)).
Proof.
  reflexivity.
Qed.

Lemma localXs_centerGraph (g : Graph.t) :
  localXs (Graph.centerGraph g)
  = map (fun x => x - px (snd (Graph.boundingBox g false))) (localXs g).
Proof.
  rewrite centerGraph_unfold. unfold localXs, Graph.nodes; simpl.
  rewrite nodesOf_recenter, !map_map. reflexivity.
Qed.

Lemma localYs_centerGraph (g : Graph.t) :
  localYs (Graph.centerGraph g)
  = map (fun y => y - py (snd (Graph.boundingBox g false))) (localYs g).
Proof.
  rewrite centerGraph_unfold. unfold localYs, Graph.nodes; simpl.
  rewrite nodesOf_recenter, !map_map. reflexivity.
Qed.

Lemma nodes_centerGraph_nil (g : Graph.t) :
  Graph.nodes g = [] -> Graph.nodes (Graph.centerGraph g) = [].
Proof.
  intros Hn. rewrite centerGraph_unfold. unfold Graph.nodes in *; simpl.
  now rewrite nodesOf_recenter, Hn.
Qed.

End GraphFacts.

(** * Facts about the items of a scene *)

Lemma refEqb_eq (a b : ItemRef) : refEqb a b = true <-> a = b.
Proof.
  destruct a, b; simpl; rewrite ?Nat.eqb_eq; split; intros E;
    try discriminate; try (inversion E; reflexivity); try (now subst).
Qed.

Lemma refEqb_refl (a : ItemRef) : refEqb a a = true.
Proof. now apply refEqb_eq. Qed.

Lemma refEqb_neq (a b : ItemRef) : refEqb a b = false <-> a <> b.
Proof.
  split.
  - intros E Heq. apply refEqb_eq in Heq. congruence.
  - intros Hne. destruct (refEqb a b) eqn:E; [|reflexivity].
    apply refEqb_eq in E. contradiction.
Qed.

Lemma refOf_setItemPos (it : Item) (p : QPointF) : refOf (setItemPos it p) = refOf it.
Proof. destruct it; reflexivity. Qed.

Lemma refOf_setItemRotation (it : Item) (r : Q) : refOf (setItemRotation it r) = refOf it.
Proof. destruct it; reflexivity. Qed.

Lemma contains_In (l : list nat) (x : nat) : contains l x = true <-> In x l.
Proof.
  unfold contains. rewrite existsb_exists. split.
  - intros (y & Hy & E). apply Nat.eqb_eq in E. now subst.
  - intros Hin. exists x. split; [assumption|apply Nat.eqb_refl].
Qed.

Lemma containsRef_In (l : list ItemRef) (x : ItemRef) : containsRef l x = true <-> In x l.
Proof.
  unfold containsRef. rewrite existsb_exists. split.
  - intros (y & Hy & E). apply refEqb_eq in E. now subst.
  - intros Hin. exists x. split; [assumption|apply refEqb_refl].
Qed.

(** The graphs of a scene after a change that keeps the identity of every
    graph: [G] gives the new graph from the identity and the old graph. *)
Lemma In_map_graphs (G : nat * Graph.t -> Graph.t) (gs : Graphs) (gid : nat) (g' : Graph.t) :
  In (gid, g') (map (fun kg => (fst kg, G kg)) gs) <->
  exists g, In (gid, g) gs /\ g' = G (gid, g).
Proof.
  rewrite in_map_iff. split.
  - intros ([k g] & E & Hin). simpl in E. inversion E; subst. now exists g.
  - intros (g & Hin & ->). now exists (gid, g).
Qed.

Lemma keys_map_graphs (G : nat * Graph.t -> Graph.t) (gs : Graphs) :
  keys (map (fun kg => (fst kg, G kg)) gs) = keys gs.
Proof. unfold keys. rewrite map_map. reflexivity. Qed.

Lemma updateGraph_as_map (k : nat) (f : Graph.t -> Graph.t) (gs : Graphs) :
  Items.updateGraph k f gs
  = map (fun kg => (fst kg, if Nat.eqb (fst kg) k then f (snd kg) else snd kg)) gs.
Proof.
  unfold Items.updateGraph. apply map_ext. intros [k' g]; simpl.
  destruct (Nat.eqb k' k); reflexivity.
Qed.

Lemma keys_updateGraph (k : nat) (f : Graph.t -> Graph.t) (gs : Graphs) :
  keys (Items.updateGraph k f gs) = keys gs.
Proof. rewrite updateGraph_as_map. apply keys_map_graphs. Qed.

Lemma keys_mapItems (f : Item -> Item) (gs : Graphs) : keys (Items.mapItems f gs) = keys gs.
Proof. apply keys_map_graphs. Qed.

Lemma keys_detach (r : ItemRef) (gs : Graphs) : keys (Items.detach r gs) = keys gs.
Proof. apply keys_map_graphs. Qed.

Lemma keys_attach (k : nat) (it : Item) (gs : Graphs) : keys (Items.attach k it gs) = keys gs.
Proof. apply keys_updateGraph. Qed.

Lemma keys_updateNode (nid : nat) (f : Node.t -> Node.t) (gs : Graphs) :
  keys (Items.updateNode nid f gs) = keys gs.
Proof. apply keys_mapItems. Qed.

Lemma keys_updateEdge (eid : nat) (f : Edge.t -> Edge.t) (gs : Graphs) :
  keys (Items.updateEdge eid f gs) = keys gs.
Proof. apply keys_mapItems. Qed.

Lemma InGraph_mapItems (f : Item -> Item) (gs : Graphs) (gid : nat) (it' : Item) :
  InGraph (Items.mapItems f gs) gid it' <-> exists it, InGraph gs gid it /\ it' = f it.
Proof.
  unfold InGraph, Items.mapItems. split.
  - intros (g' & Hin & Hit). apply In_map_graphs in Hin. destruct Hin as (g & Hg & ->).
    simpl in Hit. apply in_map_iff in Hit. destruct Hit as (it & <- & Hit).
    exists it. split; [now exists g|reflexivity].
  - intros (it & (g & Hg & Hit) & ->). eexists. split.
    + apply In_map_graphs. exists g. split; [exact Hg|reflexivity].
    + simpl. now apply in_map.
Qed.

Lemma InGraph_detach (r : ItemRef) (gs : Graphs) (gid : nat) (it : Item) :
  InGraph (Items.detach r gs) gid it <-> InGraph gs gid it /\ refOf it <> r.
Proof.
  unfold InGraph, Items.detach. split.
  - intros (g' & Hin & Hit). apply In_map_graphs in Hin. destruct Hin as (g & Hg & ->).
    simpl in Hit. apply filter_In in Hit. destruct Hit as [Hit Hne].
    split; [now exists g|]. apply negb_true_iff, refEqb_neq in Hne. exact Hne.
  - intros ((g & Hg & Hit) & Hne). eexists. split.
    + apply In_map_graphs. exists g. split; [exact Hg|reflexivity].
    + simpl. apply filter_In. split; [assumption|].
      apply negb_true_iff, refEqb_neq. exact Hne.
Qed.

Lemma InGraph_updateGraph (k : nat) (f : Graph.t -> Graph.t) (gs : Graphs) (gid : nat) (it : Item) :
  InGraph (Items.updateGraph k f gs) gid it <->
  exists g, In (gid, g) gs /\ In it (Graph.childItems (if Nat.eqb gid k then f g else g)).
Proof.
  unfold InGraph. rewrite updateGraph_as_map. split.
  - intros (g' & Hin & Hit). apply In_map_graphs in Hin. destruct Hin as (g & Hg & ->).
    exists g. split; assumption.
  - intros (g & Hg & Hit). eexists. split.
    + apply In_map_graphs. exists g. split; [exact Hg|reflexivity].
    + exact Hit.
Qed.

Lemma InGraph_attach (k : nat) (it0 : Item) (gs : Graphs) (gid : nat) (it : Item) :
  InGraph (Items.attach k it0 gs) gid it <->
  InGraph gs gid it \/ (gid = k /\ it = it0 /\ In k (keys gs)).
Proof.
  unfold Items.attach. rewrite InGraph_updateGraph. split.
  - intros (g & Hg & Hit). destruct (Nat.eqb gid k) eqn:E.
    + apply Nat.eqb_eq in E. subst gid. simpl in Hit. apply in_app_iff in Hit.
      destruct Hit as [Hit|[<-|[]]].
      * left. now exists g.
      * right. repeat split. unfold keys. apply in_map_iff. now exists (k, g).
    + left. now exists g.
  - intros [(g & Hg & Hit)|(-> & -> & Hk)].
    + exists g. split; [assumption|]. destruct (Nat.eqb gid k); [|assumption].
      simpl. apply in_app_iff. now left.
    + unfold keys in Hk. apply in_map_iff in Hk. destruct Hk as ([k' g] & E & Hg).
      simpl in E. subst k'. exists g. split; [assumption|].
      rewrite Nat.eqb_refl. simpl. apply in_app_iff. right. now left.
Qed.

Lemma InGraph_removeGraph (k : nat) (gs : Graphs) (gid : nat) (it : Item) :
  InGraph (Items.removeGraph k gs) gid it <-> InGraph gs gid it /\ gid <> k.
Proof.
  unfold InGraph, Items.removeGraph. split.
  - intros (g & Hin & Hit). apply filter_In in Hin. destruct Hin as [Hin Hne].
    simpl in Hne. apply negb_true_iff, Nat.eqb_neq in Hne. split; [now exists g|assumption].
  - intros ((g & Hg & Hit) & Hne). exists g. split; [|assumption].
    apply filter_In. split; [assumption|]. simpl. now apply negb_true_iff, Nat.eqb_neq.
Qed.

Lemma InGraph_app_new (k : nat) (gs : Graphs) (gid : nat) (it : Item) :
  InGraph (gs ++ [(k, Graph.new)]) gid it <-> InGraph gs gid it.
Proof.
  unfold InGraph. split.
  - intros (g & Hin & Hit). apply in_app_iff in Hin. destruct Hin as [Hin|[E|[]]].
    + now exists g.
    + inversion E; subst. destruct Hit.
  - intros (g & Hin & Hit). exists g. split; [|assumption]. apply in_app_iff. now left.
Qed.

Lemma keys_app_new (k : nat) (gs : Graphs) : keys (gs ++ [(k, Graph.new)]) = keys gs ++ [k].
Proof. unfold keys. now rewrite map_app. Qed.

Lemma keys_removeGraph (k : nat) (gs : Graphs) :
  keys (Items.removeGraph k gs) = filter (fun x => negb (Nat.eqb x k)) (keys gs).
Proof.
  unfold keys, Items.removeGraph. induction gs as [|[k' g] gs IH]; simpl; [reflexivity|].
  destruct (Nat.eqb k' k); simpl; now rewrite IH.
Qed.

(** The new identity is not in use. *)
Lemma list_max_ge (l : list nat) (x : nat) : In x l -> (x <= list_max l)%nat.
Proof.
  induction l as [|y l IH]; simpl; [intros []|]. intros [->|Hin]; [lia|].
  specialize (IH Hin). lia.
Qed.

Lemma fresh_not_key (gs : Graphs) (others : list nat) : ~ In (Items.fresh gs others) (keys gs).
Proof.
  unfold Items.fresh, keys. intros Hin.
  assert (Hle : (S (list_max (map fst gs ++ others)) <= list_max (map fst gs ++ others))%nat).
  { apply list_max_ge. apply in_app_iff. now left. }
  lia.
Qed.

Lemma fresh_not_other (gs : Graphs) (others : list nat) : ~ In (Items.fresh gs others) others.
Proof.
  unfold Items.fresh. intros Hin.
  assert (Hle : (S (list_max (map fst gs ++ others)) <= list_max (map fst gs ++ others))%nat).
  { apply list_max_ge. apply in_app_iff. now right. }
  lia.
Qed.

(** ** The identities of the items *)

Lemma NoDup_app_inv {A : Type} (l1 l2 : list A) :
  NoDup (l1 ++ l2) -> NoDup l1 /\ NoDup l2 /\ (forall a, In a l1 -> ~ In a l2).
Proof.
  intros Hnd. split; [now apply NoDup_app_remove_r in Hnd|].
  split; [now apply NoDup_app_remove_l in Hnd|].
  induction l1 as [|x l1 IH]; intros a Hin; [destruct Hin|].
  simpl in Hnd. inversion Hnd as [|? ? Hnot Hnd']; subst.
  destruct Hin as [->|Hin].
  - intros Hin2. apply Hnot. apply in_app_iff. now right.
  - now apply IH.
Qed.

Lemma refs_cons (k : nat) (g : Graph.t) (gs : Graphs) :
  refs ((k, g) :: gs) = map refOf (Graph.childItems g) ++ refs gs.
Proof. unfold refs, Items.allItems. simpl. now rewrite map_app. Qed.

Lemma refs_map_graphs (G : nat * Graph.t -> Graph.t) (gs : Graphs) :
  (forall kg, In kg gs ->
     map refOf (Graph.childItems (G kg)) = map refOf (Graph.childItems (snd kg))) ->
  refs (map (fun kg => (fst kg, G kg)) gs) = refs gs.
Proof.
  induction gs as [|[k g] gs IH]; intros HG; [reflexivity|].
  simpl map. rewrite !refs_cons. rewrite IH by (intros kg Hin; apply HG; now right).
  f_equal. apply (HG (k, g)). now left.
Qed.

Lemma refs_mapItems (f : Item -> Item) (gs : Graphs) :
  (forall it, refOf (f it) = refOf it) -> refs (Items.mapItems f gs) = refs gs.
Proof.
  intros Hf. apply refs_map_graphs. intros kg _. simpl.
  rewrite map_map. apply map_ext. exact Hf.
Qed.

Lemma refs_updateNode (nid : nat) (f : Node.t -> Node.t) (gs : Graphs) :
  (forall n, Node.id (f n) = Node.id n) -> refs (Items.updateNode nid f gs) = refs gs.
Proof.
  intros Hf. apply refs_mapItems. intros [n|e]; [|reflexivity].
  destruct (Nat.eqb (Node.id n) nid); simpl; now rewrite ?Hf.
Qed.

Lemma refs_updateEdge (eid : nat) (f : Edge.t -> Edge.t) (gs : Graphs) :
  (forall e, Edge.id (f e) = Edge.id e) -> refs (Items.updateEdge eid f gs) = refs gs.
Proof.
  intros Hf. apply refs_mapItems. intros [n|e]; [reflexivity|].
  destruct (Nat.eqb (Edge.id e) eid); simpl; now rewrite ?Hf.
Qed.

Lemma refs_updateGraph (k : nat) (f : Graph.t -> Graph.t) (gs : Graphs) :
  (forall g, map refOf (Graph.childItems (f g)) = map refOf (Graph.childItems g)) ->
  refs (Items.updateGraph k f gs) = refs gs.
Proof.
  intros Hf. rewrite updateGraph_as_map. apply refs_map_graphs. intros [k' g] _. simpl.
  destruct (Nat.eqb k' k); [apply Hf|reflexivity].
Qed.

Lemma refs_detach (r : ItemRef) (gs : Graphs) :
  refs (Items.detach r gs) = filter (fun x => negb (refEqb x r)) (refs gs).
Proof.
  induction gs as [|[k g] gs IH]; [reflexivity|].
  unfold Items.detach in *. simpl map. rewrite !refs_cons, filter_app, IH. f_equal.
  simpl. induction (Graph.childItems g) as [|it l IHl]; simpl; [reflexivity|].
  destruct (refEqb (refOf it) r); simpl; now rewrite IHl.
Qed.

Lemma refs_app_new (k : nat) (gs : Graphs) : refs (gs ++ [(k, Graph.new)]) = refs gs.
Proof.
  unfold refs, Items.allItems. rewrite flat_map_app. simpl. now rewrite !app_nil_r.
Qed.

Lemma In_refs (gs : Graphs) (r : ItemRef) :
  In r (refs gs) <-> exists gid it, InGraph gs gid it /\ refOf it = r.
Proof.
  unfold refs, Items.allItems, InGraph. rewrite in_map_iff. split.
  - intros (it & E & Hin). apply in_flat_map in Hin. destruct Hin as ([k g] & Hg & Hit).
    exists k, it. split; [now exists g|assumption].
  - intros (gid & it & (g & Hg & Hit) & E). exists it. split; [assumption|].
    apply in_flat_map. now exists (gid, g).
Qed.

Lemma NoDup_refs_detach (r : ItemRef) (gs : Graphs) :
  NoDup (refs gs) -> NoDup (refs (Items.detach r gs)).
Proof. intros Hnd. rewrite refs_detach. now apply NoDup_filter. Qed.

Lemma not_In_refs_detach (r : ItemRef) (gs : Graphs) : ~ In r (refs (Items.detach r gs)).
Proof.
  rewrite refs_detach. intros Hin. apply filter_In in Hin. destruct Hin as [_ Hne].
  rewrite refEqb_refl in Hne. discriminate.
Qed.

Lemma attach_absent (k : nat) (it : Item) (gs : Graphs) :
  ~ In k (keys gs) -> Items.attach k it gs = gs.
Proof.
  intros Hk. unfold Items.attach, Items.updateGraph.
  rewrite <- (map_id gs) at 2. apply map_ext_in. intros [k' g] Hin. simpl.
  destruct (Nat.eqb k' k) eqn:E; [|reflexivity]. apply Nat.eqb_eq in E. subst k'.
  exfalso. apply Hk. unfold keys. apply in_map_iff. now exists (k, g).
Qed.

Lemma refs_attach (k : nat) (it : Item) (gs : Graphs) :
  NoDup (keys gs) -> In k (keys gs) ->
  Permutation (refs (Items.attach k it gs)) (refOf it :: refs gs).
Proof.
  induction gs as [|[k' g] gs IH]; intros Hnd Hk; [destruct Hk|].
  unfold keys in Hnd, Hk. simpl in Hnd, Hk. inversion Hnd as [|? ? Hnot Hnd']; subst.
  unfold Items.attach, Items.updateGraph in *. simpl map.
  destruct (Nat.eqb k' k) eqn:E.
  - apply Nat.eqb_eq in E. subst k'. rewrite !refs_cons. simpl.
    fold (Items.updateGraph k (fun g0 => Items.setChildren g0 (Graph.childItems g0 ++ [it])) gs).
    fold (Items.attach k it gs). rewrite (attach_absent k it gs Hnot).
    rewrite map_app. simpl. rewrite <- app_assoc. simpl.
    apply Permutation_sym, Permutation_middle.
  - apply Nat.eqb_neq in E. destruct Hk as [Hk|Hk]; [congruence|].
    rewrite !refs_cons. rewrite (IH Hnd' Hk). apply Permutation_sym, Permutation_middle.
Qed.

Lemma NoDup_refs_attach (k : nat) (it : Item) (gs : Graphs) :
  NoDup (keys gs) -> NoDup (refs gs) -> ~ In (refOf it) (refs gs) ->
  NoDup (refs (Items.attach k it gs)).
Proof.
  intros Hk Hnd Hnew. destruct (in_dec Nat.eq_dec k (keys gs)) as [Hin|Hout].
  - apply (Permutation_NoDup (Permutation_sym (refs_attach k it gs Hk Hin))).
    now constructor.
  - now rewrite attach_absent.
Qed.

Lemma NoDup_refs_reparent (k : nat) (it : Item) (p : QPointF) (gs : Graphs) :
  NoDup (keys gs) -> NoDup (refs gs) -> NoDup (refs (Items.reparent k it p gs)).
Proof.
  intros Hk Hnd. unfold Items.reparent. apply NoDup_refs_attach.
  - now rewrite keys_detach.
  - now apply NoDup_refs_detach.
  - rewrite refOf_setItemRotation, refOf_setItemPos. apply not_In_refs_detach.
Qed.

Lemma NoDup_refs_removeGraph (k : nat) (gs : Graphs) :
  NoDup (refs gs) -> NoDup (refs (Items.removeGraph k gs)).
Proof.
  unfold Items.removeGraph. induction gs as [|[k' g] gs IH]; intros Hnd; [assumption|].
  rewrite refs_cons in Hnd. simpl. destruct (negb (Nat.eqb k' k)).
  - rewrite refs_cons. destruct (NoDup_app_inv _ _ Hnd) as (H1 & H2 & H3).
    apply NoDup_app; [assumption|now apply IH|].
    intros x Hx Hx'. apply (H3 x Hx). apply In_refs in Hx'.
    destruct Hx' as (gid & it & Hit & E). apply In_refs. exists gid, it. split; [|assumption].
    fold (Items.removeGraph k gs) in Hit. now apply InGraph_removeGraph in Hit.
  - apply IH. now apply NoDup_app_remove_l in Hnd.
Qed.

Lemma NoDup_keys_removeGraph (k : nat) (gs : Graphs) :
  NoDup (keys gs) -> NoDup (keys (Items.removeGraph k gs)).
Proof. intros Hnd. rewrite keys_removeGraph. now apply NoDup_filter. Qed.

Lemma NoDup_keys_app_new (k : nat) (gs : Graphs) :
  NoDup (keys gs) -> ~ In k (keys gs) -> NoDup (keys (gs ++ [(k, Graph.new)])).
Proof.
  intros Hnd Hk. rewrite keys_app_new. apply NoDup_app; [assumption| |].
  - repeat constructor. intros [].
  - intros x Hx [<-|[]]. contradiction.
Qed.

(** ** Looking items up *)

Lemma findIn_Some (items : list Item) (r : ItemRef) (it : Item) :
  Items.findIn items r = Some it -> In it items /\ refOf it = r.
Proof.
  unfold Items.findIn. intros Hf. apply find_some in Hf. destruct Hf as [Hin E].
  apply refEqb_eq in E. now split.
Qed.

Lemma findIn_None (items : list Item) (r : ItemRef) :
  Items.findIn items r = None -> ~ In r (map refOf items).
Proof.
  unfold Items.findIn. intros Hf Hin. apply in_map_iff in Hin.
  destruct Hin as (it & E & Hin). pose proof (find_none _ _ Hf it Hin) as Hno.
  simpl in Hno. rewrite E, refEqb_refl in Hno. discriminate.
Qed.

Lemma NoDup_map_eq {A B : Type} (f : A -> B) (l : list A) (x y : A) :
  NoDup (map f l) -> In x l -> In y l -> f x = f y -> x = y.
Proof.
  induction l as [|a l IH]; intros Hnd Hx Hy E; [destruct Hx|].
  simpl in Hnd. inversion Hnd as [|? ? Hnot Hnd']; subst.
  destruct Hx as [->|Hx], Hy as [->|Hy].
  - reflexivity.
  - exfalso. apply Hnot. rewrite E. now apply in_map.
  - exfalso. apply Hnot. rewrite <- E. now apply in_map.
  - now apply IH.
Qed.

Lemma findItem_Some (gs : Graphs) (r : ItemRef) (gid : nat) (it : Item) :
  Items.findItem gs r = Some (gid, it) -> InGraph gs gid it /\ refOf it = r.
Proof.
  induction gs as [|[k g] gs IH]; simpl; [discriminate|].
  destruct (Items.findIn (Graph.childItems g) r) as [it'|] eqn:E.
  - intros Hs. inversion Hs; subst. apply findIn_Some in E. destruct E as [Hin E].
    split; [|assumption]. exists g. split; [now left|assumption].
  - intros Hs. destruct (IH Hs) as [(g0 & Hg0 & Hit) E']. split; [|assumption].
    exists g0. split; [now right|assumption].
Qed.

Lemma findItem_None (gs : Graphs) (r : ItemRef) :
  Items.findItem gs r = None <-> ~ In r (refs gs).
Proof.
  induction gs as [|[k g] gs IH]; simpl.
  - split; [intros _ []|reflexivity].
  - rewrite refs_cons. destruct (Items.findIn (Graph.childItems g) r) as [it'|] eqn:E.
    + split; [discriminate|]. intros Hnot. exfalso. apply Hnot.
      apply findIn_Some in E. destruct E as [Hin <-]. apply in_app_iff. left. now apply in_map.
    + rewrite IH. apply findIn_None in E. rewrite in_app_iff. tauto.
Qed.

(** With one identity per item, an item is found where it is. *)
Lemma findItem_InGraph (gs : Graphs) (gid : nat) (it : Item) :
  NoDup (refs gs) -> InGraph gs gid it -> Items.findItem gs (refOf it) = Some (gid, it).
Proof.
  induction gs as [|[k g] gs IH]; intros Hnd (g0 & Hg0 & Hit); [destruct Hg0|].
  rewrite refs_cons in Hnd. destruct (NoDup_app_inv _ _ Hnd) as (H1 & H2 & H3).
  simpl. destruct (Items.findIn (Graph.childItems g) (refOf it)) as [it'|] eqn:E.
  - apply findIn_Some in E. destruct E as [Hin' E'].
    destruct Hg0 as [Hg0|Hg0].
    + inversion Hg0; subst. f_equal. f_equal.
      now apply (NoDup_map_eq refOf (Graph.childItems g0)).
    + exfalso. apply (H3 (refOf it)).
      * rewrite <- E'. now apply in_map.
      * apply In_refs. exists gid, it. split; [now exists g0|reflexivity].
  - apply findIn_None in E. destruct Hg0 as [Hg0|Hg0].
    + inversion Hg0; subst. exfalso. apply E. now apply in_map.
    + apply IH; [assumption|now exists g0].
Qed.

Lemma InGraph_unique (gs : Graphs) (gid gid' : nat) (it it' : Item) :
  NoDup (refs gs) -> InGraph gs gid it -> InGraph gs gid' it' -> refOf it = refOf it' ->
  gid = gid' /\ it = it'.
Proof.
  intros Hnd H1 H2 E.
  pose proof (findItem_InGraph gs gid it Hnd H1) as F1.
  pose proof (findItem_InGraph gs gid' it' Hnd H2) as F2.
  rewrite E in F1. rewrite F1 in F2. inversion F2. now split.
Qed.

Lemma findNode_Some (gs : Graphs) (nid : nat) (n : Node.t) :
  Items.findNode gs nid = Some n -> (exists gid, nodeAt gs gid n) /\ Node.id n = nid.
Proof.
  unfold Items.findNode.
  destruct (Items.findItem gs (NodeRef nid)) as [[gid [n'|e]]|] eqn:E; try discriminate.
  intros Hs. inversion Hs; subst. apply findItem_Some in E. destruct E as [Hin E].
  simpl in E. inversion E. split; [now exists gid|reflexivity].
Qed.

Lemma findNode_nodeAt (gs : Graphs) (gid : nat) (n : Node.t) :
  NoDup (refs gs) -> nodeAt gs gid n -> Items.findNode gs (Node.id n) = Some n.
Proof.
  intros Hnd Hin. unfold Items.findNode.
  pose proof (findItem_InGraph gs gid (NodeItem n) Hnd Hin) as F. simpl in F.
  now rewrite F.
Qed.

Lemma findNode_None (gs : Graphs) (nid : nat) :
  Items.findNode gs nid = None -> forall gid n, nodeAt gs gid n -> Node.id n <> nid.
Proof.
  unfold Items.findNode. intros Hf gid n Hin E.
  destruct (Items.findItem gs (NodeRef nid)) as [[gid' [n'|e]]|] eqn:F; try discriminate.
  - apply findItem_Some in F. destruct F as [_ F]. discriminate.
  - apply findItem_None in F. apply F. apply In_refs. exists gid, (NodeItem n).
    split; [assumption|]. simpl. now rewrite E.
Qed.

Lemma findEdge_Some (gs : Graphs) (eid : nat) (e : Edge.t) :
  Items.findEdge gs eid = Some e -> (exists gid, edgeAt gs gid e) /\ Edge.id e = eid.
Proof.
  unfold Items.findEdge.
  destruct (Items.findItem gs (EdgeRef eid)) as [[gid [n|e']]|] eqn:E; try discriminate.
  intros Hs. inversion Hs; subst. apply findItem_Some in E. destruct E as [Hin E].
  simpl in E. inversion E. split; [now exists gid|reflexivity].
Qed.

Lemma findEdge_edgeAt (gs : Graphs) (gid : nat) (e : Edge.t) :
  NoDup (refs gs) -> edgeAt gs gid e -> Items.findEdge gs (Edge.id e) = Some e.
Proof.
  intros Hnd Hin. unfold Items.findEdge.
  pose proof (findItem_InGraph gs gid (EdgeItem e) Hnd Hin) as F. simpl in F.
  now rewrite F.
Qed.

Lemma findEdge_None (gs : Graphs) (eid : nat) :
  Items.findEdge gs eid = None -> forall gid e, edgeAt gs gid e -> Edge.id e <> eid.
Proof.
  unfold Items.findEdge. intros Hf gid e Hin E.
  destruct (Items.findItem gs (EdgeRef eid)) as [[gid' [n|e']]|] eqn:F; try discriminate.
  - apply findItem_Some in F. destruct F as [_ F]. discriminate.
  - apply findItem_None in F. apply F. apply In_refs. exists gid, (EdgeItem e).
    split; [assumption|]. simpl. now rewrite E.
Qed.

Lemma parentItem_nodeAt (gs : Graphs) (gid : nat) (n : Node.t) :
  NoDup (refs gs) -> nodeAt gs gid n -> Items.parentItem gs (NodeRef (Node.id n)) = Some gid.
Proof.
  intros Hnd Hin. unfold Items.parentItem.
  pose proof (findItem_InGraph gs gid (NodeItem n) Hnd Hin) as F. simpl in F.
  now rewrite F.
Qed.

Lemma parentItem_Some (gs : Graphs) (nid gid : nat) :
  Items.parentItem gs (NodeRef nid) = Some gid ->
  exists n, nodeAt gs gid n /\ Node.id n = nid.
Proof.
  unfold Items.parentItem.
  destruct (Items.findItem gs (NodeRef nid)) as [[gid' it]|] eqn:E; [|discriminate].
  intros Hs. inversion Hs; subst. apply findItem_Some in E. destruct E as [Hin E].
  destruct it as [n|e]; [|discriminate]. simpl in E. inversion E.
  now exists n.
Qed.

Lemma lookupGraph_In (gs : Graphs) (gid : nat) (g : Graph.t) :
  Items.lookupGraph gs gid = Some g -> In (gid, g) gs.
Proof.
  unfold Items.lookupGraph.
  destruct (find (fun kg => Nat.eqb (fst kg) gid) gs) as [[k g']|] eqn:E; [|discriminate].
  intros Hs. inversion Hs; subst. apply find_some in E. destruct E as [Hin E].
  simpl in E. apply Nat.eqb_eq in E. now subst.
Qed.

Lemma In_lookupGraph (gs : Graphs) (gid : nat) (g : Graph.t) :
  NoDup (keys gs) -> In (gid, g) gs -> Items.lookupGraph gs gid = Some g.
Proof.
  unfold Items.lookupGraph, keys.
  induction gs as [|[k g'] gs IH]; intros Hnd Hin; [destruct Hin|].
  simpl in Hnd. inversion Hnd as [|? ? Hnot Hnd']; subst. simpl.
  destruct Hin as [E|Hin].
  - inversion E; subst. now rewrite Nat.eqb_refl.
  - destruct (Nat.eqb k gid) eqn:E.
    + apply Nat.eqb_eq in E. subst k. exfalso. apply Hnot. apply in_map_iff.
      now exists (gid, g).
    + now apply IH.
Qed.

Lemma lookupGraph_None (gs : Graphs) (gid : nat) :
  Items.lookupGraph gs gid = None <-> ~ In gid (keys gs).
Proof.
  unfold Items.lookupGraph, keys. split.
  - intros Hf Hin. apply in_map_iff in Hin. destruct Hin as ([k g] & E & Hin).
    simpl in E. subst k.
    destruct (find (fun kg => Nat.eqb (fst kg) gid) gs) eqn:F; [discriminate|].
    pose proof (find_none _ _ F _ Hin) as Hno. simpl in Hno.
    rewrite Nat.eqb_refl in Hno. discriminate.
  - intros Hnot. destruct (find (fun kg => Nat.eqb (fst kg) gid) gs) as [[k g]|] eqn:F;
      [|reflexivity].
    apply find_some in F. destruct F as [Hin E]. simpl in E. apply Nat.eqb_eq in E. subst k.
    exfalso. apply Hnot. apply in_map_iff. now exists (gid, g).
Qed.

(** * How the operations change the nodes and edges of the graphs *)


Lemma sameTopo_refl (a : Item) : sameTopo a a.
Proof. destruct a; simpl; auto. Qed.

Lemma sameTopo_refOf (a b : Item) : sameTopo a b -> refOf b = refOf a.
Proof. destruct a, b; simpl; try tauto; intros (E & _); now rewrite E. Qed.

Lemma sameTopo_place (it : Item) (p : QPointF) (r : Q) :
  sameTopo it (setItemRotation (setItemPos it p) r).
Proof. destruct it; simpl; auto. Qed.

Lemma sameTopo_turnChild (r : Q) (it : Item) : sameTopo it (Graph.turnChild r it).
Proof. destruct it; simpl; auto. Qed.

Lemma sameTopo_recenter (c : QPointF) (it : Item) : sameTopo it (Graph.recenter c it).
Proof. destruct it; simpl; auto. Qed.


Lemma NodeT_topoStep (gs gs' : Graphs) (gid nid : nat) (es : list nat) (c : Z) :
  topoStep gs gs' -> (NodeT gs' gid nid es c <-> NodeT gs gid nid es c).
Proof.
  intros (_ & _ & Hback & Hforth). unfold NodeT, nodeAt. split.
  - intros (n' & Hin & E1 & E2 & E3). destruct (Hback _ _ Hin) as ([n|e] & Hin0 & Ht);
      simpl in Ht; [|destruct Ht]. destruct Ht as (T1 & T2 & T3).
    exists n. repeat split; congruence.
  - intros (n & Hin & E1 & E2 & E3). destruct (Hforth _ _ Hin) as ([n'|e] & Hin' & Ht);
      simpl in Ht; [|destruct Ht]. destruct Ht as (T1 & T2 & T3).
    exists n'. repeat split; congruence.
Qed.

Lemma EdgeT_topoStep (gs gs' : Graphs) (gid eid s d : nat) :
  topoStep gs gs' -> (EdgeT gs' gid eid s d <-> EdgeT gs gid eid s d).
Proof.
  intros (_ & _ & Hback & Hforth). unfold EdgeT, edgeAt. split.
  - intros (e' & Hin & E1 & E2 & E3). destruct (Hback _ _ Hin) as ([n|e] & Hin0 & Ht);
      simpl in Ht; [destruct Ht|]. destruct Ht as (T1 & T2 & T3).
    exists e. repeat split; congruence.
  - intros (e & Hin & E1 & E2 & E3). destruct (Hforth _ _ Hin) as ([n|e'] & Hin' & Ht);
      simpl in Ht; [destruct Ht|]. destruct Ht as (T1 & T2 & T3).
    exists e'. repeat split; congruence.
Qed.

Lemma topoStep_refl (gs : Graphs) : topoStep gs gs.
Proof.
  repeat split; intros gid it Hin; exists it; split; auto using sameTopo_refl.
Qed.

Lemma sameTopo_trans (a b c : Item) : sameTopo a b -> sameTopo b c -> sameTopo a c.
Proof.
  destruct a, b, c; simpl; try tauto; intros (A1 & A2 & A3) (B1 & B2 & B3);
    repeat split; congruence.
Qed.

Lemma topoStep_trans (a b c : Graphs) : topoStep a b -> topoStep b c -> topoStep a c.
Proof.
  intros (K1 & R1 & B1 & F1) (K2 & R2 & B2 & F2). repeat split; try congruence.
  - intros gid it' Hin. destruct (B2 _ _ Hin) as (it1 & Hin1 & T1).
    destruct (B1 _ _ Hin1) as (it0 & Hin0 & T0). exists it0. split; [assumption|].
    eapply sameTopo_trans; eassumption.
  - intros gid it Hin. destruct (F1 _ _ Hin) as (it1 & Hin1 & T1).
    destruct (F2 _ _ Hin1) as (it2 & Hin2 & T2). exists it2. split; [assumption|].
    eapply sameTopo_trans; eassumption.
Qed.

(** Changing one graph without touching the topology of its children. *)
Lemma Forall2_sameTopo_refs (l l' : list Item) :
  Forall2 sameTopo l l' -> map refOf l' = map refOf l.
Proof.
  induction 1 as [|a b l l' Hab _ IH]; simpl; [reflexivity|].
  now rewrite IH, (sameTopo_refOf _ _ Hab).
Qed.

Lemma Forall2_In_r {A B : Type} (R : A -> B -> Prop) (l : list A) (l' : list B) (b : B) :
  Forall2 R l l' -> In b l' -> exists a, In a l /\ R a b.
Proof.
  induction 1 as [|x y l l' Hxy _ IH]; intros Hin; [destruct Hin|].
  destruct Hin as [<-|Hin].
  - exists x. split; [now left|assumption].
  - destruct (IH Hin) as (a & Ha & HR). exists a. split; [now right|assumption].
Qed.

Lemma Forall2_In_l {A B : Type} (R : A -> B -> Prop) (l : list A) (l' : list B) (a : A) :
  Forall2 R l l' -> In a l -> exists b, In b l' /\ R a b.
Proof.
  induction 1 as [|x y l l' Hxy _ IH]; intros Hin; [destruct Hin|].
  destruct Hin as [<-|Hin].
  - exists y. split; [now left|assumption].
  - destruct (IH Hin) as (b & Hb & HR). exists b. split; [now right|assumption].
Qed.

Lemma Forall2_map_r {A B : Type} (R : A -> B -> Prop) (h : A -> B) (l : list A) :
  (forall a, R a (h a)) -> Forall2 R l (map h l).
Proof. intros Hh. induction l; simpl; constructor; auto. Qed.

Lemma topoStep_updateGraph (k : nat) (f : Graph.t -> Graph.t) (gs : Graphs) :
  (forall g, Forall2 sameTopo (Graph.childItems g) (Graph.childItems (f g))) ->
  topoStep gs (Items.updateGraph k f gs).
Proof.
  intros Hf. split; [apply keys_updateGraph|]. split.
  - apply refs_updateGraph. intros g. apply Forall2_sameTopo_refs, Hf.
  - split.
    + intros gid it' Hin. apply InGraph_updateGraph in Hin. destruct Hin as (g & Hg & Hit).
      destruct (Nat.eqb gid k).
      * destruct (Forall2_In_r _ _ _ _ (Hf g) Hit) as (it & Hit0 & Ht).
        exists it. split; [now exists g|assumption].
      * exists it'. split; [now exists g|apply sameTopo_refl].
    + intros gid it (g & Hg & Hit). destruct (Nat.eqb gid k) eqn:E.
      * destruct (Forall2_In_l _ _ _ _ (Hf g) Hit) as (it' & Hit' & Ht).
        exists it'. split; [|assumption].
        apply InGraph_updateGraph. exists g. split; [assumption|]. now rewrite E.
      * exists it. split; [|apply sameTopo_refl]. apply InGraph_updateGraph.
        exists g. split; [assumption|]. now rewrite E.
Qed.

Lemma Forall2_sameTopo_refl (l : list Item) : Forall2 sameTopo l l.
Proof. induction l; constructor; auto using sameTopo_refl. Qed.

Lemma topoStep_setPos (k : nat) (p : QPointF) (gs : Graphs) :
  topoStep gs (Items.updateGraph k (fun g => Graph.setPos g p) gs).
Proof.
  apply topoStep_updateGraph. intros g. apply Forall2_sameTopo_refl.
Qed.

Lemma topoStep_moveBy (k : nat) (dx dy : Q) (gs : Graphs) :
  topoStep gs (Items.updateGraph k (fun g => Graph.moveBy g dx dy) gs).
Proof.
  apply topoStep_updateGraph. intros g. apply Forall2_sameTopo_refl.
Qed.

Lemma topoStep_setRotation (k : nat) (a : Q) (rel : bool) (gs : Graphs) :
  topoStep gs (Items.updateGraph k (fun g => Graph.setRotation g a rel) gs).
Proof.
  apply topoStep_updateGraph. intros g. apply Forall2_map_r, sameTopo_turnChild.
Qed.

Lemma topoStep_centerGraph `{Platform} (k : nat) (gs : Graphs) :
  topoStep gs (Items.updateGraph k Graph.centerGraph gs).
Proof.
  apply topoStep_updateGraph. intros g. apply Forall2_map_r, sameTopo_recenter.
Qed.

Lemma topoStep_iter (n : nat) (F : Graphs -> Graphs) (gs : Graphs) :
  (forall x, topoStep x (F x)) -> topoStep gs (Nat.iter n F gs).
Proof.
  intros HF. induction n as [|n IH]; simpl; [apply topoStep_refl|].
  eapply topoStep_trans; [exact IH|apply HF].
Qed.

Lemma renumberItems_sameTopo `{Platform} (skip : list nat) (count : Z) (items : list Item) :
  Forall2 sameTopo items (CanvasScene.renumberItems skip count items).
Proof.
  revert count; induction items as [|[n|e] items IH]; intros count; simpl.
  - constructor.
  - destruct (contains skip (Node.id n)); constructor; simpl; auto.
  - constructor; simpl; auto.
Qed.

Lemma topoStep_renumber `{Platform} (n1 : nat) (skip : list nat) (newRoot : nat) (gs : Graphs) :
  topoStep gs (CanvasScene.renumber n1 skip newRoot gs).
Proof.
  unfold CanvasScene.renumber. destruct (Items.findNode gs n1) as [n|]; [|apply topoStep_refl].
  destruct (QString_toInt_ok (Node.getLabel n)); [|apply topoStep_refl].
  apply topoStep_updateGraph. intros g. simpl. apply renumberItems_sameTopo.
Qed.

(** ** Updates of single nodes and edges *)

Lemma NodeT_updateNode (k : nat) (f : Node.t -> Node.t) (fe : list nat -> list nat)
      (fc : Z -> Z) (gs : Graphs) (gid nid : nat) (es : list nat) (c : Z) :
  (forall n, Node.id (f n) = Node.id n /\ Node.edgeList (f n) = fe (Node.edgeList n)
             /\ Node.checked (f n) = fc (Node.checked n)) ->
  NodeT (Items.updateNode k f gs) gid nid es c <->
  exists es0 c0, NodeT gs gid nid es0 c0 /\
                 es = (if Nat.eqb nid k then fe es0 else es0) /\
                 c = (if Nat.eqb nid k then fc c0 else c0).
Proof.
  intros Hf. unfold NodeT, nodeAt, Items.updateNode. split.
  - intros (n' & Hin & E1 & E2 & E3). apply InGraph_mapItems in Hin.
    destruct Hin as ([n|e] & Hin & Eit); [|discriminate].
    destruct (Hf n) as (F1 & F2 & F3).
    exists (Node.edgeList n), (Node.checked n). split.
    + exists n. repeat split; try assumption.
      destruct (Nat.eqb (Node.id n) k); inversion Eit; subst; congruence.
    + destruct (Nat.eqb (Node.id n) k) eqn:Ek; inversion Eit; subst n'.
      * rewrite F1 in E1. subst nid. rewrite Ek. split; congruence.
      * subst nid. rewrite Ek. split; congruence.
  - intros (es0 & c0 & (n & Hin & E1 & E2 & E3) & -> & ->).
    destruct (Hf n) as (F1 & F2 & F3).
    exists (if Nat.eqb (Node.id n) k then f n else n). split.
    + apply InGraph_mapItems. exists (NodeItem n). split; [assumption|].
      destruct (Nat.eqb (Node.id n) k); reflexivity.
    + subst nid. destruct (Nat.eqb (Node.id n) k); repeat split; congruence.
Qed.

Lemma EdgeT_updateNode (k : nat) (f : Node.t -> Node.t) (gs : Graphs) (gid eid s d : nat) :
  EdgeT (Items.updateNode k f gs) gid eid s d <-> EdgeT gs gid eid s d.
Proof.
  unfold EdgeT, edgeAt, Items.updateNode. split.
  - intros (e & Hin & E). apply InGraph_mapItems in Hin.
    destruct Hin as ([n|e0] & Hin & Eit); [destruct (Nat.eqb _ _) in Eit; discriminate|].
    inversion Eit; subst. now exists e0.
  - intros (e & Hin & E). exists e. split; [|assumption].
    apply InGraph_mapItems. now exists (EdgeItem e).
Qed.

Lemma NodeT_updateEdge (k : nat) (f : Edge.t -> Edge.t) (gs : Graphs) (gid nid : nat)
      (es : list nat) (c : Z) :
  NodeT (Items.updateEdge k f gs) gid nid es c <-> NodeT gs gid nid es c.
Proof.
  unfold NodeT, nodeAt, Items.updateEdge. split.
  - intros (n & Hin & E). apply InGraph_mapItems in Hin.
    destruct Hin as ([n0|e] & Hin & Eit); [|destruct (Nat.eqb _ _) in Eit; discriminate].
    inversion Eit; subst. now exists n0.
  - intros (n & Hin & E). exists n. split; [|assumption].
    apply InGraph_mapItems. now exists (NodeItem n).
Qed.

Lemma EdgeT_updateEdge (k : nat) (f : Edge.t -> Edge.t) (fends : nat -> nat -> nat * nat)
      (gs : Graphs) (gid eid s d : nat) :
  (forall e, Edge.id (f e) = Edge.id e
             /\ (Edge.source (f e), Edge.dest (f e)) = fends (Edge.source e) (Edge.dest e)) ->
  EdgeT (Items.updateEdge k f gs) gid eid s d <->
  exists s0 d0, EdgeT gs gid eid s0 d0 /\
                (s, d) = (if Nat.eqb eid k then fends s0 d0 else (s0, d0)).
Proof.
  intros Hf. unfold EdgeT, edgeAt, Items.updateEdge. split.
  - intros (e' & Hin & E1 & E2 & E3). apply InGraph_mapItems in Hin.
    destruct Hin as ([n|e] & Hin & Eit); [discriminate|].
    destruct (Hf e) as (F1 & F2).
    exists (Edge.source e), (Edge.dest e). split.
    + exists e. repeat split; try assumption.
      destruct (Nat.eqb (Edge.id e) k); inversion Eit; subst; congruence.
    + destruct (Nat.eqb (Edge.id e) k) eqn:Ek; inversion Eit; subst e'.
      * rewrite F1 in E1. subst eid. rewrite Ek. rewrite <- F2. congruence.
      * subst eid. rewrite Ek. congruence.
  - intros (s0 & d0 & (e & Hin & E1 & E2 & E3) & Esd).
    destruct (Hf e) as (F1 & F2).
    exists (if Nat.eqb (Edge.id e) k then f e else e). split.
    + apply InGraph_mapItems. exists (EdgeItem e). split; [assumption|].
      destruct (Nat.eqb (Edge.id e) k); reflexivity.
    + subst eid s0 d0. destruct (Nat.eqb (Edge.id e) k).
      * rewrite <- F2 in Esd. inversion Esd. repeat split; congruence.
      * inversion Esd. repeat split; congruence.
Qed.

Lemma NodeT_detach_node (k : nat) (gs : Graphs) (gid nid : nat) (es : list nat) (c : Z) :
  NodeT (Items.detach (NodeRef k) gs) gid nid es c <-> NodeT gs gid nid es c /\ nid <> k.
Proof.
  unfold NodeT, nodeAt. split.
  - intros (n & Hin & E1 & E2 & E3). apply InGraph_detach in Hin. destruct Hin as [Hin Hne].
    split; [now exists n|]. simpl in Hne. congruence.
  - intros ((n & Hin & E1 & E2 & E3) & Hne). exists n. split; [|now repeat split].
    apply InGraph_detach. split; [assumption|]. simpl. congruence.
Qed.

Lemma NodeT_detach_edge (k : nat) (gs : Graphs) (gid nid : nat) (es : list nat) (c : Z) :
  NodeT (Items.detach (EdgeRef k) gs) gid nid es c <-> NodeT gs gid nid es c.
Proof.
  unfold NodeT, nodeAt. split.
  - intros (n & Hin & E). apply InGraph_detach in Hin. destruct Hin as [Hin _]. now exists n.
  - intros (n & Hin & E). exists n. split; [|assumption].
    apply InGraph_detach. split; [assumption|]. simpl. discriminate.
Qed.

Lemma EdgeT_detach_edge (k : nat) (gs : Graphs) (gid eid s d : nat) :
  EdgeT (Items.detach (EdgeRef k) gs) gid eid s d <-> EdgeT gs gid eid s d /\ eid <> k.
Proof.
  unfold EdgeT, edgeAt. split.
  - intros (e & Hin & E1 & E2 & E3). apply InGraph_detach in Hin. destruct Hin as [Hin Hne].
    split; [now exists e|]. simpl in Hne. congruence.
  - intros ((e & Hin & E1 & E2 & E3) & Hne). exists e. split; [|now repeat split].
    apply InGraph_detach. split; [assumption|]. simpl. congruence.
Qed.

Lemma EdgeT_detach_node (k : nat) (gs : Graphs) (gid eid s d : nat) :
  EdgeT (Items.detach (NodeRef k) gs) gid eid s d <-> EdgeT gs gid eid s d.
Proof.
  unfold EdgeT, edgeAt. split.
  - intros (e & Hin & E). apply InGraph_detach in Hin. destruct Hin as [Hin _]. now exists e.
  - intros (e & Hin & E). exists e. split; [|assumption].
    apply InGraph_detach. split; [assumption|]. simpl. discriminate.
Qed.

(** ** One identity per item *)

Lemma NodeT_unique (gs : Graphs) (g g' nid : nat) (es es' : list nat) (c c' : Z) :
  NoDup (refs gs) -> NodeT gs g nid es c -> NodeT gs g' nid es' c' ->
  g = g' /\ es = es' /\ c = c'.
Proof.
  intros Hnd (n & Hin & E1 & E2 & E3) (n' & Hin' & E1' & E2' & E3').
  destruct (InGraph_unique gs g g' (NodeItem n) (NodeItem n') Hnd Hin Hin') as [Eg Ei].
  - simpl. congruence.
  - inversion Ei; subst. repeat split; reflexivity.
Qed.

Lemma EdgeT_unique (gs : Graphs) (g g' eid s d s' d' : nat) :
  NoDup (refs gs) -> EdgeT gs g eid s d -> EdgeT gs g' eid s' d' ->
  g = g' /\ s = s' /\ d = d'.
Proof.
  intros Hnd (e & Hin & E1 & E2 & E3) (e' & Hin' & E1' & E2' & E3').
  destruct (InGraph_unique gs g g' (EdgeItem e) (EdgeItem e') Hnd Hin Hin') as [Eg Ei].
  - simpl. congruence.
  - inversion Ei; subst. repeat split; reflexivity.
Qed.

Lemma hasNode_unique (gs : Graphs) (g g' nid : nat) :
  NoDup (refs gs) -> hasNode gs g nid -> hasNode gs g' nid -> g = g'.
Proof.
  intros Hnd (es & c & H1) (es' & c' & H2). now destruct (NodeT_unique _ _ _ _ _ _ _ _ Hnd H1 H2).
Qed.

Lemma hasNode_findNode (gs : Graphs) (gid nid : nat) :
  hasNode gs gid nid -> exists n, Items.findNode gs nid = Some n /\ Node.id n = nid.
Proof.
  intros (es & c & n & Hin & E & _). unfold Items.findNode.
  destruct (Items.findItem gs (NodeRef nid)) as [[g it]|] eqn:F.
  - apply findItem_Some in F. destruct F as [_ F]. destruct it as [n'|e]; [|discriminate].
    simpl in F. inversion F. now exists n'.
  - exfalso. apply findItem_None in F. apply F. apply In_refs.
    exists gid, (NodeItem n). split; [assumption|]. simpl. now rewrite E.
Qed.

Lemma NodeT_findNode (gs : Graphs) (gid nid : nat) (es : list nat) (c : Z) :
  NoDup (refs gs) -> NodeT gs gid nid es c ->
  exists n, Items.findNode gs nid = Some n /\ Node.id n = nid
            /\ Node.edgeList n = es /\ Node.checked n = c /\ nodeAt gs gid n.
Proof.
  intros Hnd (n & Hin & E1 & E2 & E3). exists n. split; [|now repeat split].
  rewrite <- E1. now apply findNode_nodeAt with gid.
Qed.

Lemma findNode_NodeT (gs : Graphs) (nid : nat) (n : Node.t) :
  Items.findNode gs nid = Some n ->
  exists gid, NodeT gs gid nid (Node.edgeList n) (Node.checked n).
Proof.
  intros Hf. apply findNode_Some in Hf. destruct Hf as [(gid & Hin) E].
  exists gid, n. now repeat split.
Qed.

Lemma edgesOfNode_NodeT (gs : Graphs) (gid nid : nat) (es : list nat) (c : Z) :
  NoDup (refs gs) -> NodeT gs gid nid es c -> Items.edgesOfNode gs nid = es.
Proof.
  intros Hnd HT. destruct (NodeT_findNode _ _ _ _ _ Hnd HT) as (n & F & _ & E & _).
  unfold Items.edgesOfNode, Node.edges. now rewrite F.
Qed.

Lemma nodeChecked_NodeT (gs : Graphs) (gid nid : nat) (es : list nat) (c : Z) :
  NoDup (refs gs) -> NodeT gs gid nid es c -> Items.nodeChecked gs nid = c.
Proof.
  intros Hnd HT. destruct (NodeT_findNode _ _ _ _ _ Hnd HT) as (n & F & _ & _ & E & _).
  unfold Items.nodeChecked. now rewrite F.
Qed.

Lemma EdgeT_findEdge (gs : Graphs) (gid eid s d : nat) :
  NoDup (refs gs) -> EdgeT gs gid eid s d ->
  exists e, Items.findEdge gs eid = Some e /\ Edge.id e = eid
            /\ Edge.source e = s /\ Edge.dest e = d.
Proof.
  intros Hnd (e & Hin & E1 & E2 & E3). exists e. split; [|now repeat split].
  rewrite <- E1. now apply findEdge_edgeAt with gid.
Qed.

Lemma findEdge_EdgeT (gs : Graphs) (eid : nat) (e : Edge.t) :
  Items.findEdge gs eid = Some e ->
  exists gid, EdgeT gs gid eid (Edge.source e) (Edge.dest e).
Proof.
  intros Hf. apply findEdge_Some in Hf. destruct Hf as [(gid & Hin) E].
  exists gid, e. now repeat split.
Qed.

Lemma findEdge_None_EdgeT (gs : Graphs) (eid : nat) :
  Items.findEdge gs eid = None -> forall gid s d, ~ EdgeT gs gid eid s d.
Proof.
  intros Hf gid s d (e & Hin & E & _). now apply (findEdge_None gs eid Hf gid e).
Qed.

Lemma parentItem_hasNode (gs : Graphs) (gid nid : nat) :
  NoDup (refs gs) -> hasNode gs gid nid -> Items.parentItem gs (NodeRef nid) = Some gid.
Proof.
  intros Hnd (es & c & n & Hin & E & _). rewrite <- E. now apply parentItem_nodeAt.
Qed.

Lemma parentItem_Some_hasNode (gs : Graphs) (gid nid : nat) :
  Items.parentItem gs (NodeRef nid) = Some gid -> hasNode gs gid nid.
Proof.
  intros Hp. apply parentItem_Some in Hp. destruct Hp as (n & Hin & E).
  exists (Node.edgeList n), (Node.checked n), n. now repeat split.
Qed.

(** ** Rewiring the edges of a node onto another *)

Lemma contains_cons (x : nat) (l : list nat) (y : nat) :
  contains (x :: l) y = Nat.eqb y x || contains l y.
Proof. reflexivity. Qed.


Lemma rewireEdge_views (from to : nat) (gs : Graphs) (edge : nat) :
  (exists g, hasNode gs g to) ->
  (forall gid nid es c,
      NodeT (CanvasScene.rewireEdge from to gs edge) gid nid es c <->
      exists es0, NodeT gs gid nid es0 c /\ es = if Nat.eqb nid to then es0 ++ [edge] else es0) /\
  (forall gid eid s d,
      EdgeT (CanvasScene.rewireEdge from to gs edge) gid eid s d <->
      exists s0 d0, EdgeT gs gid eid s0 d0 /\
                    (s, d) = if Nat.eqb eid edge then redirect from to s0 d0 else (s0, d0)) /\
  keys (CanvasScene.rewireEdge from to gs edge) = keys gs /\
  refs (CanvasScene.rewireEdge from to gs edge) = refs gs.
Proof.
  intros (g & Hto). destruct (hasNode_findNode _ _ _ Hto) as (nto & F & Eid).
  unfold CanvasScene.rewireEdge. rewrite F.
  split; [|split; [|split]].
  - intros gid nid es c.
    rewrite (NodeT_updateNode to _ (fun l => l ++ [edge]) (fun z => z));
      [|intros n; repeat split; reflexivity].
    split.
    + intros (es0 & c0 & HT & -> & Ec). apply NodeT_updateEdge in HT.
      exists es0. split; [|reflexivity]. destruct (Nat.eqb nid to); now subst.
    + intros (es0 & HT & ->). exists es0, c. split; [now apply NodeT_updateEdge|].
      split; [reflexivity|]. now destruct (Nat.eqb nid to).
  - intros gid eid s d. rewrite EdgeT_updateNode.
    apply (EdgeT_updateEdge edge _ (redirect from to)).
    intros e. unfold redirect, Edge.sourceNode.
    destruct (Nat.eqb (Edge.source e) from); simpl; rewrite Eid; split; reflexivity.
  - now rewrite keys_updateNode, keys_updateEdge.
  - rewrite refs_updateNode, refs_updateEdge; [reflexivity| |reflexivity].
    intros e. unfold Edge.sourceNode. now destruct (Nat.eqb (Edge.source e) from).
Qed.

Lemma rewire_fold_views (from to : nat) (L : list nat) :
  NoDup L ->
  forall gs, (exists g, hasNode gs g to) ->
  (forall gid nid es c,
      NodeT (fold_left (CanvasScene.rewireEdge from to) L gs) gid nid es c <->
      exists es0, NodeT gs gid nid es0 c /\ es = if Nat.eqb nid to then es0 ++ L else es0) /\
  (forall gid eid s d,
      EdgeT (fold_left (CanvasScene.rewireEdge from to) L gs) gid eid s d <->
      exists s0 d0, EdgeT gs gid eid s0 d0 /\
                    (s, d) = if contains L eid then redirect from to s0 d0 else (s0, d0)) /\
  keys (fold_left (CanvasScene.rewireEdge from to) L gs) = keys gs /\
  refs (fold_left (CanvasScene.rewireEdge from to) L gs) = refs gs.
Proof.
  induction 1 as [|x L Hx Hnd IH]; intros gs Hto; cbn [fold_left].
  - simpl. repeat split; try reflexivity.
    + intros HT. exists es. split; [assumption|]. destruct (Nat.eqb nid to);
        [now rewrite app_nil_r|reflexivity].
    + intros (es0 & HT & ->). destruct (Nat.eqb nid to); [now rewrite app_nil_r|assumption].
    + intros HT. now exists s, d.
    + intros (s0 & d0 & HT & E). now inversion E.
  - destruct (rewireEdge_views from to gs x Hto) as (N1 & E1 & K1 & R1).
    assert (Hto' : exists g, hasNode (CanvasScene.rewireEdge from to gs x) g to).
    { destruct Hto as (g & es & c & HT). exists g. eexists. exists c. apply N1.
      exists es. split; [exact HT|reflexivity]. }
    destruct (IH _ Hto') as (N2 & E2 & K2 & R2).
    split; [|split; [|split]]; try congruence.
    + intros gid nid es c. rewrite N2. split.
      * intros (es1 & HT & ->). apply N1 in HT. destruct HT as (es0 & HT & ->).
        exists es0. split; [assumption|]. destruct (Nat.eqb nid to); [|reflexivity].
        now rewrite <- app_assoc.
      * intros (es0 & HT & ->). exists (if Nat.eqb nid to then es0 ++ [x] else es0).
        split; [apply N1; now exists es0|]. destruct (Nat.eqb nid to); [|reflexivity].
        now rewrite <- app_assoc.
    + intros gid eid s d. rewrite E2. rewrite contains_cons.
      assert (Hc : Nat.eqb eid x = true -> contains L eid = false).
      { intros Ex. apply Nat.eqb_eq in Ex. subst x.
        destruct (contains L eid) eqn:Hc; [|reflexivity].
        apply contains_In in Hc. contradiction. }
      split.
      * intros (s1 & d1 & HT & Esd). apply E1 in HT. destruct HT as (s0 & d0 & HT & E0).
        exists s0, d0. split; [assumption|].
        destruct (Nat.eqb eid x) eqn:Ex; simpl.
        -- rewrite (Hc eq_refl) in Esd. congruence.
        -- inversion E0; subst. exact Esd.
      * intros (s0 & d0 & HT & Esd). destruct (Nat.eqb eid x) eqn:Ex; simpl in Esd.
        -- exists s, d. split; [|now rewrite (Hc eq_refl)]. apply E1. exists s0, d0.
           split; [assumption|]. now rewrite Ex.
        -- exists s0, d0. split; [|assumption]. apply E1. exists s0, d0.
           split; [assumption|]. now rewrite Ex.
Qed.

(** ** Moving items from one graph to another *)


Lemma refOf_place (it : Item) (p : QPointF) : refOf (place it p) = refOf it.
Proof. unfold place. now rewrite refOf_setItemRotation, refOf_setItemPos. Qed.

Lemma InGraph_reparent (k : nat) (it : Item) (p : QPointF) (gs : Graphs) (gid : nat) (it' : Item) :
  InGraph (Items.reparent k it p gs) gid it' <->
  (InGraph gs gid it' /\ refOf it' <> refOf it) \/
  (gid = k /\ it' = place it p /\ In k (keys gs)).
Proof.
  unfold Items.reparent. rewrite InGraph_attach, InGraph_detach, keys_detach. reflexivity.
Qed.

Lemma keys_reparent (k : nat) (it : Item) (p : QPointF) (gs : Graphs) :
  keys (Items.reparent k it p gs) = keys gs.
Proof. unfold Items.reparent. now rewrite keys_attach, keys_detach. Qed.

Lemma fold_reparent (k : nat) (P : Item -> QPointF) (l : list Item) :
  NoDup (map refOf l) ->
  forall acc, In k (keys acc) ->
  let gs' := fold_left (fun a it => Items.reparent k it (P it) a) l acc in
  (forall gid it',
      InGraph gs' gid it' <->
      (InGraph acc gid it' /\ ~ In (refOf it') (map refOf l)) \/
      (gid = k /\ exists it, In it l /\ it' = place it (P it))) /\
  keys gs' = keys acc /\
  (NoDup (keys acc) -> NoDup (refs acc) -> NoDup (refs gs')).
Proof.
  induction l as [|x l IH]; intros Hnd acc Hk; simpl.
  - repeat split; try tauto.
    + intros [H|[_ (it & [] & _)]]. tauto.
  - simpl in Hnd. inversion Hnd as [|? ? Hx Hnd']; subst.
    assert (Hk' : In k (keys (Items.reparent k x (P x) acc))) by now rewrite keys_reparent.
    destruct (IH Hnd' _ Hk') as (I1 & I2 & I3).
    split; [|split].
    + intros gid it'. rewrite I1, InGraph_reparent. split.
      * intros [[[[Hin Hne]|(-> & -> & _)] Hnot]|(-> & it & Hit & ->)].
        -- left. split; [assumption|]. intros [E|Hin']; [now symmetry in E|contradiction].
        -- right. split; [reflexivity|]. exists x. split; [now left|reflexivity].
        -- right. split; [reflexivity|]. exists it. split; [now right|reflexivity].
      * intros [[Hin Hnot]|(-> & it & [<-|Hit] & ->)].
        -- left. split; [|tauto]. left. split; [assumption|]. intros E. apply Hnot. now left.
        -- left. split; [right; now repeat split|]. now rewrite refOf_place.
        -- right. split; [reflexivity|]. now exists it.
    + now rewrite I2, keys_reparent.
    + intros Hkeys Hrefs. apply I3.
      * now rewrite keys_reparent.
      * now apply NoDup_refs_reparent.
Qed.

Lemma NoDup_children_refs (gs : Graphs) (gid : nat) (g : Graph.t) :
  NoDup (refs gs) -> In (gid, g) gs -> NoDup (map refOf (Graph.childItems g)).
Proof.
  induction gs as [|[k g'] gs IH]; intros Hnd Hin; [destruct Hin|].
  rewrite refs_cons in Hnd. destruct (NoDup_app_inv _ _ Hnd) as (H1 & H2 & _).
  destruct Hin as [E|Hin]; [inversion E; now subst|now apply IH].
Qed.

Lemma In_keys (gs : Graphs) (gid : nat) (g : Graph.t) : In (gid, g) gs -> In gid (keys gs).
Proof. intros Hin. unfold keys. apply in_map_iff. now exists (gid, g). Qed.

Lemma In_same_key (gs : Graphs) (gid : nat) (g g' : Graph.t) :
  NoDup (keys gs) -> In (gid, g) gs -> In (gid, g') gs -> g = g'.
Proof.
  intros Hnd H1 H2. apply (In_lookupGraph _ _ _ Hnd) in H1, H2. congruence.
Qed.

Lemma moveChildren_InGraph `{Platform} (root newRoot : nat) (off : QPointF) (gs : Graphs) :
  NoDup (keys gs) -> NoDup (refs gs) -> In newRoot (keys gs) ->
  let gs' := CanvasScene.moveChildren root newRoot off gs in
  (forall gid it',
      InGraph gs' gid it' <->
      (InGraph gs gid it' /\ gid <> root) \/
      (gid = newRoot /\ exists g it, In (root, g) gs /\ In it (Graph.childItems g) /\
                                    it' = place it (psub (Graph.scenePos g it) off))) /\
  keys gs' = keys gs /\ NoDup (refs gs').
Proof.
  intros Hkeys Hrefs Hnew. unfold CanvasScene.moveChildren.
  destruct (Items.lookupGraph gs root) as [g|] eqn:L.
  - apply lookupGraph_In in L.
    pose proof (NoDup_children_refs _ _ _ Hrefs L) as Hnd.
    destruct (fold_reparent newRoot (fun item => psub (Graph.scenePos g item) off)
                            (Graph.childItems g) Hnd gs Hnew) as (I1 & I2 & I3).
    split; [|split; [assumption|now apply I3]].
    intros gid it'. unfold place in I1. rewrite I1. split.
    + intros [[Hin Hnot]|(-> & it & Hit & ->)].
      * left. split; [assumption|]. intros ->. apply Hnot.
        destruct Hin as (g' & Hg' & Hit). rewrite (In_same_key _ _ _ _ Hkeys L Hg').
        now apply in_map.
      * right. split; [reflexivity|]. exists g, it. now repeat split.
    + intros [[Hin Hne]|(-> & g' & it & Hg' & Hit & ->)].
      * left. split; [assumption|]. intros Hr. apply in_map_iff in Hr.
        destruct Hr as (it0 & E0 & Hit0).
        assert (Hin0 : InGraph gs root it0) by now exists g.
        destruct (InGraph_unique _ _ _ _ _ Hrefs Hin Hin0); congruence.
      * right. split; [reflexivity|]. rewrite (In_same_key _ _ _ _ Hkeys Hg' L) in *.
        exists it. now split.
  - split; [|split; [reflexivity|assumption]].
    intros gid it'. split.
    + intros Hin. left. split; [assumption|]. intros ->.
      destruct Hin as (g & Hg & _). apply lookupGraph_None in L. apply L.
      now apply In_keys with g.
    + intros [[Hin _]|(-> & g & it & Hg & _)]; [assumption|].
      exfalso. apply lookupGraph_None in L. apply L. now apply In_keys with g.
Qed.

Lemma moveChildren_views `{Platform} (root newRoot : nat) (off : QPointF) (gs : Graphs) :
  NoDup (keys gs) -> NoDup (refs gs) -> In newRoot (keys gs) ->
  let gs' := CanvasScene.moveChildren root newRoot off gs in
  (forall gid nid es c,
      NodeT gs' gid nid es c <->
      (NodeT gs gid nid es c /\ gid <> root) \/ (gid = newRoot /\ NodeT gs root nid es c)) /\
  (forall gid eid s d,
      EdgeT gs' gid eid s d <->
      (EdgeT gs gid eid s d /\ gid <> root) \/ (gid = newRoot /\ EdgeT gs root eid s d)) /\
  keys gs' = keys gs /\ NoDup (refs gs').
Proof.
  intros Hkeys Hrefs Hnew.
  destruct (moveChildren_InGraph root newRoot off gs Hkeys Hrefs Hnew) as (I & K & R).
  split; [|split; [|split; assumption]].
  - intros gid nid es c. unfold NodeT, nodeAt. split.
    + intros (n & Hin & E1 & E2 & E3). apply I in Hin.
      destruct Hin as [[Hin Hne]|(-> & g & it & Hg & Hit & Eit)].
      * left. split; [now exists n|assumption].
      * right. split; [reflexivity|]. destruct it as [n0|e0]; [|discriminate].
        inversion Eit; subst n. exists n0. split; [now exists g|]. now repeat split.
    + intros [[(n & Hin & E) Hne]|(-> & n & (g & Hg & Hit) & E1 & E2 & E3)].
      * exists n. split; [|assumption]. apply I. now left.
      * eexists. split.
        -- apply I. right. split; [reflexivity|]. exists g, (NodeItem n). now repeat split.
        -- now repeat split.
  - intros gid eid s d. unfold EdgeT, edgeAt. split.
    + intros (e & Hin & E1 & E2 & E3). apply I in Hin.
      destruct Hin as [[Hin Hne]|(-> & g & it & Hg & Hit & Eit)].
      * left. split; [now exists e|assumption].
      * right. split; [reflexivity|]. destruct it as [n0|e0]; [discriminate|].
        inversion Eit; subst e. exists e0. split; [now exists g|]. now repeat split.
    + intros [[(e & Hin & E) Hne]|(-> & e & (g & Hg & Hit) & E1 & E2 & E3)].
      * exists e. split; [|assumption]. apply I. now left.
      * eexists. split.
        -- apply I. right. split; [reflexivity|]. exists g, (EdgeItem e). now repeat split.
        -- now repeat split.
Qed.

(** ** The end of a join *)

Lemma fold_detach_nodes (gone : list nat) :
  forall gs,
  let gs' := fold_left (fun acc n => Items.detach (NodeRef n) acc) gone gs in
  (forall gid nid es c, NodeT gs' gid nid es c <-> NodeT gs gid nid es c /\ ~ In nid gone) /\
  (forall gid eid s d, EdgeT gs' gid eid s d <-> EdgeT gs gid eid s d) /\
  keys gs' = keys gs /\ (NoDup (refs gs) -> NoDup (refs gs')).
Proof.
  induction gone as [|x gone IH]; intros gs; simpl.
  - repeat split; tauto.
  - destruct (IH (Items.detach (NodeRef x) gs)) as (N & E & K & R).
    split; [|split; [|split]].
    + intros gid nid es c. rewrite N, NodeT_detach_node. split.
      * intros [[HT Hne] Hnot]. split; [assumption|]. intros [->|Hin]; tauto.
      * intros [HT Hnot]. repeat split; [assumption| |]; intros Hx; apply Hnot; auto.
    + intros gid eid s d. now rewrite E, EdgeT_detach_node.
    + now rewrite K, keys_detach.
    + intros Hnd. apply R. now apply NoDup_refs_detach.
Qed.

Lemma NodeT_removeGraph (k : nat) (gs : Graphs) (gid nid : nat) (es : list nat) (c : Z) :
  NodeT (Items.removeGraph k gs) gid nid es c <-> NodeT gs gid nid es c /\ gid <> k.
Proof.
  unfold NodeT, nodeAt. split.
  - intros (n & Hin & E). apply InGraph_removeGraph in Hin. destruct Hin as [Hin Hne].
    split; [now exists n|assumption].
  - intros ((n & Hin & E) & Hne). exists n. split; [|assumption].
    now apply InGraph_removeGraph.
Qed.

Lemma EdgeT_removeGraph (k : nat) (gs : Graphs) (gid eid s d : nat) :
  EdgeT (Items.removeGraph k gs) gid eid s d <-> EdgeT gs gid eid s d /\ gid <> k.
Proof.
  unfold EdgeT, edgeAt. split.
  - intros (e & Hin & E). apply InGraph_removeGraph in Hin. destruct Hin as [Hin Hne].
    split; [now exists e|assumption].
  - intros ((e & Hin & E) & Hne). exists e. split; [|assumption].
    now apply InGraph_removeGraph.
Qed.

Lemma NodeT_app_new (k : nat) (gs : Graphs) (gid nid : nat) (es : list nat) (c : Z) :
  NodeT (gs ++ [(k, Graph.new)]) gid nid es c <-> NodeT gs gid nid es c.
Proof.
  unfold NodeT, nodeAt. split; intros (n & Hin & E); exists n; (split; [|assumption]);
    now apply InGraph_app_new in Hin || apply InGraph_app_new.
Qed.

Lemma EdgeT_app_new (k : nat) (gs : Graphs) (gid eid s d : nat) :
  EdgeT (gs ++ [(k, Graph.new)]) gid eid s d <-> EdgeT gs gid eid s d.
Proof.
  unfold EdgeT, edgeAt. split; intros (e & Hin & E); exists e; (split; [|assumption]);
    now apply InGraph_app_new in Hin || apply InGraph_app_new.
Qed.


Lemma joinedGraphs_views `{Platform} (n1 : nat) (newRoot root1 root2 : nat) (off : QPointF)
      (gone : list nat) (gs : Graphs) :
  NoDup (keys gs) -> NoDup (refs gs) -> In newRoot (keys gs) ->
  newRoot <> root1 -> newRoot <> root2 -> root1 <> root2 ->
  (forall it, ~ InGraph gs newRoot it) ->
  let gs' := joinedGraphs n1 newRoot root1 root2 off gone gs in
  (forall gid nid es c,
      NodeT gs' gid nid es c <->
      (gid <> newRoot /\ gid <> root1 /\ gid <> root2 /\ ~ In nid gone
       /\ NodeT gs gid nid es c) \/
      (gid = newRoot /\ ~ In nid gone /\
       (NodeT gs root1 nid es c \/ NodeT gs root2 nid es c))) /\
  (forall gid eid s d,
      EdgeT gs' gid eid s d <->
      (gid <> newRoot /\ gid <> root1 /\ gid <> root2 /\ EdgeT gs gid eid s d) \/
      (gid = newRoot /\ (EdgeT gs root1 eid s d \/ EdgeT gs root2 eid s d))) /\
  keys gs' = filter (fun x => negb (Nat.eqb x root2))
                    (filter (fun x => negb (Nat.eqb x root1)) (keys gs)) /\
  NoDup (refs gs').
Proof.
  intros Hkeys Hrefs Hnew Hn1 Hn2 Hr Hempty. unfold joinedGraphs.
  destruct (moveChildren_views root1 newRoot off gs Hkeys Hrefs Hnew) as (N1 & E1 & K1 & R1).
  set (gs1 := CanvasScene.moveChildren root1 newRoot off gs) in *.
  assert (Hkeys1 : NoDup (keys gs1)) by now rewrite K1.
  assert (Hnew1 : In newRoot (keys gs1)) by now rewrite K1.
  destruct (moveChildren_views root2 newRoot off gs1 Hkeys1 R1 Hnew1) as (N2 & E2 & K2 & R2).
  set (gs2 := CanvasScene.moveChildren root2 newRoot off gs1) in *.
  pose proof (topoStep_renumber n1 gone newRoot gs2) as T3.
  set (gs3 := CanvasScene.renumber n1 gone newRoot gs2) in *.
  pose proof (topoStep_centerGraph newRoot gs3) as T4.
  set (gs4 := Items.updateGraph newRoot Graph.centerGraph gs3) in *.
  pose proof (topoStep_trans _ _ _ T3 T4) as T34.
  destruct (fold_detach_nodes gone gs4) as (N5 & E5 & K5 & R5).
  set (gs5 := fold_left (fun acc n => Items.detach (NodeRef n) acc) gone gs4) in *.
  assert (HnoN : forall nid es c, ~ NodeT gs newRoot nid es c).
  { intros nid es c (n & Hin & _). exact (Hempty _ Hin). }
  assert (HnoE : forall eid s d, ~ EdgeT gs newRoot eid s d).
  { intros eid s d (e & Hin & _). exact (Hempty _ Hin). }
  split; [|split; [|split]].
  - intros gid nid es c.
    rewrite !NodeT_removeGraph, N5, (NodeT_topoStep _ _ _ _ _ _ T34), N2, !N1.
    pose proof (HnoN nid es c) as Hno.
    destruct (Nat.eq_dec gid newRoot) as [->|Hne]; intuition congruence.
  - intros gid eid s d.
    rewrite !EdgeT_removeGraph, E5, (EdgeT_topoStep _ _ _ _ _ _ T34), E2, !E1.
    pose proof (HnoE eid s d) as Hno.
    destruct (Nat.eq_dec gid newRoot) as [->|Hne]; intuition congruence.
  - rewrite !keys_removeGraph, K5. destruct T34 as (K34 & _). now rewrite K34, K2, K1.
  - apply NoDup_refs_removeGraph, NoDup_refs_removeGraph, R5.
    destruct T34 as (_ & R34 & _). now rewrite R34.
Qed.

(** * The joins *)

Lemma scenePos_InGraph `{Platform} (gs : Graphs) (gid : nat) (it : Item) :
  NoDup (keys gs) -> InGraph gs gid it -> exists p, Items.scenePos gs (refOf it) = Some p.
Proof.
  intros Hk (g & Hg & Hit). unfold Items.scenePos.
  destruct (Items.findItem gs (refOf it)) as [[gid' it']|] eqn:F.
  - apply findItem_Some in F. destruct F as [(g' & Hg' & _) _].
    rewrite (In_lookupGraph _ _ _ Hk Hg'). eauto.
  - exfalso. apply findItem_None in F. apply F. apply In_refs. exists gid, it.
    split; [now exists g|reflexivity].
Qed.

Lemma scenePos_hasNode `{Platform} (gs : Graphs) (gid nid : nat) :
  NoDup (keys gs) -> hasNode gs gid nid -> exists p, Items.scenePos gs (NodeRef nid) = Some p.
Proof.
  intros Hk (es & c & n & Hin & E & _).
  destruct (scenePos_InGraph gs gid (NodeItem n) Hk Hin) as (p & Hp).
  exists p. simpl in Hp. now rewrite <- E.
Qed.

Lemma hasNode_topoStep (gs gs' : Graphs) (gid nid : nat) :
  topoStep gs gs' -> (hasNode gs' gid nid <-> hasNode gs gid nid).
Proof.
  intros HT. unfold hasNode. split; intros (es & c & Hn); exists es, c;
    now apply (NodeT_topoStep _ _ _ _ _ _ HT).
Qed.

Lemma hasNode_app_new (k : nat) (gs : Graphs) (gid nid : nat) :
  hasNode (gs ++ [(k, Graph.new)]) gid nid <-> hasNode gs gid nid.
Proof.
  unfold hasNode. split; intros (es & c & Hn); exists es, c; now apply NodeT_app_new in Hn
    || apply NodeT_app_new.
Qed.

Lemma hasNode_key (gs : Graphs) (gid nid : nat) : hasNode gs gid nid -> In gid (keys gs).
Proof. intros (es & c & n & (g & Hg & _) & _). now apply In_keys with g. Qed.

Lemma lookupGraph_key (gs : Graphs) (gid : nat) :
  In gid (keys gs) -> exists g, Items.lookupGraph gs gid = Some g.
Proof.
  intros Hin. destruct (Items.lookupGraph gs gid) as [g|] eqn:L; [now exists g|].
  apply lookupGraph_None in L. contradiction.
Qed.

Lemma lookupGraph_topoStep_pos (k : nat) (p : QPointF) (gs : Graphs) (gid : nat) (g : Graph.t) :
  Items.lookupGraph gs gid = Some g -> gid <> k ->
  Items.lookupGraph (Items.updateGraph k (fun x => Graph.setPos x p) gs) gid = Some g.
Proof.
  unfold Items.lookupGraph, Items.updateGraph. intros L Hne.
  induction gs as [|[k' g'] gs IH]; simpl in *; [discriminate|].
  destruct (Nat.eqb k' k) eqn:Ek; simpl.
  - apply Nat.eqb_eq in Ek. subst k'. destruct (Nat.eqb k gid) eqn:Eg.
    + apply Nat.eqb_eq in Eg. congruence.
    + now apply IH.
  - destruct (Nat.eqb k' gid); [assumption|now apply IH].
Qed.

(** The graphs after [joinTwo] and [joinFour]. *)
Lemma joinTwo_graphs `{Platform} (n1 n2 root1 root2 : nat) (s : CanvasScene.t) :
  NoDup (keys (CanvasScene.graphs s)) -> NoDup (refs (CanvasScene.graphs s)) ->
  hasNode (CanvasScene.graphs s) root1 n1 -> hasNode (CanvasScene.graphs s) root2 n2 ->
  let newRoot := Items.fresh (CanvasScene.graphs s) (CanvasScene.canvasGraphList s) in
  exists gs4 off s',
    CanvasScene.joinTwo n1 n2 s = Some s' /\
    topoStep (CanvasScene.graphs s ++ [(newRoot, Graph.new)]) gs4 /\
    CanvasScene.graphs s'
    = joinedGraphs n1 newRoot root1 root2 off [n2] (CanvasScene.rewire n2 n1 gs4).
Proof.
  intros Hk Hr H1 H2 newRoot. unfold CanvasScene.joinTwo. fold newRoot.
  set (gs := CanvasScene.graphs s ++ [(newRoot, Graph.new)]).
  assert (Hk' : NoDup (keys gs)) by (apply NoDup_keys_app_new; [assumption|apply fresh_not_key]).
  assert (Hr' : NoDup (refs gs)) by (unfold gs; now rewrite refs_app_new).
  assert (H1' : hasNode gs root1 n1) by now apply hasNode_app_new.
  assert (H2' : hasNode gs root2 n2) by now apply hasNode_app_new.
  rewrite (parentItem_hasNode _ _ _ Hr' H1'), (parentItem_hasNode _ _ _ Hr' H2').
  destruct (lookupGraph_key gs root1 (hasNode_key _ _ _ H1')) as (g1 & L1). rewrite L1.
  destruct (scenePos_hasNode gs root1 n1 Hk' H1') as (p1 & P1). rewrite P1.
  destruct (scenePos_hasNode gs root2 n2 Hk' H2') as (p2 & P2). rewrite P2.
  eexists. exists (Graph.pos g1). eexists. split; [reflexivity|]. split; [|reflexivity].
  eapply topoStep_trans; [apply topoStep_setPos|].
  apply topoStep_iter. intros x. apply topoStep_moveBy.
Qed.

Lemma joinFour_graphs `{Platform} (n1a n1b n2a n2b root1 root2 : nat) (s : CanvasScene.t) :
  NoDup (keys (CanvasScene.graphs s)) -> NoDup (refs (CanvasScene.graphs s)) ->
  hasNode (CanvasScene.graphs s) root1 n1a -> hasNode (CanvasScene.graphs s) root1 n1b ->
  hasNode (CanvasScene.graphs s) root2 n2a -> hasNode (CanvasScene.graphs s) root2 n2b ->
  let newRoot := Items.fresh (CanvasScene.graphs s) (CanvasScene.canvasGraphList s) in
  exists gs4 off s',
    CanvasScene.joinFour n1a n1b n2a n2b s = Some s' /\
    topoStep (CanvasScene.graphs s ++ [(newRoot, Graph.new)]) gs4 /\
    CanvasScene.graphs s'
    = joinedGraphs n1a newRoot root1 root2 off [n2a; n2b]
        (CanvasScene.removeDuplicate n1a n1b n2a n2b
           (CanvasScene.rewire n2b n1b (CanvasScene.rewire n2a n1a gs4))).
Proof.
  intros Hk Hr H1a H1b H2a H2b newRoot. unfold CanvasScene.joinFour. fold newRoot.
  set (gs := CanvasScene.graphs s ++ [(newRoot, Graph.new)]).
  assert (Hk' : NoDup (keys gs)) by (apply NoDup_keys_app_new; [assumption|apply fresh_not_key]).
  assert (Hr' : NoDup (refs gs)) by (unfold gs; now rewrite refs_app_new).
  assert (H1a' : hasNode gs root1 n1a) by now apply hasNode_app_new.
  assert (H1b' : hasNode gs root1 n1b) by now apply hasNode_app_new.
  assert (H2a' : hasNode gs root2 n2a) by now apply hasNode_app_new.
  assert (H2b' : hasNode gs root2 n2b) by now apply hasNode_app_new.
  rewrite (parentItem_hasNode _ _ _ Hr' H1a'), (parentItem_hasNode _ _ _ Hr' H2a').
  destruct (lookupGraph_key gs root1 (hasNode_key _ _ _ H1a')) as (g1 & L1). rewrite L1.
  destruct (scenePos_hasNode gs root1 n1a Hk' H1a') as (p1a & P1a). rewrite P1a.
  destruct (scenePos_hasNode gs root1 n1b Hk' H1b') as (p1b & P1b). rewrite P1b.
  destruct (scenePos_hasNode gs root2 n2a Hk' H2a') as (p2a & P2a). rewrite P2a.
  destruct (scenePos_hasNode gs root2 n2b Hk' H2b') as (p2b & P2b). rewrite P2b.
  match goal with |- context [Nat.iter _ ?F ?x] =>
    assert (T3 : topoStep gs (Nat.iter CanvasScene.ANIMATION_STEPS F x));
      [|set (gs3 := Nat.iter CanvasScene.ANIMATION_STEPS F x) in *] end.
  { eapply topoStep_trans; [apply topoStep_setPos|].
    apply topoStep_iter. intros x. apply topoStep_setRotation. }
  assert (Hk3 : NoDup (keys gs3)) by (destruct T3 as (K & _); now rewrite K).
  destruct (scenePos_hasNode gs3 root2 n2a Hk3 (proj2 (hasNode_topoStep _ _ _ _ T3) H2a'))
    as (q2a & Q2a). rewrite Q2a.
  destruct (scenePos_hasNode gs3 root2 n2b Hk3 (proj2 (hasNode_topoStep _ _ _ _ T3) H2b'))
    as (q2b & Q2b). rewrite Q2b.
  eexists. exists (Graph.pos g1). eexists. split; [reflexivity|]. split; [|reflexivity].
  eapply topoStep_trans; [exact T3|].
  apply topoStep_iter. intros x. apply topoStep_moveBy.
Qed.

(** ** Substituting the kept nodes for the merged ones *)


Lemma redirect_subst1 (from to s d : nat) :
  s <> d -> redirect from to s d
            = (if Nat.eqb s from || Nat.eqb d from then (subst1 from to s, subst1 from to d)
               else (s, to)).
Proof.
  intros Hsd. unfold redirect, subst1.
  destruct (Nat.eqb s from) eqn:Es; simpl.
  - apply Nat.eqb_eq in Es. subst s.
    destruct (Nat.eqb d from) eqn:Ed; [|reflexivity]. apply Nat.eqb_eq in Ed. congruence.
  - destruct (Nat.eqb d from) eqn:Ed; reflexivity.
Qed.

Lemma views_after_new (gs0 gs4 : Graphs) (new : nat) :
  topoStep (gs0 ++ [(new, Graph.new)]) gs4 ->
  (forall gid nid es c, NodeT gs4 gid nid es c <-> NodeT gs0 gid nid es c) /\
  (forall gid eid s d, EdgeT gs4 gid eid s d <-> EdgeT gs0 gid eid s d) /\
  keys gs4 = keys gs0 ++ [new] /\ refs gs4 = refs gs0.
Proof.
  intros T. split; [|split; [|split]].
  - intros. now rewrite (NodeT_topoStep _ _ _ _ _ _ T), NodeT_app_new.
  - intros. now rewrite (EdgeT_topoStep _ _ _ _ _ _ T), EdgeT_app_new.
  - destruct T as (K & _). now rewrite K, keys_app_new.
  - destruct T as (_ & R & _). now rewrite R, refs_app_new.
Qed.

Section WellFormedFacts.

Variable gs : Graphs.
Hypothesis Hwf : WellFormed gs.

Lemma wf_edge_graph (gid eid s d g nid : nat) :
  EdgeT gs gid eid s d -> hasNode gs g nid -> (s = nid \/ d = nid) -> gid = g.
Proof.
  intros HE HN Hend. destruct (wf_ends gs Hwf _ _ _ _ HE) as (Hs & Hd & _).
  pose proof (wf_refs gs Hwf) as Hnd.
  destruct Hend as [E|E]; subst nid;
    [exact (hasNode_unique gs gid g s Hnd Hs HN)|exact (hasNode_unique gs gid g d Hnd Hd HN)].
Qed.

(** The edge list of a node tells which edges end at that node. *)
Lemma wf_list_iff (g nid : nat) (es : list nat) (c : Z) (gid eid s d : nat) :
  NodeT gs g nid es c -> EdgeT gs gid eid s d ->
  (In eid es <-> (s = nid \/ d = nid)).
Proof.
  intros HN HE. split.
  - intros Hin. destruct (wf_listed gs Hwf _ _ _ _ _ HN Hin) as (s' & d' & HE' & Hend).
    destruct (EdgeT_unique _ _ _ _ _ _ _ _ (wf_refs gs Hwf) HE HE') as (_ & -> & ->).
    exact Hend.
  - intros Hend.
    assert (gid = g) by (eapply wf_edge_graph; eauto; now exists es, c). subst g.
    eapply wf_lists; eauto.
Qed.

Lemma wf_lists_disjoint (g g' nid nid' : nat) (es es' : list nat) (c c' : Z) :
  NodeT gs g nid es c -> NodeT gs g' nid' es' c' -> g <> g' ->
  forall x, In x es -> ~ In x es'.
Proof.
  intros HN HN' Hg x Hx Hx'.
  destruct (wf_listed gs Hwf _ _ _ _ _ HN Hx) as (s & d & HE & _).
  destruct (wf_listed gs Hwf _ _ _ _ _ HN' Hx') as (s' & d' & HE' & _).
  destruct (EdgeT_unique _ _ _ _ _ _ _ _ (wf_refs gs Hwf) HE HE') as (E & _). contradiction.
Qed.

End WellFormedFacts.

(** ** The rewiring of a join *)

(** After [rewire n2 n1]: the edge list of [n2] is appended to that of
    [n1], and [n1] replaces [n2] as an end of every edge.  It is enough
    that the edge list of [n2] lists, once each, the edges that end at
    [n2], and that no edge is a loop. *)
Lemma rewire_views (gs : Graphs) (n1 n2 g2 : nat) (L2 : list nat) (c2 : Z) :
  NoDup (refs gs) ->
  NodeT gs g2 n2 L2 c2 -> NoDup L2 ->
  (exists g, hasNode gs g n1) ->
  (forall gid eid s d, EdgeT gs gid eid s d ->
                       s <> d /\ (In eid L2 <-> (s = n2 \/ d = n2))) ->
  (forall gid nid es c,
      NodeT (CanvasScene.rewire n2 n1 gs) gid nid es c <->
      exists es0, NodeT gs gid nid es0 c /\ es = if Nat.eqb nid n1 then es0 ++ L2 else es0) /\
  (forall gid eid s d,
      EdgeT (CanvasScene.rewire n2 n1 gs) gid eid s d <->
      exists s0 d0, EdgeT gs gid eid s0 d0 /\ s = subst1 n2 n1 s0 /\ d = subst1 n2 n1 d0) /\
  keys (CanvasScene.rewire n2 n1 gs) = keys gs /\
  refs (CanvasScene.rewire n2 n1 gs) = refs gs.
Proof.
  intros Hnd HN2 HL2 Hto Hedges.
  unfold CanvasScene.rewire.
  rewrite (edgesOfNode_NodeT gs g2 n2 L2 c2 Hnd HN2).
  destruct (rewire_fold_views n2 n1 L2 HL2 gs Hto) as (N & E & K & R).
  split; [|split; [|split]]; [exact N| |assumption|assumption].
  intros gid eid s d. rewrite E. split.
  - intros (s0 & d0 & HT & Esd). exists s0, d0. split; [assumption|].
    destruct (Hedges _ _ _ _ HT) as (Hsd & Hin).
    rewrite (redirect_subst1 _ _ _ _ Hsd) in Esd. unfold subst1 in *.
    destruct (contains L2 eid) eqn:Hc.
    + apply contains_In, Hin in Hc.
      destruct (Nat.eqb s0 n2) eqn:Es, (Nat.eqb d0 n2) eqn:Ed; simpl in Esd;
        inversion Esd; subst; try (split; reflexivity).
      apply Nat.eqb_neq in Es, Ed. destruct Hc; congruence.
    + assert (Hno : ~ (s0 = n2 \/ d0 = n2)).
      { intros Hend. apply Hin, contains_In in Hend. congruence. }
      inversion Esd; subst.
      destruct (Nat.eqb s0 n2) eqn:Es; [apply Nat.eqb_eq in Es; tauto|].
      destruct (Nat.eqb d0 n2) eqn:Ed; [apply Nat.eqb_eq in Ed; tauto|].
      split; reflexivity.
  - intros (s0 & d0 & HT & -> & ->). exists s0, d0. split; [assumption|].
    destruct (Hedges _ _ _ _ HT) as (Hsd & Hin).
    rewrite (redirect_subst1 _ _ _ _ Hsd). unfold subst1.
    destruct (contains L2 eid) eqn:Hc.
    + apply contains_In, Hin in Hc.
      destruct (Nat.eqb s0 n2) eqn:Es, (Nat.eqb d0 n2) eqn:Ed; simpl; try reflexivity.
      apply Nat.eqb_neq in Es, Ed. destruct Hc; congruence.
    + assert (Hno : ~ (s0 = n2 \/ d0 = n2)).
      { intros Hend. apply Hin, contains_In in Hend. congruence. }
      destruct (Nat.eqb s0 n2) eqn:Es; [apply Nat.eqb_eq in Es; tauto|].
      destruct (Nat.eqb d0 n2) eqn:Ed; [apply Nat.eqb_eq in Ed; tauto|].
      reflexivity.
Qed.

(** * Graphs in the course of a join

    While two graphs are being joined their children are, for a moment,
    those of one graph spread over several: [M] lists the graphs being
    merged, [S] the nodes already merged away (their edge lists are
    stale, and no edge ends at them any more). *)



Lemma sameGraph_refl (M : list nat) (g : nat) : sameGraph M g g.
Proof. now left. Qed.

Lemma sameGraph_sym (M : list nat) (g g' : nat) : sameGraph M g g' -> sameGraph M g' g.
Proof. intros [->|[H1 H2]]; [now left|right; now split]. Qed.

Lemma sameGraph_trans (M : list nat) (a b c : nat) :
  sameGraph M a b -> sameGraph M b c -> sameGraph M a c.
Proof.
  intros [->|[H1 H2]] [->|[H3 H4]]; try (now left); try (right; now split).
Qed.

Lemma sameGraph_nil (g g' : nat) : sameGraph [] g g' <-> g = g'.
Proof. split; [intros [E|[[] _]]; exact E|intros ->; now left]. Qed.

Lemma WellFormed_Merging (gs : Graphs) : WellFormed gs <-> Merging [] [] gs.
Proof.
  split.
  - intros [K R E L1 L2 O U]. constructor; try assumption.
    + intros gid eid s d HE. destruct (E _ _ _ _ HE) as (Hs & Hd & Hsd).
      split; [assumption|]. split; [exists gid; split; [assumption|now left]|].
      split; [exists gid; split; [assumption|now left]|]. split; intros [].
    + intros gid nid es c x HN _ Hx. destruct (L1 _ _ _ _ _ HN Hx) as (s & d & HE & Hend).
      now exists gid, s, d.
    + intros gid eid s d g nid es c HE HN Hend.
      destruct (E _ _ _ _ HE) as (Hs & Hd & _).
      assert (gid = g).
      { assert (HNn : hasNode gs g nid) by now exists es, c.
        destruct Hend as [<-|<-]; [exact (hasNode_unique _ _ _ _ R Hs HNn)|exact (hasNode_unique _ _ _ _ R Hd HNn)]. }
      subst g. eapply L2; eauto.
    + intros gid nid es c HN _. eapply O; eauto.
  - intros [K R E L1 L2 O U]. constructor; try assumption.
    + intros gid eid s d HE.
      destruct (E _ _ _ _ HE) as (Hsd & (g1 & H1 & S1) & (g2 & H2 & S2) & _).
      apply sameGraph_nil in S1, S2. subst g1 g2. now repeat split.
    + intros gid nid es c x HN Hx.
      destruct (L1 _ _ _ _ _ HN (fun f => f) Hx) as (g & s & d & HE & Hend).
      exists s, d. split; [|assumption].
      destruct (E _ _ _ _ HE) as (_ & (g1 & H1 & S1) & (g2 & H2 & S2) & _).
      apply sameGraph_nil in S1, S2. subst g1 g2.
      assert (g = gid).
      { assert (HNn : hasNode gs gid nid) by now exists es, c.
        destruct Hend as [->| ->]; [exact (hasNode_unique _ _ _ _ R H1 HNn)|exact (hasNode_unique _ _ _ _ R H2 HNn)]. }
      now subst g.
    + intros gid eid s d nid es c HE HN Hend. eapply L2; eauto.
    + intros gid nid es c HN. eapply O; eauto.
Qed.

(** [Merging] only looks at the nodes and edges of the graphs. *)
Lemma Merging_same_views (M S : list nat) (gs gs' : Graphs) :
  NoDup (keys gs') -> NoDup (refs gs') ->
  (forall gid nid es c, NodeT gs' gid nid es c <-> NodeT gs gid nid es c) ->
  (forall gid eid s d, EdgeT gs' gid eid s d <-> EdgeT gs gid eid s d) ->
  Merging M S gs -> Merging M S gs'.
Proof.
  intros K' R' N E [K R En L1 L2 O U].
  assert (HN : forall g x, hasNode gs' g x <-> hasNode gs g x).
  { intros g x. unfold hasNode. split; intros (es & c & HT); exists es, c; now apply N. }
  constructor; try assumption.
  - intros gid eid s d HE. apply E in HE.
    destruct (En _ _ _ _ HE) as (Hsd & (g1 & H1 & S1) & (g2 & H2 & S2) & Hs & Hd).
    split; [assumption|]. split; [exists g1; split; [now apply HN|assumption]|].
    split; [exists g2; split; [now apply HN|assumption]|]. now split.
  - intros gid nid es c x HT Hs Hx. apply N in HT.
    destruct (L1 _ _ _ _ _ HT Hs Hx) as (g & s & d & HE & Hend).
    exists g, s, d. split; [now apply E|assumption].
  - intros gid eid s d g nid es c HE HT Hend. apply E in HE. apply N in HT.
    eapply L2; eauto.
  - intros gid nid es c HT Hs. apply N in HT. eapply O; eauto.
  - intros gid nid es c HT. apply N in HT. eapply U; eauto.
Qed.

Lemma Merging_weaken (M M' S : list nat) (gs : Graphs) :
  incl M M' -> Merging M S gs -> Merging M' S gs.
Proof.
  intros Hincl [K R En L1 L2 O U]. constructor; try assumption.
  intros gid eid s d HE.
  destruct (En _ _ _ _ HE) as (Hsd & (g1 & H1 & S1) & (g2 & H2 & S2) & Hs & Hd).
  assert (Hw : forall a b, sameGraph M a b -> sameGraph M' a b).
  { intros a b [->|[Ha Hb]]; [now left|right; split; now apply Hincl]. }
  split; [assumption|]. split; [exists g1; split; [assumption|now apply Hw]|].
  split; [exists g2; split; [assumption|now apply Hw]|]. now split.
Qed.

Lemma Merging_edges_of (M S : list nat) (gs : Graphs) (g2 n2 : nat) (L2 : list nat) (c2 : Z) :
  Merging M S gs -> NodeT gs g2 n2 L2 c2 -> ~ In n2 S ->
  forall gid eid s d, EdgeT gs gid eid s d ->
                      s <> d /\ (In eid L2 <-> (s = n2 \/ d = n2)).
Proof.
  intros Hm HN Hs gid eid s d HE. split; [exact (proj1 (mg_ends _ _ _ Hm _ _ _ _ HE))|].
  split.
  - intros Hin. destruct (mg_listed _ _ _ Hm _ _ _ _ _ HN Hs Hin) as (g & s' & d' & HE' & Hend).
    destruct (EdgeT_unique _ _ _ _ _ _ _ _ (mg_refs _ _ _ Hm) HE HE') as (_ & -> & ->).
    exact Hend.
  - intros Hend. exact (mg_lists _ _ _ Hm _ _ _ _ _ _ _ _ HE HN Hend).
Qed.

Lemma subst1_other (from to x : nat) : x <> from -> subst1 from to x = x.
Proof. intros Hx. unfold subst1. destruct (Nat.eqb x from) eqn:E; [apply Nat.eqb_eq in E; congruence|reflexivity]. Qed.

Lemma subst1_from (from to : nat) : subst1 from to from = to.
Proof. unfold subst1. now rewrite Nat.eqb_refl. Qed.

Lemma subst1_cases (from to x : nat) :
  (x = from /\ subst1 from to x = to) \/ (x <> from /\ subst1 from to x = x).
Proof.
  unfold subst1. destruct (Nat.eqb x from) eqn:E; [left|right]; split; try reflexivity.
  - now apply Nat.eqb_eq. - now apply Nat.eqb_neq.
Qed.

(** One rewiring keeps the graphs consistent, with the rewired node
    now counted among the merged ones. *)
Lemma Merging_rewire (M S : list nat) (gs : Graphs) (n1 n2 g1 g2 : nat) :
  Merging M S gs ->
  hasNode gs g1 n1 -> hasNode gs g2 n2 -> sameGraph M g1 g2 ->
  ~ In n1 S -> ~ In n2 S -> n1 <> n2 ->
  (forall gid eid s d, EdgeT gs gid eid s d ->
                       ~ ((s = n1 /\ d = n2) \/ (s = n2 /\ d = n1))) ->
  Merging M (n2 :: S) (CanvasScene.rewire n2 n1 gs).
Proof.
  intros Hm H1 (L2 & c2 & HN2) Hsame Hs1 Hs2 Hneq Hnadj.
  pose proof (mg_refs _ _ _ Hm) as Hr.
  assert (HL2 : NoDup L2) by exact (mg_once _ _ _ Hm _ _ _ _ HN2 Hs2).
  destruct (rewire_views gs n1 n2 g2 L2 c2 Hr HN2 HL2 (ex_intro _ g1 H1)
              (Merging_edges_of _ _ _ _ _ _ _ Hm HN2 Hs2)) as (N & E & K & R).
  assert (HN : forall g x, hasNode (CanvasScene.rewire n2 n1 gs) g x <-> hasNode gs g x).
  { intros g x. unfold hasNode. split.
    - intros (es & c & HT). apply N in HT. destruct HT as (es0 & HT & _). now exists es0, c.
    - intros (es & c & HT). eexists. exists c. apply N. exists es. split; [exact HT|reflexivity]. }
  constructor.
  - rewrite K. exact (mg_keys _ _ _ Hm).
  - rewrite R. exact Hr.
  - intros gid eid s d HE. apply E in HE. destruct HE as (s0 & d0 & HE & -> & ->).
    destruct (mg_ends _ _ _ Hm _ _ _ _ HE) as (Hsd & (ga & Ha & Sa) & (gb & Hb & Sb) & Hsa & Hsb).
    specialize (Hnadj _ _ _ _ HE).
    assert (Hend : forall x gx, hasNode gs gx x -> sameGraph M gid gx -> ~ In x S ->
              (exists g, hasNode (CanvasScene.rewire n2 n1 gs) g (subst1 n2 n1 x)
                         /\ sameGraph M gid g)
              /\ ~ In (subst1 n2 n1 x) (n2 :: S)).
    { intros x gx Hx Sx Hxs. destruct (subst1_cases n2 n1 x) as [[-> ->]|[Hxn ->]].
      - split.
        + exists g1. split; [now apply HN|].
          assert (gx = g2) by (eapply hasNode_unique; [exact Hr|exact Hx|now exists L2, c2]).
          subst gx. eapply sameGraph_trans; [exact Sx|now apply sameGraph_sym].
        + intros [F|F]; [congruence|tauto].
      - split.
        + exists gx. split; [now apply HN|assumption].
        + intros [F|F]; [congruence|tauto]. }
    destruct (Hend _ _ Ha Sa Hsa) as (Ea & Na). destruct (Hend _ _ Hb Sb Hsb) as (Eb & Nb).
    split; [|tauto].
    destruct (subst1_cases n2 n1 s0) as [[-> ->]|[Hx ->]],
             (subst1_cases n2 n1 d0) as [[-> ->]|[Hy ->]]; try congruence.
    + intros F. apply Hnadj. right. now split.
    + intros F. apply Hnadj. left. now split.
  - intros gid nid es c x HT Hns Hx. apply N in HT. destruct HT as (es0 & HT & ->).
    assert (Hn2 : nid <> n2) by (intros F; apply Hns; now left).
    assert (Hn' : ~ In nid S) by (intros F; apply Hns; now right).
    assert (Hold : In x es0 -> exists g s d, EdgeT (CanvasScene.rewire n2 n1 gs) g x s d
                                            /\ (s = nid \/ d = nid)).
    { intros Hin. destruct (mg_listed _ _ _ Hm _ _ _ _ _ HT Hn' Hin) as (g & s & d & HE & Hend).
      exists g, (subst1 n2 n1 s), (subst1 n2 n1 d). split.
      - apply E. now exists s, d.
      - destruct Hend as [->| ->]; [left|right]; now apply subst1_other. }
    destruct (Nat.eqb nid n1) eqn:En; [|now apply Hold].
    apply Nat.eqb_eq in En. subst nid. apply in_app_or in Hx. destruct Hx as [Hx|Hx]; [now apply Hold|].
    destruct (mg_listed _ _ _ Hm _ _ _ _ _ HN2 Hs2 Hx) as (g & s & d & HE & Hend).
    exists g, (subst1 n2 n1 s), (subst1 n2 n1 d). split.
    + apply E. now exists s, d.
    + destruct Hend as [->| ->]; [left|right]; apply subst1_from.
  - intros gid eid s d g nid es c HE HT Hend. apply E in HE. destruct HE as (s0 & d0 & HE & -> & ->).
    apply N in HT. destruct HT as (es0 & HT & ->).
    assert (Hcase : forall x, subst1 n2 n1 x = nid -> (s0 = x \/ d0 = x) ->
              In eid (if Nat.eqb nid n1 then es0 ++ L2 else es0)).
    { intros x Hx Hxe. destruct (subst1_cases n2 n1 x) as [[-> Ex]|[Hxn Ex]]; rewrite Ex in Hx.
      - subst nid. rewrite Nat.eqb_refl. apply in_or_app. right.
        exact (mg_lists _ _ _ Hm _ _ _ _ _ _ _ _ HE HN2 Hxe).
      - subst x.
        assert (In eid es0) by exact (mg_lists _ _ _ Hm _ _ _ _ _ _ _ _ HE HT Hxe).
        destruct (Nat.eqb nid n1); [apply in_or_app; now left|assumption]. }
    destruct Hend as [Hend|Hend]; [apply (Hcase s0)|apply (Hcase d0)]; auto.
  - intros gid nid es c HT Hns. apply N in HT. destruct HT as (es0 & HT & ->).
    assert (Hn' : ~ In nid S) by (intros F; apply Hns; now right).
    pose proof (mg_once _ _ _ Hm _ _ _ _ HT Hn') as Hnd0.
    destruct (Nat.eqb nid n1) eqn:En; [|assumption].
    apply Nat.eqb_eq in En. subst nid.
    apply NoDup_app; [assumption|assumption|].
    intros x Hx0 Hx2.
    destruct (mg_listed _ _ _ Hm _ _ _ _ _ HT Hn' Hx0) as (g & s & d & HE & Hend).
    destruct (proj2 (Merging_edges_of _ _ _ _ _ _ _ Hm HN2 Hs2 _ _ _ _ HE)) as [Hin _].
    specialize (Hin Hx2). specialize (Hnadj _ _ _ _ HE).
    destruct (mg_ends _ _ _ Hm _ _ _ _ HE) as (Hsd & _).
    apply Hnadj. destruct Hend as [->| ->], Hin as [->| ->]; try congruence; [left|right]; now split.
  - intros gid nid es c HT. apply N in HT. destruct HT as (es0 & HT & _).
    exact (mg_unchecked _ _ _ Hm _ _ _ _ HT).
Qed.

(** ** Removing an edge *)

Lemma removeOne_In (x y : nat) (l : list nat) : In y (removeOne x l) -> In y l.
Proof.
  induction l as [|a l IH]; simpl; [tauto|].
  destruct (Nat.eqb a x); simpl; tauto.
Qed.

Lemma removeOne_keeps (x y : nat) (l : list nat) : In y l -> y <> x -> In y (removeOne x l).
Proof.
  induction l as [|a l IH]; simpl; [tauto|].
  intros [->|Hin] Hne.
  - destruct (Nat.eqb y x) eqn:E; [apply Nat.eqb_eq in E; congruence|now left].
  - destruct (Nat.eqb a x); [assumption|right; now apply IH].
Qed.

Lemma removeOne_NoDup (x : nat) (l : list nat) : NoDup l -> NoDup (removeOne x l).
Proof.
  induction 1 as [|a l Ha Hl IH]; simpl; [constructor|].
  destruct (Nat.eqb a x); [assumption|].
  constructor; [|assumption]. intros F. apply Ha. eapply removeOne_In; eauto.
Qed.

Lemma removeOne_gone (x : nat) (l : list nat) : NoDup l -> ~ In x (removeOne x l).
Proof.
  induction 1 as [|a l Ha Hl IH]; simpl; [tauto|].
  destruct (Nat.eqb a x) eqn:E.
  - apply Nat.eqb_eq in E. now subst.
  - apply Nat.eqb_neq in E. simpl. tauto.
Qed.

Lemma removeOne_absent (x : nat) (l : list nat) : ~ In x l -> removeOne x l = l.
Proof.
  induction l as [|a l IH]; simpl; [reflexivity|]. intros Hn.
  destruct (Nat.eqb a x) eqn:E; [apply Nat.eqb_eq in E; tauto|]. f_equal. tauto.
Qed.

Lemma removeOne_length (x : nat) (l : list nat) :
  In x l -> S (List.length (removeOne x l)) = List.length l.
Proof.
  induction l as [|a l IH]; simpl; [tauto|]. intros Hin.
  destruct (Nat.eqb a x) eqn:E; [reflexivity|].
  apply Nat.eqb_neq in E. simpl. f_equal. apply IH. destruct Hin; congruence.
Qed.

(** Taking edge [x] away, from the scene and from edge lists: [rm]
    says what happens to the edge list of each node. *)
Lemma Merging_drop_edge (M S : list nat) (gs gs' : Graphs) (g x sx dx : nat)
      (rm : nat -> list nat -> list nat) :
  Merging M S gs -> EdgeT gs g x sx dx ->
  (forall nid es y, In y (rm nid es) -> In y es) ->
  (forall nid es y, In y es -> y <> x -> In y (rm nid es)) ->
  (forall nid es, NoDup es -> NoDup (rm nid es)) ->
  (forall nid es, nid = sx \/ nid = dx -> NoDup es -> ~ In x (rm nid es)) ->
  NoDup (keys gs') -> NoDup (refs gs') ->
  (forall gid nid es c, NodeT gs' gid nid es c <->
                        exists es0, NodeT gs gid nid es0 c /\ es = rm nid es0) ->
  (forall gid eid s d, EdgeT gs' gid eid s d <-> EdgeT gs gid eid s d /\ eid <> x) ->
  Merging M S gs'.
Proof.
  intros Hm Hx R1 R2 R3 R4 K' R' N E.
  pose proof (mg_refs _ _ _ Hm) as Hr.
  assert (HN : forall g x, hasNode gs' g x <-> hasNode gs g x).
  { intros g0 y. unfold hasNode. split.
    - intros (es & c & HT). apply N in HT. destruct HT as (es0 & HT & _). now exists es0, c.
    - intros (es & c & HT). eexists. exists c. apply N. exists es. split; [exact HT|reflexivity]. }
  constructor; try assumption.
  - intros gid eid s d HE. apply E in HE. destruct HE as (HE & _).
    destruct (mg_ends _ _ _ Hm _ _ _ _ HE) as (Hsd & (ga & Ha & Sa) & (gb & Hb & Sb) & Hsa & Hsb).
    split; [assumption|]. split; [exists ga; split; [now apply HN|assumption]|].
    split; [exists gb; split; [now apply HN|assumption]|]. now split.
  - intros gid nid es c y HT Hns Hy. apply N in HT. destruct HT as (es0 & HT & ->).
    pose proof (R1 _ _ _ Hy) as Hy0.
    destruct (mg_listed _ _ _ Hm _ _ _ _ _ HT Hns Hy0) as (g0 & s & d & HE & Hend).
    exists g0, s, d. split; [|assumption]. apply E. split; [assumption|].
    intros ->. destruct (EdgeT_unique _ _ _ _ _ _ _ _ Hr HE Hx) as (_ & -> & ->).
    apply (R4 nid es0); [destruct Hend; auto|exact (mg_once _ _ _ Hm _ _ _ _ HT Hns)|assumption].
  - intros gid eid s d g0 nid es c HE HT Hend. apply E in HE. destruct HE as (HE & Hne).
    apply N in HT. destruct HT as (es0 & HT & ->).
    apply R2; [|assumption]. exact (mg_lists _ _ _ Hm _ _ _ _ _ _ _ _ HE HT Hend).
  - intros gid nid es c HT Hns. apply N in HT. destruct HT as (es0 & HT & ->).
    apply R3. exact (mg_once _ _ _ Hm _ _ _ _ HT Hns).
  - intros gid nid es c HT. apply N in HT. destruct HT as (es0 & HT & _).
    exact (mg_unchecked _ _ _ Hm _ _ _ _ HT).
Qed.

(** ** The duplicate edge of a four-node join *)

Lemma secondConnecting_filter (gs : Graphs) (node : nat) (l : list nat) :
  (forall e, CanvasScene.secondConnecting gs node (Some e) l
             = hd_error (filter (CanvasScene.connects gs node) l)) /\
  CanvasScene.secondConnecting gs node None l
  = nth_error (filter (CanvasScene.connects gs node) l) 1.
Proof.
  induction l as [|a l [IH1 IH2]]; simpl; [split; reflexivity|].
  destruct (CanvasScene.connects gs node a); simpl.
  - split; [reflexivity|]. rewrite IH1. now destruct (filter _ l).
  - split; assumption.
Qed.

Lemma connects_EdgeT (gs : Graphs) (node gid eid s d : nat) :
  NoDup (refs gs) -> EdgeT gs gid eid s d ->
  CanvasScene.connects gs node eid = Nat.eqb s node || Nat.eqb d node.
Proof.
  intros Hr HE. unfold CanvasScene.connects.
  destruct (EdgeT_findEdge _ _ _ _ _ Hr HE) as (e & -> & _ & <- & <-). reflexivity.
Qed.

Lemma connects_true (gs : Graphs) (node eid : nat) :
  NoDup (refs gs) ->
  CanvasScene.connects gs node eid = true <->
  exists gid s d, EdgeT gs gid eid s d /\ (s = node \/ d = node).
Proof.
  intros Hr. split.
  - unfold CanvasScene.connects. destruct (Items.findEdge gs eid) as [e|] eqn:F; [|discriminate].
    intros Hc. destruct (findEdge_EdgeT _ _ _ F) as (gid & HE).
    exists gid, (Edge.source e), (Edge.dest e). split; [assumption|].
    apply orb_true_iff in Hc. destruct Hc as [Hc|Hc]; apply Nat.eqb_eq in Hc; auto.
  - intros (gid & s & d & HE & Hend). rewrite (connects_EdgeT _ _ _ _ _ _ Hr HE).
    apply orb_true_iff. destruct Hend as [->| ->]; [left|right]; apply Nat.eqb_refl.
Qed.



Lemma dropFrom_In (ks : list nat) (x nid : nat) (es : list nat) (y : nat) :
  In y (dropFrom ks x nid es) -> In y es.
Proof.
  revert es. induction ks as [|k ks IH]; simpl; [tauto|]. intros es Hy.
  apply IH in Hy. destruct (Nat.eqb nid k); [now apply removeOne_In in Hy|assumption].
Qed.

Lemma dropFrom_keeps (ks : list nat) (x nid : nat) (es : list nat) (y : nat) :
  In y es -> y <> x -> In y (dropFrom ks x nid es).
Proof.
  revert es. induction ks as [|k ks IH]; simpl; [tauto|]. intros es Hy Hne.
  apply IH; [|assumption]. destruct (Nat.eqb nid k); [now apply removeOne_keeps|assumption].
Qed.

Lemma dropFrom_NoDup (ks : list nat) (x nid : nat) (es : list nat) :
  NoDup es -> NoDup (dropFrom ks x nid es).
Proof.
  revert es. induction ks as [|k ks IH]; simpl; [tauto|]. intros es Hnd.
  apply IH. destruct (Nat.eqb nid k); [now apply removeOne_NoDup|assumption].
Qed.

Lemma dropFrom_gone (ks : list nat) (x nid : nat) (es : list nat) :
  In nid ks -> NoDup es -> ~ In x (dropFrom ks x nid es).
Proof.
  revert es. induction ks as [|k ks IH]; simpl; [tauto|]. intros es [->|Hin] Hnd.
  - rewrite Nat.eqb_refl. intros F. apply dropFrom_In in F. now apply removeOne_gone in F.
  - apply IH; [assumption|]. destruct (Nat.eqb nid k); [now apply removeOne_NoDup|assumption].
Qed.

Lemma dropFrom_other (ks : list nat) (x nid : nat) (es : list nat) :
  ~ In nid ks -> dropFrom ks x nid es = es.
Proof.
  revert es. induction ks as [|k ks IH]; simpl; [reflexivity|]. intros es Hn.
  destruct (Nat.eqb nid k) eqn:E; [apply Nat.eqb_eq in E; subst; tauto|]. apply IH. tauto.
Qed.

Lemma dropFrom_absent (ks : list nat) (x nid : nat) (es : list nat) :
  ~ In x es -> dropFrom ks x nid es = es.
Proof.
  revert es. induction ks as [|k ks IH]; simpl; [reflexivity|]. intros es Hn.
  destruct (Nat.eqb nid k); [rewrite removeOne_absent by assumption|]; now apply IH.
Qed.

Lemma dropAll_views (ks : list nat) (x : nat) (gs : Graphs) :
  let gs' := fold_left (fun acc k => Items.updateNode k (fun n => Node.removeEdge n x) acc) ks gs in
  (forall gid nid es c, NodeT gs' gid nid es c <->
                        exists es0, NodeT gs gid nid es0 c /\ es = dropFrom ks x nid es0) /\
  (forall gid eid s d, EdgeT gs' gid eid s d <-> EdgeT gs gid eid s d) /\
  keys gs' = keys gs /\ refs gs' = refs gs.
Proof.
  revert gs. induction ks as [|k ks IH]; intros gs; cbn [fold_left dropFrom].
  - split; [|split; [|split]]; try reflexivity.
    intros gid nid es c. split; [intros HT; now exists es|intros (es0 & HT & ->); exact HT].
  - destruct (IH (Items.updateNode k (fun n => Node.removeEdge n x) gs)) as (N & E & K & R).
    split; [|split; [|split]].
    + intros gid nid es c. rewrite N. split.
      * intros (es1 & HT & ->).
        apply (NodeT_updateNode k _ (removeOne x) (fun c => c)) in HT; [|intros n; now repeat split].
        destruct HT as (es0 & c0 & HT & -> & Hc). exists es0. split.
        -- destruct (Nat.eqb nid k); now subst.
        -- reflexivity.
      * intros (es0 & HT & ->). eexists. split; [|reflexivity].
        apply (NodeT_updateNode k _ (removeOne x) (fun c => c)); [intros n; now repeat split|].
        exists es0, c. split; [assumption|]. split; [reflexivity|now destruct (Nat.eqb nid k)].
    + intros gid eid s d. now rewrite E, EdgeT_updateNode.
    + now rewrite K, keys_updateNode.
    + rewrite R. now apply refs_updateNode.
Qed.

(** [removeDuplicate] either finds fewer than two edges between the two
    kept nodes and does nothing, or removes the second of them. *)
Lemma removeDuplicate_views (M S : list nat) (gs : Graphs) (n1a n1b n2a n2b ga : nat)
      (La : list nat) (ca : Z) :
  Merging M S gs -> NodeT gs ga n1a La ca -> ~ In n1a S -> n1a <> n1b ->
  let J := filter (CanvasScene.connects gs n1b) La in
  let gs' := CanvasScene.removeDuplicate n1a n1b n2a n2b gs in
  (nth_error J 1 = None /\ gs' = gs) \/
  (exists x y g sx dx gy sy dy,
      nth_error J 1 = Some x /\ nth_error J 0 = Some y /\ y <> x /\
      EdgeT gs g x sx dx /\ joined n1a n1b sx dx /\
      EdgeT gs gy y sy dy /\ joined n1a n1b sy dy /\
      (forall gid nid es c,
          NodeT gs' gid nid es c <->
          exists es0, NodeT gs gid nid es0 c /\ es = dropFrom [n1a; n1b; n2a; n2b] x nid es0) /\
      (forall gid eid s d, EdgeT gs' gid eid s d <-> EdgeT gs gid eid s d /\ eid <> x) /\
      keys gs' = keys gs /\
      refs gs' = filter (fun r => negb (refEqb r (EdgeRef x))) (refs gs) /\
      Merging M S gs').
Proof.
  intros Hm HNa Hsa Hab J gs'.
  pose proof (mg_refs _ _ _ Hm) as Hr.
  pose proof (mg_once _ _ _ Hm _ _ _ _ HNa Hsa) as HLa.
  unfold gs', CanvasScene.removeDuplicate.
  rewrite (edgesOfNode_NodeT _ _ _ _ _ Hr HNa).
  rewrite (proj2 (secondConnecting_filter gs n1b La)). fold J.
  destruct (nth_error J 1) as [x|] eqn:Ex; [right|left; now split].
  destruct (nth_error J 0) as [y|] eqn:Ey; [|destruct J; discriminate].
  assert (HJ : forall z, In z J -> exists g s d, EdgeT gs g z s d /\ joined n1a n1b s d).
  { intros z Hz. unfold J in Hz. apply filter_In in Hz. destruct Hz as (HzL & Hzc).
    apply (connects_true _ _ _ Hr) in Hzc. destruct Hzc as (g & s & d & HE & Hend).
    exists g, s, d. split; [assumption|].
    destruct (proj2 (Merging_edges_of _ _ _ _ _ _ _ Hm HNa Hsa _ _ _ _ HE)) as [Hin _].
    specialize (Hin HzL). destruct (mg_ends _ _ _ Hm _ _ _ _ HE) as (Hsd & _).
    unfold joined. destruct Hend as [->| ->], Hin as [->| ->]; try congruence; tauto. }
  assert (HndJ : NoDup J) by (unfold J; now apply NoDup_filter).
  assert (Hyx : y <> x).
  { destruct J as [|a [|b J']]; try discriminate. simpl in Ex, Ey.
    inversion Ex; inversion Ey; subst. inversion HndJ as [|? ? Hn _]. simpl in Hn. intros ->. tauto. }
  destruct (HJ x (nth_error_In _ _ Ex)) as (g & sx & dx & HEx & Hjx).
  destruct (HJ y (nth_error_In _ _ Ey)) as (gy & sy & dy & HEy & Hjy).
  exists x, y, g, sx, dx, gy, sy, dy.
  destruct (dropAll_views [n1a; n1b; n2a; n2b] x gs) as (N & E & K & R).
  cbn [fold_left] in N, E, K, R.
  assert (N' : forall gid nid es c,
             NodeT (Items.detach (EdgeRef x)
                      (Items.updateNode n2b (fun n => Node.removeEdge n x)
                         (Items.updateNode n2a (fun n => Node.removeEdge n x)
                            (Items.updateNode n1b (fun n => Node.removeEdge n x)
                               (Items.updateNode n1a (fun n => Node.removeEdge n x) gs)))))
                   gid nid es c <->
             exists es0, NodeT gs gid nid es0 c /\ es = dropFrom [n1a; n1b; n2a; n2b] x nid es0).
  { intros. now rewrite NodeT_detach_edge, N. }
  assert (E' : forall gid eid s d,
             EdgeT (Items.detach (EdgeRef x)
                      (Items.updateNode n2b (fun n => Node.removeEdge n x)
                         (Items.updateNode n2a (fun n => Node.removeEdge n x)
                            (Items.updateNode n1b (fun n => Node.removeEdge n x)
                               (Items.updateNode n1a (fun n => Node.removeEdge n x) gs)))))
                   gid eid s d <-> EdgeT gs gid eid s d /\ eid <> x).
  { intros. now rewrite EdgeT_detach_edge, E. }
  cbv zeta. repeat (split; [first [reflexivity|assumption]|]).
  split; [now rewrite keys_detach, K|].
  split; [now rewrite refs_detach, R|].
  apply (Merging_drop_edge M S gs _ g x sx dx (dropFrom [n1a; n1b; n2a; n2b] x) Hm HEx).
  - intros nid es z. apply dropFrom_In.
  - intros nid es z. apply dropFrom_keeps.
  - intros nid es. apply dropFrom_NoDup.
  - intros nid es Hend. apply dropFrom_gone. unfold joined in Hjx. simpl.
    destruct Hjx as [[-> ->]|[-> ->]], Hend as [->| ->]; tauto.
  - rewrite keys_detach, K. exact (mg_keys _ _ _ Hm).
  - apply NoDup_refs_detach. now rewrite R.
  - exact N'.
  - exact E'.
Qed.

(** ** The end of a join *)


Lemma mergedInto_same (new r1 r2 g0 g0' gid : nat) :
  sameGraph [new; r1; r2] g0 g0' -> mergedInto new r1 r2 g0 gid -> g0' <> new ->
  mergedInto new r1 r2 g0' gid.
Proof.
  intros [->|[Hin Hin']] Hm Hne; [assumption|].
  simpl in Hin, Hin'. unfold mergedInto in *.
  destruct Hm as [(-> & A & B & C)|(-> & D)].
  - exfalso. intuition congruence.
  - right. split; [reflexivity|]. intuition congruence.
Qed.

Section JoinedGraphs.
Context `{Platform}.
Variables (n1 new r1 r2 : nat) (off : QPointF) (gone S : list nat) (gs : Graphs).
Hypothesis Hm : Merging [new; r1; r2] S gs.
Hypothesis Hnew : In new (keys gs).
Hypothesis Hn1 : new <> r1.
Hypothesis Hn2 : new <> r2.
Hypothesis Hr12 : r1 <> r2.
Hypothesis Hempty : forall it, ~ InGraph gs new it.
Hypothesis Hgone : forall x, In x gone <-> In x S.

Lemma joined_NodeT (gid nid : nat) (es : list nat) (c : Z) :
  NodeT (joinedGraphs n1 new r1 r2 off gone gs) gid nid es c <->
  exists g0, mergedInto new r1 r2 g0 gid /\ ~ In nid gone /\ NodeT gs g0 nid es c.
Proof.
  destruct (joinedGraphs_views n1 new r1 r2 off gone gs (mg_keys _ _ _ Hm) (mg_refs _ _ _ Hm)
              Hnew Hn1 Hn2 Hr12 Hempty) as (N & _).
  rewrite N. unfold mergedInto. split.
  - intros [(A & B & C & D & E)|(-> & D & [E|E])].
    + exists gid. tauto.
    + exists r1. tauto.
    + exists r2. tauto.
  - intros (g0 & [(-> & A & B & C)|(-> & [->| ->])] & D & E); tauto.
Qed.

Lemma joined_EdgeT (gid eid s d : nat) :
  EdgeT (joinedGraphs n1 new r1 r2 off gone gs) gid eid s d <->
  exists g0, mergedInto new r1 r2 g0 gid /\ EdgeT gs g0 eid s d.
Proof.
  destruct (joinedGraphs_views n1 new r1 r2 off gone gs (mg_keys _ _ _ Hm) (mg_refs _ _ _ Hm)
              Hnew Hn1 Hn2 Hr12 Hempty) as (_ & E & _).
  rewrite E. unfold mergedInto. split.
  - intros [(A & B & C & D)|(-> & [D|D])].
    + exists gid. tauto.
    + exists r1. tauto.
    + exists r2. tauto.
  - intros (g0 & [(-> & A & B & C)|(-> & [->| ->])] & D); tauto.
Qed.

Lemma new_has_no_node (x : nat) : ~ hasNode gs new x.
Proof. intros (es & c & n & Hn & _). exact (Hempty _ Hn). Qed.

Lemma joined_hasNode (g0 gid x : nat) :
  mergedInto new r1 r2 g0 gid -> hasNode gs g0 x -> ~ In x S ->
  hasNode (joinedGraphs n1 new r1 r2 off gone gs) gid x.
Proof.
  intros Hmi (es & c & HT) Hs. exists es, c. apply joined_NodeT. exists g0.
  split; [assumption|]. split; [now rewrite Hgone|assumption].
Qed.

Lemma joined_WellFormed : WellFormed (joinedGraphs n1 new r1 r2 off gone gs).
Proof.
  pose proof (mg_refs _ _ _ Hm) as Hr.
  destruct (joinedGraphs_views n1 new r1 r2 off gone gs (mg_keys _ _ _ Hm) Hr
              Hnew Hn1 Hn2 Hr12 Hempty) as (_ & _ & K & R).
  constructor.
  - rewrite K. apply NoDup_filter, NoDup_filter. exact (mg_keys _ _ _ Hm).
  - exact R.
  - intros gid eid s d HE. apply joined_EdgeT in HE. destruct HE as (g0 & Hmi & HE).
    destruct (mg_ends _ _ _ Hm _ _ _ _ HE) as (Hsd & (ga & Ha & Sa) & (gb & Hb & Sb) & Hsa & Hsb).
    split; [|split; [|assumption]].
    + apply (joined_hasNode ga); [|assumption|assumption].
      apply (mergedInto_same _ _ _ g0); [assumption|assumption|].
      intros ->. exact (new_has_no_node _ Ha).
    + apply (joined_hasNode gb); [|assumption|assumption].
      apply (mergedInto_same _ _ _ g0); [assumption|assumption|].
      intros ->. exact (new_has_no_node _ Hb).
  - intros gid nid es c x HT Hx. apply joined_NodeT in HT. destruct HT as (g0 & Hmi & Hng & HT).
    rewrite Hgone in Hng.
    destruct (mg_listed _ _ _ Hm _ _ _ _ _ HT Hng Hx) as (ge & s & d & HE & Hend).
    exists s, d. split; [|assumption]. apply joined_EdgeT. exists ge. split; [|assumption].
    destruct (mg_ends _ _ _ Hm _ _ _ _ HE) as (Hsd & (ga & Ha & Sa) & (gb & Hb & Sb) & _).
    assert (Hg0 : sameGraph [new; r1; r2] ge g0).
    { assert (HNn : hasNode gs g0 nid) by now exists es, c.
      destruct Hend as [->| ->].
      - now rewrite (hasNode_unique _ _ _ _ Hr HNn Ha).
      - now rewrite (hasNode_unique _ _ _ _ Hr HNn Hb). }
    apply (mergedInto_same _ _ _ g0); [now apply sameGraph_sym|assumption|].
    intros ->. destruct HE as (e & He & _). exact (Hempty _ He).
  - intros gid eid s d nid es c HE HT Hend.
    apply joined_EdgeT in HE. destruct HE as (ge & _ & HE).
    apply joined_NodeT in HT. destruct HT as (g0 & _ & _ & HT).
    exact (mg_lists _ _ _ Hm _ _ _ _ _ _ _ _ HE HT Hend).
  - intros gid nid es c HT. apply joined_NodeT in HT. destruct HT as (g0 & _ & Hng & HT).
    rewrite Hgone in Hng. exact (mg_once _ _ _ Hm _ _ _ _ HT Hng).
  - intros gid nid es c HT. apply joined_NodeT in HT. destruct HT as (g0 & _ & _ & HT).
    exact (mg_unchecked _ _ _ Hm _ _ _ _ HT).
Qed.

End JoinedGraphs.

(** * Paths

    [linked] forgets which graph an edge is a child of: in a well-formed
    scene an edge and its two ends are children of the same graph, so
    that nothing is lost. *)



Lemma linked_sym (gs : Graphs) (u v : nat) : linked gs u v -> linked gs v u.
Proof. intros (g & e & Hl). exists g, e. tauto. Qed.

Lemma path_trans (gs : Graphs) (u v w : nat) : path gs u v -> path gs v w -> path gs u w.
Proof.
  intros Huv Hvw. revert Huv. induction Hvw as [|v w z _ IH Hl]; intros Huv; [assumption|].
  eapply path_step; [now apply IH|exact Hl].
Qed.

Lemma path_one (gs : Graphs) (u v : nat) : linked gs u v -> path gs u v.
Proof. intros Hl. eapply path_step; [apply path_refl|exact Hl]. Qed.

Lemma path_sym (gs : Graphs) (u v : nat) : path gs u v -> path gs v u.
Proof.
  induction 1 as [|u v w _ IH Hl]; [apply path_refl|].
  eapply path_trans; [apply path_one, linked_sym; exact Hl|exact IH].
Qed.

Lemma path_map (gs gs' : Graphs) (f : nat -> nat) :
  (forall a b, linked gs a b -> path gs' (f a) (f b)) ->
  forall u v, path gs u v -> path gs' (f u) (f v).
Proof.
  intros Hf u v. induction 1 as [|u v w _ IH Hl]; [apply path_refl|].
  eapply path_trans; [exact IH|now apply Hf].
Qed.

Lemma adjacent_sym (gs : Graphs) (gid u v : nat) : adjacent gs gid u v -> adjacent gs gid v u.
Proof. intros (e & Hl). exists e. tauto. Qed.

Lemma reach_trans (gs : Graphs) (gid u v w : nat) :
  reach gs gid u v -> reach gs gid v w -> reach gs gid u w.
Proof.
  intros Huv Hvw. revert Huv. induction Hvw as [|v w z _ IH Hl]; intros Huv; [assumption|].
  eapply reach_step; [now apply IH|exact Hl].
Qed.

Lemma reach_sym (gs : Graphs) (gid u v : nat) : reach gs gid u v -> reach gs gid v u.
Proof.
  induction 1 as [|u v w _ IH Hl]; [apply reach_refl|].
  eapply reach_trans; [|exact IH].
  eapply reach_step; [apply reach_refl|now apply adjacent_sym].
Qed.

Lemma reach_path (gs : Graphs) (gid u v : nat) : reach gs gid u v -> path gs u v.
Proof.
  induction 1 as [|u v w _ IH (e & Hl)]; [apply path_refl|].
  eapply path_step; [exact IH|]. now exists gid, e.
Qed.

Section WellFormedPaths.
Variable gs : Graphs.
Hypothesis Hwf : WellFormed gs.

(** The nodes reached from a node of a graph are nodes of that graph. *)
Lemma reach_closed (gid u v : nat) : hasNode gs gid u -> reach gs gid u v -> hasNode gs gid v.
Proof.
  intros Hu. induction 1 as [|u v w _ IH (e & Hl)]; [assumption|].
  destruct Hl as [Hl|Hl]; destruct (wf_ends gs Hwf _ _ _ _ Hl) as (A & B & _); assumption.
Qed.

Lemma path_reach (gid u v : nat) : hasNode gs gid u -> path gs u v -> reach gs gid u v.
Proof.
  intros Hu. induction 1 as [|u v w Huv IH (g & e & Hl)]; [apply reach_refl|].
  specialize (IH Hu). eapply reach_step; [exact IH|].
  pose proof (reach_closed _ _ _ Hu IH) as Hv.
  assert (g = gid).
  { destruct Hl as [Hl|Hl]; destruct (wf_ends gs Hwf _ _ _ _ Hl) as (A & B & _);
      [exact (hasNode_unique _ _ _ _ (wf_refs gs Hwf) A Hv)
      |exact (hasNode_unique _ _ _ _ (wf_refs gs Hwf) B Hv)]. }
  subst g. now exists e.
Qed.

(** Connected: any two nodes of a graph are joined by a path. *)
Lemma Connected_paths :
  Connected gs <-> (forall gid u v, hasNode gs gid u -> hasNode gs gid v -> path gs u v).
Proof.
  split.
  - intros Hc gid u v Hu Hv. apply (reach_path _ gid). now apply (Hc gid u Hu v).
  - intros Hp gid u Hu v. split.
    + now apply reach_closed.
    + intros Hv. apply path_reach; [assumption|]. now apply (Hp gid).
Qed.

End WellFormedPaths.

(** A scene whose nodes and edges are those of another has its paths. *)
Lemma path_same_views (gs gs' : Graphs) :
  (forall gid eid s d, EdgeT gs' gid eid s d <-> EdgeT gs gid eid s d) ->
  forall u v, path gs u v -> path gs' u v.
Proof.
  intros E. apply (path_map gs gs' (fun x => x)).
  intros a b (g & e & Hl). apply path_one. exists g, e. now rewrite !E.
Qed.

Lemma path_subst (gs gs' : Graphs) (n2 n1 : nat) :
  (forall gid eid s d,
      EdgeT gs' gid eid s d <->
      exists s0 d0, EdgeT gs gid eid s0 d0 /\ s = subst1 n2 n1 s0 /\ d = subst1 n2 n1 d0) ->
  forall u v, path gs u v -> path gs' (subst1 n2 n1 u) (subst1 n2 n1 v).
Proof.
  intros E. apply path_map. intros a b (g & e & Hl). apply path_one. exists g, e.
  destruct Hl as [Hl|Hl]; [left|right]; apply E; eauto.
Qed.

(** Dropping one of two edges with the same ends keeps the paths. *)
Lemma path_drop_parallel (gs gs' : Graphs) (x y gx sx dx gy sy dy a b : nat) :
  NoDup (refs gs) ->
  (forall gid eid s d, EdgeT gs' gid eid s d <-> EdgeT gs gid eid s d /\ eid <> x) ->
  EdgeT gs gx x sx dx -> joined a b sx dx ->
  EdgeT gs gy y sy dy -> joined a b sy dy -> y <> x ->
  forall u v, path gs u v -> path gs' u v.
Proof.
  intros Hr E Hx Hjx Hy Hjy Hyx. apply (path_map gs gs' (fun z => z)).
  intros p q (g & e & Hl). apply path_one.
  destruct (Nat.eq_dec e x) as [->|Hne].
  - exists gy, y.
    assert (Hy' : EdgeT gs' gy y sy dy) by (apply E; now split).
    unfold joined in *.
    destruct Hl as [Hl|Hl]; destruct (EdgeT_unique _ _ _ _ _ _ _ _ Hr Hl Hx) as (_ & -> & ->);
      destruct Hjx as [[-> ->]|[-> ->]], Hjy as [[-> ->]|[-> ->]]; tauto.
  - exists g, e. destruct Hl as [Hl|Hl]; [left|right]; apply E; now split.
Qed.

Lemma InGraph_views (gs : Graphs) (gid : nat) (it : Item) :
  InGraph gs gid it ->
  (exists nid es c, NodeT gs gid nid es c) \/ (exists eid s d, EdgeT gs gid eid s d).
Proof.
  intros Hin. destruct it as [n|e].
  - left. exists (Node.id n), (Node.edgeList n), (Node.checked n), n. now repeat split.
  - right. exists (Edge.id e), (Edge.source e), (Edge.dest e), e. now repeat split.
Qed.

Lemma NodeT_key (gs : Graphs) (gid nid : nat) (es : list nat) (c : Z) :
  NodeT gs gid nid es c -> In gid (keys gs).
Proof. intros HT. apply (hasNode_key gs gid nid). now exists es, c. Qed.

Lemma EdgeT_key (gs : Graphs) (gid eid s d : nat) : EdgeT gs gid eid s d -> In gid (keys gs).
Proof.
  intros (e & (g & Hg & _) & _). unfold keys. apply in_map_iff. now exists (gid, g).
Qed.

(** ** Connected graphs joined at two nodes *)

Section JoinedPaths.
Context `{Platform}.
Variables (n1 n2 new r1 r2 : nat) (off : QPointF) (gone S : list nat) (gs0 gs : Graphs).
Variable sigma : nat -> nat.
Hypothesis Hwf0 : WellFormed gs0.
Hypothesis Hconn0 : Connected gs0.
Hypothesis Hm : Merging [new; r1; r2] S gs.
Hypothesis Hnew : In new (keys gs).
Hypothesis Hn1 : new <> r1.
Hypothesis Hn2 : new <> r2.
Hypothesis Hr12 : r1 <> r2.
Hypothesis Hempty : forall it, ~ InGraph gs new it.
Hypothesis Hgone : forall x, In x gone <-> In x S.
Hypothesis Hnodes : forall g nid es c, NodeT gs g nid es c -> hasNode gs0 g nid.
Hypothesis Hpaths : forall u v, path gs0 u v -> path gs (sigma u) (sigma v).
Hypothesis Hsigma : forall x, ~ In x gone -> sigma x = x.
Hypothesis Hone : hasNode gs0 r1 n1.
Hypothesis Htwo : hasNode gs0 r2 n2.
Hypothesis Hlink : sigma n2 = n1.
Hypothesis Hkept : ~ In n1 gone.

Lemma joined_path (u v : nat) :
  path gs u v -> path (joinedGraphs n1 new r1 r2 off gone gs) u v.
Proof.
  apply (path_map gs _ (fun x => x)). intros a b (g & e & Hl). apply path_one.
  assert (Hg : exists gid, mergedInto new r1 r2 g gid).
  { assert (g <> new).
    { intros ->. destruct Hl as [(x & Hx & _)|(x & Hx & _)]; exact (Hempty _ Hx). }
    unfold mergedInto.
    destruct (Nat.eq_dec g r1) as [->|A]; [exists new; tauto|].
    destruct (Nat.eq_dec g r2) as [->|B]; [exists new; tauto|].
    exists g. tauto. }
  destruct Hg as (gid & Hg). exists gid, e.
  destruct Hl as [Hl|Hl]; [left|right];
    apply (joined_EdgeT n1 new r1 r2 off gone S gs Hm Hnew Hn1 Hn2 Hr12 Hempty); eauto.
Qed.

Lemma joined_Connected : Connected (joinedGraphs n1 new r1 r2 off gone gs).
Proof.
  pose proof (joined_WellFormed n1 new r1 r2 off gone S gs Hm Hnew Hn1 Hn2 Hr12 Hempty Hgone)
    as Hwf.
  pose proof (proj1 (Connected_paths gs0 Hwf0) Hconn0) as Hp0.
  apply (Connected_paths _ Hwf).
  assert (Hback : forall gid u, hasNode (joinedGraphs n1 new r1 r2 off gone gs) gid u ->
            exists g0, mergedInto new r1 r2 g0 gid /\ ~ In u gone /\ hasNode gs0 g0 u).
  { intros gid u (es & c & HT).
    apply (joined_NodeT n1 new r1 r2 off gone S gs Hm Hnew Hn1 Hn2 Hr12 Hempty) in HT.
    destruct HT as (g0 & Hmi & Hng & HT). exists g0. eauto. }
  assert (Hanchor : forall u g0, (g0 = r1 \/ g0 = r2) -> ~ In u gone -> hasNode gs0 g0 u ->
            path (joinedGraphs n1 new r1 r2 off gone gs) u n1).
  { intros u g0 Hg0 Hu Hn. apply joined_path. rewrite <- (Hsigma u Hu). destruct Hg0 as [->| ->].
    - rewrite <- (Hsigma n1 Hkept). apply Hpaths. now apply (Hp0 r1).
    - rewrite <- Hlink. apply Hpaths. now apply (Hp0 r2). }
  intros gid u v Hu Hv.
  destruct (Hback _ _ Hu) as (gu & Hmu & Hgu & Hnu).
  destruct (Hback _ _ Hv) as (gv & Hmv & Hgv & Hnv).
  unfold mergedInto in Hmu, Hmv.
  destruct Hmu as [(-> & A & B & C)|(-> & Hu12)].
  - destruct Hmv as [(-> & _)|(-> & _)]; [|congruence].
    apply joined_path. rewrite <- (Hsigma u Hgu), <- (Hsigma v Hgv). apply Hpaths.
    now apply (Hp0 gid).
  - destruct Hmv as [(-> & A & _)|(_ & Hv12)]; [congruence|].
    eapply path_trans; [exact (Hanchor _ _ Hu12 Hgu Hnu)|].
    apply path_sym. exact (Hanchor _ _ Hv12 Hgv Hnv).
Qed.

End JoinedPaths.

(** * The joins keep the graphs well formed and connected *)

Lemma fresh_graph_start (gs0 gs4 : Graphs) (others : list nat) :
  WellFormed gs0 ->
  topoStep (gs0 ++ [(Items.fresh gs0 others, Graph.new)]) gs4 ->
  forall r1 r2,
    let new := Items.fresh gs0 others in
    Merging [new; r1; r2] [] gs4 /\ In new (keys gs4) /\
    (In r1 (keys gs0) -> new <> r1) /\ (In r2 (keys gs0) -> new <> r2) /\
    (forall it, ~ InGraph gs4 new it).
Proof.
  intros Hwf T r1 r2 new.
  destruct (views_after_new _ _ _ T) as (N & E & K & R).
  assert (Hfresh : ~ In new (keys gs0)) by apply fresh_not_key.
  split; [|split; [|split; [|split]]].
  - apply (Merging_same_views _ _ gs0).
    + rewrite K, <- keys_app_new. apply NoDup_keys_app_new; [exact (wf_keys _ Hwf)|exact Hfresh].
    + rewrite R. exact (wf_refs _ Hwf).
    + exact N.
    + exact E.
    + apply (Merging_weaken []); [intros x []|]. now apply WellFormed_Merging.
  - rewrite K. apply in_or_app. right. now left.
  - intros Hin ->. exact (Hfresh Hin).
  - intros Hin ->. exact (Hfresh Hin).
  - intros it Hin. apply Hfresh. destruct (InGraph_views _ _ _ Hin) as [(nid & es & c & HT)|(eid & s & d & HT)].
    + apply N in HT. exact (NodeT_key _ _ _ _ _ HT).
    + apply E in HT. exact (EdgeT_key _ _ _ _ _ HT).
Qed.

Lemma hasNode_same_views (gs gs' : Graphs) :
  (forall gid nid es c, NodeT gs' gid nid es c <-> NodeT gs gid nid es c) ->
  forall g x, hasNode gs' g x <-> hasNode gs g x.
Proof.
  intros N g x. unfold hasNode. split; intros (es & c & HT); exists es, c; now apply N.
Qed.

Lemma hasNode_rewire (gs gs' : Graphs) (n1 : nat) (L2 : list nat) :
  (forall gid nid es c,
      NodeT gs' gid nid es c <->
      exists es0, NodeT gs gid nid es0 c /\ es = if Nat.eqb nid n1 then es0 ++ L2 else es0) ->
  forall g x, hasNode gs' g x <-> hasNode gs g x.
Proof.
  intros N g x. unfold hasNode. split.
  - intros (es & c & HT). apply N in HT. destruct HT as (es0 & HT & _). now exists es0, c.
  - intros (es & c & HT). eexists. exists c. apply N. exists es. split; [exact HT|reflexivity].
Qed.

(** Two nodes of different graphs are not the ends of an edge. *)
Lemma WellFormed_apart (gs : Graphs) (r1 r2 n1 n2 : nat) :
  WellFormed gs -> hasNode gs r1 n1 -> hasNode gs r2 n2 -> r1 <> r2 ->
  forall gid eid s d, EdgeT gs gid eid s d -> ~ joined n1 n2 s d.
Proof.
  intros Hwf H1 H2 Hne gid eid s d HE Hj.
  destruct (wf_ends _ Hwf _ _ _ _ HE) as (A & B & _).
  pose proof (wf_refs _ Hwf) as Hr.
  destruct Hj as [[-> ->]|[-> ->]]; apply Hne.
  - rewrite (hasNode_unique _ _ _ _ Hr H1 A). exact (hasNode_unique _ _ _ _ Hr B H2).
  - rewrite (hasNode_unique _ _ _ _ Hr H1 B). exact (hasNode_unique _ _ _ _ Hr A H2).
Qed.

Lemma joinTwo_sound `{Platform} (n1 n2 r1 r2 : nat) (s : CanvasScene.t) :
  WellFormed (CanvasScene.graphs s) -> Connected (CanvasScene.graphs s) ->
  hasNode (CanvasScene.graphs s) r1 n1 -> hasNode (CanvasScene.graphs s) r2 n2 -> r1 <> r2 ->
  exists s', CanvasScene.joinTwo n1 n2 s = Some s'
             /\ WellFormed (CanvasScene.graphs s') /\ Connected (CanvasScene.graphs s').
Proof.
  intros Hwf Hconn H1 H2 Hne.
  set (gs0 := CanvasScene.graphs s) in *.
  destruct (joinTwo_graphs n1 n2 r1 r2 s (wf_keys _ Hwf) (wf_refs _ Hwf) H1 H2)
    as (gs4 & off & s' & Hrun & T & Hgs).
  fold gs0 in T, Hgs. set (new := Items.fresh gs0 (CanvasScene.canvasGraphList s)) in *.
  destruct (fresh_graph_start gs0 gs4 _ Hwf T r1 r2) as (Hm4 & Hnew4 & Hn1 & Hn2 & Hempty4).
  fold new in Hm4, Hnew4, Hn1, Hn2, Hempty4.
  specialize (Hn1 (hasNode_key _ _ _ H1)). specialize (Hn2 (hasNode_key _ _ _ H2)).
  destruct (views_after_new _ _ _ T) as (N4 & E4 & K4 & R4).
  pose proof (hasNode_same_views gs0 gs4 N4) as HN4.
  assert (Hn12 : n1 <> n2).
  { intros ->. apply Hne. exact (hasNode_unique _ _ _ _ (wf_refs _ Hwf) H1 H2). }
  assert (Hm5 : Merging [new; r1; r2] [n2] (CanvasScene.rewire n2 n1 gs4)).
  { apply (Merging_rewire _ _ _ _ _ r1 r2 Hm4).
    - now apply HN4.
    - now apply HN4.
    - right. simpl. tauto.
    - intros [].
    - intros [].
    - exact Hn12.
    - intros gid eid s0 d0 HE. apply E4 in HE.
      exact (WellFormed_apart gs0 r1 r2 n1 n2 Hwf H1 H2 Hne _ _ _ _ HE). }
  destruct (proj2 (HN4 _ _) H2) as (L2 & c2 & HT2).
  destruct (rewire_views gs4 n1 n2 r2 L2 c2 (mg_refs _ _ _ Hm4) HT2
              (mg_once _ _ _ Hm4 _ _ _ _ HT2 (fun f => f))
              (ex_intro _ r1 (proj2 (HN4 _ _) H1))
              (Merging_edges_of _ _ _ _ _ _ _ Hm4 HT2 (fun f => f))) as (N5 & E5 & K5 & R5).
  set (gs5 := CanvasScene.rewire n2 n1 gs4) in *.
  pose proof (hasNode_rewire gs4 gs5 n1 L2 N5) as HN5.
  assert (Hnew5 : In new (keys gs5)) by now rewrite K5.
  assert (Hempty5 : forall it, ~ InGraph gs5 new it).
  { intros it Hin. destruct (InGraph_views _ _ _ Hin) as [(nid & es & c & HT)|(eid & s0 & d0 & HT)].
    - apply N5 in HT. destruct HT as (es0 & HT & _). destruct HT as (n & Hn & _).
      exact (Hempty4 _ Hn).
    - apply E5 in HT. destruct HT as (a & b & (e & He & _) & _). exact (Hempty4 _ He). }
  exists s'. split; [exact Hrun|]. rewrite Hgs. split.
  - apply (joined_WellFormed n1 new r1 r2 off [n2] [n2] gs5 Hm5 Hnew5 Hn1 Hn2 Hne Hempty5).
    tauto.
  - apply (joined_Connected n1 n2 new r1 r2 off [n2] [n2] gs0 gs5 (subst1 n2 n1) Hwf Hconn
             Hm5 Hnew5 Hn1 Hn2 Hne Hempty5).
    + tauto.
    + intros g nid es c HT. apply HN4, HN5. now exists es, c.
    + intros u v Hp. apply (path_subst gs4 gs5 n2 n1 E5). now apply (path_same_views gs0 gs4 E4).
    + intros x Hx. apply subst1_other. simpl in Hx. intros ->. tauto.
    + exact H1.
    + exact H2.
    + apply subst1_from.
    + simpl. intros [F|[]]. congruence.
Qed.

(** ** The four-node join *)

Section FourNodes.
Variables (gs0 gs4 : Graphs) (M : list nat) (n1a n1b n2a n2b r1 r2 : nat).
Hypothesis Hwf : WellFormed gs0.
Hypothesis Hm4 : Merging M [] gs4.
Hypothesis N4 : forall gid nid es c, NodeT gs4 gid nid es c <-> NodeT gs0 gid nid es c.
Hypothesis E4 : forall gid eid s d, EdgeT gs4 gid eid s d <-> EdgeT gs0 gid eid s d.
Hypothesis HM : sameGraph M r1 r2.
Hypothesis H1a : hasNode gs0 r1 n1a.
Hypothesis H1b : hasNode gs0 r1 n1b.
Hypothesis H2a : hasNode gs0 r2 n2a.
Hypothesis H2b : hasNode gs0 r2 n2b.
Hypothesis Hne : r1 <> r2.
Hypothesis Hab1 : n1a <> n1b.
Hypothesis Hab2 : n2a <> n2b.

Lemma four_distinct : n1a <> n2a /\ n1a <> n2b /\ n1b <> n2a /\ n1b <> n2b.
Proof.
  clear Hab1 Hab2 Hm4 N4 E4 HM. pose proof (wf_refs _ Hwf) as Hr.
  repeat split; intros ->; apply Hne.
  - exact (hasNode_unique _ _ _ _ Hr H1a H2a).
  - exact (hasNode_unique _ _ _ _ Hr H1a H2b).
  - exact (hasNode_unique _ _ _ _ Hr H1b H2a).
  - exact (hasNode_unique _ _ _ _ Hr H1b H2b).
Qed.

Lemma four_rewired :
  let gs6 := CanvasScene.rewire n2b n1b (CanvasScene.rewire n2a n1a gs4) in
  Merging M [n2b; n2a] gs6 /\
  (forall g x, hasNode gs6 g x <-> hasNode gs0 g x) /\
  (forall gid eid s d,
      EdgeT gs6 gid eid s d <->
      exists s0 d0, EdgeT gs0 gid eid s0 d0
                    /\ s = subst1 n2b n1b (subst1 n2a n1a s0)
                    /\ d = subst1 n2b n1b (subst1 n2a n1a d0)) /\
  keys gs6 = keys gs4 /\ refs gs6 = refs gs4.
Proof.
  destruct four_distinct as (D1 & D2 & D3 & D4).
  pose proof (hasNode_same_views gs0 gs4 N4) as HN4.
  (* first rewiring *)
  assert (Hm5 : Merging M [n2a] (CanvasScene.rewire n2a n1a gs4)).
  { apply (Merging_rewire _ _ _ _ _ r1 r2 Hm4).
    - now apply HN4.
    - now apply HN4.
    - exact HM.
    - intros [].
    - intros [].
    - exact D1.
    - intros gid eid s0 d0 HE. apply E4 in HE.
      exact (WellFormed_apart gs0 r1 r2 n1a n2a Hwf H1a H2a Hne _ _ _ _ HE). }
  destruct (proj2 (HN4 _ _) H2a) as (L2a & c2a & HT2a).
  destruct (rewire_views gs4 n1a n2a r2 L2a c2a (mg_refs _ _ _ Hm4) HT2a
              (mg_once _ _ _ Hm4 _ _ _ _ HT2a (fun f => f))
              (ex_intro _ r1 (proj2 (HN4 _ _) H1a))
              (Merging_edges_of _ _ _ _ _ _ _ Hm4 HT2a (fun f => f))) as (N5 & E5 & K5 & R5).
  set (gs5 := CanvasScene.rewire n2a n1a gs4) in *.
  pose proof (hasNode_rewire gs4 gs5 n1a L2a N5) as HN5.
  (* second rewiring *)
  assert (Hs1b : ~ In n1b [n2a]) by (simpl; intros [F|[]]; congruence).
  assert (Hs2b : ~ In n2b [n2a]) by (simpl; intros [F|[]]; congruence).
  assert (Hm6 : Merging M [n2b; n2a] (CanvasScene.rewire n2b n1b gs5)).
  { apply (Merging_rewire _ _ _ _ _ r1 r2 Hm5).
    - now apply HN5, HN4.
    - now apply HN5, HN4.
    - exact HM.
    - exact Hs1b.
    - exact Hs2b.
    - exact D4.
    - intros gid eid s d HE Hj. apply E5 in HE. destruct HE as (s0 & d0 & HE & -> & ->).
      apply E4 in HE.
      apply (WellFormed_apart gs0 r1 r2 n1b n2b Hwf H1b H2b Hne _ _ _ _ HE).
      unfold joined.
      destruct (subst1_cases n2a n1a s0) as [[-> Es]|[Hs Es]],
               (subst1_cases n2a n1a d0) as [[-> Ed]|[Hd Ed]];
        rewrite ?Es, ?Ed in Hj; destruct Hj as [[A B]|[A B]]; try congruence; tauto. }
  destruct (proj2 (HN5 _ _) (proj2 (HN4 _ _) H2b)) as (L2b & c2b & HT2b).
  destruct (rewire_views gs5 n1b n2b r2 L2b c2b (mg_refs _ _ _ Hm5) HT2b
              (mg_once _ _ _ Hm5 _ _ _ _ HT2b Hs2b)
              (ex_intro _ r1 (proj2 (HN5 _ _) (proj2 (HN4 _ _) H1b)))
              (Merging_edges_of _ _ _ _ _ _ _ Hm5 HT2b Hs2b)) as (N6 & E6 & K6 & R6).
  set (gs6 := CanvasScene.rewire n2b n1b gs5) in *.
  pose proof (hasNode_rewire gs5 gs6 n1b L2b N6) as HN6.
  cbv zeta. split; [exact Hm6|]. split; [|split; [|split]].
  - intros g x. now rewrite HN6, HN5, HN4.
  - intros gid eid s d. rewrite E6. split.
    + intros (s1 & d1 & HE & -> & ->). apply E5 in HE. destruct HE as (s0 & d0 & HE & -> & ->).
      apply E4 in HE. now exists s0, d0.
    + intros (s0 & d0 & HE & -> & ->). eexists. eexists. split; [|split; reflexivity].
      apply E5. exists s0, d0. split; [now apply E4|split; reflexivity].
  - now rewrite K6, K5.
  - now rewrite R6, R5.
Qed.

End FourNodes.

Lemma removeDuplicate_sound (M S : list nat) (gs : Graphs) (n1a n1b n2a n2b ga : nat) :
  Merging M S gs -> hasNode gs ga n1a -> ~ In n1a S -> n1a <> n1b ->
  let gs' := CanvasScene.removeDuplicate n1a n1b n2a n2b gs in
  Merging M S gs' /\
  (forall g x, hasNode gs' g x <-> hasNode gs g x) /\
  (forall u v, path gs u v -> path gs' u v) /\
  keys gs' = keys gs /\
  (forall gid eid s d, EdgeT gs' gid eid s d -> EdgeT gs gid eid s d).
Proof.
  intros Hm (La & ca & HT) Hs Hab.
  destruct (removeDuplicate_views M S gs n1a n1b n2a n2b ga La ca Hm HT Hs Hab)
    as [(_ & ->)|(x & y & g & sx & dx & gy & sy & dy & _ & _ & Hyx & Hx & Hjx & Hy & Hjy
                  & N & E & K & _ & Hm')].
  - cbv zeta. split; [exact Hm|]. split; [reflexivity|]. split; [auto|]. split; [reflexivity|auto].
  - cbv zeta. split; [exact Hm'|]. split; [|split; [|split]].
    + intros g0 z. unfold hasNode. split.
      * intros (es & c & HT'). apply N in HT'. destruct HT' as (es0 & HT' & _). now exists es0, c.
      * intros (es & c & HT'). eexists. exists c. apply N. exists es. split; [exact HT'|reflexivity].
    + exact (path_drop_parallel gs _ x y g sx dx gy sy dy n1a n1b (mg_refs _ _ _ Hm)
               E Hx Hjx Hy Hjy Hyx).
    + exact K.
    + intros gid eid s d HE. now apply E in HE.
Qed.

Lemma joinFour_sound `{Platform} (n1a n1b n2a n2b r1 r2 : nat) (s : CanvasScene.t) :
  WellFormed (CanvasScene.graphs s) -> Connected (CanvasScene.graphs s) ->
  hasNode (CanvasScene.graphs s) r1 n1a -> hasNode (CanvasScene.graphs s) r1 n1b ->
  hasNode (CanvasScene.graphs s) r2 n2a -> hasNode (CanvasScene.graphs s) r2 n2b ->
  r1 <> r2 -> n1a <> n1b -> n2a <> n2b ->
  exists s', CanvasScene.joinFour n1a n1b n2a n2b s = Some s'
             /\ WellFormed (CanvasScene.graphs s') /\ Connected (CanvasScene.graphs s').
Proof.
  intros Hwf Hconn H1a H1b H2a H2b Hne Hab1 Hab2.
  set (gs0 := CanvasScene.graphs s) in *.
  destruct (joinFour_graphs n1a n1b n2a n2b r1 r2 s (wf_keys _ Hwf) (wf_refs _ Hwf)
              H1a H1b H2a H2b) as (gs4 & off & s' & Hrun & T & Hgs).
  fold gs0 in T, Hgs. set (new := Items.fresh gs0 (CanvasScene.canvasGraphList s)) in *.
  destruct (fresh_graph_start gs0 gs4 _ Hwf T r1 r2) as (Hm4 & Hnew4 & Hn1 & Hn2 & Hempty4).
  fold new in Hm4, Hnew4, Hn1, Hn2, Hempty4.
  specialize (Hn1 (hasNode_key _ _ _ H1a)). specialize (Hn2 (hasNode_key _ _ _ H2a)).
  destruct (views_after_new _ _ _ T) as (N4 & E4 & K4 & R4).
  assert (HM : sameGraph [new; r1; r2] r1 r2) by (right; simpl; tauto).
  destruct (four_distinct gs0 n1a n1b n2a n2b r1 r2 Hwf H1a H1b H2a H2b Hne)
    as (D1 & D2 & D3 & D4).
  destruct (four_rewired gs0 gs4 _ n1a n1b n2a n2b r1 r2 Hwf Hm4 N4 E4 HM
              H1a H1b H2a H2b Hne Hab1 Hab2) as (Hm6 & HN6 & E6 & K6 & R6).
  set (gs6 := CanvasScene.rewire n2b n1b (CanvasScene.rewire n2a n1a gs4)) in *.
  assert (Hs1a : ~ In n1a [n2b; n2a]).
  { simpl. intros [F|[F|[]]]; [apply D2|apply D1]; now symmetry. }
  destruct (removeDuplicate_sound _ _ gs6 n1a n1b n2a n2b r1 Hm6 (proj2 (HN6 _ _) H1a) Hs1a Hab1)
    as (Hm7 & HN7 & P7 & K7 & E7).
  set (gs7 := CanvasScene.removeDuplicate n1a n1b n2a n2b gs6) in *.
  assert (Hnew7 : In new (keys gs7)) by now rewrite K7, K6.
  assert (Hempty7 : forall it, ~ InGraph gs7 new it).
  { intros it Hin. apply (fresh_not_key gs0 (CanvasScene.canvasGraphList s)). fold new.
    destruct (InGraph_views _ _ _ Hin) as [(nid & es & c & HT)|(eid & s0 & d0 & HT)].
    - apply (hasNode_key gs0 new nid). apply HN6, HN7. now exists es, c.
    - apply E7, E6 in HT. destruct HT as (a & b & HT & _). exact (EdgeT_key _ _ _ _ _ HT). }
  assert (Hgone : forall x, In x [n2a; n2b] <-> In x [n2b; n2a]) by (simpl; tauto).
  exists s'. split; [exact Hrun|]. rewrite Hgs. split.
  - exact (joined_WellFormed n1a new r1 r2 off [n2a; n2b] [n2b; n2a] gs7 Hm7 Hnew7 Hn1 Hn2 Hne
             Hempty7 Hgone).
  - apply (joined_Connected n1a n2a new r1 r2 off [n2a; n2b] [n2b; n2a] gs0 gs7
             (fun x => subst1 n2b n1b (subst1 n2a n1a x)) Hwf Hconn
             Hm7 Hnew7 Hn1 Hn2 Hne Hempty7 Hgone).
    + intros g nid es c HT. apply HN6, HN7. now exists es, c.
    + intros u v Hp. apply P7. revert u v Hp. apply path_map.
      intros a b (g & e & Hl). apply path_one. exists g, e.
      destruct Hl as [Hl|Hl]; [left|right]; apply E6; eauto.
    + intros x Hx. simpl in Hx. rewrite (subst1_other n2a n1a x) by (intros ->; tauto).
      apply subst1_other. intros ->. tauto.
    + exact H1a.
    + exact H2a.
    + rewrite subst1_from. now apply subst1_other.
    + simpl. intros [F|[F|[]]]; congruence.
Qed.

(** * Counting edges *)

Lemma edgesOf_In (items : list Item) (e : Edge.t) :
  In e (Graph.edgesOf items) <-> In (EdgeItem e) items.
Proof.
  induction items as [|[n|e'] r IH]; simpl; [tauto| |].
  - rewrite IH. split; [tauto|]. intros [F|F]; [discriminate|assumption].
  - rewrite IH. split; intros [F|F]; try tauto; left; congruence.
Qed.

Lemma edgesOf_ids_NoDup (items : list Item) :
  NoDup (map refOf items) -> NoDup (map Edge.id (Graph.edgesOf items)).
Proof.
  induction items as [|[n|e] r IH]; simpl; intros Hnd; [constructor| |];
    inversion Hnd as [|? ? Hnot Hnd']; subst; [now apply IH|].
  constructor; [|now apply IH].
  intros Hin. apply Hnot. apply in_map_iff in Hin. destruct Hin as (e' & E & Hin).
  apply in_map_iff. exists (EdgeItem e'). split; [simpl; now rewrite E|now apply edgesOf_In].
Qed.

Lemma ids_filter_In (P : Edge.t -> bool) (l : list Edge.t) (eid : nat) :
  In eid (map Edge.id (filter P l)) <-> exists e, In e l /\ Edge.id e = eid /\ P e = true.
Proof.
  rewrite in_map_iff. split.
  - intros (e & E & Hin). apply filter_In in Hin. exists e. tauto.
  - intros (e & Hin & E & HP). exists e. split; [assumption|]. apply filter_In. tauto.
Qed.

Lemma ids_filter_NoDup (P : Edge.t -> bool) (l : list Edge.t) :
  NoDup (map Edge.id l) -> NoDup (map Edge.id (filter P l)).
Proof.
  induction l as [|e l IH]; simpl; intros Hnd; [constructor|].
  inversion Hnd as [|? ? Hnot Hnd']; subst.
  destruct (P e); [|now apply IH]. simpl. constructor; [|now apply IH].
  intros Hin. apply Hnot. apply in_map_iff in Hin. destruct Hin as (e' & E & Hin).
  apply filter_In in Hin. apply in_map_iff. exists e'. tauto.
Qed.

Lemma joins_joined (u v : nat) (e : Edge.t) :
  joins u v e = true <-> joined u v (Edge.source e) (Edge.dest e).
Proof.
  unfold joins, joined, Edge.sourceNode, Edge.destNode.
  rewrite orb_true_iff, !andb_true_iff, !Nat.eqb_eq. tauto.
Qed.

(** The edges of the whole scene. *)
Lemma allEdges_In (gs : Graphs) (e : Edge.t) :
  In e (Items.allEdges gs) <-> exists gid, edgeAt gs gid e.
Proof.
  unfold Items.allEdges, Items.allItems, edgeAt, InGraph. rewrite edgesOf_In, in_flat_map. split.
  - intros ([k g] & Hg & Hit). exists k, g. tauto.
  - intros (gid & g & Hg & Hit). exists (gid, g). tauto.
Qed.

Lemma allEdges_ids_NoDup (gs : Graphs) :
  NoDup (refs gs) -> NoDup (map Edge.id (Items.allEdges gs)).
Proof. apply edgesOf_ids_NoDup. Qed.

Lemma allEdges_joining (gs : Graphs) (u v eid : nat) :
  In eid (map Edge.id (filter (joins u v) (Items.allEdges gs))) <->
  exists gid s d, EdgeT gs gid eid s d /\ joined u v s d.
Proof.
  rewrite ids_filter_In. split.
  - intros (e & Hin & E & HP). apply allEdges_In in Hin. destruct Hin as (gid & Hin).
    apply joins_joined in HP. exists gid, (Edge.source e), (Edge.dest e).
    split; [exists e; now repeat split|assumption].
  - intros (gid & s & d & (e & Hin & E & <- & <-) & Hj). exists e.
    split; [apply allEdges_In; now exists gid|]. split; [assumption|now apply joins_joined].
Qed.

(** The edges of one graph. *)
Lemma graph_edges_In (gs : Graphs) (gid : nat) (g : Graph.t) (e : Edge.t) :
  NoDup (keys gs) -> Items.lookupGraph gs gid = Some g ->
  In e (Graph.edges g) <-> edgeAt gs gid e.
Proof.
  intros Hk Hl. apply lookupGraph_In in Hl. unfold Graph.edges, edgeAt, InGraph.
  rewrite edgesOf_In. split.
  - intros Hin. now exists g.
  - intros (g' & Hg' & Hin). now rewrite (In_same_key _ _ _ _ Hk Hl Hg').
Qed.

Lemma graph_edges_ids (gs : Graphs) (gid : nat) (g : Graph.t) (eid : nat) :
  NoDup (keys gs) -> Items.lookupGraph gs gid = Some g ->
  In eid (map Edge.id (Graph.edges g)) <-> exists s d, EdgeT gs gid eid s d.
Proof.
  intros Hk Hl. rewrite in_map_iff. split.
  - intros (e & E & Hin). apply (graph_edges_In gs gid g e Hk Hl) in Hin.
    exists (Edge.source e), (Edge.dest e), e. now repeat split.
  - intros (s & d & e & Hin & E & _). exists e. split; [assumption|].
    now apply (graph_edges_In gs gid g e Hk Hl).
Qed.

Lemma graph_edges_joining (gs : Graphs) (gid : nat) (g : Graph.t) (u v eid : nat) :
  NoDup (keys gs) -> Items.lookupGraph gs gid = Some g ->
  In eid (map Edge.id (filter (joins u v) (Graph.edges g))) <->
  exists s d, EdgeT gs gid eid s d /\ joined u v s d.
Proof.
  intros Hk Hl. rewrite ids_filter_In. split.
  - intros (e & Hin & E & HP). apply (graph_edges_In gs gid g e Hk Hl) in Hin.
    apply joins_joined in HP. exists (Edge.source e), (Edge.dest e).
    split; [exists e; now repeat split|assumption].
  - intros (s & d & (e & Hin & E & <- & <-) & Hj). exists e.
    split; [now apply (graph_edges_In gs gid g e Hk Hl)|].
    split; [assumption|now apply joins_joined].
Qed.

Lemma graph_edges_ids_NoDup (gs : Graphs) (gid : nat) (g : Graph.t) :
  NoDup (refs gs) -> Items.lookupGraph gs gid = Some g -> NoDup (map Edge.id (Graph.edges g)).
Proof.
  intros Hr Hl. apply edgesOf_ids_NoDup.
  exact (NoDup_children_refs gs gid g Hr (lookupGraph_In _ _ _ Hl)).
Qed.

(** Lists without repetition that have the same members have the same
    length. *)
Lemma same_members_length (l l' : list nat) :
  NoDup l -> NoDup l' -> (forall y, In y l <-> In y l') -> List.length l = List.length l'.
Proof.
  intros H1 H2 Hm. apply Permutation_length. now apply NoDup_Permutation.
Qed.

Lemma one_less_length (x : nat) (l l' : list nat) :
  NoDup l -> NoDup l' -> In x l -> (forall y, In y l' <-> In y l /\ y <> x) ->
  List.length l = S (List.length l').
Proof.
  intros H1 H2 Hx Hm. change (S (List.length l')) with (List.length (x :: l')).
  apply same_members_length; [assumption| |].
  - constructor; [|assumption]. intros F. apply Hm in F. tauto.
  - intros y. simpl. rewrite Hm. destruct (Nat.eq_dec y x) as [->|Hne]; [tauto|].
    split; [tauto|]. intros [F|F]; [congruence|tauto].
Qed.

(** The edges of the edge list of [n1a] that reach [n1b] are the edges
    between the two nodes. *)
Lemma connecting_members (M S : list nat) (gs : Graphs) (ga n1a n1b : nat) (La : list nat)
      (ca : Z) (z : nat) :
  Merging M S gs -> NodeT gs ga n1a La ca -> ~ In n1a S -> n1a <> n1b ->
  In z (filter (CanvasScene.connects gs n1b) La) <->
  exists gid s d, EdgeT gs gid z s d /\ joined n1a n1b s d.
Proof.
  intros Hm HT Hs Hab. pose proof (mg_refs _ _ _ Hm) as Hr.
  rewrite filter_In, (connects_true _ _ _ Hr). split.
  - intros (HzL & gid & s & d & HE & Hend). exists gid, s, d. split; [assumption|].
    destruct (Merging_edges_of _ _ _ _ _ _ _ Hm HT Hs _ _ _ _ HE) as (Hsd & Hin).
    apply Hin in HzL. unfold joined.
    destruct Hend as [->| ->], HzL as [->| ->]; try congruence; tauto.
  - intros (gid & s & d & HE & Hj). split.
    + apply (proj2 (Merging_edges_of _ _ _ _ _ _ _ Hm HT Hs _ _ _ _ HE)).
      destruct Hj as [[-> _]|[_ ->]]; tauto.
    + exists gid, s, d. split; [assumption|]. destruct Hj as [[_ ->]|[-> _]]; tauto.
Qed.

(** An edge that ends at a node of a graph being merged is a child of
    one of the graphs being merged. *)
Lemma edge_of_merged (new r1 r2 : nat) (S : list nat) (gs : Graphs) (n gid eid s d : nat) :
  Merging [new; r1; r2] S gs -> (forall it, ~ InGraph gs new it) ->
  hasNode gs r1 n -> EdgeT gs gid eid s d -> (s = n \/ d = n) ->
  mergedInto new r1 r2 gid new.
Proof.
  intros Hm Hempty Hn HE Hend. pose proof (mg_refs _ _ _ Hm) as Hr.
  destruct (mg_ends _ _ _ Hm _ _ _ _ HE) as (_ & (ga & Ha & Sa) & (gb & Hb & Sb) & _).
  assert (Hs : sameGraph [new; r1; r2] r1 gid).
  { apply sameGraph_sym. destruct Hend as [->| ->].
    - assert (ga = r1) by exact (hasNode_unique _ _ _ _ Hr Ha Hn). now subst ga.
    - assert (gb = r1) by exact (hasNode_unique _ _ _ _ Hr Hb Hn). now subst gb. }
  apply (mergedInto_same new r1 r2 r1); [assumption|right; tauto|].
  intros ->. destruct HE as (e & He & _). exact (Hempty _ He).
Qed.

Lemma list_of_two {A : Type} (l : list A) :
  List.length l = 2%nat -> exists y x, l = [y; x].
Proof.
  destruct l as [|y [|x [|z l]]]; try discriminate. intros _. now exists y, x.
Qed.

(** * The key 'j' *)

Lemma guardTwo_true (gs : Graphs) (n1 n2 r1 r2 : nat) :
  NoDup (refs gs) -> hasNode gs r1 n1 -> hasNode gs r2 n2 -> r1 <> r2 ->
  CanvasScene.guardTwo gs n1 n2 = true.
Proof.
  intros Hr H1 H2 Hne. unfold CanvasScene.guardTwo.
  rewrite (parentItem_hasNode _ _ _ Hr H1), (parentItem_hasNode _ _ _ Hr H2). simpl.
  apply negb_true_iff. now apply Nat.eqb_neq.
Qed.

Lemma guardFour_true (gs : Graphs) (n1a n1b n2a n2b r1 r2 : nat) :
  NoDup (refs gs) ->
  hasNode gs r1 n1a -> hasNode gs r1 n1b -> hasNode gs r2 n2a -> hasNode gs r2 n2b ->
  r1 <> r2 ->
  CanvasScene.guardFour gs n1a n1b n2a n2b = true.
Proof.
  intros Hr H1a H1b H2a H2b Hne. unfold CanvasScene.guardFour.
  rewrite (parentItem_hasNode _ _ _ Hr H1a), (parentItem_hasNode _ _ _ Hr H1b),
    (parentItem_hasNode _ _ _ Hr H2a), (parentItem_hasNode _ _ _ Hr H2b). simpl.
  apply Nat.eqb_neq in Hne. now rewrite Hne.
Qed.

Lemma keyReleaseEvent_J_four `{Platform} (s : CanvasScene.t) (n1a n1b n2a n2b r1 r2 : nat) :
  NoDup (refs (CanvasScene.graphs s)) ->
  CanvasScene.connectNode1a s = Some n1a -> CanvasScene.connectNode1b s = Some n1b ->
  CanvasScene.connectNode2a s = Some n2a -> CanvasScene.connectNode2b s = Some n2b ->
  hasNode (CanvasScene.graphs s) r1 n1a -> hasNode (CanvasScene.graphs s) r1 n1b ->
  hasNode (CanvasScene.graphs s) r2 n2a -> hasNode (CanvasScene.graphs s) r2 n2b ->
  r1 <> r2 ->
  CanvasScene.keyReleaseEvent_J s
  = option_map CanvasScene.unselect (CanvasScene.joinFour n1a n1b n2a n2b s).
Proof.
  intros Hr P1a P1b P2a P2b H1a H1b H2a H2b Hne. unfold CanvasScene.keyReleaseEvent_J.
  rewrite P1a, P1b, P2a, P2b.
  now rewrite (guardFour_true _ _ _ _ _ _ _ Hr H1a H1b H2a H2b Hne).
Qed.

Lemma keyReleaseEvent_J_two `{Platform} (s : CanvasScene.t) (n1 n2 r1 r2 : nat) :
  NoDup (refs (CanvasScene.graphs s)) ->
  CanvasScene.connectNode1a s = Some n1 -> CanvasScene.connectNode2a s = Some n2 ->
  (CanvasScene.connectNode1b s = None \/ CanvasScene.connectNode2b s = None) ->
  hasNode (CanvasScene.graphs s) r1 n1 -> hasNode (CanvasScene.graphs s) r2 n2 ->
  r1 <> r2 ->
  CanvasScene.keyReleaseEvent_J s
  = option_map CanvasScene.unselect (CanvasScene.joinTwo n1 n2 s).
Proof.
  intros Hr P1 P2 Pb H1 H2 Hne. unfold CanvasScene.keyReleaseEvent_J.
  rewrite P1, P2, (guardTwo_true _ _ _ _ _ Hr H1 H2 Hne).
  destruct Pb as [-> | ->]; [reflexivity|].
  now destruct (CanvasScene.connectNode1b s).
Qed.

(** After the four-node join: what is in the new graph. *)
Lemma joinFour_outcome `{Platform} (n1a n1b n2a n2b r1 r2 : nat) (s : CanvasScene.t) :
  WellFormed (CanvasScene.graphs s) ->
  hasNode (CanvasScene.graphs s) r1 n1a -> hasNode (CanvasScene.graphs s) r1 n1b ->
  hasNode (CanvasScene.graphs s) r2 n2a -> hasNode (CanvasScene.graphs s) r2 n2b ->
  r1 <> r2 -> n1a <> n1b -> n2a <> n2b ->
  let gs0 := CanvasScene.graphs s in
  let new := Items.fresh gs0 (CanvasScene.canvasGraphList s) in
  exists s' gs6,
    CanvasScene.joinFour n1a n1b n2a n2b s = Some s' /\
    let gs7 := CanvasScene.removeDuplicate n1a n1b n2a n2b gs6 in
    Merging [new; r1; r2] [n2b; n2a] gs6 /\
    Merging [new; r1; r2] [n2b; n2a] gs7 /\
    (forall it, ~ InGraph gs6 new it) /\
    (forall g x, hasNode gs6 g x <-> hasNode gs0 g x) /\
    (forall gid eid s d,
        EdgeT gs6 gid eid s d <->
        exists s0 d0, EdgeT gs0 gid eid s0 d0
                      /\ s = subst1 n2b n1b (subst1 n2a n1a s0)
                      /\ d = subst1 n2b n1b (subst1 n2a n1a d0)) /\
    (forall gid eid s d,
        EdgeT (CanvasScene.graphs s') gid eid s d <->
        exists g0, mergedInto new r1 r2 g0 gid /\ EdgeT gs7 g0 eid s d) /\
    WellFormed (CanvasScene.graphs s') /\
    In new (keys (CanvasScene.graphs s')) /\
    ~ In r1 (keys (CanvasScene.graphs s')) /\ ~ In r2 (keys (CanvasScene.graphs s')).
Proof.
  intros Hwf H1a H1b H2a H2b Hne Hab1 Hab2 gs0 new.
  destruct (joinFour_graphs n1a n1b n2a n2b r1 r2 s (wf_keys _ Hwf) (wf_refs _ Hwf)
              H1a H1b H2a H2b) as (gs4 & off & s' & Hrun & T & Hgs).
  fold gs0 in T, Hgs. fold new in T, Hgs.
  destruct (fresh_graph_start gs0 gs4 _ Hwf T r1 r2) as (Hm4 & Hnew4 & Hn1 & Hn2 & Hempty4).
  fold new in Hm4, Hnew4, Hn1, Hn2, Hempty4.
  specialize (Hn1 (hasNode_key _ _ _ H1a)). specialize (Hn2 (hasNode_key _ _ _ H2a)).
  destruct (views_after_new _ _ _ T) as (N4 & E4 & K4 & R4).
  assert (HM : sameGraph [new; r1; r2] r1 r2) by (right; simpl; tauto).
  destruct (four_distinct gs0 n1a n1b n2a n2b r1 r2 Hwf H1a H1b H2a H2b Hne)
    as (D1 & D2 & D3 & D4).
  destruct (four_rewired gs0 gs4 _ n1a n1b n2a n2b r1 r2 Hwf Hm4 N4 E4 HM
              H1a H1b H2a H2b Hne Hab1 Hab2) as (Hm6 & HN6 & E6 & K6 & R6).
  set (gs6 := CanvasScene.rewire n2b n1b (CanvasScene.rewire n2a n1a gs4)) in *.
  assert (Hs1a : ~ In n1a [n2b; n2a]).
  { simpl. intros [F|[F|[]]]; [apply D2|apply D1]; now symmetry. }
  destruct (removeDuplicate_sound _ _ gs6 n1a n1b n2a n2b r1 Hm6 (proj2 (HN6 _ _) H1a) Hs1a Hab1)
    as (Hm7 & HN7 & P7 & K7 & E7).
  exists s', gs6. split; [exact Hrun|]. cbv zeta.
  set (gs7 := CanvasScene.removeDuplicate n1a n1b n2a n2b gs6) in *.
  assert (Hnew7 : In new (keys gs7)) by now rewrite K7, K6.
  assert (Hempty6 : forall it, ~ InGraph gs6 new it).
  { intros it Hin. apply (fresh_not_key gs0 (CanvasScene.canvasGraphList s)). fold new.
    destruct (InGraph_views _ _ _ Hin) as [(nid & es & c & HT)|(eid & s0 & d0 & HT)].
    - apply (hasNode_key gs0 new nid). apply HN6. now exists es, c.
    - apply E6 in HT. destruct HT as (a & b & HT & _). exact (EdgeT_key _ _ _ _ _ HT). }
  assert (Hempty7 : forall it, ~ InGraph gs7 new it).
  { intros it Hin. apply (fresh_not_key gs0 (CanvasScene.canvasGraphList s)). fold new.
    destruct (InGraph_views _ _ _ Hin) as [(nid & es & c & HT)|(eid & s0 & d0 & HT)].
    - apply (hasNode_key gs0 new nid). apply HN6, HN7. now exists es, c.
    - apply E7, E6 in HT. destruct HT as (a & b & HT & _). exact (EdgeT_key _ _ _ _ _ HT). }
  assert (Hgone : forall x, In x [n2a; n2b] <-> In x [n2b; n2a]) by (simpl; tauto).
  split; [exact Hm6|]. split; [exact Hm7|]. split; [exact Hempty6|].
  split; [exact HN6|]. split; [exact E6|].
  rewrite Hgs.
  split; [|split; [|split; [|split]]].
  - intros gid eid s0 d0.
    exact (joined_EdgeT n1a new r1 r2 off [n2a; n2b] [n2b; n2a] gs7 Hm7 Hnew7 Hn1 Hn2 Hne
             Hempty7 gid eid s0 d0).
  - exact (joined_WellFormed n1a new r1 r2 off [n2a; n2b] [n2b; n2a] gs7 Hm7 Hnew7 Hn1 Hn2 Hne
             Hempty7 Hgone).
  - destruct (joinedGraphs_views n1a new r1 r2 off [n2a; n2b] gs7 (mg_keys _ _ _ Hm7)
                (mg_refs _ _ _ Hm7) Hnew7 Hn1 Hn2 Hne Hempty7) as (_ & _ & K & _).
    rewrite K. apply filter_In. split; [apply filter_In; split; [assumption|]|];
      apply negb_true_iff, Nat.eqb_neq; assumption.
  - destruct (joinedGraphs_views n1a new r1 r2 off [n2a; n2b] gs7 (mg_keys _ _ _ Hm7)
                (mg_refs _ _ _ Hm7) Hnew7 Hn1 Hn2 Hne Hempty7) as (_ & _ & K & _).
    rewrite K. intros F. apply filter_In in F. destruct F as (F & _).
    apply filter_In in F. destruct F as (_ & F). now rewrite Nat.eqb_refl in F.
  - destruct (joinedGraphs_views n1a new r1 r2 off [n2a; n2b] gs7 (mg_keys _ _ _ Hm7)
                (mg_refs _ _ _ Hm7) Hnew7 Hn1 Hn2 Hne Hempty7) as (_ & _ & K & _).
    rewrite K. intros F. apply filter_In in F. destruct F as (_ & F).
    now rewrite Nat.eqb_refl in F.
Qed.

(** The edges of the scene once the edges of [n2a] are rewired onto
    [n1a] and those of [n2b] onto [n1b]. *)
Lemma rewired_scene_edges (gs0 : Graphs) (n1a n1b n2a n2b r1 r2 : nat) :
  WellFormed gs0 ->
  hasNode gs0 r1 n1a -> hasNode gs0 r1 n1b -> hasNode gs0 r2 n2a -> hasNode gs0 r2 n2b ->
  r1 <> r2 -> n1a <> n1b -> n2a <> n2b ->
  let gs := CanvasScene.rewire n2b n1b (CanvasScene.rewire n2a n1a gs0) in
  NoDup (refs gs) /\
  (forall gid eid s d,
      EdgeT gs gid eid s d <->
      exists s0 d0, EdgeT gs0 gid eid s0 d0
                    /\ s = subst1 n2b n1b (subst1 n2a n1a s0)
                    /\ d = subst1 n2b n1b (subst1 n2a n1a d0)).
Proof.
  intros Hwf H1a H1b H2a H2b Hne Hab1 Hab2.
  assert (Hm : Merging [r1; r2] [] gs0).
  { apply (Merging_weaken []); [intros x []|]. now apply WellFormed_Merging. }
  assert (HM : sameGraph [r1; r2] r1 r2) by (right; simpl; tauto).
  destruct (four_rewired gs0 gs0 _ n1a n1b n2a n2b r1 r2 Hwf Hm
              (fun _ _ _ _ => iff_refl _) (fun _ _ _ _ => iff_refl _) HM
              H1a H1b H2a H2b Hne Hab1 Hab2) as (Hm6 & _ & E6 & _ & _).
  cbv zeta. split; [exact (mg_refs _ _ _ Hm6)|exact E6].
Qed.

(** * Checking a scene

    [wellFormedb] decides [WellFormed] on the lists of nodes and edges of
    a scene. *)









Lemma nodesOf_In (items : list Item) (n : Node.t) :
  In n (Graph.nodesOf items) <-> In (NodeItem n) items.
Proof.
  induction items as [|[n'|e] r IH]; simpl; [tauto| |].
  - rewrite IH. split; intros [F|F]; try tauto; left; congruence.
  - rewrite IH. split; [tauto|]. intros [F|F]; [discriminate|assumption].
Qed.

Lemma NodeT_nodeViews (gs : Graphs) (gid nid : nat) (es : list nat) (c : Z) :
  NodeT gs gid nid es c <-> In (gid, nid, es, c) (nodeViews gs).
Proof.
  unfold nodeViews, NodeT, nodeAt, InGraph, Graph.nodes. rewrite in_flat_map. split.
  - intros (n & (g & Hg & Hn) & <- & <- & <-). exists (gid, g). split; [assumption|].
    apply in_map_iff. exists n. split; [reflexivity|now apply nodesOf_In].
  - intros ([k g] & Hg & Hin). apply in_map_iff in Hin. destruct Hin as (n & E & Hn).
    simpl in E. inversion E; subst. exists n. split; [|now repeat split].
    exists g. split; [assumption|now apply nodesOf_In].
Qed.

Lemma EdgeT_edgeViews (gs : Graphs) (gid eid s d : nat) :
  EdgeT gs gid eid s d <-> In (gid, eid, s, d) (edgeViews gs).
Proof.
  unfold edgeViews, EdgeT, edgeAt, InGraph, Graph.edges. rewrite in_flat_map. split.
  - intros (e & (g & Hg & He) & <- & <- & <-). exists (gid, g). split; [assumption|].
    apply in_map_iff. exists e. split; [reflexivity|now apply edgesOf_In].
  - intros ([k g] & Hg & Hin). apply in_map_iff in Hin. destruct Hin as (e & E & He).
    simpl in E. inversion E; subst. exists e. split; [|now repeat split].
    exists g. split; [assumption|now apply edgesOf_In].
Qed.

Lemma nodupb_NoDup {A : Type} (eqb : A -> A -> bool) (l : list A) :
  (forall x y, x = y -> eqb x y = true) -> nodupb eqb l = true -> NoDup l.
Proof.
  intros Heq. induction l as [|x r IH]; simpl; intros Hb; [constructor|].
  apply andb_true_iff in Hb. destruct Hb as (Hx & Hr). constructor; [|now apply IH].
  intros Hin. apply negb_true_iff in Hx.
  assert (existsb (eqb x) r = true) by (apply existsb_exists; exists x; auto).
  congruence.
Qed.

Lemma hasNodeb_hasNode (gs : Graphs) (gid nid : nat) :
  hasNodeb gs gid nid = true -> hasNode gs gid nid.
Proof.
  unfold hasNodeb. intros Hb. apply existsb_exists in Hb.
  destruct Hb as ([[[g n] es] c] & Hin & Hb). apply andb_true_iff in Hb.
  destruct Hb as (Eg & En). apply Nat.eqb_eq in Eg, En. subst.
  exists es, c. now apply NodeT_nodeViews.
Qed.

Lemma wellFormedb_sound (gs : Graphs) : wellFormedb gs = true -> WellFormed gs.
Proof.
  unfold wellFormedb. rewrite !andb_true_iff.
  intros ((((Hk & Hr) & He) & Hl) & Hls).
  unfold endsb in He. unfold listedb in Hl. unfold listsb in Hls.
  rewrite forallb_forall in He, Hl, Hls.
  assert (Hnode : forall gid nid es c, NodeT gs gid nid es c ->
            (forall x, In x es -> exists s d, EdgeT gs gid x s d /\ (s = nid \/ d = nid))
            /\ NoDup es /\ c = 0%Z).
  { intros gid nid es c HT. apply NodeT_nodeViews in HT. specialize (Hl _ HT). simpl in Hl.
    rewrite !andb_true_iff in Hl. destruct Hl as ((H1 & H2) & H3).
    split; [|split].
    - intros x Hx. rewrite forallb_forall in H1. specialize (H1 x Hx).
      apply existsb_exists in H1. destruct H1 as ([[[g' e'] s] d] & Hin & Hb).
      rewrite !andb_true_iff, orb_true_iff, !Nat.eqb_eq in Hb.
      destruct Hb as ((-> & ->) & Hend). exists s, d. split; [now apply EdgeT_edgeViews|assumption].
    - apply (nodupb_NoDup Nat.eqb); [intros a b ->; apply Nat.eqb_refl|assumption].
    - now apply Z.eqb_eq. }
  constructor.
  - apply (nodupb_NoDup Nat.eqb); [intros a b ->; apply Nat.eqb_refl|assumption].
  - apply (nodupb_NoDup refEqb); [intros a b ->; apply refEqb_refl|assumption].
  - intros gid eid s d HE. apply EdgeT_edgeViews in HE. specialize (He _ HE). simpl in He.
    rewrite !andb_true_iff in He. destruct He as ((H1 & H2) & H3).
    split; [now apply hasNodeb_hasNode|]. split; [now apply hasNodeb_hasNode|].
    apply negb_true_iff in H3. now apply Nat.eqb_neq.
  - intros gid nid es c x HT. now apply (Hnode _ _ _ _ HT).
  - intros gid eid s d nid es c HE HT Hend.
    apply EdgeT_edgeViews in HE. apply NodeT_nodeViews in HT.
    specialize (Hls _ HE). simpl in Hls. rewrite forallb_forall in Hls.
    specialize (Hls _ HT). simpl in Hls. rewrite Nat.eqb_refl in Hls. simpl in Hls.
    apply contains_In.
    destruct Hend as [->| ->]; rewrite Nat.eqb_refl in Hls; simpl in Hls;
      rewrite ?orb_true_r in Hls; exact Hls.
  - intros gid nid es c HT. now apply (Hnode _ _ _ _ HT).
  - intros gid nid es c HT. now apply (Hnode _ _ _ _ HT).
Qed.

(** * The search of searchAndSeparate *)

Lemma EdgeT_setChecked (k : nat) (c : Z) (gs : Graphs) (gid eid s d : nat) :
  EdgeT (Items.updateEdge k (fun e => Edge.setChecked e c) gs) gid eid s d
  <-> EdgeT gs gid eid s d.
Proof.
  rewrite (EdgeT_updateEdge k _ (fun s d => (s, d))); [|intros e; now split].
  split.
  - intros (s0 & d0 & HE & Esd). destruct (Nat.eqb eid k); inversion Esd; now subst.
  - intros HE. exists s, d. split; [assumption|]. now destruct (Nat.eqb eid k).
Qed.

Lemma NodeT_setChecked (k : nat) (c1 : Z) (gs : Graphs) (gid nid : nat) (es : list nat) (c : Z) :
  NodeT (Items.updateNode k (fun n => Node.setChecked n c1) gs) gid nid es c
  <-> exists c0, NodeT gs gid nid es c0 /\ c = if Nat.eqb nid k then c1 else c0.
Proof.
  rewrite (NodeT_updateNode k _ (fun es => es) (fun _ => c1)); [|intros n; now repeat split].
  split.
  - intros (es0 & c0 & HT & -> & ->). exists c0. split; [|reflexivity].
    now destruct (Nat.eqb nid k).
  - intros (c0 & HT & ->). exists es, c0. split; [assumption|]. split; [|reflexivity].
    now destruct (Nat.eqb nid k).
Qed.

Lemma contains_app (l1 l2 : list nat) (x : nat) :
  contains (l1 ++ l2) x = contains l1 x || contains l2 x.
Proof. unfold contains. apply existsb_app. Qed.

Lemma contains_false (l : list nat) (x : nat) : contains l x = false <-> ~ In x l.
Proof.
  rewrite <- contains_In. destruct (contains l x); split; intros; congruence.
Qed.

Lemma containsRef_false (l : list ItemRef) (x : ItemRef) : containsRef l x = false <-> ~ In x l.
Proof.
  rewrite <- containsRef_In. destruct (containsRef l x); split; intros; congruence.
Qed.

Lemma removeOne_app_in (x : nat) (l1 l2 : list nat) :
  In x l1 -> removeOne x (l1 ++ l2) = removeOne x l1 ++ l2.
Proof.
  induction l1 as [|a l1 IH]; simpl; [tauto|]. intros Hin.
  destruct (Nat.eqb a x) eqn:E; [reflexivity|].
  apply Nat.eqb_neq in E. simpl. f_equal. apply IH. destruct Hin; congruence.
Qed.

Lemma removeOne_In_iff (x y : nat) (l : list nat) :
  NoDup l -> In y (removeOne x l) <-> In y l /\ y <> x.
Proof.
  intros Hnd. split.
  - intros Hin. split; [now apply removeOne_In in Hin|].
    intros ->. now apply (removeOne_gone x l Hnd).
  - intros (Hin & Hne). now apply removeOne_keeps.
Qed.

(** The indices found by [reached]. *)
Lemma reached_In (Nodes : list nat) (node j0 count j : nat) :
  In j (CanvasScene.reached Nodes node j0 count) <->
  (j0 <= j < j0 + count)%nat /\ nth j Nodes 0%nat = node.
Proof.
  revert j0. induction count as [|c IH]; intros j0; simpl; [lia|].
  destruct (Nat.eqb (nth j0 Nodes 0%nat) node) eqn:E.
  - apply Nat.eqb_eq in E. simpl. rewrite IH. split.
    + intros [<-|(Hr & Hn)]; [split; [lia|assumption]|split; [lia|assumption]].
    + intros (Hr & Hn). destruct (Nat.eq_dec j0 j) as [->|Hne]; [now left|right].
      split; [lia|assumption].
  - apply Nat.eqb_neq in E. rewrite IH. split.
    + intros (Hr & Hn). split; [lia|assumption].
    + intros (Hr & Hn). split; [|assumption].
      destruct (Nat.eq_dec j0 j) as [->|Hne]; [congruence|lia].
Qed.

Lemma reached_NoDup (Nodes : list nat) (node j0 count : nat) :
  NoDup (CanvasScene.reached Nodes node j0 count).
Proof.
  revert j0. induction count as [|c IH]; intros j0; simpl; [constructor|].
  destruct (Nat.eqb (nth j0 Nodes 0%nat) node); [|apply IH].
  constructor; [|apply IH]. rewrite reached_In. lia.
Qed.

Section Search.
Variables (gs0 : Graphs) (Nodes : list nat) (i lastIdx a : nat).
Hypothesis Hwf : WellFormed gs0.

(** The state of the search: [vis] lists the nodes visited (those
    marked), [cur] is the node whose edges are being followed and [pend]
    the edges of that node still to follow. *)
Record Bfs (cur : option nat) (vis pend : list nat) (st : CanvasScene.Search) : Prop := {
  bf_keys : keys (CanvasScene.sGraphs st) = keys gs0;
  bf_refs : refs (CanvasScene.sGraphs st) = refs gs0;
  bf_nodes : forall gid nid es c,
      NodeT (CanvasScene.sGraphs st) gid nid es c <->
      NodeT gs0 gid nid es 0 /\ c = (if contains vis nid then 1 else 0)%Z;
  bf_edges : forall gid eid s d,
      EdgeT (CanvasScene.sGraphs st) gid eid s d <-> EdgeT gs0 gid eid s d;
  bf_vis : NoDup vis;
  bf_queue : NoDup (CanvasScene.graphNodes st);
  bf_apart : forall n, In n vis -> In n (CanvasScene.graphNodes st) -> cur = Some n;
  bf_reach : forall n, In n vis \/ In n (CanvasScene.graphNodes st) -> path gs0 a n;
  bf_start : In a vis \/ In a (CanvasScene.graphNodes st);
  bf_closed : forall gid eid s d,
      EdgeT gs0 gid eid s d -> ~ In eid pend ->
      (In s vis -> In d vis \/ In d (CanvasScene.graphNodes st)) /\
      (In d vis -> In s vis \/ In s (CanvasScene.graphNodes st));
  bf_item_node : forall n,
      In (NodeRef n) (CanvasScene.graphItems st) <->
      In n vis \/ In n (CanvasScene.graphNodes st);
  bf_item_edge : forall e,
      In (EdgeRef e) (CanvasScene.graphItems st) ->
      exists gid s d, EdgeT gs0 gid e s d /\ (In s vis \/ In d vis);
  bf_item_all : forall gid e s d,
      EdgeT gs0 gid e s d -> In s vis \/ In d vis -> ~ In e pend ->
      In (EdgeRef e) (CanvasScene.graphItems st);
  bf_items : NoDup (CanvasScene.graphItems st);
  bf_skip : forall j,
      In j (CanvasScene.skipList st) <->
      (i < j <= lastIdx)%nat /\ In (nth j Nodes 0%nat) vis;
  bf_skips : NoDup (CanvasScene.skipList st)
}.

Lemma NoDup_snoc {A : Type} (l : list A) (x : A) : NoDup l -> ~ In x l -> NoDup (l ++ [x]).
Proof.
  intros Hl Hx. apply NoDup_app; [assumption|constructor; [intros []|constructor]|].
  intros y Hy [<-|[]]. exact (Hx Hy).
Qed.

(** A node found for the first time joins the queue. *)
Lemma Bfs_enqueue (cur : option nat) (vis pend : list nat) (st : CanvasScene.Search) (w : nat) :
  Bfs cur vis pend st -> ~ In w vis -> ~ In w (CanvasScene.graphNodes st) -> path gs0 a w ->
  Bfs cur vis pend (CanvasScene.enqueue st w).
Proof.
  intros B Hv Hq Hp.
  assert (Hnew : containsRef (CanvasScene.graphItems st) (NodeRef w) = false).
  { apply containsRef_false. rewrite (bf_item_node _ _ _ _ B). tauto. }
  unfold CanvasScene.enqueue. rewrite Hnew.
  constructor; cbn [CanvasScene.sGraphs CanvasScene.graphNodes CanvasScene.graphItems
                      CanvasScene.skipList].
  - exact (bf_keys _ _ _ _ B).
  - exact (bf_refs _ _ _ _ B).
  - exact (bf_nodes _ _ _ _ B).
  - exact (bf_edges _ _ _ _ B).
  - exact (bf_vis _ _ _ _ B).
  - apply NoDup_snoc; [exact (bf_queue _ _ _ _ B)|exact Hq].
  - intros n Hn Hin. apply in_app_or in Hin. destruct Hin as [Hin|[<-|[]]].
    + exact (bf_apart _ _ _ _ B n Hn Hin).
    + tauto.
  - intros n [Hn|Hn]; [apply (bf_reach _ _ _ _ B); tauto|].
    apply in_app_or in Hn. destruct Hn as [Hn|[<-|[]]]; [apply (bf_reach _ _ _ _ B); tauto|exact Hp].
  - destruct (bf_start _ _ _ _ B); [now left|right; apply in_or_app; now left].
  - intros gid eid s d HE Hpend. destruct (bf_closed _ _ _ _ B gid eid s d HE Hpend) as (C1 & C2).
    split; intros Hin; [destruct (C1 Hin)|destruct (C2 Hin)]; try tauto;
      right; apply in_or_app; now left.
  - intros n. rewrite in_app_iff, (bf_item_node _ _ _ _ B), in_app_iff. simpl.
    split; [intros [[F|F]|[F|[]]]|intros [F|[F|[F|[]]]]]; try tauto.
    + inversion F; subst. tauto.
    + subst. tauto.
  - intros e Hin. apply in_app_or in Hin. destruct Hin as [Hin|[F|[]]]; [|discriminate].
    exact (bf_item_edge _ _ _ _ B e Hin).
  - intros gid e s d HE Hend Hpend. apply in_or_app. left.
    exact (bf_item_all _ _ _ _ B gid e s d HE Hend Hpend).
  - apply NoDup_snoc; [exact (bf_items _ _ _ _ B)|]. now apply containsRef_false.
  - exact (bf_skip _ _ _ _ B).
  - exact (bf_skips _ _ _ _ B).
Qed.

(** An edge of the current node has been followed. *)
Lemma Bfs_edge (cur : option nat) (vis rest : list nat) (st : CanvasScene.Search)
      (g e s d : nat) :
  Bfs cur vis (e :: rest) st -> EdgeT gs0 g e s d ->
  In s vis \/ In s (CanvasScene.graphNodes st) ->
  In d vis \/ In d (CanvasScene.graphNodes st) ->
  In s vis \/ In d vis ->
  Bfs cur vis rest
      (CanvasScene.mkSearch
         (Items.updateEdge e (fun e' => Edge.setChecked e' 1) (CanvasScene.sGraphs st))
         (CanvasScene.graphNodes st)
         (if containsRef (CanvasScene.graphItems st) (EdgeRef e) then CanvasScene.graphItems st
          else CanvasScene.graphItems st ++ [EdgeRef e])
         (CanvasScene.skipList st)).
Proof.
  intros B HE Hs Hd Hsd. pose proof (wf_refs _ Hwf) as Hr.
  assert (HI : forall r, In r (if containsRef (CanvasScene.graphItems st) (EdgeRef e)
                               then CanvasScene.graphItems st
                               else CanvasScene.graphItems st ++ [EdgeRef e])
                         <-> In r (CanvasScene.graphItems st) \/ r = EdgeRef e).
  { intros r. destruct (containsRef _ _) eqn:Hc.
    - apply containsRef_In in Hc. split; [tauto|]. intros [F| ->]; assumption.
    - rewrite in_app_iff. simpl. split; [intros [F|[F|[]]]; auto|intros [F|F]; auto]. }
  constructor; cbn [CanvasScene.sGraphs CanvasScene.graphNodes CanvasScene.graphItems
                      CanvasScene.skipList].
  - rewrite keys_updateEdge. exact (bf_keys _ _ _ _ B).
  - rewrite refs_updateEdge; [exact (bf_refs _ _ _ _ B)|reflexivity].
  - intros gid nid es c. rewrite NodeT_updateEdge. exact (bf_nodes _ _ _ _ B gid nid es c).
  - intros gid eid s0 d0. rewrite EdgeT_setChecked. exact (bf_edges _ _ _ _ B gid eid s0 d0).
  - exact (bf_vis _ _ _ _ B).
  - exact (bf_queue _ _ _ _ B).
  - exact (bf_apart _ _ _ _ B).
  - exact (bf_reach _ _ _ _ B).
  - exact (bf_start _ _ _ _ B).
  - intros gid eid s0 d0 HE0 Hrest. destruct (Nat.eq_dec eid e) as [->|Hne].
    + destruct (EdgeT_unique _ _ _ _ _ _ _ _ Hr HE0 HE) as (_ & -> & ->). tauto.
    + apply (bf_closed _ _ _ _ B gid eid s0 d0 HE0). intros [F|F]; [congruence|tauto].
  - intros n. rewrite HI, (bf_item_node _ _ _ _ B). split; [intros [F|F]; [assumption|discriminate]|tauto].
  - intros x Hx. apply HI in Hx. destruct Hx as [Hx|Hx].
    + exact (bf_item_edge _ _ _ _ B x Hx).
    + inversion Hx; subst. now exists g, s, d.
  - intros gid x s0 d0 HE0 Hend Hrest. apply HI. destruct (Nat.eq_dec x e) as [->|Hne]; [now right|left].
    apply (bf_item_all _ _ _ _ B gid x s0 d0 HE0 Hend). intros [F|F]; [congruence|tauto].
  - destruct (containsRef _ _) eqn:Hc; [exact (bf_items _ _ _ _ B)|].
    apply NoDup_snoc; [exact (bf_items _ _ _ _ B)|now apply containsRef_false].
  - exact (bf_skip _ _ _ _ B).
  - exact (bf_skips _ _ _ _ B).
Qed.

(** The checked flag of a node during the search. *)
Lemma Bfs_checked (cur : option nat) (vis pend : list nat) (st : CanvasScene.Search)
      (g n : nat) :
  Bfs cur vis pend st -> hasNode gs0 g n ->
  Items.nodeChecked (CanvasScene.sGraphs st) n = (if contains vis n then 1 else 0)%Z.
Proof.
  intros B (es & c & HT).
  assert (c = 0%Z) by exact (wf_unchecked _ Hwf _ _ _ _ HT). subst c.
  apply (nodeChecked_NodeT _ g n es).
  - rewrite (bf_refs _ _ _ _ B). exact (wf_refs _ Hwf).
  - apply (bf_nodes _ _ _ _ B). now split.
Qed.

(** Following one edge of the current node [v]. *)
Lemma visitEdge_step (v : nat) (vis rest : list nat) (st : CanvasScene.Search) (e : nat) :
  Bfs (Some v) vis (e :: rest) st -> In v vis -> In v (CanvasScene.graphNodes st) ->
  (exists g s d, EdgeT gs0 g e s d /\ (s = v \/ d = v)) ->
  Bfs (Some v) vis rest (CanvasScene.visitEdge st e)
  /\ In v (CanvasScene.graphNodes (CanvasScene.visitEdge st e)).
Proof.
  intros B Hv Hq (g & s & d & HE & Hend).
  pose proof (wf_refs _ Hwf) as Hr.
  assert (Hr' : NoDup (refs (CanvasScene.sGraphs st))) by now rewrite (bf_refs _ _ _ _ B).
  destruct (EdgeT_findEdge _ _ _ _ _ Hr' (proj2 (bf_edges _ _ _ _ B g e s d) HE))
    as (ed & Hfind & _ & Es & Ed).
  destruct (wf_ends _ Hwf _ _ _ _ HE) as (Hns & Hnd & Hsd).
  unfold CanvasScene.visitEdge. rewrite Hfind.
  unfold Edge.destNode, Edge.sourceNode. rewrite Es, Ed.
  rewrite (Bfs_checked _ _ _ _ g d B Hnd), (Bfs_checked _ _ _ _ g s B Hns).
  assert (Hpv : path gs0 a v) by (apply (bf_reach _ _ _ _ B); now left).
  assert (Hps : path gs0 a s).
  { destruct Hend as [->| ->]; [assumption|].
    eapply path_step; [exact Hpv|]. exists g, e. now right. }
  assert (Hpd : path gs0 a d).
  { destruct Hend as [->| ->]; [|assumption].
    eapply path_step; [exact Hpv|]. exists g, e. now left. }
  destruct (contains (CanvasScene.graphNodes st) d) eqn:Qd;
    destruct (contains vis d) eqn:Vd; cbn [negb andb Z.eqb];
      try (destruct (contains (CanvasScene.graphNodes st) s) eqn:Qs;
           destruct (contains vis s) eqn:Vs; cbn [negb andb Z.eqb]);
      rewrite ?contains_In, ?contains_false in *.
  all: try (split; [apply (Bfs_edge _ _ _ _ g e s d); try assumption; try tauto;
                    destruct Hend as [->| ->]; tauto
                   |assumption]).
  all: try (exfalso; destruct Hend as [->| ->]; tauto).
  all: split;
    [apply (Bfs_edge _ _ _ _ g e s d);
     [apply Bfs_enqueue; assumption|exact HE| | |destruct Hend as [->| ->]; tauto];
     cbn [CanvasScene.enqueue CanvasScene.graphNodes]; rewrite in_app_iff; simpl;
     destruct Hend as [->| ->]; tauto
    |cbn [CanvasScene.enqueue CanvasScene.graphNodes]; rewrite in_app_iff; tauto].
Qed.

Lemma visitEdge_queue_mono (st : CanvasScene.Search) (e x : nat) :
  In x (CanvasScene.graphNodes st) -> In x (CanvasScene.graphNodes (CanvasScene.visitEdge st e)).
Proof.
  intros Hx. unfold CanvasScene.visitEdge. destruct (Items.findEdge _ e); [|assumption].
  cbn [CanvasScene.graphNodes].
  destruct (_ && _); [|destruct (_ && _)]; try assumption;
    cbn [CanvasScene.enqueue CanvasScene.graphNodes]; apply in_or_app; now left.
Qed.

Lemma fold_visitEdge_queue_mono (pend : list nat) (st : CanvasScene.Search) (x : nat) :
  In x (CanvasScene.graphNodes st) ->
  In x (CanvasScene.graphNodes (fold_left CanvasScene.visitEdge pend st)).
Proof.
  revert st. induction pend as [|e pend IH]; intros st Hx; [assumption|].
  cbn [fold_left]. apply IH. now apply visitEdge_queue_mono.
Qed.

Lemma fold_visitEdge (v : nat) (vis pend : list nat) (st : CanvasScene.Search) :
  Bfs (Some v) vis pend st -> In v vis -> In v (CanvasScene.graphNodes st) ->
  (forall e, In e pend -> exists g s d, EdgeT gs0 g e s d /\ (s = v \/ d = v)) ->
  Bfs (Some v) vis [] (fold_left CanvasScene.visitEdge pend st).
Proof.
  revert st. induction pend as [|e pend IH]; intros st B Hv Hq Hinc; [assumption|].
  cbn [fold_left].
  destruct (visitEdge_step v vis pend st e B Hv Hq (Hinc e (or_introl eq_refl))) as (B' & Hq').
  apply IH; [assumption|assumption|assumption|]. intros x Hx. apply Hinc. now right.
Qed.

(** The current node is marked. *)
Lemma Bfs_mark (vis : list nat) (st : CanvasScene.Search) (g v : nat) (es : list nat) :
  Bfs None vis [] st -> In v (CanvasScene.graphNodes st) -> NodeT gs0 g v es 0 ->
  Bfs (Some v) (vis ++ [v]) es
      (CanvasScene.mkSearch
         (Items.updateNode v (fun n => Node.setChecked n 1) (CanvasScene.sGraphs st))
         (CanvasScene.graphNodes st) (CanvasScene.graphItems st)
         (CanvasScene.skipList st ++ CanvasScene.reached Nodes v (S i) (lastIdx - i))).
Proof.
  intros B Hq HT. pose proof (wf_refs _ Hwf) as Hr.
  assert (Hv : ~ In v vis).
  { intros F. pose proof (bf_apart _ _ _ _ B v F Hq). discriminate. }
  assert (Hmine : forall gid eid s d, EdgeT gs0 gid eid s d -> s = v \/ d = v -> In eid es).
  { intros gid eid s d HE Hend. destruct (wf_ends _ Hwf _ _ _ _ HE) as (Hs & Hd & _).
    assert (Hgv : hasNode gs0 g v) by now exists es, 0%Z.
    assert (gid = g).
    { destruct Hend as [E|E]; rewrite E in *;
        [exact (hasNode_unique _ _ _ _ Hr Hs Hgv)|exact (hasNode_unique _ _ _ _ Hr Hd Hgv)]. }
    subst gid. exact (wf_lists _ Hwf _ _ _ _ _ _ _ HE HT Hend). }
  constructor; cbn [CanvasScene.sGraphs CanvasScene.graphNodes CanvasScene.graphItems
                      CanvasScene.skipList].
  - rewrite keys_updateNode. exact (bf_keys _ _ _ _ B).
  - rewrite refs_updateNode; [exact (bf_refs _ _ _ _ B)|reflexivity].
  - intros gid nid es' c. rewrite NodeT_setChecked, contains_app. split.
    + intros (c0 & HT' & ->). apply (bf_nodes _ _ _ _ B) in HT'. destruct HT' as (HT' & ->).
      split; [assumption|]. unfold contains at 2. simpl.
      destruct (Nat.eqb nid v); [now rewrite orb_true_r|now rewrite !orb_false_r].
    + intros (HT' & ->). exists (if contains vis nid then 1 else 0)%Z.
      split; [apply (bf_nodes _ _ _ _ B); now split|].
      unfold contains at 2. simpl.
      destruct (Nat.eqb nid v); [now rewrite orb_true_r|now rewrite !orb_false_r].
  - intros gid eid s d. rewrite EdgeT_updateNode. exact (bf_edges _ _ _ _ B gid eid s d).
  - apply NoDup_snoc; [exact (bf_vis _ _ _ _ B)|exact Hv].
  - exact (bf_queue _ _ _ _ B).
  - intros n Hn Hin. apply in_app_or in Hn. destruct Hn as [Hn|[<-|[]]]; [|reflexivity].
    pose proof (bf_apart _ _ _ _ B n Hn Hin). discriminate.
  - intros n [Hn|Hn]; apply (bf_reach _ _ _ _ B); [|tauto].
    apply in_app_or in Hn. destruct Hn as [Hn|[<-|[]]]; tauto.
  - destruct (bf_start _ _ _ _ B); [left; apply in_or_app|]; tauto.
  - intros gid eid s d HE Hpend.
    destruct (bf_closed _ _ _ _ B gid eid s d HE (fun f => f)) as (C1 & C2).
    split; intros Hin; apply in_app_or in Hin; destruct Hin as [Hin|[<-|[]]].
    + destruct (C1 Hin); [left; apply in_or_app|]; tauto.
    + exfalso. apply Hpend. eapply Hmine; eauto.
    + destruct (C2 Hin); [left; apply in_or_app|]; tauto.
    + exfalso. apply Hpend. eapply Hmine; eauto.
  - intros n. rewrite (bf_item_node _ _ _ _ B), in_app_iff. simpl.
    split; [tauto|]. intros [[F|[<-|[]]]|F]; tauto.
  - intros e He. destruct (bf_item_edge _ _ _ _ B e He) as (gid & s & d & HE & Hend).
    exists gid, s, d. split; [assumption|]. rewrite !in_app_iff. tauto.
  - intros gid e s d HE Hend Hpend. apply (bf_item_all _ _ _ _ B gid e s d HE); [|tauto].
    rewrite !in_app_iff in Hend. simpl in Hend.
    destruct Hend as [[F|[<-|[]]]|[F|[<-|[]]]]; try tauto; exfalso; apply Hpend; eapply Hmine; eauto.
  - exact (bf_items _ _ _ _ B).
  - intros j. rewrite !in_app_iff, (bf_skip _ _ _ _ B), reached_In. simpl. split.
    + intros [(Hr1 & Hn)|(Hr1 & Hn)]; (split; [lia|]); [now left|right; left; now symmetry].
    + intros (Hr1 & [Hn|[Hn|[]]]); [left; tauto|right; split; [lia|congruence]].
  - apply NoDup_app; [exact (bf_skips _ _ _ _ B)|apply reached_NoDup|].
    intros j Hj Hj'. apply (bf_skip _ _ _ _ B) in Hj. apply reached_In in Hj'.
    destruct Hj as (_ & Hn), Hj' as (_ & Hn'). rewrite Hn' in Hn. exact (Hv Hn).
Qed.

(** The current node leaves the queue. *)
Lemma Bfs_pop (v : nat) (vis : list nat) (st : CanvasScene.Search) :
  Bfs (Some v) vis [] st -> In v vis ->
  Bfs None vis []
      (CanvasScene.mkSearch (CanvasScene.sGraphs st) (removeOne v (CanvasScene.graphNodes st))
                            (CanvasScene.graphItems st) (CanvasScene.skipList st)).
Proof.
  intros B Hv. pose proof (bf_queue _ _ _ _ B) as Hq.
  assert (Hkeep : forall n, In n vis \/ In n (CanvasScene.graphNodes st) ->
                            In n vis \/ In n (removeOne v (CanvasScene.graphNodes st))).
  { intros n [F|F]; [now left|]. destruct (Nat.eq_dec n v) as [->|Hne]; [now left|right].
    now apply removeOne_keeps. }
  constructor; cbn [CanvasScene.sGraphs CanvasScene.graphNodes CanvasScene.graphItems
                      CanvasScene.skipList].
  - exact (bf_keys _ _ _ _ B).
  - exact (bf_refs _ _ _ _ B).
  - exact (bf_nodes _ _ _ _ B).
  - exact (bf_edges _ _ _ _ B).
  - exact (bf_vis _ _ _ _ B).
  - now apply removeOne_NoDup.
  - intros n Hn Hin. apply (removeOne_In_iff v n _ Hq) in Hin. destruct Hin as (Hin & Hne).
    pose proof (bf_apart _ _ _ _ B n Hn Hin) as F. inversion F. congruence.
  - intros n [Hn|Hn]; apply (bf_reach _ _ _ _ B); [tauto|].
    right. now apply removeOne_In in Hn.
  - apply Hkeep. exact (bf_start _ _ _ _ B).
  - intros gid eid s d HE Hpend.
    destruct (bf_closed _ _ _ _ B gid eid s d HE Hpend) as (C1 & C2).
    split; intros Hin; apply Hkeep; auto.
  - intros n. rewrite (bf_item_node _ _ _ _ B). split; [apply Hkeep|].
    intros [F|F]; [now left|right; now apply removeOne_In in F].
  - exact (bf_item_edge _ _ _ _ B).
  - exact (bf_item_all _ _ _ _ B).
  - exact (bf_items _ _ _ _ B).
  - exact (bf_skip _ _ _ _ B).
  - exact (bf_skips _ _ _ _ B).
Qed.

Variable ga : nat.
Hypothesis Ha : hasNode gs0 ga a.

Lemma Bfs_hasNode (cur : option nat) (vis pend : list nat) (st : CanvasScene.Search) (n : nat) :
  Bfs cur vis pend st -> In n vis \/ In n (CanvasScene.graphNodes st) -> hasNode gs0 ga n.
Proof.
  intros B Hn. apply (reach_closed gs0 Hwf ga a n Ha).
  apply (path_reach gs0 Hwf ga a n Ha). exact (bf_reach _ _ _ _ B n Hn).
Qed.

(** One node of the queue is visited. *)
Lemma visitNode_step (vis : list nat) (st : CanvasScene.Search) (v : nat) :
  Bfs None vis [] st -> In v (CanvasScene.graphNodes st) ->
  Bfs None (vis ++ [v]) [] (CanvasScene.visitNode Nodes i lastIdx st v) /\
  (forall x, In x (CanvasScene.graphNodes st) -> x <> v ->
             In x (CanvasScene.graphNodes (CanvasScene.visitNode Nodes i lastIdx st v))).
Proof.
  intros B Hq. pose proof (wf_refs _ Hwf) as Hr.
  destruct (Bfs_hasNode _ _ _ _ v B (or_intror Hq)) as (es & c & HT).
  assert (c = 0%Z) by exact (wf_unchecked _ Hwf _ _ _ _ HT). subst c.
  assert (Hes : Items.edgesOfNode (CanvasScene.sGraphs st) v = es).
  { apply (edgesOfNode_NodeT _ ga v es (if contains vis v then 1 else 0)%Z).
    - rewrite (bf_refs _ _ _ _ B). exact Hr.
    - apply (bf_nodes _ _ _ _ B). now split. }
  unfold CanvasScene.visitNode. rewrite Hes.
  pose proof (Bfs_mark vis st ga v es B Hq HT) as B1.
  assert (Hvv : In v (vis ++ [v])) by (apply in_or_app; right; now left).
  match type of B1 with Bfs _ _ _ ?s1 => set (st1 := s1) in * end.
  assert (B2 : Bfs (Some v) (vis ++ [v]) [] (fold_left CanvasScene.visitEdge es st1)).
  { apply fold_visitEdge; [exact B1|exact Hvv|exact Hq|].
    intros e He. destruct (wf_listed _ Hwf _ _ _ _ e HT He) as (s & d & HE & Hend).
    exists ga, s, d. split; [assumption|]. destruct Hend; auto. }
  split; [exact (Bfs_pop v _ _ B2 Hvv)|].
  intros x Hx Hne. cbn [CanvasScene.graphNodes]. apply removeOne_keeps; [|assumption].
  apply fold_visitEdge_queue_mono. exact Hx.
Qed.

(** One pass over the queue. *)
Lemma visitNode_pass (l vis : list nat) (st : CanvasScene.Search) :
  Bfs None vis [] st -> NoDup l -> incl l (CanvasScene.graphNodes st) ->
  Bfs None (vis ++ l) [] (fold_left (CanvasScene.visitNode Nodes i lastIdx) l st).
Proof.
  revert vis st. induction l as [|v l IH]; intros vis st B Hnd Hincl.
  - now rewrite app_nil_r.
  - cbn [fold_left]. inversion Hnd as [|? ? Hv Hnd']; subst.
    destruct (visitNode_step vis st v B (Hincl v (or_introl eq_refl))) as (B' & Hkeep).
    replace (vis ++ v :: l) with ((vis ++ [v]) ++ l) by (rewrite <- app_assoc; reflexivity).
    apply IH; [exact B'|exact Hnd'|].
    intros x Hx. apply Hkeep; [apply Hincl; now right|]. intros ->. exact (Hv Hx).
Qed.

Definition nodeIds (gs : Graphs) : list nat := map Node.id (Items.allNodes gs).

Lemma hasNode_nodeIds (gs : Graphs) (g n : nat) : hasNode gs g n -> In n (nodeIds gs).
Proof.
  intros (es & c & nd & (gr & Hg & Hin) & E & _). unfold nodeIds, Items.allNodes, Items.allItems.
  apply in_map_iff. exists nd. split; [assumption|]. apply nodesOf_In, in_flat_map.
  now exists (g, gr).
Qed.

Lemma Bfs_bound (vis : list nat) (st : CanvasScene.Search) :
  Bfs None vis [] st ->
  (List.length vis + List.length (CanvasScene.graphNodes st)
   <= List.length (Items.allNodes gs0))%nat.
Proof.
  intros B. rewrite <- length_app, <- (length_map Node.id (Items.allNodes gs0)).
  apply NoDup_incl_length.
  - apply NoDup_app; [exact (bf_vis _ _ _ _ B)|exact (bf_queue _ _ _ _ B)|].
    intros n Hn Hq. pose proof (bf_apart _ _ _ _ B n Hn Hq). discriminate.
  - intros n Hn. apply in_app_or in Hn. apply (hasNode_nodeIds gs0 ga).
    exact (Bfs_hasNode _ _ _ _ n B Hn).
Qed.

(** The search ends, with the queue empty. *)
Lemma search_ends (fuel : nat) (vis : list nat) (st : CanvasScene.Search) :
  Bfs None vis [] st ->
  (List.length (Items.allNodes gs0) <= fuel + List.length vis)%nat ->
  exists vis' st', CanvasScene.search fuel Nodes i lastIdx st = Some st'
                   /\ Bfs None vis' [] st' /\ CanvasScene.graphNodes st' = [].
Proof.
  revert vis st. induction fuel as [|f IH]; intros vis st B Hfuel;
    pose proof (Bfs_bound vis st B) as Hb.
  - destruct (CanvasScene.graphNodes st) as [|q Q] eqn:EQ.
    + exists vis, st. simpl. rewrite EQ. auto.
    + simpl in Hb. lia.
  - destruct (CanvasScene.graphNodes st) as [|q Q] eqn:EQ.
    + exists vis, st. simpl. rewrite EQ. auto.
    + simpl. rewrite EQ. rewrite <- EQ.
      apply (IH (vis ++ CanvasScene.graphNodes st)).
      * apply visitNode_pass; [exact B|exact (bf_queue _ _ _ _ B)|apply incl_refl].
      * rewrite length_app, EQ. simpl. lia.
Qed.

(** When the queue is empty the nodes visited are those joined to the
    start by a path. *)
Lemma Bfs_component (vis : list nat) (st : CanvasScene.Search) :
  Bfs None vis [] st -> CanvasScene.graphNodes st = [] ->
  forall n, In n vis <-> path gs0 a n.
Proof.
  intros B EQ n. split.
  - intros Hn. apply (bf_reach _ _ _ _ B). now left.
  - intros Hp.
    assert (Hstart : In a vis).
    { destruct (bf_start _ _ _ _ B) as [F|F]; [assumption|]. rewrite EQ in F. destruct F. }
    assert (Hclosed : forall x y, path gs0 x y -> In x vis -> In y vis).
    { clear Hp. intros x y Hp. induction Hp as [|u w z _ IH (g & e & Hl)]; [tauto|].
      intros Hu. specialize (IH Hu).
      destruct Hl as [HE|HE];
        destruct (bf_closed _ _ _ _ B _ _ _ _ HE (fun f => f)) as (C1 & C2);
        [destruct (C1 IH) as [F|F]|destruct (C2 IH) as [F|F]];
        try assumption; rewrite EQ in F; destruct F. }
    exact (Hclosed a n Hp Hstart).
Qed.

(** The items found when the queue is empty. *)
Lemma Bfs_items_end (vis : list nat) (st : CanvasScene.Search) :
  Bfs None vis [] st -> CanvasScene.graphNodes st = [] ->
  (forall n, In (NodeRef n) (CanvasScene.graphItems st) <-> In n vis) /\
  (forall g e s d, EdgeT gs0 g e s d ->
                   (In (EdgeRef e) (CanvasScene.graphItems st) <-> In s vis)
                   /\ (In s vis <-> In d vis)).
Proof.
  clear Ha. intros B EQ. pose proof (wf_refs _ Hwf) as Hr. split.
  - intros n. rewrite (bf_item_node _ _ _ _ B), EQ. simpl. tauto.
  - intros g e s d HE.
    destruct (bf_closed _ _ _ _ B _ _ _ _ HE (fun f => f)) as (C1 & C2). rewrite EQ in C1, C2.
    simpl in C1, C2.
    assert (Hsd : In s vis <-> In d vis) by tauto.
    split; [|exact Hsd]. split.
    + intros Hin. destruct (bf_item_edge _ _ _ _ B e Hin) as (g' & s' & d' & HE' & Hend).
      destruct (EdgeT_unique _ _ _ _ _ _ _ _ Hr HE HE') as (_ & -> & ->). tauto.
    + intros Hs. apply (bf_item_all _ _ _ _ B g e s d HE); [now left|intros []].
Qed.

(** The search at its start. *)
Lemma Bfs_start :
  Bfs None [] [] (CanvasScene.mkSearch gs0 [a] [NodeRef a] []).
Proof.
  clear Ha.
  constructor; cbn [CanvasScene.sGraphs CanvasScene.graphNodes CanvasScene.graphItems
                      CanvasScene.skipList]; try reflexivity.
  - intros gid nid es c. simpl. split.
    + intros HT. assert (c = 0%Z) by exact (wf_unchecked _ Hwf _ _ _ _ HT). subst. now split.
    + intros (HT & ->). exact HT.
  - constructor.
  - constructor; [intros []|constructor].
  - intros n [].
  - intros n [[]|[<-|[]]]. apply path_refl.
  - right. now left.
  - intros gid eid s d _ _. split; intros [].
  - intros n. simpl. split; [intros [F|[]]; inversion F; tauto|intros [[]|[->|[]]]; now left].
  - intros e [F|[]]. discriminate.
  - intros gid e s d _ [[]|[]].
  - constructor; [intros []|constructor].
  - intros j. simpl. tauto.
  - constructor.
Qed.

End Search.

Lemma search_spec (gs0 : Graphs) (Nodes : list nat) (i lastIdx a ga fuel : nat) :
  WellFormed gs0 -> hasNode gs0 ga a ->
  (List.length (Items.allNodes gs0) <= fuel)%nat ->
  exists vis st,
    CanvasScene.search fuel Nodes i lastIdx (CanvasScene.mkSearch gs0 [a] [NodeRef a] [])
    = Some st
    /\ Bfs gs0 Nodes i lastIdx a None vis [] st /\ CanvasScene.graphNodes st = [].
Proof.
  intros Hwf Ha Hfuel.
  apply (search_ends gs0 Nodes i lastIdx a Hwf ga Ha fuel []).
  - now apply Bfs_start.
  - simpl. lia.
Qed.

(** * Making a new graph of the items found *)

Lemma NodeT_refs (gs : Graphs) (gid nid : nat) (es : list nat) (c : Z) :
  NodeT gs gid nid es c -> In (NodeRef nid) (refs gs).
Proof.
  intros (n & Hin & E & _). apply In_refs. exists gid, (NodeItem n). split; [assumption|].
  simpl. now rewrite E.
Qed.

Lemma EdgeT_refs (gs : Graphs) (gid eid s d : nat) :
  EdgeT gs gid eid s d -> In (EdgeRef eid) (refs gs).
Proof.
  intros (e & Hin & E & _). apply In_refs. exists gid, (EdgeItem e). split; [assumption|].
  simpl. now rewrite E.
Qed.

Lemma moveInto_views `{Platform} (graph : nat) (gs : Graphs) (r : ItemRef) :
  NoDup (keys gs) -> NoDup (refs gs) -> In graph (keys gs) ->
  let gs' := CanvasScene.moveInto graph gs r in
  (forall gid nid es c,
      NodeT gs' gid nid es c <->
      (NodeT gs gid nid es c /\ NodeRef nid <> r) \/
      (gid = graph /\ NodeRef nid = r /\ exists g, NodeT gs g nid es c)) /\
  (forall gid eid s d,
      EdgeT gs' gid eid s d <->
      (EdgeT gs gid eid s d /\ EdgeRef eid <> r) \/
      (gid = graph /\ EdgeRef eid = r /\ exists g, EdgeT gs g eid s d)) /\
  keys gs' = keys gs /\ NoDup (refs gs').
Proof.
  intros Hk Hr Hg. unfold CanvasScene.moveInto.
  destruct (Items.findItem gs r) as [[g it]|] eqn:F.
  - destruct (findItem_Some _ _ _ _ F) as (Hin & Er).
    destruct (scenePos_InGraph gs g it Hk Hin) as (p & Hp). rewrite Er in Hp. rewrite Hp.
    cbv zeta. split; [|split; [|split]].
    + intros gid nid es c. unfold NodeT, nodeAt. split.
      * intros (n & Hn & E1 & E2 & E3). apply InGraph_reparent in Hn.
        destruct Hn as [(Hn & Hne)|(-> & Eit & _)].
        -- left. split; [now exists n|]. simpl in Hne. rewrite E1 in Hne. congruence.
        -- right. split; [reflexivity|]. destruct it as [n0|e0]; [|discriminate].
           inversion Eit; subst n. simpl in *. subst. split; [reflexivity|].
           exists g, n0. now repeat split.
      * intros [((n & Hn & E) & Hne)|(-> & Enr & g' & n & Hn & E1 & E2 & E3)].
        -- exists n. split; [|assumption]. apply InGraph_reparent. left. split; [assumption|].
           simpl. destruct E as (E1 & _). rewrite E1. congruence.
        -- assert (Hsame : g' = g /\ NodeItem n = it).
           { apply (InGraph_unique gs g' g (NodeItem n) it Hr Hn Hin). simpl. congruence. }
           destruct Hsame as (-> & <-).
           eexists. split; [apply InGraph_reparent; right; split; [reflexivity|];
                            split; [reflexivity|assumption]|].
           now repeat split.
    + intros gid eid s d. unfold EdgeT, edgeAt. split.
      * intros (e & Hn & E1 & E2 & E3). apply InGraph_reparent in Hn.
        destruct Hn as [(Hn & Hne)|(-> & Eit & _)].
        -- left. split; [now exists e|]. simpl in Hne. rewrite E1 in Hne. congruence.
        -- right. split; [reflexivity|]. destruct it as [n0|e0]; [discriminate|].
           inversion Eit; subst e. simpl in *. subst. split; [reflexivity|].
           exists g, e0. now repeat split.
      * intros [((e & Hn & E) & Hne)|(-> & Enr & g' & e & Hn & E1 & E2 & E3)].
        -- exists e. split; [|assumption]. apply InGraph_reparent. left. split; [assumption|].
           simpl. destruct E as (E1 & _). rewrite E1. congruence.
        -- assert (Hsame : g' = g /\ EdgeItem e = it).
           { apply (InGraph_unique gs g' g (EdgeItem e) it Hr Hn Hin). simpl. congruence. }
           destruct Hsame as (-> & <-).
           eexists. split; [apply InGraph_reparent; right; split; [reflexivity|];
                            split; [reflexivity|assumption]|].
           now repeat split.
    + apply keys_reparent.
    + now apply NoDup_refs_reparent.
  - apply findItem_None in F. cbv zeta. split; [|split; [|split]]; try reflexivity; try assumption.
    + intros gid nid es c. split.
      * intros HT. left. split; [assumption|]. intros <-. apply F. exact (NodeT_refs _ _ _ _ _ HT).
      * intros [(HT & _)|(_ & <- & g & HT)]; [assumption|].
        exfalso. apply F. exact (NodeT_refs _ _ _ _ _ HT).
    + intros gid eid s d. split.
      * intros HT. left. split; [assumption|]. intros <-. apply F. exact (EdgeT_refs _ _ _ _ _ HT).
      * intros [(HT & _)|(_ & <- & g & HT)]; [assumption|].
        exfalso. apply F. exact (EdgeT_refs _ _ _ _ _ HT).
Qed.

Lemma ItemRef_eq_dec (a b : ItemRef) : {a = b} + {a <> b}.
Proof. decide equality; apply Nat.eq_dec. Qed.

Lemma fold_moveInto_views `{Platform} (graph : nat) (I : list ItemRef) :
  forall gs,
  NoDup (keys gs) -> NoDup (refs gs) -> In graph (keys gs) ->
  let gs' := fold_left (CanvasScene.moveInto graph) I gs in
  (forall gid nid es c,
      NodeT gs' gid nid es c <->
      (NodeT gs gid nid es c /\ ~ In (NodeRef nid) I) \/
      (gid = graph /\ In (NodeRef nid) I /\ exists g, NodeT gs g nid es c)) /\
  (forall gid eid s d,
      EdgeT gs' gid eid s d <->
      (EdgeT gs gid eid s d /\ ~ In (EdgeRef eid) I) \/
      (gid = graph /\ In (EdgeRef eid) I /\ exists g, EdgeT gs g eid s d)) /\
  keys gs' = keys gs /\ NoDup (refs gs').
Proof.
  induction I as [|r I IH]; intros gs Hk Hr Hg; cbn [fold_left].
  - cbv zeta. split; [|split; [|split]]; try reflexivity; try assumption.
    + intros. simpl. tauto.
    + intros. simpl. tauto.
  - destruct (moveInto_views graph gs r Hk Hr Hg) as (N1 & E1 & K1 & R1).
    set (gs1 := CanvasScene.moveInto graph gs r) in *.
    assert (Hk1 : NoDup (keys gs1)) by now rewrite K1.
    assert (Hg1 : In graph (keys gs1)) by now rewrite K1.
    destruct (IH gs1 Hk1 R1 Hg1) as (N & E & K & R).
    cbv zeta. split; [|split; [|split]].
    + intros gid nid es c. rewrite N. simpl.
      assert (Hex : (exists g, NodeT gs1 g nid es c) <-> (exists g, NodeT gs g nid es c)).
      { split; intros (g & HT).
        - apply N1 in HT. destruct HT as [(HT & _)|(_ & _ & HT)]; [now exists g|exact HT].
        - destruct (ItemRef_eq_dec (NodeRef nid) r) as [Er|Er].
          + exists graph. apply N1. right. repeat split; [assumption|now exists g].
          + exists g. apply N1. left. now split. }
      rewrite Hex, N1. destruct (ItemRef_eq_dec r (NodeRef nid)) as [Er|Er].
      * subst r. split.
        -- intros [([(_ & F)|(-> & _ & Hx)] & Hn)|(-> & Hin & Hx)];
             [congruence|right|right]; tauto.
        -- intros [(_ & F)|(-> & _ & Hx)]; [tauto|].
           destruct (in_dec ItemRef_eq_dec (NodeRef nid) I) as [Hin|Hin]; [right; tauto|].
           left. split; [right; tauto|assumption].
      * split.
        -- intros [([(HT & _)|(_ & F & _)] & Hn)|(-> & Hin & Hx)];
             [left; split; [assumption|tauto]|congruence|right; tauto].
        -- intros [(HT & Hn)|(-> & [F|Hin] & Hx)]; [left|congruence|right; tauto].
           split; [left; split; [assumption|congruence]|tauto].
    + intros gid eid s d. rewrite E. simpl.
      assert (Hex : (exists g, EdgeT gs1 g eid s d) <-> (exists g, EdgeT gs g eid s d)).
      { split; intros (g & HT).
        - apply E1 in HT. destruct HT as [(HT & _)|(_ & _ & HT)]; [now exists g|exact HT].
        - destruct (ItemRef_eq_dec (EdgeRef eid) r) as [Er|Er].
          + exists graph. apply E1. right. repeat split; [assumption|now exists g].
          + exists g. apply E1. left. now split. }
      rewrite Hex, E1. destruct (ItemRef_eq_dec r (EdgeRef eid)) as [Er|Er].
      * subst r. split.
        -- intros [([(_ & F)|(-> & _ & Hx)] & Hn)|(-> & Hin & Hx)];
             [congruence|right|right]; tauto.
        -- intros [(_ & F)|(-> & _ & Hx)]; [tauto|].
           destruct (in_dec ItemRef_eq_dec (EdgeRef eid) I) as [Hin|Hin]; [right; tauto|].
           left. split; [right; tauto|assumption].
      * split.
        -- intros [([(HT & _)|(_ & F & _)] & Hn)|(-> & Hin & Hx)];
             [left; split; [assumption|tauto]|congruence|right; tauto].
        -- intros [(HT & Hn)|(-> & [F|Hin] & Hx)]; [left|congruence|right; tauto].
           split; [left; split; [assumption|congruence]|tauto].
    + now rewrite K, K1.
    + exact R.
Qed.

Lemma fold_resetChecked_views (I : list ItemRef) :
  forall gs,
  let gs' := fold_left CanvasScene.resetChecked I gs in
  (forall gid nid es c,
      NodeT gs' gid nid es c <->
      exists c0, NodeT gs gid nid es c0
                 /\ c = if in_dec ItemRef_eq_dec (NodeRef nid) I then 0%Z else c0) /\
  (forall gid eid s d, EdgeT gs' gid eid s d <-> EdgeT gs gid eid s d) /\
  keys gs' = keys gs /\ refs gs' = refs gs.
Proof.
  induction I as [|r I IH]; intros gs; cbn [fold_left].
  - cbv zeta. split; [|split; [|split]]; try reflexivity.
    intros gid nid es c. simpl. split; [intros HT; now exists c|intros (c0 & HT & ->); exact HT].
  - destruct (IH (CanvasScene.resetChecked gs r)) as (N & E & K & R).
    cbv zeta. split; [|split; [|split]].
    + intros gid nid es c. rewrite N. destruct r as [k|k]; cbn [CanvasScene.resetChecked].
      * split.
        -- intros (c1 & HT & ->). apply NodeT_setChecked in HT. destruct HT as (c0 & HT & ->).
           exists c0. split; [assumption|].
           destruct (in_dec ItemRef_eq_dec (NodeRef nid) I) as [Hin|Hin];
             destruct (in_dec ItemRef_eq_dec (NodeRef nid) (NodeRef k :: I)) as [Hin'|Hin'];
             try reflexivity; simpl in Hin'; try tauto.
           ++ destruct (Nat.eqb nid k) eqn:Ek; [reflexivity|].
              apply Nat.eqb_neq in Ek. destruct Hin' as [F|F]; [congruence|tauto].
           ++ destruct (Nat.eqb nid k) eqn:Ek; [|reflexivity].
              apply Nat.eqb_eq in Ek. subst. tauto.
        -- intros (c0 & HT & ->). exists (if Nat.eqb nid k then 0%Z else c0). split.
           ++ apply NodeT_setChecked. now exists c0.
           ++ destruct (in_dec ItemRef_eq_dec (NodeRef nid) I) as [Hin|Hin];
                destruct (in_dec ItemRef_eq_dec (NodeRef nid) (NodeRef k :: I)) as [Hin'|Hin'];
                try reflexivity; simpl in Hin'; try tauto.
              ** destruct (Nat.eqb nid k) eqn:Ek; [reflexivity|].
                 apply Nat.eqb_neq in Ek. destruct Hin' as [F|F]; [congruence|tauto].
              ** destruct (Nat.eqb nid k) eqn:Ek; [|reflexivity].
                 apply Nat.eqb_eq in Ek. subst. tauto.
      * split.
        -- intros (c1 & HT & ->). apply NodeT_updateEdge in HT. exists c1. split; [assumption|].
           destruct (in_dec ItemRef_eq_dec (NodeRef nid) I) as [Hin|Hin];
             destruct (in_dec ItemRef_eq_dec (NodeRef nid) (EdgeRef k :: I)) as [Hin'|Hin'];
             try reflexivity; simpl in Hin'; try tauto.
           destruct Hin' as [F|F]; [discriminate|tauto].
        -- intros (c0 & HT & ->). exists c0. split; [now apply NodeT_updateEdge|].
           destruct (in_dec ItemRef_eq_dec (NodeRef nid) I) as [Hin|Hin];
             destruct (in_dec ItemRef_eq_dec (NodeRef nid) (EdgeRef k :: I)) as [Hin'|Hin'];
             try reflexivity; simpl in Hin'; try tauto.
           destruct Hin' as [F|F]; [discriminate|tauto].
    + intros gid eid s d. rewrite E. destruct r as [k|k]; cbn [CanvasScene.resetChecked].
      * apply EdgeT_updateNode.
      * apply EdgeT_setChecked.
    + rewrite K. destruct r as [k|k]; cbn [CanvasScene.resetChecked];
        [apply keys_updateNode|apply keys_updateEdge].
    + rewrite R. destruct r as [k|k]; cbn [CanvasScene.resetChecked];
        [now apply refs_updateNode|now apply refs_updateEdge].
Qed.

(** ** One round of searchAndSeparate *)



Lemma skipPast_spec (K : list nat) (fuel i0 : nat) :
  let i' := CanvasScene.skipPast K fuel i0 in
  (i0 <= i' <= i0 + fuel)%nat /\
  (forall j, (i0 <= j < i')%nat -> In j K) /\
  ((i' < i0 + fuel)%nat -> ~ In i' K).
Proof.
  revert i0. induction fuel as [|f IH]; intros i0; simpl.
  - split; [lia|]. split; [intros j Hj; lia|lia].
  - destruct (contains K i0) eqn:Hc.
    + destruct (IH (S i0)) as (H1 & H2 & H3). split; [lia|]. split.
      * intros j Hj. destruct (Nat.eq_dec j i0) as [->|Hne]; [now apply contains_In|].
        apply H2. lia.
      * intros Hlt. apply H3. lia.
    + split; [lia|]. split; [intros j Hj; lia|]. intros _. now apply contains_false.
Qed.

Lemma skipPast_stops (K : list nat) (i0 : nat) :
  ~ In (CanvasScene.skipPast K (S (List.length K)) i0) K.
Proof.
  destruct (skipPast_spec K (S (List.length K)) i0) as (H1 & H2 & H3). cbv zeta in *.
  set (i' := CanvasScene.skipPast K (S (List.length K)) i0) in *.
  destruct (Nat.lt_ge_cases i' (i0 + S (List.length K))) as [Hlt|Hge]; [now apply H3|].
  exfalso.
  assert (Hincl : incl (seq i0 (S (List.length K))) K).
  { intros j Hj. apply in_seq in Hj. apply H2. lia. }
  pose proof (NoDup_incl_length (seq_NoDup _ _) Hincl) as Hlen.
  rewrite length_seq in Hlen. lia.
Qed.

(** A list without repetition of indices between [i] and [lastIdx]
    that has as many indices as there are holds them all. *)
Lemma all_indices (K : list nat) (i lastIdx : nat) :
  NoDup K -> (forall j, In j K -> (i < j <= lastIdx)%nat) ->
  List.length K = (lastIdx - i)%nat ->
  forall j, (i < j <= lastIdx)%nat -> In j K.
Proof.
  intros Hnd Hin Hlen j Hj.
  assert (Hincl : incl K (seq (S i) (lastIdx - i))).
  { intros x Hx. apply in_seq. specialize (Hin x Hx). lia. }
  apply (@NoDup_length_incl _ K (seq (S i) (lastIdx - i)) Hnd);
    [rewrite length_seq; lia|exact Hincl|].
  apply in_seq. lia.
Qed.

Lemma missing_index (K : list nat) (i lastIdx : nat) :
  NoDup K -> (forall j, In j K -> (i < j <= lastIdx)%nat) ->
  List.length K <> (lastIdx - i)%nat ->
  exists j, (i < j <= lastIdx)%nat /\ ~ In j K.
Proof.
  intros Hnd Hin Hlen.
  destruct (Exists_dec (fun j => ~ In j K) (seq (S i) (lastIdx - i))) as [Hex|Hall].
  - intros j. destruct (in_dec Nat.eq_dec j K); [right; tauto|now left].
  - apply Exists_exists in Hex. destruct Hex as (j & Hj & Hn). exists j.
    apply in_seq in Hj. split; [lia|assumption].
  - exfalso. apply Hlen.
    assert (Hincl : incl (seq (S i) (lastIdx - i)) K).
    { intros j Hj. destruct (in_dec Nat.eq_dec j K) as [Hin'|Hin']; [assumption|].
      exfalso. apply Hall. apply Exists_exists. now exists j. }
    assert (Hincl' : incl K (seq (S i) (lastIdx - i))).
    { intros x Hx. apply in_seq. specialize (Hin x Hx). lia. }
    pose proof (NoDup_incl_length (seq_NoDup _ _) Hincl) as L1.
    pose proof (NoDup_incl_length Hnd Hincl') as L2.
    rewrite length_seq in L1, L2. lia.
Qed.

Lemma separateFrom_spec `{Platform} (fuel : nat) (Nodes : list nat) (lastIdx : nat)
      (s : CanvasScene.t) (added : bool) (i ga : nat) :
  WellFormed (CanvasScene.graphs s) ->
  S lastIdx = List.length Nodes -> (i < lastIdx)%nat ->
  hasNode (CanvasScene.graphs s) ga (nth i Nodes 0%nat) ->
  (List.length (Items.allNodes (CanvasScene.graphs s)) <= fuel)%nat ->
  exists vis s2 added' i',
    CanvasScene.separateFrom fuel Nodes lastIdx s added i = Some (s2, added', i') /\
    (forall n, In n vis <-> path (CanvasScene.graphs s) (nth i Nodes 0%nat) n) /\
    (i < i')%nat /\
    (forall j, (i < j < i')%nat -> In (nth j Nodes 0%nat) vis) /\
    ((i' <= lastIdx)%nat -> ~ In (nth i' Nodes 0%nat) vis) /\
    (((forall j, (i < j <= lastIdx)%nat -> In (nth j Nodes 0%nat) vis)
      /\ sameViews (CanvasScene.graphs s) (CanvasScene.graphs s2))
     \/ ((exists j, (i < j <= lastIdx)%nat /\ ~ In (nth j Nodes 0%nat) vis)
         /\ exists new, splitOff vis new (CanvasScene.graphs s) (CanvasScene.graphs s2))).
Proof.
  intros Hwf Hlast Hi Ha Hfuel.
  set (gs := CanvasScene.graphs s) in *. set (a := nth i Nodes 0%nat) in *.
  destruct (search_spec gs Nodes i lastIdx a ga fuel Hwf Ha Hfuel) as (vis & st & Hs & B & EQ).
  pose proof (Bfs_component gs Nodes i lastIdx a vis st B EQ) as Hcomp.
  destruct (Bfs_items_end gs Nodes i lastIdx a Hwf vis st B EQ) as (In1 & In2).
  pose proof (wf_refs _ Hwf) as Hr. pose proof (wf_keys _ Hwf) as Hk.
  unfold CanvasScene.separateFrom. fold a. fold gs. rewrite Hs. cbv zeta.
  set (K := CanvasScene.skipList st) in *. set (I := CanvasScene.graphItems st) in *.
  set (gsB := CanvasScene.sGraphs st) in *.
  assert (HkB : keys gsB = keys gs) by exact (bf_keys _ _ _ _ _ _ _ _ _ B).
  assert (HrB : refs gsB = refs gs) by exact (bf_refs _ _ _ _ _ _ _ _ _ B).
  assert (HNB : forall gid nid es c,
             NodeT gsB gid nid es c <->
             NodeT gs gid nid es 0 /\ c = (if contains vis nid then 1 else 0)%Z)
    by exact (bf_nodes _ _ _ _ _ _ _ _ _ B).
  assert (HEB : forall gid eid s d, EdgeT gsB gid eid s d <-> EdgeT gs gid eid s d)
    by exact (bf_edges _ _ _ _ _ _ _ _ _ B).
  assert (HK : forall j, In j K <-> (i < j <= lastIdx)%nat /\ In (nth j Nodes 0%nat) vis)
    by exact (bf_skip _ _ _ _ _ _ _ _ _ B).
  assert (HKnd : NoDup K) by exact (bf_skips _ _ _ _ _ _ _ _ _ B).
  destruct (skipPast_spec K (S (List.length K)) (S i)) as (S1 & S2 & _).
  pose proof (skipPast_stops K (S i)) as S3. cbv zeta in S1, S2.
  set (i' := CanvasScene.skipPast K (S (List.length K)) (S i)) in *.
  assert (Hreset : forall gsX,
             (forall gid nid es c, NodeT gsX gid nid es c -> c = if contains vis nid then 1%Z else 0%Z) ->
             forall gid nid es c,
               NodeT (fold_left CanvasScene.resetChecked I gsX) gid nid es c <->
               c = 0%Z /\ exists c0, NodeT gsX gid nid es c0).
  { intros gsX HX gid nid es c.
    destruct (fold_resetChecked_views I gsX) as (N & _). rewrite N. split.
    - intros (c0 & HT & ->). split; [|now exists c0].
      destruct (in_dec ItemRef_eq_dec (NodeRef nid) I) as [Hin|Hin]; [reflexivity|].
      rewrite (HX _ _ _ _ HT). destruct (contains vis nid) eqn:Hc; [|reflexivity].
      exfalso. apply Hin, In1. now apply contains_In.
    - intros (-> & c0 & HT). exists c0. split; [assumption|].
      destruct (in_dec ItemRef_eq_dec (NodeRef nid) I) as [Hin|Hin]; [reflexivity|].
      rewrite (HX _ _ _ _ HT). destruct (contains vis nid) eqn:Hc; [|reflexivity].
      exfalso. apply Hin, In1. now apply contains_In. }
  eexists vis, _, _, i'. split; [reflexivity|]. split; [exact Hcomp|].
  split; [lia|]. split; [intros j Hj; apply HK, S2; lia|].
  split; [intros Hle Hin; apply S3, HK; split; [lia|assumption]|].
  replace (List.length Nodes - i - 1)%nat with (lastIdx - i)%nat by lia.
  destruct (Nat.eqb (List.length K) (lastIdx - i)) eqn:Esplit; cbn [negb].
  - apply Nat.eqb_eq in Esplit. left. split.
    + intros j Hj. apply HK. apply (all_indices K i lastIdx HKnd); [|assumption|assumption].
      intros x Hx. now apply HK.
    + cbn [CanvasScene.graphs CanvasScene.setGraphs].
      destruct (fold_resetChecked_views I gsB) as (_ & E & Kk & R).
      unfold sameViews. split; [|split; [|split]].
      * now rewrite Kk.
      * now rewrite R, HrB.
      * intros gid nid es c. rewrite Hreset.
        -- split.
           ++ intros (-> & c0 & HT). apply HNB in HT. tauto.
           ++ intros HT. assert (c = 0%Z) by exact (wf_unchecked _ Hwf _ _ _ _ HT). subst c.
              split; [reflexivity|]. eexists. apply HNB. eauto.
        -- intros g n es0 c0 HT. apply HNB in HT. tauto.
      * intros gid eid s0 d0. rewrite E. exact (bf_edges _ _ _ _ _ _ _ _ _ B gid eid s0 d0).
  - apply Nat.eqb_neq in Esplit. right. split.
    + destruct (missing_index K i lastIdx HKnd) as (j & Hj & Hn); [|assumption|].
      * intros x Hx. now apply HK.
      * exists j. split; [assumption|]. intros Hin. apply Hn, HK. now split.
    + cbn [CanvasScene.graphs CanvasScene.setGraphs].
      set (new := Items.fresh gsB (CanvasScene.canvasGraphList s)).
      exists new.
      assert (Hfresh : ~ In new (keys gsB)) by apply fresh_not_key.
      assert (Hk1 : NoDup (keys (gsB ++ [(new, Graph.new)]))).
      { apply NoDup_keys_app_new; [now rewrite HkB|exact Hfresh]. }
      assert (Hr1 : NoDup (refs (gsB ++ [(new, Graph.new)]))).
      { now rewrite refs_app_new, HrB. }
      assert (Hg1 : In new (keys (gsB ++ [(new, Graph.new)]))).
      { rewrite keys_app_new. apply in_or_app. right. now left. }
      destruct (fold_moveInto_views new I (gsB ++ [(new, Graph.new)]) Hk1 Hr1 Hg1)
        as (N1 & E1 & K1 & R1). cbv zeta in N1, E1, K1, R1.
      set (gs1 := fold_left (CanvasScene.moveInto new) I (gsB ++ [(new, Graph.new)])) in *.
      destruct (fold_resetChecked_views I gs1) as (_ & E2 & K2 & R2).
      unfold splitOff. split; [|split; [|split; [|split]]].
      * now rewrite K2, K1, keys_app_new, HkB.
      * now rewrite <- HkB.
      * now rewrite R2.
      * intros gid nid es c. rewrite Hreset.
        -- split.
           ++ intros (-> & c0 & HT). apply N1 in HT.
              destruct HT as [(HT & Hn)|(-> & Hin & g & HT)];
                apply NodeT_app_new, HNB in HT; destruct HT as (HT & _).
              ** left. split; [assumption|]. now rewrite <- In1.
              ** right. split; [reflexivity|]. split; [now apply In1|now exists g].
           ++ intros [(HT & Hn)|(-> & Hin & g & HT)].
              ** assert (c = 0%Z) by exact (wf_unchecked _ Hwf _ _ _ _ HT). subst c.
                 split; [reflexivity|]. eexists. apply N1. left. split; [|now rewrite In1].
                 apply NodeT_app_new, HNB. eauto.
              ** assert (c = 0%Z) by exact (wf_unchecked _ Hwf _ _ _ _ HT). subst c.
                 split; [reflexivity|]. eexists. apply N1. right.
                 split; [reflexivity|]. split; [now apply In1|]. exists g.
                 apply NodeT_app_new, HNB. eauto.
        -- intros g n es0 c0 HT. apply N1 in HT.
           destruct HT as [(HT & _)|(_ & _ & g' & HT)];
             apply NodeT_app_new, HNB in HT; tauto.
      * intros gid eid s0 d0. rewrite E2, E1. split.
        -- intros [(HT & Hn)|(-> & Hin & g & HT)];
             apply EdgeT_app_new, HEB in HT.
           ++ left. split; [assumption|]. now rewrite <- (proj1 (In2 _ _ _ _ HT)).
           ++ right. split; [reflexivity|].
              split; [now apply (proj1 (In2 _ _ _ _ HT))|now exists g].
        -- intros [(HT & Hn)|(-> & Hin & g & HT)].
           ++ left. split; [now apply EdgeT_app_new, HEB|].
              now rewrite (proj1 (In2 _ _ _ _ HT)).
           ++ right. split; [reflexivity|]. split; [now apply (proj1 (In2 _ _ _ _ HT))|].
              exists g. now apply EdgeT_app_new, HEB.
Qed.

(** * The loop of searchAndSeparate *)

Lemma sameViews_hasNode (gs gs' : Graphs) :
  sameViews gs gs' -> forall g x, hasNode gs' g x <-> hasNode gs g x.
Proof. intros (_ & _ & N & _). now apply hasNode_same_views. Qed.

Lemma sameViews_path (gs gs' : Graphs) :
  sameViews gs gs' -> forall u v, path gs' u v <-> path gs u v.
Proof.
  intros (_ & _ & _ & E) u v. split; apply path_same_views; intros; [symmetry|]; apply E.
Qed.

Lemma sameViews_WellFormed (gs gs' : Graphs) :
  WellFormed gs -> sameViews gs gs' -> WellFormed gs'.
Proof.
  intros Hwf (K & R & N & E). apply WellFormed_Merging.
  apply (Merging_same_views [] [] gs gs'); try assumption.
  - rewrite K. exact (wf_keys _ Hwf).
  - now apply WellFormed_Merging.
Qed.

Section SplitOff.
Variables (vis : list nat) (new : nat) (gs gs' : Graphs).
Hypothesis Hwf : WellFormed gs.
Hypothesis Hclosed : forall g e s d, EdgeT gs g e s d -> (In s vis <-> In d vis).
Hypothesis Hsplit : splitOff vis new gs gs'.

Lemma splitOff_hasNode (gid n : nat) :
  hasNode gs' gid n <->
  (hasNode gs gid n /\ ~ In n vis) \/ (gid = new /\ In n vis /\ exists g, hasNode gs g n).
Proof.
  destruct Hsplit as (_ & _ & _ & N & _). unfold hasNode. split.
  - intros (es & c & HT). apply N in HT. destruct HT as [(HT & Hn)|(-> & Hin & g & HT)].
    + left. split; [now exists es, c|assumption].
    + right. split; [reflexivity|]. split; [assumption|]. now exists g, es, c.
  - intros [((es & c & HT) & Hn)|(-> & Hin & g & es & c & HT)]; exists es, c; apply N.
    + left. now split.
    + right. split; [reflexivity|]. split; [assumption|now exists g].
Qed.

Lemma splitOff_linked (u v : nat) : linked gs' u v <-> linked gs u v.
Proof.
  destruct Hsplit as (_ & _ & _ & _ & E). unfold linked. split.
  - intros (g & e & [HE|HE]); apply E in HE;
      destruct HE as [(HE & _)|(_ & _ & g' & HE)]; eexists; eexists; eauto.
  - intros (g & e & [HE|HE]).
    + destruct (in_dec Nat.eq_dec u vis) as [Hin|Hin].
      * exists new, e. left. apply E. right. split; [reflexivity|]. split; [assumption|now exists g].
      * exists g, e. left. apply E. left. now split.
    + destruct (in_dec Nat.eq_dec v vis) as [Hin|Hin].
      * exists new, e. right. apply E. right. split; [reflexivity|]. split; [assumption|now exists g].
      * exists g, e. right. apply E. left. now split.
Qed.

Lemma splitOff_path (u v : nat) : path gs' u v <-> path gs u v.
Proof.
  split; apply (path_map _ _ (fun x => x)); intros a b Hl; apply path_one;
    now apply splitOff_linked.
Qed.

Lemma splitOff_WellFormed : WellFormed gs'.
Proof.
  pose proof Hsplit as (K & Hfresh & R & N & E). pose proof (wf_refs _ Hwf) as Hr.
  constructor.
  - rewrite K, <- (keys_app_new new). apply NoDup_keys_app_new; [exact (wf_keys _ Hwf)|exact Hfresh].
  - exact R.
  - intros gid eid s d HE. apply E in HE.
    destruct HE as [(HE & Hn)|(-> & Hin & g & HE)];
      destruct (wf_ends _ Hwf _ _ _ _ HE) as (Hs & Hd & Hsd);
      pose proof (Hclosed _ _ _ _ HE) as Hc.
    + split; [apply splitOff_hasNode; left; tauto|].
      split; [apply splitOff_hasNode; left; tauto|assumption].
    + split; [apply splitOff_hasNode; right; split; [reflexivity|]; split; [tauto|now exists g]|].
      split; [apply splitOff_hasNode; right; split; [reflexivity|]; split; [tauto|now exists g]|].
      assumption.
  - intros gid nid es c x HT Hx. apply N in HT.
    destruct HT as [(HT & Hn)|(-> & Hin & g & HT)];
      destruct (wf_listed _ Hwf _ _ _ _ x HT Hx) as (s & d & HE & Hend);
      pose proof (Hclosed _ _ _ _ HE) as Hc; exists s, d; (split; [|assumption]); apply E.
    + left. split; [assumption|]. destruct Hend as [->| ->]; tauto.
    + right. split; [reflexivity|]. split; [destruct Hend as [->| ->]; tauto|now exists g].
  - intros gid eid s d nid es c HE HT Hend. apply E in HE. apply N in HT.
    assert (Hedge : exists g, EdgeT gs g eid s d) by (destruct HE as [(HE & _)|(_ & _ & HE)]; eauto).
    assert (Hnode : exists g, NodeT gs g nid es c) by (destruct HT as [(HT & _)|(_ & _ & HT)]; eauto).
    destruct Hedge as (ge & HE0), Hnode as (gn & HT0).
    destruct (wf_ends _ Hwf _ _ _ _ HE0) as (Hs & Hd & _).
    assert (gn = ge).
    { assert (Hgn : hasNode gs gn nid) by now exists es, c.
      destruct Hend as [E0|E0]; rewrite E0 in *;
        [exact (hasNode_unique _ _ _ _ Hr Hgn Hs)|exact (hasNode_unique _ _ _ _ Hr Hgn Hd)]. }
    subst gn. exact (wf_lists _ Hwf _ _ _ _ _ _ _ HE0 HT0 Hend).
  - intros gid nid es c HT. apply N in HT.
    destruct HT as [(HT & _)|(_ & _ & g & HT)]; exact (wf_once _ Hwf _ _ _ _ HT).
  - intros gid nid es c HT. apply N in HT.
    destruct HT as [(HT & _)|(_ & _ & g & HT)]; exact (wf_unchecked _ Hwf _ _ _ _ HT).
Qed.

End SplitOff.

(** ** Counting nodes *)

Lemma nodeIds_In (gs : Graphs) (n : nat) : In n (nodeIds gs) <-> exists g, hasNode gs g n.
Proof.
  split.
  - unfold nodeIds, Items.allNodes, Items.allItems. intros Hin.
    apply in_map_iff in Hin. destruct Hin as (nd & E & Hin).
    apply nodesOf_In, in_flat_map in Hin. destruct Hin as ([g gr] & Hg & Hin).
    exists g, (Node.edgeList nd), (Node.checked nd), nd. split; [now exists gr|now repeat split].
  - intros (g & Hn). now apply (hasNode_nodeIds gs g).
Qed.

Lemma nodesOf_ids_NoDup (items : list Item) :
  NoDup (map refOf items) -> NoDup (map Node.id (Graph.nodesOf items)).
Proof.
  induction items as [|[n|e] r IH]; simpl; intros Hnd; [constructor| |];
    inversion Hnd as [|? ? Hnot Hnd']; subst; [|now apply IH].
  constructor; [|now apply IH].
  intros Hin. apply Hnot. apply in_map_iff in Hin. destruct Hin as (n' & E & Hin).
  apply in_map_iff. exists (NodeItem n'). split; [simpl; now rewrite E|now apply nodesOf_In].
Qed.

Lemma nodeIds_NoDup (gs : Graphs) : NoDup (refs gs) -> NoDup (nodeIds gs).
Proof. apply nodesOf_ids_NoDup. Qed.

Lemma same_nodes_count (gs gs' : Graphs) :
  NoDup (refs gs) -> NoDup (refs gs') ->
  (forall n, (exists g, hasNode gs' g n) <-> (exists g, hasNode gs g n)) ->
  List.length (Items.allNodes gs') = List.length (Items.allNodes gs).
Proof.
  intros Hr Hr' Hn.
  rewrite <- (length_map Node.id (Items.allNodes gs')), <- (length_map Node.id (Items.allNodes gs)).
  apply same_members_length; [now apply nodeIds_NoDup|now apply nodeIds_NoDup|].
  intros n. fold (nodeIds gs') (nodeIds gs). now rewrite !nodeIds_In.
Qed.

(** A node that is the end of no edge is joined to itself only. *)
Lemma isolated_path (gs : Graphs) (x u : nat) :
  (forall gid e s d, EdgeT gs gid e s d -> s <> x /\ d <> x) -> path gs u x -> u = x.
Proof.
  intros Hiso Hp. inversion Hp as [|? v ? _ (g & e & Hl)]; subst; [reflexivity|].
  exfalso. destruct Hl as [HE|HE]; destruct (Hiso _ _ _ _ HE); congruence.
Qed.

(** ** The invariant of the loop

    [G] is the graph being separated, [ign] the node being deleted (if
    any), which has no edge any more, [i] the index the next round starts
    from. *)

Lemma separateFrom_step `{Platform} (G : nat) (ign Nodes : list nat) (lastIdx N i : nat)
      (fuel : nat) (s : CanvasScene.t) (added : bool) :
  Separating G ign Nodes lastIdx N i (CanvasScene.graphs s) ->
  S lastIdx = List.length Nodes -> (i < lastIdx)%nat -> (N <= fuel)%nat ->
  exists s2 added' i',
    CanvasScene.separateFrom fuel Nodes lastIdx s added i = Some (s2, added', i')
    /\ (i < i')%nat /\ Separating G ign Nodes lastIdx N i' (CanvasScene.graphs s2).
Proof.
  intros Inv Hlast Hi Hfuel. set (gs := CanvasScene.graphs s) in *.
  pose proof (sp_wf _ _ _ _ _ _ _ Inv) as Hwf. pose proof (wf_refs _ Hwf) as Hr.
  destruct (sp_nodes _ _ _ _ _ _ _ Inv i) as (ga & Ha); [lia|].
  destruct (separateFrom_spec fuel Nodes lastIdx s added i ga Hwf Hlast Hi Ha)
    as (vis & s2 & added' & i' & Hrun & Hcomp & Hii & Hskip & Hstop & Hcase).
  { change (List.length (Items.allNodes gs) <= fuel)%nat.
    rewrite (sp_count _ _ _ _ _ _ _ Inv). exact Hfuel. }
  fold gs in Hcomp, Hcase. set (a := nth i Nodes 0%nat) in *.
  exists s2, added', i'. split; [exact Hrun|]. split; [exact Hii|].
  set (gs2 := CanvasScene.graphs s2) in *.
  assert (Hvisa : In a vis) by (apply Hcomp; apply path_refl).
  destruct Hcase as [(Hall & Hsame)|((jm & Hjm & Hmiss) & new & Hsplit)].
  - (* nothing is separated *)
    pose proof (sameViews_hasNode _ _ Hsame) as HN. pose proof (sameViews_path _ _ Hsame) as HP.
    destruct Hsame as (K & R & N0 & E0).
    constructor.
    + apply (sameViews_WellFormed gs); [exact Hwf|]. unfold sameViews. tauto.
    + rewrite K. exact (sp_G _ _ _ _ _ _ _ Inv).
    + rewrite <- (sp_count _ _ _ _ _ _ _ Inv). apply same_nodes_count; [exact Hr|exact R|].
      intros n. split; intros (g & Hg); exists g; now apply HN.
    + intros j Hj. destruct (sp_nodes _ _ _ _ _ _ _ Inv j Hj) as (g & Hg). exists g. now apply HN.
    + intros x Hx. destruct (sp_ign _ _ _ _ _ _ _ Inv x Hx) as (I1 & I2 & I3).
      split; [now apply HN|]. split; [|exact I3].
      intros gid e s0 d0 HE. apply E0 in HE. exact (I2 _ _ _ _ HE).
    + intros gid u v Hg Hu Hv. apply HP. apply HN in Hu, Hv.
      exact (sp_others _ _ _ _ _ _ _ Inv gid u v Hg Hu Hv).
    + left. intros u v Hu Hv Hiu Hiv. apply HP. apply HN in Hu, Hv.
      destruct (sp_rest _ _ _ _ _ _ _ Inv) as [Hc|(_ & Hc)]; [now apply Hc|].
      assert (Hto : forall w, hasNode gs G w -> ~ In w ign -> path gs w a).
      { intros w Hw Hiw. destruct (Hc w Hw Hiw) as (j & Hj & Hp).
        eapply path_trans; [exact Hp|]. apply path_sym. apply Hcomp.
        destruct (Nat.eq_dec j i) as [->|Hne]; [exact Hvisa|]. apply Hall. lia. }
      eapply path_trans; [exact (Hto u Hu Hiu)|]. apply path_sym. exact (Hto v Hv Hiv).
  - (* the nodes found go to a new graph *)
    assert (Hclosed : forall g e s0 d0, EdgeT gs g e s0 d0 -> (In s0 vis <-> In d0 vis)).
    { intros g e s0 d0 HE. rewrite !Hcomp. split; intros Hp.
      - eapply path_step; [exact Hp|]. exists g, e. now left.
      - eapply path_step; [exact Hp|]. exists g, e. now right. }
    pose proof (splitOff_hasNode vis new gs gs2 Hsplit) as HN.
    pose proof (splitOff_path vis new gs gs2 Hsplit) as HP.
    pose proof (splitOff_WellFormed vis new gs gs2 Hwf Hclosed Hsplit) as Hwf2.
    pose proof Hsplit as (K & Hfresh & R & N0 & E0).
    assert (HGnew : G <> new).
    { intros ->. exact (Hfresh (sp_G _ _ _ _ _ _ _ Inv)). }
    assert (Hold : forall g u, hasNode gs2 g u -> g <> new -> hasNode gs g u /\ ~ In u vis).
    { intros g u Hu Hg. apply HN in Hu. destruct Hu as [Hu|(-> & _)]; [exact Hu|congruence]. }
    constructor.
    + exact Hwf2.
    + rewrite K. apply in_or_app. left. exact (sp_G _ _ _ _ _ _ _ Inv).
    + rewrite <- (sp_count _ _ _ _ _ _ _ Inv). apply same_nodes_count; [exact Hr|exact R|].
      intros n. split.
      * intros (g & Hg). apply HN in Hg. destruct Hg as [(Hg & _)|(_ & _ & Hg)]; eauto.
      * intros (g & Hg). destruct (in_dec Nat.eq_dec n vis) as [Hin|Hin].
        -- exists new. apply HN. right. split; [reflexivity|]. split; [assumption|now exists g].
        -- exists g. apply HN. left. now split.
    + intros j Hj. destruct (sp_nodes _ _ _ _ _ _ _ Inv j Hj) as (g & Hg).
      destruct (in_dec Nat.eq_dec (nth j Nodes 0%nat) vis) as [Hin|Hin].
      * exists new. apply HN. right. split; [reflexivity|]. split; [assumption|now exists g].
      * exists g. apply HN. left. now split.
    + intros x Hx. destruct (sp_ign _ _ _ _ _ _ _ Inv x Hx) as (I1 & I2 & I3).
      split; [|split; [|exact I3]].
      * apply HN. left. split; [exact I1|]. intros Hin. apply Hcomp in Hin.
        apply (isolated_path gs x a I2) in Hin. apply (I3 i); [lia|exact Hin].
      * intros gid e s0 d0 HE. apply E0 in HE.
        destruct HE as [(HE & _)|(_ & _ & g & HE)]; exact (I2 _ _ _ _ HE).
    + intros gid u v Hg Hu Hv. apply HP. apply HN in Hu, Hv.
      destruct Hu as [(Hu & Hnu)|(-> & Hiu & gu & Hu)], Hv as [(Hv & Hnv)|(Ev & Hiv & gv & Hv)].
      * exact (sp_others _ _ _ _ _ _ _ Inv gid u v Hg Hu Hv).
      * exfalso. subst gid. apply Hfresh. exact (hasNode_key _ _ _ Hu).
      * exfalso. apply Hfresh. exact (hasNode_key _ _ _ Hv).
      * apply Hcomp in Hiu, Hiv. eapply path_trans; [apply path_sym; exact Hiu|exact Hiv].
    + destruct (sp_rest _ _ _ _ _ _ _ Inv) as [Hc|(_ & Hc)].
      * left. intros u v Hu Hv Hiu Hiv. apply HP.
        destruct (Hold _ _ Hu HGnew) as (Hu' & _). destruct (Hold _ _ Hv HGnew) as (Hv' & _).
        now apply Hc.
      * right.
        assert (Hnext : forall u, hasNode gs2 G u -> ~ In u ign ->
                  exists j, (i' <= j <= lastIdx)%nat /\ path gs2 u (nth j Nodes 0%nat)).
        { intros u Hu Hiu. destruct (Hold _ _ Hu HGnew) as (Hu' & Hnu).
          destruct (Hc u Hu' Hiu) as (j & Hj & Hp). exists j. split; [|now apply HP].
          assert (Hnj : ~ In (nth j Nodes 0%nat) vis).
          { intros Hin. apply Hnu. apply Hcomp. apply Hcomp in Hin.
            eapply path_trans; [exact Hin|]. now apply path_sym. }
          split; [|lia]. destruct (Nat.lt_ge_cases j i') as [Hlt|Hge]; [|exact Hge].
          exfalso. apply Hnj. destruct (Nat.eq_dec j i) as [->|Hne]; [exact Hvisa|].
          apply Hskip. lia. }
        destruct (Nat.le_gt_cases i' lastIdx) as [Hle|Hgt]; [split; assumption|].
        exfalso. clear Hnext.
        (* every node of G is found from a node of the list, so none is left *)
        apply Hmiss. destruct (Nat.eq_dec jm i) as [->|Hne]; [exact Hvisa|]. apply Hskip. lia.
Qed.

Lemma indexOf_last (Nodes : list nat) :
  NoDup Nodes -> Nodes <> [] -> S (indexOf Nodes (last Nodes 0%nat)) = List.length Nodes.
Proof.
  induction Nodes as [|x r IH]; intros Hnd Hne; [congruence|].
  inversion Hnd as [|? ? Hx Hr]; subst. destruct r as [|y r'].
  - simpl. now rewrite Nat.eqb_refl.
  - change (last (x :: y :: r') 0%nat) with (last (y :: r') 0%nat).
    cbn [indexOf]. destruct (Nat.eqb x (last (y :: r') 0%nat)) eqn:E.
    + apply Nat.eqb_eq in E. exfalso. apply Hx. rewrite E.
      destruct (@exists_last _ (y :: r')) as (l' & z & El); [discriminate|].
      rewrite El, last_last. apply in_or_app. right. now left.
    + cbn [List.length]. f_equal. apply IH; [assumption|discriminate].
Qed.


Lemma separateLoop_spec `{Platform} (G : nat) (ign Nodes : list nat) (lastIdx N bfsFuel : nat) :
  S lastIdx = List.length Nodes -> (N <= bfsFuel)%nat ->
  forall fuel i s added,
    Separating G ign Nodes lastIdx N i (CanvasScene.graphs s) ->
    (lastIdx - i <= fuel)%nat ->
    exists s' added',
      CanvasScene.separateLoop fuel bfsFuel Nodes lastIdx s added i = Some (s', added')
      /\ Separated G ign (CanvasScene.graphs s').
Proof.
  intros Hlast Hfuel. induction fuel as [|f IH]; intros i s added Inv Hf.
  - assert (Hdone : Nat.ltb i lastIdx = false) by (apply Nat.ltb_ge; lia).
    simpl. rewrite Hdone. exists s, added. split; [reflexivity|].
    constructor; try (now destruct Inv).
    + intros x Hx. destruct (sp_ign _ _ _ _ _ _ _ Inv x Hx) as (I1 & I2 & _). now split.
    + destruct (sp_rest _ _ _ _ _ _ _ Inv) as [Hc|(Hle & Hc)]; [exact Hc|].
      intros u v Hu Hv Hiu Hiv.
      destruct (Hc u Hu Hiu) as (ju & Hju & Hpu). destruct (Hc v Hv Hiv) as (jv & Hjv & Hpv).
      assert (ju = jv) by lia. subst jv.
      eapply path_trans; [exact Hpu|now apply path_sym].
  - cbn [CanvasScene.separateLoop]. destruct (Nat.ltb i lastIdx) eqn:Hlt.
    + apply Nat.ltb_lt in Hlt.
      destruct (separateFrom_step G ign Nodes lastIdx N i bfsFuel s added Inv Hlast Hlt Hfuel)
        as (s2 & added' & i' & Hrun & Hii & Inv').
      rewrite Hrun. apply IH; [exact Inv'|lia].
    + apply Nat.ltb_ge in Hlt. exists s, added. split; [reflexivity|].
      constructor; try (now destruct Inv).
      * intros x Hx. destruct (sp_ign _ _ _ _ _ _ _ Inv x Hx) as (I1 & I2 & _). now split.
      * destruct (sp_rest _ _ _ _ _ _ _ Inv) as [Hc|(Hle & Hc)]; [exact Hc|].
        intros u v Hu Hv Hiu Hiv.
        destruct (Hc u Hu Hiu) as (ju & Hju & Hpu). destruct (Hc v Hv Hiv) as (jv & Hjv & Hpv).
        assert (ju = jv) by lia. subst jv.
        eapply path_trans; [exact Hpu|now apply path_sym].
Qed.

Lemma searchAndSeparate_spec `{Platform} (G : nat) (ign Nodes : list nat) (s : CanvasScene.t) :
  NoDup Nodes -> Nodes <> [] ->
  Separating G ign Nodes (indexOf Nodes (last Nodes 0%nat))
             (List.length (Items.allNodes (CanvasScene.graphs s))) 0 (CanvasScene.graphs s) ->
  exists s', CanvasScene.searchAndSeparate Nodes s = Some s'
             /\ Separated G ign (CanvasScene.graphs s').
Proof.
  intros Hnd Hne Inv. pose proof (indexOf_last Nodes Hnd Hne) as Hlast.
  unfold CanvasScene.searchAndSeparate, CanvasScene.searchAndSeparateFuel.
  destruct (separateLoop_spec G ign Nodes _ _ (S (List.length (Items.allNodes (CanvasScene.graphs s))))
              Hlast (Nat.le_succ_diag_r _) (List.length Nodes) 0 s false Inv)
    as (s' & added' & Hrun & Hpost); [lia|].
  rewrite Hrun. eexists. split; [reflexivity|]. now destruct added'.
Qed.

(** * Deleting an edge or a node *)

(** An edge is taken off both of its ends and destroyed. *)
Lemma dropEdge_views (gs : Graphs) (G y s d : nat) :
  WellFormed gs -> EdgeT gs G y s d ->
  let gs' := Items.detach (EdgeRef y)
               (Items.updateNode s (fun n => Node.removeEdge n y)
                  (Items.updateNode d (fun n => Node.removeEdge n y) gs)) in
  WellFormed gs' /\
  (forall gid nid es c,
      NodeT gs' gid nid es c <->
      exists es0, NodeT gs gid nid es0 c /\ es = dropFrom [d; s] y nid es0) /\
  (forall gid eid s0 d0, EdgeT gs' gid eid s0 d0 <-> EdgeT gs gid eid s0 d0 /\ eid <> y) /\
  (forall g x, hasNode gs' g x <-> hasNode gs g x) /\
  keys gs' = keys gs.
Proof.
  intros Hwf HE.
  destruct (dropAll_views [d; s] y gs) as (N & E & K & R). cbn [fold_left] in N, E, K, R.
  set (gs2 := Items.updateNode s (fun n => Node.removeEdge n y)
                (Items.updateNode d (fun n => Node.removeEdge n y) gs)) in *.
  assert (N' : forall gid nid es c,
             NodeT (Items.detach (EdgeRef y) gs2) gid nid es c <->
             exists es0, NodeT gs gid nid es0 c /\ es = dropFrom [d; s] y nid es0).
  { intros. now rewrite NodeT_detach_edge, N. }
  assert (E' : forall gid eid s0 d0,
             EdgeT (Items.detach (EdgeRef y) gs2) gid eid s0 d0 <->
             EdgeT gs gid eid s0 d0 /\ eid <> y).
  { intros. now rewrite EdgeT_detach_edge, E. }
  cbv zeta. split; [|split; [exact N'|split; [exact E'|split]]].
  - apply WellFormed_Merging.
    apply (Merging_drop_edge [] [] gs _ G y s d (dropFrom [d; s] y)).
    + now apply WellFormed_Merging.
    + exact HE.
    + intros nid es z. apply dropFrom_In.
    + intros nid es z. apply dropFrom_keeps.
    + intros nid es. apply dropFrom_NoDup.
    + intros nid es Hend. apply dropFrom_gone. simpl. destruct Hend; auto.
    + rewrite keys_detach, K. exact (wf_keys _ Hwf).
    + apply NoDup_refs_detach. rewrite R. exact (wf_refs _ Hwf).
    + exact N'.
    + exact E'.
  - intros g x. unfold hasNode. split.
    + intros (es & c & HT). apply N' in HT. destruct HT as (es0 & HT & _). now exists es0, c.
    + intros (es & c & HT). eexists. exists c. apply N'. exists es. split; [exact HT|reflexivity].
  - now rewrite keys_detach, K.
Qed.

(** Paths once some edges are removed: a path of before either is still
    there or leads to an end of a removed edge. *)
Lemma path_without (gs gs' : Graphs) (T : nat -> Prop) :
  (forall gid e s d, EdgeT gs gid e s d -> EdgeT gs' gid e s d \/ (T s /\ T d)) ->
  forall u v, path gs u v -> path gs' u v \/ exists w, T w /\ path gs' u w.
Proof.
  intros Hkeep u v Hp. induction Hp as [|u v w _ IH (g & e & Hl)]; [left; apply path_refl|].
  destruct IH as [IH|IH]; [|now right].
  assert (Hcase : linked gs' v w \/ (T v /\ T w)).
  { destruct Hl as [HE|HE]; destruct (Hkeep _ _ _ _ HE) as [HE'|(T1 & T2)].
    - left. exists g, e. now left.
    - right. now split.
    - left. exists g, e. now right.
    - right. now split. }
  destruct Hcase as [Hl'|(Tv & Tw)].
  - left. eapply path_step; eauto.
  - right. exists v. now split.
Qed.

(** The scene is connected when it is [Separated] with nothing set
    aside. *)
Lemma Separated_Connected (G : nat) (gs : Graphs) :
  Separated G [] gs -> WellFormed gs /\ Connected gs.
Proof.
  intros Hs. pose proof (sd_wf _ _ _ Hs) as Hwf. split; [exact Hwf|].
  apply (Connected_paths gs Hwf). intros gid u v Hu Hv.
  destruct (Nat.eq_dec gid G) as [->|Hne].
  - apply (sd_rest _ _ _ Hs); auto.
  - exact (sd_others _ _ _ Hs gid u v Hne Hu Hv).
Qed.

Lemma path_closed (gs : Graphs) (gid u v : nat) :
  WellFormed gs -> hasNode gs gid u -> path gs u v -> hasNode gs gid v.
Proof.
  intros Hwf Hu Hp. apply (reach_closed gs Hwf gid u v Hu). now apply path_reach.
Qed.

Lemma deleteEdge_sound `{Platform} (edge : nat) (s : CanvasScene.t) :
  WellFormed (CanvasScene.graphs s) -> Connected (CanvasScene.graphs s) ->
  exists s', CanvasScene.deleteEdge edge s = Some s'
             /\ WellFormed (CanvasScene.graphs s') /\ Connected (CanvasScene.graphs s').
Proof.
  intros Hwf Hconn. unfold CanvasScene.deleteEdge.
  destruct (Items.findEdge (CanvasScene.graphs s) edge) as [e|] eqn:F; [|now exists s].
  destruct (findEdge_EdgeT _ _ _ F) as (G & HE).
  unfold Edge.destNode, Edge.sourceNode.
  set (src := Edge.source e) in *. set (dst := Edge.dest e) in *.
  set (gs := CanvasScene.graphs s) in *.
  destruct (dropEdge_views gs G edge src dst Hwf HE) as (Hwf3 & N3 & E3 & HN3 & K3).
  cbv zeta in Hwf3, N3, E3, HN3, K3.
  set (gs3 := Items.detach (EdgeRef edge)
                (Items.updateNode src (fun n => Node.removeEdge n edge)
                   (Items.updateNode dst (fun n => Node.removeEdge n edge) gs))) in *.
  destruct (wf_ends _ Hwf _ _ _ _ HE) as (Hs & Hd & Hsd).
  pose proof (proj1 (Connected_paths gs Hwf) Hconn) as Hp0.
  assert (Hpw : forall u v, path gs u v ->
                            path gs3 u v \/ exists w, (w = src \/ w = dst) /\ path gs3 u w).
  { apply path_without. intros gid x s0 d0 HE0.
    destruct (Nat.eq_dec x edge) as [->|Hne].
    - right. destruct (EdgeT_unique _ _ _ _ _ _ _ _ (wf_refs _ Hwf) HE0 HE) as (_ & -> & ->). tauto.
    - left. apply E3. now split. }
  assert (Hidx : indexOf [dst; src] (last [dst; src] 0%nat) = 1%nat).
  { simpl. destruct (Nat.eqb dst src) eqn:E0; [apply Nat.eqb_eq in E0; congruence|].
    now rewrite Nat.eqb_refl. }
  destruct (searchAndSeparate_spec G [] [dst; src] (CanvasScene.setGraphs s gs3))
    as (s' & Hrun & Hpost).
  - constructor; [intros [F0|[]]; congruence|constructor; [intros []|constructor]].
  - discriminate.
  - rewrite Hidx. cbn [CanvasScene.graphs CanvasScene.setGraphs]. constructor.
    + exact Hwf3.
    + rewrite K3. exact (EdgeT_key _ _ _ _ _ HE).
    + reflexivity.
    + intros j Hj. exists G. apply HN3.
      destruct j as [|[|j]]; [exact Hd|exact Hs|lia].
    + intros x [].
    + intros gid u v Hg Hu Hv.
      destruct (Hpw u v (Hp0 gid u v (proj1 (HN3 _ _) Hu) (proj1 (HN3 _ _) Hv)))
        as [Hp|(w & Hw & Hp)]; [exact Hp|].
      exfalso. apply Hg. pose proof (path_closed gs3 gid u w Hwf3 Hu Hp) as Hgw.
      apply HN3 in Hgw.
      destruct Hw as [->| ->];
        [exact (hasNode_unique _ _ _ _ (wf_refs _ Hwf) Hgw Hs)
        |exact (hasNode_unique _ _ _ _ (wf_refs _ Hwf) Hgw Hd)].
    + right. split; [lia|]. intros u Hu _.
      destruct (Hpw u src (Hp0 G u src (proj1 (HN3 _ _) Hu) Hs)) as [Hp|(w & [->| ->] & Hp)].
      * exists 1%nat. split; [lia|exact Hp].
      * exists 1%nat. split; [lia|exact Hp].
      * exists 0%nat. split; [lia|exact Hp].
  - rewrite Hrun. eexists. split; [reflexivity|].
    cbn [CanvasScene.graphs CanvasScene.emit]. exact (Separated_Connected G _ Hpost).
Qed.

(** ** The edges of the node being deleted *)

Section DropEdges.
Variables (gs0 : Graphs) (X : nat).
Hypothesis Hwf0 : WellFormed gs0.

(** The state of the loop over the edges of [X] once the edges [P] are
    destroyed. *)
Record Dropped (P : list nat) (gs : Graphs) (adj : list nat) : Prop := {
  dr_wf : WellFormed gs;
  dr_keys : keys gs = keys gs0;
  dr_nodes : forall g x, hasNode gs g x <-> hasNode gs0 g x;
  dr_edges : forall gid e s d, EdgeT gs gid e s d <-> EdgeT gs0 gid e s d /\ ~ In e P;
  dr_adj : NoDup adj;
  dr_near : forall w,
      In w adj <->
      exists gid e s d, In e P /\ EdgeT gs0 gid e s d
                        /\ ((s = X /\ d = w) \/ (d = X /\ s = w))
}.

Lemma dropEdgeOf_step (P : list nat) (gs : Graphs) (adj : list nat) (y : nat) :
  Dropped P gs adj -> ~ In y P ->
  (exists gid s d, EdgeT gs0 gid y s d /\ (s = X \/ d = X)) ->
  exists gs' adj',
    CanvasScene.dropEdgeOf X (gs, adj) y = (gs', adj') /\ Dropped (P ++ [y]) gs' adj'.
Proof.
  intros D Hy (G & s & d & HE0 & Hend).
  pose proof (dr_wf _ _ _ D) as Hwf. pose proof (wf_refs _ Hwf0) as Hr0.
  assert (HE : EdgeT gs G y s d) by (apply (dr_edges _ _ _ D); now split).
  destruct (EdgeT_findEdge _ _ _ _ _ (wf_refs _ Hwf) HE) as (e & Hfind & _ & Es & Ed).
  destruct (wf_ends _ Hwf0 _ _ _ _ HE0) as (_ & _ & Hsd).
  unfold CanvasScene.dropEdgeOf. rewrite Hfind.
  unfold Edge.destNode, Edge.sourceNode. rewrite Es, Ed.
  destruct (dropEdge_views gs G y s d Hwf HE) as (Hwf' & _ & E' & HN' & K').
  cbv zeta in Hwf', E', HN', K'.
  eexists. eexists. split; [reflexivity|].
  (* the other end of the edge *)
  assert (Hother : exists w, w <> X /\ ((s = X /\ d = w) \/ (d = X /\ s = w))).
  { destruct Hend as [->| ->]; [exists d|exists s]; split; try tauto; congruence. }
  destruct Hother as (w & HwX & Hw).
  assert (Hadj : forall adj',
             adj' = (if contains adj w then adj else adj ++ [w]) ->
             NoDup adj' /\
             forall w', In w' adj' <->
                        exists gid e0 s0 d0, In e0 (P ++ [y]) /\ EdgeT gs0 gid e0 s0 d0
                                             /\ ((s0 = X /\ d0 = w') \/ (d0 = X /\ s0 = w'))).
  { intros adj' ->. split.
    - destruct (contains adj w) eqn:Hc; [exact (dr_adj _ _ _ D)|].
      apply NoDup_snoc; [exact (dr_adj _ _ _ D)|now apply contains_false].
    - intros w'.
      assert (Hin : In w' (if contains adj w then adj else adj ++ [w]) <-> In w' adj \/ w' = w).
      { destruct (contains adj w) eqn:Hc.
        - apply contains_In in Hc. split; [tauto|]. intros [F| ->]; assumption.
        - rewrite in_app_iff. simpl. split; [intros [F|[F|[]]]; auto|intros [F|F]; auto]. }
      rewrite Hin, (dr_near _ _ _ D). split.
      + intros [(gid & e0 & s0 & d0 & Hin0 & HE1 & Hj)| ->].
        * exists gid, e0, s0, d0. split; [apply in_or_app; now left|]. now split.
        * exists G, y, s, d. split; [apply in_or_app; right; now left|]. now split.
      + intros (gid & e0 & s0 & d0 & Hin0 & HE1 & Hj). apply in_app_or in Hin0.
        destruct Hin0 as [Hin0|[<-|[]]].
        * left. now exists gid, e0, s0, d0.
        * right. destruct (EdgeT_unique _ _ _ _ _ _ _ _ Hr0 HE1 HE0) as (_ & -> & ->).
          destruct Hw as [(A & B)|(A & B)], Hj as [(A' & B')|(A' & B')]; congruence. }
  assert (Hlist : (if negb (contains adj d) && negb (Nat.eqb d X) then adj ++ [d]
                   else if negb (contains adj s) && negb (Nat.eqb s X) then adj ++ [s]
                        else adj)
                  = (if contains adj w then adj else adj ++ [w])).
  { destruct Hw as [(-> & ->)|(-> & ->)].
    - rewrite Nat.eqb_refl. apply Nat.eqb_neq in HwX. rewrite HwX.
      destruct (contains adj w); simpl; [|reflexivity].
      now rewrite andb_false_r.
    - rewrite Nat.eqb_refl. apply Nat.eqb_neq in HwX. rewrite HwX, andb_false_r.
      now destruct (contains adj w). }
  rewrite Hlist. destruct (Hadj _ eq_refl) as (A1 & A2).
  constructor.
  - exact Hwf'.
  - rewrite K'. exact (dr_keys _ _ _ D).
  - intros g x. rewrite HN'. exact (dr_nodes _ _ _ D g x).
  - intros gid e0 s0 d0. rewrite E', (dr_edges _ _ _ D), in_app_iff. simpl. split.
    + intros ((A & B) & C). split; [assumption|]. intros [F|[F|[]]]; [tauto|congruence].
    + intros (A & B). split; [split; [assumption|tauto]|]. intros ->. tauto.
  - exact A1.
  - exact A2.
Qed.

Lemma dropEdges_fold (R : list nat) :
  forall P gs adj,
    Dropped P gs adj -> NoDup R -> (forall y, In y R -> ~ In y P) ->
    (forall y, In y R -> exists gid s d, EdgeT gs0 gid y s d /\ (s = X \/ d = X)) ->
    exists gs' adj',
      fold_left (CanvasScene.dropEdgeOf X) R (gs, adj) = (gs', adj')
      /\ Dropped (P ++ R) gs' adj'.
Proof.
  induction R as [|y R IH]; intros P gs adj D Hnd Hdis Hinc.
  - exists gs, adj. split; [reflexivity|]. now rewrite app_nil_r.
  - inversion Hnd as [|? ? Hy HndR]; subst. cbn [fold_left].
    destruct (dropEdgeOf_step P gs adj y D (Hdis y (or_introl eq_refl))
                (Hinc y (or_introl eq_refl))) as (gs1 & adj1 & Hstep & D1).
    rewrite Hstep.
    destruct (IH (P ++ [y]) gs1 adj1 D1 HndR) as (gs' & adj' & Hfold & D').
    + intros z Hz Hin. apply in_app_or in Hin. destruct Hin as [Hin|[<-|[]]].
      * apply (Hdis z); [now right|assumption].
      * exact (Hy Hz).
    + intros z Hz. apply Hinc. now right.
    + exists gs', adj'. split; [exact Hfold|]. now rewrite <- app_assoc in D'.
Qed.

Lemma Dropped_start : Dropped [] gs0 [].
Proof.
  constructor; try reflexivity; try assumption.
  - intros. simpl. tauto.
  - constructor.
  - intros w. simpl. split; [intros []|intros (gid & e & s & d & [] & _)].
Qed.

End DropEdges.

(** Well-formedness and connectivity only look at the nodes and edges
    of the graphs. *)
Lemma views_transfer (gs gs' : Graphs) :
  WellFormed gs -> Connected gs -> NoDup (keys gs') -> NoDup (refs gs') ->
  (forall gid nid es c, NodeT gs' gid nid es c <-> NodeT gs gid nid es c) ->
  (forall gid eid s d, EdgeT gs' gid eid s d <-> EdgeT gs gid eid s d) ->
  WellFormed gs' /\ Connected gs'.
Proof.
  intros Hwf Hconn K R N E.
  assert (Hwf' : WellFormed gs').
  { apply WellFormed_Merging. apply (Merging_same_views [] [] gs gs'); try assumption.
    now apply WellFormed_Merging. }
  split; [exact Hwf'|]. apply (Connected_paths gs' Hwf'). intros gid u v Hu Hv.
  apply (path_same_views gs gs' E).
  apply (proj1 (Connected_paths gs Hwf) Hconn gid); now apply (hasNode_same_views gs gs' N).
Qed.

Lemma dropIfEmpty_sound (parent : nat) (s : CanvasScene.t) :
  WellFormed (CanvasScene.graphs s) -> Connected (CanvasScene.graphs s) ->
  WellFormed (CanvasScene.graphs (CanvasScene.dropIfEmpty parent s))
  /\ Connected (CanvasScene.graphs (CanvasScene.dropIfEmpty parent s)).
Proof.
  intros Hwf Hconn. unfold CanvasScene.dropIfEmpty.
  destruct (Items.lookupGraph (CanvasScene.graphs s) parent) as [g|] eqn:L; [|now split].
  destruct (Graph.childItems g) as [|it rest] eqn:Ec; [|now split].
  cbn [CanvasScene.graphs].
  assert (Hnone : forall it, ~ InGraph (CanvasScene.graphs s) parent it).
  { intros it (g' & Hg' & Hin).
    rewrite (In_same_key _ _ _ _ (wf_keys _ Hwf) Hg' (lookupGraph_In _ _ _ L)), Ec in Hin.
    destruct Hin. }
  apply (views_transfer (CanvasScene.graphs s)); try assumption.
  - apply NoDup_keys_removeGraph. exact (wf_keys _ Hwf).
  - apply NoDup_refs_removeGraph. exact (wf_refs _ Hwf).
  - intros gid nid es c. rewrite NodeT_removeGraph. split; [tauto|]. intros HT.
    split; [assumption|]. intros ->. destruct HT as (n & Hn & _). exact (Hnone _ Hn).
  - intros gid eid s0 d0. rewrite EdgeT_removeGraph. split; [tauto|]. intros HT.
    split; [assumption|]. intros ->. destruct HT as (e & He & _). exact (Hnone _ He).
Qed.

(** A node without edges is taken out of a scene that is connected
    apart from it. *)
Lemma detach_isolated (G X : nat) (gs : Graphs) :
  Separated G [X] gs -> Separated G [] (Items.detach (NodeRef X) gs).
Proof.
  intros Hs. pose proof (sd_wf _ _ _ Hs) as Hwf.
  destruct (sd_ign _ _ _ Hs X (or_introl eq_refl)) as (HX & Hiso).
  set (gs' := Items.detach (NodeRef X) gs).
  assert (N : forall gid nid es c, NodeT gs' gid nid es c <-> NodeT gs gid nid es c /\ nid <> X)
    by (intros; apply NodeT_detach_node).
  assert (E : forall gid eid s d, EdgeT gs' gid eid s d <-> EdgeT gs gid eid s d)
    by (intros; apply EdgeT_detach_node).
  assert (HN : forall g x, hasNode gs' g x <-> hasNode gs g x /\ x <> X).
  { intros g x. unfold hasNode. split.
    - intros (es & c & HT). apply N in HT. destruct HT as (HT & Hne). split; [now exists es, c|assumption].
    - intros ((es & c & HT) & Hne). exists es, c. apply N. now split. }
  assert (HP : forall u v, path gs u v -> path gs' u v) by (apply path_same_views; exact E).
  constructor.
  - constructor.
    + unfold gs'. rewrite keys_detach. exact (wf_keys _ Hwf).
    + apply NoDup_refs_detach. exact (wf_refs _ Hwf).
    + intros gid eid s d HE. apply E in HE. destruct (wf_ends _ Hwf _ _ _ _ HE) as (A & B & C).
      destruct (Hiso _ _ _ _ HE) as (I1 & I2).
      split; [apply HN; now split|]. split; [apply HN; now split|assumption].
    + intros gid nid es c x HT Hx. apply N in HT. destruct HT as (HT & _).
      destruct (wf_listed _ Hwf _ _ _ _ x HT Hx) as (s & d & HE & Hend).
      exists s, d. split; [now apply E|assumption].
    + intros gid eid s d nid es c HE HT Hend. apply E in HE. apply N in HT.
      destruct HT as (HT & _). exact (wf_lists _ Hwf _ _ _ _ _ _ _ HE HT Hend).
    + intros gid nid es c HT. apply N in HT. destruct HT as (HT & _).
      exact (wf_once _ Hwf _ _ _ _ HT).
    + intros gid nid es c HT. apply N in HT. destruct HT as (HT & _).
      exact (wf_unchecked _ Hwf _ _ _ _ HT).
  - unfold gs'. rewrite keys_detach. exact (sd_G _ _ _ Hs).
  - intros x [].
  - intros gid u v Hg Hu Hv. apply HP. apply HN in Hu, Hv.
    exact (sd_others _ _ _ Hs gid u v Hg (proj1 Hu) (proj1 Hv)).
  - intros u v Hu Hv _ _. apply HP. apply HN in Hu, Hv.
    destruct Hu as (Hu & Hux), Hv as (Hv & Hvx).
    apply (sd_rest _ _ _ Hs u v Hu Hv); simpl; intros [F|[]]; congruence.
Qed.

Lemma deleteNode_sound `{Platform} (node : nat) (s : CanvasScene.t) :
  WellFormed (CanvasScene.graphs s) -> Connected (CanvasScene.graphs s) ->
  exists s', CanvasScene.deleteNode node s = Some s'
             /\ WellFormed (CanvasScene.graphs s') /\ Connected (CanvasScene.graphs s').
Proof.
  intros Hwf Hconn. unfold CanvasScene.deleteNode.
  destruct (Items.findNode (CanvasScene.graphs s) node) as [n|] eqn:F; [|now exists s].
  destruct (findNode_NodeT _ _ _ F) as (G & HT).
  set (gs := CanvasScene.graphs s) in *. set (L := Node.edgeList n) in *.
  pose proof (wf_refs _ Hwf) as Hr.
  assert (HX : hasNode gs G node) by (eexists; eexists; exact HT).
  assert (Hinc : forall y, In y L -> exists gid s0 d0,
                   EdgeT gs gid y s0 d0 /\ (s0 = node \/ d0 = node)).
  { intros y Hy. destruct (wf_listed _ Hwf _ _ _ _ y HT Hy) as (s0 & d0 & HE & Hend).
    now exists G, s0, d0. }
  destruct (dropEdges_fold gs node Hwf L [] gs [] (Dropped_start gs node Hwf)
              (wf_once _ Hwf _ _ _ _ HT) (fun y _ F0 => F0) Hinc)
    as (gsD & adj & Hfold & D).
  rewrite Hfold. simpl app in D.
  pose proof (dr_wf _ _ _ _ _ D) as HwfD.
  pose proof (dr_nodes _ _ _ _ _ D) as HND.
  pose proof (dr_edges _ _ _ _ _ D) as HED.
  pose proof (proj1 (Connected_paths gs Hwf) Hconn) as Hp0.
  (* the node has no edge left *)
  assert (Hiso : forall gid e s0 d0, EdgeT gsD gid e s0 d0 -> s0 <> node /\ d0 <> node).
  { intros gid e s0 d0 HE. apply HED in HE. destruct HE as (HE & HnL).
    destruct (wf_ends _ Hwf _ _ _ _ HE) as (Hs0 & Hd0 & _).
    split; intros ->; apply HnL.
    - rewrite (hasNode_unique _ _ _ _ Hr Hs0 HX) in HE.
      exact (wf_lists _ Hwf _ _ _ _ _ _ _ HE HT (or_introl eq_refl)).
    - rewrite (hasNode_unique _ _ _ _ Hr Hd0 HX) in HE.
      exact (wf_lists _ Hwf _ _ _ _ _ _ _ HE HT (or_intror eq_refl)). }
  (* the neighbours *)
  assert (Hadj : forall w, In w adj -> w <> node /\ hasNode gs G w).
  { intros w Hw. apply (dr_near _ _ _ _ _ D) in Hw.
    destruct Hw as (gid & e & s0 & d0 & _ & HE & Hj).
    destruct (wf_ends _ Hwf _ _ _ _ HE) as (Hs0 & Hd0 & Hsd).
    destruct Hj as [(-> & ->)|(-> & ->)].
    - split; [congruence|]. now rewrite <- (hasNode_unique _ _ _ _ Hr Hs0 HX).
    - split; [congruence|]. now rewrite <- (hasNode_unique _ _ _ _ Hr Hd0 HX). }
  assert (Hpw : forall u v, u <> node -> path gs u v ->
                            path gsD u v \/ exists w, In w adj /\ path gsD u w).
  { intros u v Hu Hp.
    destruct (path_without gs gsD (fun w => w = node \/ In w adj)) with (u := u) (v := v)
      as [Hp'|(w & [->|Hw] & Hp')]; try assumption.
    - intros gid e s0 d0 HE. destruct (in_dec Nat.eq_dec e L) as [Hin|Hin].
      + right. destruct (Hinc e Hin) as (gid' & s1 & d1 & HE' & Hend).
        destruct (EdgeT_unique _ _ _ _ _ _ _ _ Hr HE HE') as (_ & -> & ->).
        destruct (wf_ends _ Hwf _ _ _ _ HE) as (_ & _ & Hsd).
        destruct Hend as [->| ->].
        * split; [now left|right]. apply (dr_near _ _ _ _ _ D).
          exists gid, e, node, d1. tauto.
        * split; [right|now left]. apply (dr_near _ _ _ _ _ D).
          exists gid, e, s1, node. tauto.
      + left. apply HED. now split.
    - now left.
    - exfalso. apply Hu. exact (isolated_path gsD node u Hiso Hp').
    - right. now exists w. }
  assert (Hto : forall u, hasNode gsD G u -> u <> node -> exists w, In w adj /\ path gsD u w).
  { intros u Hu Hne. destruct (Hpw u node Hne (Hp0 G u node (proj1 (HND _ _) Hu) HX))
      as [Hp|Hw]; [|exact Hw].
    exfalso. apply Hne. exact (isolated_path gsD node u Hiso Hp). }
  assert (Hothers : forall gid u v, gid <> G -> hasNode gsD gid u -> hasNode gsD gid v ->
                                    path gsD u v).
  { intros gid u v Hg Hu Hv.
    assert (Hune : u <> node).
    { intros ->. apply Hg. exact (hasNode_unique _ _ _ _ Hr (proj1 (HND _ _) Hu) HX). }
    destruct (Hpw u v Hune (Hp0 gid u v (proj1 (HND _ _) Hu) (proj1 (HND _ _) Hv)))
      as [Hp|(w & Hw & Hp)]; [exact Hp|].
    exfalso. apply Hg. pose proof (path_closed gsD gid u w HwfD Hu Hp) as Hgw.
    apply HND in Hgw. exact (hasNode_unique _ _ _ _ Hr Hgw (proj2 (Hadj w Hw))). }
  (* the graphs once the parts are separated *)
  assert (Hsep : exists s2,
             (if Nat.ltb 1 (List.length adj)
              then CanvasScene.searchAndSeparate adj (CanvasScene.setGraphs s gsD)
              else Some (CanvasScene.setGraphs s gsD)) = Some s2
             /\ Separated G [node] (CanvasScene.graphs s2)).
  { destruct (Nat.ltb 1 (List.length adj)) eqn:Hlen.
    - apply Nat.ltb_lt in Hlen.
      assert (Hne : adj <> []) by (intros E0; rewrite E0 in Hlen; simpl in Hlen; lia).
      pose proof (indexOf_last adj (dr_adj _ _ _ _ _ D) Hne) as Hlast.
      assert (Hnth : forall j, (j <= indexOf adj (last adj 0%nat))%nat -> In (nth j adj 0%nat) adj).
      { intros j Hj. apply nth_In. lia. }
      apply (searchAndSeparate_spec G [node] adj (CanvasScene.setGraphs s gsD)
               (dr_adj _ _ _ _ _ D) Hne).
      cbn [CanvasScene.graphs CanvasScene.setGraphs]. constructor.
      + exact HwfD.
      + rewrite (dr_keys _ _ _ _ _ D). exact (hasNode_key _ _ _ HX).
      + reflexivity.
      + intros j Hj. exists G. apply HND. exact (proj2 (Hadj _ (Hnth j Hj))).
      + intros x [<-|[]]. split; [now apply HND|]. split; [exact Hiso|].
        intros j Hj. exact (proj1 (Hadj _ (Hnth j Hj))).
      + exact Hothers.
      + right. split; [lia|]. intros u Hu Hiu.
        destruct (Hto u Hu) as (w & Hw & Hp); [intros ->; apply Hiu; now left|].
        destruct (In_nth adj w 0%nat Hw) as (j & Hj & Ej). exists j. split; [lia|].
        now rewrite Ej.
    - apply Nat.ltb_ge in Hlen. eexists. split; [reflexivity|].
      cbn [CanvasScene.graphs CanvasScene.setGraphs]. constructor.
      + exact HwfD.
      + rewrite (dr_keys _ _ _ _ _ D). exact (hasNode_key _ _ _ HX).
      + intros x [<-|[]]. split; [now apply HND|exact Hiso].
      + exact Hothers.
      + intros u v Hu Hv Hiu Hiv.
        destruct (Hto u Hu) as (wu & Hwu & Hpu); [intros ->; apply Hiu; now left|].
        destruct (Hto v Hv) as (wv & Hwv & Hpv); [intros ->; apply Hiv; now left|].
        assert (wu = wv).
        { destruct adj as [|w0 [|w1 adj']]; [destruct Hwu| |simpl in Hlen; lia].
          destruct Hwu as [<-|[]], Hwv as [<-|[]]. reflexivity. }
        subst wv. eapply path_trans; [exact Hpu|now apply path_sym]. }
  destruct Hsep as (s2 & Hrun & Hpost). cbv zeta. rewrite Hrun.
  eexists. split; [reflexivity|].
  destruct (sd_ign _ _ _ Hpost node (or_introl eq_refl)) as (HX2 & _).
  rewrite (parentItem_hasNode _ _ _ (wf_refs _ (sd_wf _ _ _ Hpost)) HX2).
  cbn [CanvasScene.graphs CanvasScene.emit].
  destruct (Separated_Connected G _ (detach_isolated G node _ Hpost)) as (Hwf3 & Hconn3).
  apply dropIfEmpty_sound; cbn [CanvasScene.graphs CanvasScene.setGraphs]; assumption.
Qed.

(** * Sequences of operations *)

(** ** The nodes picked are left alone by the deletions *)


Lemma separateFrom_picks `{Platform} (fuel : nat) (Nodes : list nat) (lastIdx : nat)
      (s : CanvasScene.t) (added : bool) (i : nat) (s2 : CanvasScene.t) (added' : bool)
      (i' : nat) :
  CanvasScene.separateFrom fuel Nodes lastIdx s added i = Some (s2, added', i') ->
  picksOf s2 = picksOf s.
Proof.
  unfold CanvasScene.separateFrom. destruct (CanvasScene.search _ _ _ _ _) as [st|]; [|discriminate].
  cbv zeta. intros E. inversion E; subst. clear E.
  destruct (negb _); reflexivity.
Qed.

Lemma separateLoop_picks `{Platform} (fuel bfsFuel : nat) (Nodes : list nat) (lastIdx : nat) :
  forall s added i s' added',
    CanvasScene.separateLoop fuel bfsFuel Nodes lastIdx s added i = Some (s', added') ->
    picksOf s' = picksOf s.
Proof.
  induction fuel as [|f IH]; intros s added i s' added'; cbn [CanvasScene.separateLoop].
  - destruct (Nat.ltb i lastIdx); [discriminate|]. intros E. now inversion E.
  - destruct (Nat.ltb i lastIdx); [|intros E; now inversion E].
    destruct (CanvasScene.separateFrom bfsFuel Nodes lastIdx s added i)
      as [[[s2 a2] i2]|] eqn:Hs; [|discriminate].
    intros E. rewrite (IH _ _ _ _ _ E). exact (separateFrom_picks _ _ _ _ _ _ _ _ _ Hs).
Qed.

Lemma searchAndSeparate_picks `{Platform} (Nodes : list nat) (s s' : CanvasScene.t) :
  CanvasScene.searchAndSeparate Nodes s = Some s' -> picksOf s' = picksOf s.
Proof.
  unfold CanvasScene.searchAndSeparate, CanvasScene.searchAndSeparateFuel.
  destruct (CanvasScene.separateLoop _ _ _ _ _ _ _) as [[s1 a1]|] eqn:Hl; [|discriminate].
  intros E. inversion E; subst. rewrite <- (separateLoop_picks _ _ _ _ _ _ _ _ _ Hl).
  now destruct a1.
Qed.

Lemma deleteEdge_picks `{Platform} (edge : nat) (s s' : CanvasScene.t) :
  CanvasScene.deleteEdge edge s = Some s' -> picksOf s' = picksOf s.
Proof.
  unfold CanvasScene.deleteEdge. destruct (Items.findEdge _ _) as [e|]; [|intros E; now inversion E].
  destruct (CanvasScene.searchAndSeparate _ _) as [s2|] eqn:Hs; [|discriminate].
  intros E. inversion E; subst. apply searchAndSeparate_picks in Hs. exact Hs.
Qed.

Lemma dropIfEmpty_picks (p : nat) (s : CanvasScene.t) :
  picksOf (CanvasScene.dropIfEmpty p s) = picksOf s.
Proof.
  unfold CanvasScene.dropIfEmpty. destruct (Items.lookupGraph _ _) as [g|]; [|reflexivity].
  now destruct (Graph.childItems g).
Qed.

Lemma deleteNode_picks `{Platform} (node : nat) (s s' : CanvasScene.t) :
  CanvasScene.deleteNode node s = Some s' -> picksOf s' = picksOf s.
Proof.
  unfold CanvasScene.deleteNode. destruct (Items.findNode _ _) as [n|]; [|intros E; now inversion E].
  destruct (fold_left _ _ _) as [gs adj].
  destruct (if Nat.ltb 1 (List.length adj) then _ else _) as [s2|] eqn:Hs; [|discriminate].
  intros E. inversion E; subst. clear E.
  assert (H2 : picksOf s2 = picksOf s).
  { destruct (Nat.ltb 1 (List.length adj)).
    - apply searchAndSeparate_picks in Hs. exact Hs.
    - now inversion Hs. }
  rewrite <- H2. destruct (Items.parentItem _ _); [|reflexivity].
  unfold picksOf. cbn [CanvasScene.emit CanvasScene.connectNode1a CanvasScene.connectNode1b
                         CanvasScene.connectNode2a CanvasScene.connectNode2b].
  exact (dropIfEmpty_picks _ _).
Qed.

(** ** The key 'j' *)

Lemma keyReleaseEvent_J_sound `{Platform} (s : CanvasScene.t) :
  WellFormed (CanvasScene.graphs s) -> Connected (CanvasScene.graphs s) -> Selected s ->
  exists s', CanvasScene.keyReleaseEvent_J s = Some s'
             /\ WellFormed (CanvasScene.graphs s') /\ Connected (CanvasScene.graphs s')
             /\ nothingPicked s'.
Proof.
  intros Hwf Hconn Hsel. pose proof (wf_refs _ Hwf) as Hr.
  assert (Hnone : exists s', Some (CanvasScene.unselect s) = Some s'
                             /\ WellFormed (CanvasScene.graphs s')
                             /\ Connected (CanvasScene.graphs s') /\ nothingPicked s').
  { exists (CanvasScene.unselect s). split; [reflexivity|]. split; [exact Hwf|].
    split; [exact Hconn|]. now repeat split. }
  assert (Htwo : forall a c,
             CanvasScene.connectNode1a s = Some a -> CanvasScene.connectNode2a s = Some c ->
             exists s', (if CanvasScene.guardTwo (CanvasScene.graphs s) a c
                         then option_map CanvasScene.unselect (CanvasScene.joinTwo a c s)
                         else Some (CanvasScene.unselect s)) = Some s'
                        /\ WellFormed (CanvasScene.graphs s')
                        /\ Connected (CanvasScene.graphs s') /\ nothingPicked s').
  { intros a c Pa Pc.
    destruct (sel_1a _ Hsel a Pa) as (g1 & H1). destruct (sel_2a _ Hsel c Pc) as (g2 & H2).
    destruct (Nat.eq_dec g1 g2) as [->|Hne].
    - unfold CanvasScene.guardTwo.
      rewrite (parentItem_hasNode _ _ _ Hr H1), (parentItem_hasNode _ _ _ Hr H2).
      simpl. rewrite Nat.eqb_refl. exact Hnone.
    - rewrite (guardTwo_true _ _ _ _ _ Hr H1 H2 Hne).
      destruct (joinTwo_sound a c g1 g2 s Hwf Hconn H1 H2 Hne) as (s' & Hrun & Hwf' & Hconn').
      rewrite Hrun. exists (CanvasScene.unselect s'). split; [reflexivity|].
      split; [exact Hwf'|]. split; [exact Hconn'|]. now repeat split. }
  unfold CanvasScene.keyReleaseEvent_J.
  destruct (CanvasScene.connectNode1a s) as [a|] eqn:Pa; [|exact Hnone].
  destruct (CanvasScene.connectNode2a s) as [c|] eqn:Pc; [|exact Hnone].
  destruct (CanvasScene.connectNode1b s) as [b|] eqn:Pb; [|exact (Htwo a c eq_refl eq_refl)].
  destruct (CanvasScene.connectNode2b s) as [d|] eqn:Pd; [|exact (Htwo a c eq_refl eq_refl)].
  destruct (sel_1b _ Hsel b Pb) as (a' & gA & Ea & H1a & H1b & Hab).
  destruct (sel_2b _ Hsel d Pd) as (c' & gB & Ec & H2a & H2b & Hcd).
  rewrite Pa in Ea. rewrite Pc in Ec. inversion Ea; inversion Ec; subst a' c'.
  destruct (Nat.eq_dec gA gB) as [->|Hne].
  - unfold CanvasScene.guardFour.
    rewrite (parentItem_hasNode _ _ _ Hr H1a), (parentItem_hasNode _ _ _ Hr H2a).
    simpl. rewrite Nat.eqb_refl. exact Hnone.
  - rewrite (guardFour_true _ _ _ _ _ _ _ Hr H1a H1b H2a H2b Hne).
    destruct (joinFour_sound a b c d gA gB s Hwf Hconn H1a H1b H2a H2b Hne Hab Hcd)
      as (s' & Hrun & Hwf' & Hconn').
    rewrite Hrun. exists (CanvasScene.unselect s'). split; [reflexivity|].
    split; [exact Hwf'|]. split; [exact Hconn'|]. now repeat split.
Qed.

(** ** Picking a node *)

Lemma optEqb_parents (gs : Graphs) (g1 g2 n1 n2 : nat) :
  NoDup (refs gs) -> hasNode gs g1 n1 -> hasNode gs g2 n2 ->
  CanvasScene.optEqb (Items.parentItem gs (NodeRef n1)) (Items.parentItem gs (NodeRef n2))
  = Nat.eqb g1 g2.
Proof.
  intros Hr H1 H2.
  now rewrite (parentItem_hasNode _ _ _ Hr H1), (parentItem_hasNode _ _ _ Hr H2).
Qed.

Lemma pickSecond_Selected (item g : nat) (s : CanvasScene.t) :
  NoDup (refs (CanvasScene.graphs s)) -> Selected s -> hasNode (CanvasScene.graphs s) g item ->
  Selected (CanvasScene.pickSecond item s).
Proof.
  intros Hr Hsel Hitem. unfold CanvasScene.pickSecond.
  destruct (CanvasScene.connectNode1a s) as [a|] eqn:Pa; [|exact Hsel].
  destruct (CanvasScene.connectNode2a s) as [c|] eqn:Pc.
  - destruct (CanvasScene.connectNode2b s) as [d|] eqn:Pd; [exact Hsel|].
    destruct (sel_2a _ Hsel c Pc) as (gc & Hc).
    rewrite (optEqb_parents _ g gc item c Hr Hitem Hc).
    destruct (Nat.eqb g gc) eqn:Eg; [|exact Hsel].
    destruct (Nat.eqb c item) eqn:Ec; [exact Hsel|]. simpl.
    apply Nat.eqb_eq in Eg. apply Nat.eqb_neq in Ec. subst gc.
    constructor; cbn [CanvasScene.setPicks CanvasScene.graphs CanvasScene.connectNode1a
                        CanvasScene.connectNode1b CanvasScene.connectNode2a
                        CanvasScene.connectNode2b].
    + intros x Ex. apply (sel_1a _ Hsel). now rewrite Pa.
    + intros x Ex. destruct (sel_1b _ Hsel x Ex) as (a0 & g0 & E0 & Hrest).
      rewrite Pa in E0. now exists a0, g0.
    + intros x Ex. inversion Ex; subst. now exists g.
    + intros x Ex. inversion Ex; subst. exists c, g. now repeat split.
  - destruct (sel_1a _ Hsel a Pa) as (ga & Ha).
    rewrite (optEqb_parents _ ga g a item Hr Ha Hitem).
    destruct (Nat.eqb ga g) eqn:Eg; [exact Hsel|]. simpl.
    constructor; cbn [CanvasScene.setPicks CanvasScene.graphs CanvasScene.connectNode1a
                        CanvasScene.connectNode1b CanvasScene.connectNode2a
                        CanvasScene.connectNode2b].
    + intros x Ex. apply (sel_1a _ Hsel). now rewrite Pa.
    + intros x Ex. destruct (sel_1b _ Hsel x Ex) as (a0 & g0 & E0 & Hrest).
      rewrite Pa in E0. now exists a0, g0.
    + intros x Ex. inversion Ex; subst. now exists g.
    + intros x Ex. destruct (sel_2b _ Hsel x Ex) as (c0 & g0 & E0 & _). congruence.
Qed.

Lemma pickNode_Selected (item g : nat) (s : CanvasScene.t) :
  NoDup (refs (CanvasScene.graphs s)) -> Selected s -> hasNode (CanvasScene.graphs s) g item ->
  Selected (CanvasScene.pickNode item s).
Proof.
  intros Hr Hsel Hitem. unfold CanvasScene.pickNode.
  destruct (CanvasScene.connectNode1a s) as [a|] eqn:Pa.
  - destruct (CanvasScene.connectNode1b s) as [b|] eqn:Pb;
      [exact (pickSecond_Selected item g s Hr Hsel Hitem)|].
    destruct (sel_1a _ Hsel a Pa) as (ga & Ha).
    rewrite (optEqb_parents _ g ga item a Hr Hitem Ha).
    destruct (Nat.eqb g ga) eqn:Eg; [|exact (pickSecond_Selected item g s Hr Hsel Hitem)].
    destruct (Nat.eqb a item) eqn:Ea; [exact (pickSecond_Selected item g s Hr Hsel Hitem)|].
    simpl. apply Nat.eqb_eq in Eg. apply Nat.eqb_neq in Ea. subst ga.
    constructor; cbn [CanvasScene.setPicks CanvasScene.graphs CanvasScene.connectNode1a
                        CanvasScene.connectNode1b CanvasScene.connectNode2a
                        CanvasScene.connectNode2b].
    + intros x Ex. inversion Ex; subst. now exists g.
    + intros x Ex. inversion Ex; subst. exists a, g. now repeat split.
    + exact (sel_2a _ Hsel).
    + exact (sel_2b _ Hsel).
  - constructor; cbn [CanvasScene.setPicks CanvasScene.graphs CanvasScene.connectNode1a
                        CanvasScene.connectNode1b CanvasScene.connectNode2a
                        CanvasScene.connectNode2b].
    + intros x Ex. inversion Ex; subst. now exists g.
    + intros x Ex. destruct (sel_1b _ Hsel x Ex) as (a0 & g0 & E0 & _). congruence.
    + exact (sel_2a _ Hsel).
    + exact (sel_2b _ Hsel).
Qed.

Lemma pickNode_graphs (item : nat) (s : CanvasScene.t) :
  CanvasScene.graphs (CanvasScene.pickNode item s) = CanvasScene.graphs s.
Proof.
  unfold CanvasScene.pickNode, CanvasScene.pickSecond.
  repeat match goal with
         | |- context [match ?x with _ => _ end] => destruct x
         end; reflexivity.
Qed.

Lemma nothingPicked_Selected (s : CanvasScene.t) : nothingPicked s -> Selected s.
Proof.
  intros (A & B & C & D). constructor; intros x Ex; congruence.
Qed.

Lemma nothingPicked_picksOf (s s' : CanvasScene.t) :
  picksOf s' = picksOf s -> nothingPicked s -> nothingPicked s'.
Proof.
  unfold picksOf, nothingPicked. intros E (A & B & C & D). rewrite A, B, C, D in E.
  inversion E. auto.
Qed.

(** ** Every operation keeps the graphs well formed and connected *)


Lemma findItem_hasNode (gs : Graphs) (n g : nat) (it : Item) :
  Items.findItem gs (NodeRef n) = Some (g, it) -> hasNode gs g n.
Proof.
  intros F. destruct (findItem_Some _ _ _ _ F) as (Hin & E).
  destruct it as [nd|e]; [|discriminate]. simpl in E. inversion E; subst.
  exists (Node.edgeList nd), (Node.checked nd), nd. now repeat split.
Qed.

Lemma mousePressEvent_sound `{Platform} (mode : CanvasScene.Mode) (item : ItemRef)
      (s : CanvasScene.t) :
  Stable (mode, s) ->
  exists s', CanvasScene.mousePressEvent mode item s = Some s' /\ Stable (mode, s').
Proof.
  intros (Hwf & Hconn & Hsel & Hmode). simpl in Hwf, Hconn, Hsel, Hmode.
  assert (Hsame : exists s', Some s = Some s' /\ Stable (mode, s')).
  { exists s. split; [reflexivity|]. exact (conj Hwf (conj Hconn (conj Hsel Hmode))). }
  unfold CanvasScene.mousePressEvent.
  destruct (Items.findItem (CanvasScene.graphs s) item) as [[g it]|] eqn:F; [|exact Hsame].
  destruct mode; try exact Hsame; try (destruct item; exact Hsame).
  - (* join *)
    destruct item as [n|e]; [|exact Hsame].
    exists (CanvasScene.pickNode n s). split; [reflexivity|].
    unfold Stable. simpl. rewrite pickNode_graphs.
    split; [exact Hwf|]. split; [exact Hconn|]. split; [|congruence].
    exact (pickNode_Selected n g s (wf_refs _ Hwf) Hsel (findItem_hasNode _ _ _ _ F)).
  - (* del *)
    assert (Hnone : nothingPicked s) by (apply Hmode; discriminate).
    destruct item as [n|e].
    + destruct (deleteNode_sound n s Hwf Hconn) as (s' & Hrun & Hwf' & Hconn').
      exists s'. split; [exact Hrun|].
      pose proof (nothingPicked_picksOf s s' (deleteNode_picks n s s' Hrun) Hnone) as Hnone'.
      unfold Stable. simpl. split; [exact Hwf'|]. split; [exact Hconn'|].
      split; [now apply nothingPicked_Selected|now intros _].
    + destruct (deleteEdge_sound e s Hwf Hconn) as (s' & Hrun & Hwf' & Hconn').
      exists s'. split; [exact Hrun|].
      pose proof (nothingPicked_picksOf s s' (deleteEdge_picks e s s' Hrun) Hnone) as Hnone'.
      unfold Stable. simpl. split; [exact Hwf'|]. split; [exact Hconn'|].
      split; [now apply nothingPicked_Selected|now intros _].
Qed.

Lemma rotate_sound (mode : CanvasScene.Mode) (g : nat) (amount : Q) (relative : bool)
      (s : CanvasScene.t) :
  Stable (mode, s) ->
  Stable (mode,
          CanvasScene.setGraphs s
            (Items.updateGraph g (fun x => Graph.setRotation x amount relative)
                               (CanvasScene.graphs s))).
Proof.
  intros (Hwf & Hconn & Hsel & Hmode). simpl in Hwf, Hconn, Hsel, Hmode.
  pose proof (topoStep_setRotation g amount relative (CanvasScene.graphs s)) as T.
  set (gs' := Items.updateGraph g (fun x => Graph.setRotation x amount relative)
                                (CanvasScene.graphs s)) in *.
  assert (HN : forall k x, hasNode gs' k x <-> hasNode (CanvasScene.graphs s) k x)
    by (intros; now apply hasNode_topoStep).
  destruct (views_transfer (CanvasScene.graphs s) gs' Hwf Hconn) as (Hwf' & Hconn').
  - destruct T as (K & _). rewrite K. exact (wf_keys _ Hwf).
  - destruct T as (_ & R & _). rewrite R. exact (wf_refs _ Hwf).
  - intros. now apply NodeT_topoStep.
  - intros. now apply EdgeT_topoStep.
  - unfold Stable. cbn [fst snd CanvasScene.graphs CanvasScene.setGraphs].
    split; [exact Hwf'|]. split; [exact Hconn'|]. split; [|exact Hmode].
    constructor; cbn [CanvasScene.graphs CanvasScene.setGraphs CanvasScene.connectNode1a
                        CanvasScene.connectNode1b CanvasScene.connectNode2a
                        CanvasScene.connectNode2b].
    + intros a Ea. destruct (sel_1a _ Hsel a Ea) as (k & Hk). exists k. now apply HN.
    + intros b Eb. destruct (sel_1b _ Hsel b Eb) as (a & k & Ea & Ha & Hb & Hab).
      exists a, k. repeat split; try assumption; now apply HN.
    + intros c Ec. destruct (sel_2a _ Hsel c Ec) as (k & Hk). exists k. now apply HN.
    + intros d Ed. destruct (sel_2b _ Hsel d Ed) as (c & k & Ec & Hc & Hd & Hcd).
      exists c, k. repeat split; try assumption; now apply HN.
Qed.

Lemma handle_sound `{Platform} (ev : Event) (st : CanvasScene.Mode * CanvasScene.t) :
  Stable st -> exists st', handle ev st = Some st' /\ Stable st'.
Proof.
  destruct st as [mode s]. intros Hst. destruct ev as [m|item| |g amount relative]; simpl.
  - destruct Hst as (Hwf & Hconn & _ & _). simpl in Hwf, Hconn.
    eexists. split; [reflexivity|]. unfold Stable. simpl.
    split; [exact Hwf|]. split; [exact Hconn|].
    split; [apply nothingPicked_Selected|intros _]; unfold nothingPicked; simpl; tauto.
  - destruct (mousePressEvent_sound mode item s Hst) as (s' & Hrun & Hst').
    rewrite Hrun. now exists (mode, s').
  - destruct Hst as (Hwf & Hconn & Hsel & _). simpl in Hwf, Hconn, Hsel.
    destruct (keyReleaseEvent_J_sound s Hwf Hconn Hsel) as (s' & Hrun & Hwf' & Hconn' & Hnone).
    rewrite Hrun. exists (mode, s'). split; [reflexivity|]. unfold Stable. simpl.
    split; [exact Hwf'|]. split; [exact Hconn'|].
    split; [now apply nothingPicked_Selected|now intros _].
  - eexists. split; [reflexivity|]. now apply rotate_sound.
Qed.

Lemma run_sound `{Platform} (evs : list Event) :
  forall st, Stable st -> exists st', run evs st = Some st' /\ Stable st'.
Proof.
  induction evs as [|ev evs IH]; intros st Hst.
  - now exists st.
  - cbn [run]. destruct (handle_sound ev st Hst) as (st1 & Hrun & Hst1).
    rewrite Hrun. now apply IH.
Qed.

(** * Properties of [Graph] *)

Lemma Forall2_map_left {A : Type} (P : A -> A -> Prop) (f : A -> A) (l : list A) :
  (forall x, P (f x) x) -> Forall2 P (map f l) l.
Proof. intros Hf. induction l; simpl; constructor; auto. Qed.

(** Moving by a vanishing offset does not change where a child is drawn. *)
Lemma scenePos_recenter_null `{Platform} (g : Graph.t) (c : QPointF) (it : Item) :
  peq c origin ->
  peq (Graph.scenePos (Graph.mk (padd (Graph.pos g) c) (Graph.rotation g)
                                (map (Graph.recenter c) (Graph.childItems g)))
                      (Graph.recenter c it))
      (Graph.scenePos g it).
Proof.
  intros [Ex Ey]. simpl in Ex, Ey.
  unfold Graph.scenePos, Graph.mapToScene, rotatePoint; simpl.
  destruct (sincos (Graph.rotation g)) as [sina cosa].
  destruct it as [n|e]; split; simpl; nra.
Qed.

(** With exact arithmetic, the centre recomputed after centring is the
    origin.  (On doubles it need not be: [centerGraph_twice_moves].) *)
Lemma RGcenter_centerGraph `{Platform} (g : Graph.t) :
  peq (snd (Graph.boundingBox (Graph.centerGraph g) false)) origin.
Proof.
  destruct (Graph.nodes g) as [|n ns] eqn:Hn.
  - apply RGcenter_no_node, nodes_centerGraph_nil, Hn.
  - assert (Hne : Graph.nodes g <> []) by (rewrite Hn; discriminate).
    assert (Hne' : Graph.nodes (Graph.centerGraph g) <> []).
    { rewrite centerGraph_unfold. unfold Graph.nodes in *; simpl.
      rewrite nodesOf_recenter, Hn. discriminate. }
    destruct (RGcenter_midpoint g false Hne) as [Cx Cy].
    destruct (RGcenter_midpoint _ false Hne') as [Dx Dy].
    assert (Lx : localXs g <> []) by (unfold localXs; rewrite Hn; discriminate).
    assert (Ly : localYs g <> []) by (unfold localYs; rewrite Hn; discriminate).
    split; change (px origin) with 0; change (py origin) with 0.
    + rewrite Dx, localXs_centerGraph, (minOf_shift _ _ Lx), (maxOf_shift _ _ Lx). halves; lra.
    + rewrite Dy, localYs_centerGraph, (minOf_shift _ _ Ly), (maxOf_shift _ _ Ly). halves; lra.
Qed.

Lemma edgesOf_recenter (c : QPointF) (items : list Item) :
  Graph.edgesOf (map (Graph.recenter c) items) = Graph.edgesOf items.
Proof.
  induction items as [|[n|e] items IH]; simpl; [reflexivity|assumption|now rewrite IH].
Qed.




(** With exact arithmetic, [centerGraph] on a graph that is not turned
    leaves every child where it was drawn. *)
Lemma centerGraph_keeps_unturned `{Platform} (g : Graph.t) :
  Graph.rotation g == 0 ->
  Forall2 (fun a b => peq (Graph.scenePos (Graph.centerGraph g) (NodeItem a))
                          (Graph.scenePos g (NodeItem b)))
          (Graph.nodes (Graph.centerGraph g)) (Graph.nodes g).
Proof.
  intros Hr. rewrite centerGraph_unfold.
  set (c := snd (Graph.boundingBox g false)).
  unfold Graph.nodes; simpl. rewrite nodesOf_recenter.
  induction (Graph.nodesOf (Graph.childItems g)) as [|n ns IH]; simpl; constructor; auto.
  unfold Graph.scenePos, Graph.mapToScene, rotatePoint, sincos; simpl.
  apply Qeq_bool_iff in Hr. rewrite Hr. split; simpl; lra.
Qed.

(** C4 at a turned graph: half a turn, nodes at (0,0) and (2,0) in the
    graph's frame.  Before the call they are drawn at (0,0) and (-2,0);
    after it at (2,0) and (0,0). *)
Theorem centerGraph_moves_turned_graph :
  Forall2 peq (map (Graph.scenePos gTurned) (Graph.childItems gTurned))
              [mkPoint 0 0; mkPoint (-2) 0; mkPoint 0 0] /\
  Forall2 peq (map (Graph.scenePos (Graph.centerGraph gTurned))
                   (Graph.childItems (Graph.centerGraph gTurned)))
              [mkPoint 2 0; mkPoint 0 0; mkPoint 1 0].
Proof. split; repeat constructor; vm_compute; reflexivity. Qed.

(** With exact arithmetic, a second [centerGraph] changes neither the
    position of the graph nor the scene position of any child. *)
Lemma centerGraph_twice_exact `{Platform} (g : Graph.t) :
  let g1 := Graph.centerGraph g in
  let g2 := Graph.centerGraph g1 in
  peq (Graph.pos g2) (Graph.pos g1) /\
  Graph.rotation g2 = Graph.rotation g1 /\
  Forall2 (fun a b => peq (Graph.scenePos g2 a) (Graph.scenePos g1 b))
          (Graph.childItems g2) (Graph.childItems g1).
Proof.
  intros g1 g2. subst g2. rewrite (centerGraph_unfold g1).
  pose proof (RGcenter_centerGraph g) as Hc. fold g1 in Hc.
  set (c := snd (Graph.boundingBox g1 false)) in *.
  split; [|split].
  - destruct Hc as [Hx Hy]. simpl in Hx, Hy. split; simpl; lra.
  - reflexivity.
  - cbn [Graph.childItems]. apply Forall2_map_left.
    intros it. now apply scenePos_recenter_null.
Qed.




(** C6.  [setRotation]: the new rotation is the old one plus the amount,
    or the amount itself, and every child is turned to its negation. *)
Theorem setRotation_post (g : Graph.t) (amount : Q) (relative : bool) :
  let g' := Graph.setRotation g amount relative in
  Graph.rotation g' = (if relative then Graph.rotation g + amount else amount) /\
  Forall (fun child => itemRotation child = - Graph.rotation g') (Graph.childItems g') /\
  List.length (Graph.childItems g') = List.length (Graph.childItems g).
Proof.
  simpl. split; [reflexivity|]. split.
  - apply Forall_forall. intros child Hin. apply in_map_iff in Hin.
    destruct Hin as [c0 [<- _]]. destruct c0; reflexivity.
  - apply length_map.
Qed.

(** The example of C10: nodes at (0,0) with radius 1 and at (10,0) with
    radius 2 give the x-range [-1, 12]. *)
Lemma boundingBox_example :
  let r := fst (fst (Graph.boundingBox gPair true)) in
  rect_x r == -1 /\ rect_right r == 12.
Proof. split; vm_compute; reflexivity. Qed.

(** C10 at two nodes centred at (0,0), the first of radius 1 and the
    second of radius 2: the box returned spans [-1, 2] along x and along
    y, although the second node reaches down to -2. *)
Theorem boundingBox_misses_lower_bound :
  let r := fst (fst (Graph.boundingBox gNested true)) in
  Forall2 Qeq (map (Graph.radius true) (Graph.nodes gNested)) [1; 2] /\
  rect_x r == -1 /\ rect_right r == 2 /\
  rect_y r == -1 /\ rect_bottom r == 2 /\
  minOf (map (fun n => sceneX gNested n - Graph.radius true n) (Graph.nodes gNested)) == -2 /\
  minOf (map (fun n => sceneY gNested n - Graph.radius true n) (Graph.nodes gNested)) == -2.
Proof. repeat split; try (vm_compute; reflexivity). repeat constructor. Qed.

(** * Properties of the scene *)

(** Evaluation of the scene functions that leaves coordinates and labels
    as they are written. *)
Ltac evaluate_topology :=
  cbv -[Graph.boundingBox Graph.scenePos padd psub Qdiv Qplus Qminus Qmult Qopp inject_Z
        QString_toInt_ok QString_number qAtan2 qRadiansToDegrees].

(** C2, as amended.  With nodes A, B, C, D and edges A-B and C-D in one
    graph, [searchAndSeparate] on the list A, C leaves two graphs: a new
    one holding A, B and the edge A-B, and the original one, which keeps
    C, D and the edge C-D; both are in the canvas-wide list and
    [graphSeparated] is emitted. *)
Theorem searchAndSeparate_two_parts `{Platform} (p : QPointF) (r : Q) (a b c d : Node.t)
        (ab cd : Edge.t) (fab fcd : bool) :
  exists s',
    CanvasScene.searchAndSeparate [1%nat; 3%nat] (splitScene p r a b c d ab cd fab fcd)
    = Some s' /\
    layout s' = [(1%nat, [NodeRef 3; NodeRef 4; EdgeRef 2]);
                 (2%nat, [NodeRef 1; NodeRef 2; EdgeRef 1])] /\
    CanvasScene.canvasGraphList s' = [1%nat; 2%nat] /\
    CanvasScene.emitted s' = [graphSeparated].
Proof.
  destruct fab, fcd; eexists; (split; [reflexivity|]); repeat split; reflexivity.
Qed.

(** C2, as stated, fails: the original graph is neither destroyed nor
    emptied, it still holds C, D and their edge. *)
Lemma searchAndSeparate_keeps_original :
  ~ (forall s', CanvasScene.searchAndSeparate [1%nat; 3%nat] sceneTwoParts = Some s' ->
                goneOrEmpty s' 1).
Proof.
  intros Hall. specialize (Hall _ eq_refl). vm_compute in Hall. discriminate.
Qed.

(** C7.  Joining graph A (x1, x2, edge x1-x2) and graph B (y1, y2, edge
    y1-y2) at x2 and y1 leaves exactly one graph, a new one: its nodes
    are x1, x2 and y2, its edges are the two edges, now x1-x2 and x2-y2;
    y1 and the graphs A and B are gone, and [graphJoined] is emitted. *)
Theorem joinTwo_reconstitutes `{Platform} (pA pB : QPointF) (rA rB : Q)
        (x1 x2 y1 y2 : Node.t) (ex ey : Edge.t) (fx fy : bool) :
  exists s',
    CanvasScene.keyReleaseEvent_J (joinScene pA pB rA rB x1 x2 y1 y2 ex ey fx fy) = Some s' /\
    (exists g, CanvasScene.graphs s' = [(3%nat, g)] /\
               map Node.id (Graph.nodes g) = [1%nat; 2%nat; 4%nat] /\
               map Edge.id (Graph.edges g) = [1%nat; 2%nat] /\
               forallb (fun e => if Nat.eqb (Edge.id e) 1 then joins 1 2 e else joins 2 4 e)
                       (Graph.edges g) = true /\
               List.length (Graph.edges g) = 2%nat) /\
    incidence s' = [(1%nat, [1%nat]); (2%nat, [1%nat; 2%nat]); (4%nat, [2%nat])] /\
    CanvasScene.canvasGraphList s' = [3%nat] /\
    CanvasScene.emitted s' = [graphJoined].
Proof.
  destruct x1 as [i1 p1 r1 d1 dpi1 es1 c1 l1], x2 as [i2 p2 r2 d2 dpi2 es2 c2 l2],
           y1 as [i3 p3 r3 d3 dpi3 es3 c3 l3], y2 as [i4 p4 r4 d4 dpi4 es4 c4 l4].
  destruct fx, fy; evaluate_topology.
  all: destruct (QString_toInt_ok l2); evaluate_topology.
  all: eexists; split; [reflexivity|].
  all: split; [eexists; split; [reflexivity|]; repeat split; reflexivity|].
  all: repeat split; reflexivity.
Qed.

Lemma optEqb_eq (a b : option nat) : a = b -> CanvasScene.optEqb a b = true.
Proof. intros <-. destruct a; simpl; [apply Nat.eqb_refl|reflexivity]. Qed.

(** C9, as amended.  When a node picked on the first graph has the same
    parent graph as a node picked on the second graph (in particular
    when the two are one node), or when fewer than two nodes are picked,
    the key 'j' changes nothing but the selection: the graphs with all
    their nodes and edges, the canvas-wide list and the signals emitted
    are as before. *)
Theorem keyReleaseEvent_J_rejected `{Platform} (s : CanvasScene.t) :
  rejectedJoin s ->
  CanvasScene.keyReleaseEvent_J s = Some (CanvasScene.unselect s) /\
  CanvasScene.graphs (CanvasScene.unselect s) = CanvasScene.graphs s /\
  CanvasScene.canvasGraphList (CanvasScene.unselect s) = CanvasScene.canvasGraphList s /\
  CanvasScene.emitted (CanvasScene.unselect s) = CanvasScene.emitted s.
Proof.
  intros Hrej. split; [|repeat split].
  unfold rejectedJoin, sameParent in Hrej. unfold CanvasScene.keyReleaseEvent_J.
  destruct (CanvasScene.connectNode1a s) as [n1a|]; [|reflexivity].
  destruct (CanvasScene.connectNode2a s) as [n2a|];
    [|destruct (CanvasScene.connectNode1b s), (CanvasScene.connectNode2b s); reflexivity].
  assert (Htwo : Items.parentItem (CanvasScene.graphs s) (NodeRef n1a)
                 = Items.parentItem (CanvasScene.graphs s) (NodeRef n2a) ->
                 CanvasScene.guardTwo (CanvasScene.graphs s) n1a n2a = false).
  { intros E. unfold CanvasScene.guardTwo. now rewrite (optEqb_eq _ _ E). }
  destruct (CanvasScene.connectNode1b s) as [n1b|];
    [destruct (CanvasScene.connectNode2b s) as [n2b|]|].
  - unfold CanvasScene.guardFour.
    destruct Hrej as [E|[E|[E|E]]]; rewrite (optEqb_eq _ _ E); simpl;
      rewrite ?andb_false_r; reflexivity.
  - now rewrite (Htwo Hrej).
  - destruct (CanvasScene.connectNode2b s); now rewrite (Htwo Hrej).
Qed.

Lemma keyReleaseEvent_J_rejected_witness :
  rejectedJoin sceneSameGraph /\
  CanvasScene.keyReleaseEvent_J sceneSameGraph = Some (CanvasScene.unselect sceneSameGraph).
Proof.
  split; [reflexivity|].
  apply (@keyReleaseEvent_J_rejected screen sceneSameGraph). reflexivity.
Defined.

(** C9, as stated, fails: with the same node picked twice on the first
    graph the four-node join is carried out; graphs, nodes and an edge
    are destroyed and [graphJoined] is emitted. *)
Lemma keyReleaseEvent_J_same_pick_joins :
  ~ (exists s', CanvasScene.keyReleaseEvent_J sceneSamePick = Some s' /\
                CanvasScene.graphs s' = CanvasScene.graphs sceneSamePick /\
                CanvasScene.emitted s' = CanvasScene.emitted sceneSamePick).
Proof.
  intros (s' & Hrun & _ & Hsig).
  assert (E : option_map CanvasScene.emitted (CanvasScene.keyReleaseEvent_J sceneSamePick)
              = Some [graphJoined]) by (vm_compute; reflexivity).
  rewrite Hrun in E. simpl in E. rewrite Hsig in E. discriminate.
Qed.

(** * The four-node join and its duplicate edge *)



(** C8.  Four-node join, on well-formed graphs: the nodes n1a, n1b picked
    on one graph and n2a, n2b picked on another.  If, once the edges of
    n2a are rewired onto n1a and those of n2b onto n1b, exactly two edges
    join n1a and n1b, then the key 'j' joins the two graphs in a new one,
    in which exactly one edge joins n1a and n1b, and which has one edge
    less than the two graphs had together. *)
Theorem joinFour_removes_duplicate `{Platform} (s : CanvasScene.t)
        (n1a n1b n2a n2b rA rB : nat) (gA gB : Graph.t) :
  WellFormed (CanvasScene.graphs s) ->
  CanvasScene.connectNode1a s = Some n1a -> CanvasScene.connectNode1b s = Some n1b ->
  CanvasScene.connectNode2a s = Some n2a -> CanvasScene.connectNode2b s = Some n2b ->
  hasNode (CanvasScene.graphs s) rA n1a -> hasNode (CanvasScene.graphs s) rA n1b ->
  hasNode (CanvasScene.graphs s) rB n2a -> hasNode (CanvasScene.graphs s) rB n2b ->
  rA <> rB -> n1a <> n1b -> n2a <> n2b ->
  Items.lookupGraph (CanvasScene.graphs s) rA = Some gA ->
  Items.lookupGraph (CanvasScene.graphs s) rB = Some gB ->
  List.length (filter (joins n1a n1b)
                 (Items.allEdges
                    (CanvasScene.rewire n2b n1b
                       (CanvasScene.rewire n2a n1a (CanvasScene.graphs s))))) = 2%nat ->
  exists s' gR,
    CanvasScene.keyReleaseEvent_J s = Some s' /\
    Items.lookupGraph (CanvasScene.graphs s')
                      (Items.fresh (CanvasScene.graphs s) (CanvasScene.canvasGraphList s))
    = Some gR /\
    Items.lookupGraph (CanvasScene.graphs s') rA = None /\
    Items.lookupGraph (CanvasScene.graphs s') rB = None /\
    List.length (filter (joins n1a n1b) (Graph.edges gR)) = 1%nat /\
    (List.length (Graph.edges gR) + 1
     = List.length (Graph.edges gA) + List.length (Graph.edges gB))%nat.
Proof.
  intros Hwf P1a P1b P2a P2b H1a H1b H2a H2b Hne Hab1 Hab2 LA LB Htwo.
  rewrite (keyReleaseEvent_J_four s n1a n1b n2a n2b rA rB (wf_refs _ Hwf)
             P1a P1b P2a P2b H1a H1b H2a H2b Hne).
  destruct (joinFour_outcome n1a n1b n2a n2b rA rB s Hwf H1a H1b H2a H2b Hne Hab1 Hab2)
    as (s' & gs6 & Hrun & Hrest).
  cbv zeta in Hrest.
  destruct Hrest as (Hm6 & Hm7 & Hempty6 & HN6 & E6 & EF & HwfF & KFnew & KFA & KFB).
  set (gs0 := CanvasScene.graphs s) in *.
  set (new := Items.fresh gs0 (CanvasScene.canvasGraphList s)) in *.
  set (gsF := CanvasScene.graphs s') in *.
  rewrite Hrun. simpl option_map.
  destruct (lookupGraph_key gsF new KFnew) as (gR & LR).
  exists (CanvasScene.unselect s'), gR. change (CanvasScene.graphs (CanvasScene.unselect s')) with gsF.
  split; [reflexivity|]. split; [exact LR|].
  split; [now apply lookupGraph_None|]. split; [now apply lookupGraph_None|].
  destruct (four_distinct gs0 n1a n1b n2a n2b rA rB Hwf H1a H1b H2a H2b Hne)
    as (D1 & D2 & D3 & D4).
  assert (Hs1a : ~ In n1a [n2b; n2a]).
  { simpl. intros [F|[F|[]]]; [apply D2|apply D1]; now symmetry. }
  destruct (rewired_scene_edges gs0 n1a n1b n2a n2b rA rB Hwf H1a H1b H2a H2b Hne Hab1 Hab2)
    as (HrB & E6B).
  destruct (proj2 (HN6 _ _) H1a) as (La & ca & HTa).
  pose proof (connecting_members [new; rA; rB] [n2b; n2a] gs6 rA n1a n1b La ca) as HJm.
  pose proof (removeDuplicate_views _ _ gs6 n1a n1b n2a n2b rA La ca Hm6 HTa Hs1a Hab1) as Hdup.
  cbv zeta in Hdup.
  set (J := filter (CanvasScene.connects gs6 n1b) La) in *.
  assert (HJnd : NoDup J) by (apply NoDup_filter; exact (mg_once _ _ _ Hm6 _ _ _ _ HTa Hs1a)).
  assert (HJlen : List.length J = 2%nat).
  { rewrite <- Htwo, <- (length_map Edge.id (filter _ _)).
    apply same_members_length; [exact HJnd| |].
    - apply ids_filter_NoDup, allEdges_ids_NoDup. exact HrB.
    - intros z. rewrite (HJm z Hm6 HTa Hs1a Hab1), allEdges_joining.
      split; intros (gid & s0 & d0 & HE & Hj); exists gid, s0, d0; (split; [|exact Hj]).
      + apply E6B. now apply E6.
      + apply E6. now apply E6B. }
  destruct (list_of_two J HJlen) as (y & x & EJ).
  destruct Hdup as [(F & _)|(x' & y' & g & sx & dx & gy & sy & dy & Ex & Ey & Hyx & Hx & Hjx
                             & Hy & Hjy & N7 & E7 & K7 & R7 & _)];
    rewrite EJ in *; [discriminate|].
  simpl in Ex, Ey. inversion Ex; inversion Ey; subst x' y'. clear Ex Ey.
  set (gs7 := CanvasScene.removeDuplicate n1a n1b n2a n2b gs6) in *.
  assert (Hin6 : forall z, In z [y; x] -> exists gid s0 d0,
               EdgeT gs6 gid z s0 d0 /\ joined n1a n1b s0 d0 /\ (gid = rA \/ gid = rB)).
  { intros z Hz. apply (HJm z Hm6 HTa Hs1a Hab1) in Hz. destruct Hz as (gid & s0 & d0 & HE & Hj).
    exists gid, s0, d0. split; [assumption|]. split; [assumption|].
    assert (Hmi : mergedInto new rA rB gid new).
    { apply (edge_of_merged new rA rB _ gs6 n1a gid z s0 d0 Hm6 Hempty6); [now apply HN6|exact HE|].
      destruct Hj as [[-> _]|[_ ->]]; tauto. }
    destruct Hmi as [(_ & F & _)|(_ & Hg)]; [congruence|exact Hg]. }
  split.
  - rewrite <- (length_map Edge.id). change 1%nat with (List.length [y]).
    apply same_members_length.
    + apply ids_filter_NoDup. exact (graph_edges_ids_NoDup gsF new gR (wf_refs _ HwfF) LR).
    + constructor; [intros []|constructor].
    + intros z. rewrite (graph_edges_joining gsF new gR n1a n1b z (wf_keys _ HwfF) LR). split.
      * intros (s0 & d0 & HE & Hj). apply EF in HE. destruct HE as (g0 & _ & HE).
        apply E7 in HE. destruct HE as (HE & Hzx).
        assert (Hz : In z [y; x]) by (apply (HJm z Hm6 HTa Hs1a Hab1); eauto).
        simpl in Hz. simpl. intuition congruence.
      * intros [<-|[]]. destruct (Hin6 y (or_introl eq_refl)) as (gid & s0 & d0 & HE & Hj & Hg).
        exists s0, d0. split; [|exact Hj]. apply EF. exists gid. split; [right; tauto|].
        apply E7. now split.
  - rewrite <- (length_map Edge.id (Graph.edges gR)), <- (length_map Edge.id (Graph.edges gA)),
      <- (length_map Edge.id (Graph.edges gB)), <- length_app, Nat.add_1_r. symmetry.
    apply (one_less_length x).
    + apply NoDup_app.
      * exact (graph_edges_ids_NoDup gs0 rA gA (wf_refs _ Hwf) LA).
      * exact (graph_edges_ids_NoDup gs0 rB gB (wf_refs _ Hwf) LB).
      * intros z HzA HzB.
        apply (graph_edges_ids gs0 rA gA z (wf_keys _ Hwf) LA) in HzA.
        apply (graph_edges_ids gs0 rB gB z (wf_keys _ Hwf) LB) in HzB.
        destruct HzA as (sa & da & HA), HzB as (sb & db & HB).
        now destruct (EdgeT_unique _ _ _ _ _ _ _ _ (wf_refs _ Hwf) HA HB).
    + exact (graph_edges_ids_NoDup gsF new gR (wf_refs _ HwfF) LR).
    + destruct (Hin6 x (or_intror (or_introl eq_refl))) as (gid & s0 & d0 & HE & _ & Hg).
      apply E6 in HE. destruct HE as (a & b & HE & _). apply in_or_app.
      destruct Hg as [->| ->]; [left|right].
      * apply (graph_edges_ids gs0 rA gA x (wf_keys _ Hwf) LA). eauto.
      * apply (graph_edges_ids gs0 rB gB x (wf_keys _ Hwf) LB). eauto.
    + intros z. rewrite in_app_iff, (graph_edges_ids gsF new gR z (wf_keys _ HwfF) LR),
        (graph_edges_ids gs0 rA gA z (wf_keys _ Hwf) LA),
        (graph_edges_ids gs0 rB gB z (wf_keys _ Hwf) LB). split.
      * intros (s0 & d0 & HE). apply EF in HE. destruct HE as (g0 & Hmi & HE).
        apply E7 in HE. destruct HE as (HE & Hzx). split; [|exact Hzx].
        apply E6 in HE. destruct HE as (a & b & HE & _).
        destruct Hmi as [(_ & F & _)|(_ & [->| ->])]; [congruence|left|right]; eauto.
      * intros (Hg & Hzx).
        assert (Hg' : exists g0 a b, (g0 = rA \/ g0 = rB) /\ EdgeT gs0 g0 z a b).
        { destruct Hg as [(a & b & HE)|(a & b & HE)]; [exists rA, a, b|exists rB, a, b]; tauto. }
        destruct Hg' as (g0 & a & b & Hg0 & HE).
        exists (subst1 n2b n1b (subst1 n2a n1a a)), (subst1 n2b n1b (subst1 n2a n1a b)).
        apply EF. exists g0. split; [right; tauto|]. apply E7. split; [|exact Hzx].
        apply E6. now exists a, b.
Qed.

Lemma joinFour_removes_duplicate_witness :
  WellFormed (CanvasScene.graphs sceneFourPicked) /\
  List.length (filter (joins 1 2)
                 (Items.allEdges
                    (CanvasScene.rewire 4 2
                       (CanvasScene.rewire 3 1 (CanvasScene.graphs sceneFourPicked))))) = 2%nat /\
  exists s' gR,
    CanvasScene.keyReleaseEvent_J sceneFourPicked = Some s' /\
    Items.lookupGraph (CanvasScene.graphs s') 3 = Some gR /\
    Items.lookupGraph (CanvasScene.graphs s') 1 = None /\
    Items.lookupGraph (CanvasScene.graphs s') 2 = None /\
    List.length (filter (joins 1 2) (Graph.edges gR)) = 1%nat /\
    (List.length (Graph.edges gR) + 1
     = List.length (Graph.edges (graphOf sceneFourPicked 1))
       + List.length (Graph.edges (graphOf sceneFourPicked 2)))%nat.
Proof.
  assert (Hwf : WellFormed (CanvasScene.graphs sceneFourPicked))
    by (apply wellFormedb_sound; vm_compute; reflexivity).
  split; [exact Hwf|]. split; [vm_compute; reflexivity|].
  apply (@joinFour_removes_duplicate screen sceneFourPicked 1 2 3 4 1 2
           (graphOf sceneFourPicked 1) (graphOf sceneFourPicked 2) Hwf);
    try reflexivity; try discriminate; try (apply hasNodeb_hasNode; vm_compute; reflexivity).
Defined.

(** * The connectivity invariant *)




Lemma sceneStart_WellFormed : WellFormed (CanvasScene.graphs sceneStart).
Proof. apply wellFormedb_sound. vm_compute. reflexivity. Qed.

Lemma sceneStart_Connected : Connected (CanvasScene.graphs sceneStart).
Proof.
  apply (Connected_paths _ sceneStart_WellFormed).
  intros gid u v (eu & cu & Hu) (ev & cv & Hv).
  apply NodeT_nodeViews in Hu, Hv. vm_compute in Hu, Hv.
  destruct Hu as [Hu|[Hu|[Hu|[Hu|[]]]]]; inversion Hu; subst;
    destruct Hv as [Hv|[Hv|[Hv|[Hv|[]]]]]; inversion Hv; subst;
      first [apply path_refl
            |solve [apply path_one; eexists; eexists; left; apply EdgeT_edgeViews; cbv; eauto 6]
            |solve [apply path_one; eexists; eexists; right; apply EdgeT_edgeViews; cbv; eauto 6]].
Qed.


(** * Further properties of [Graph::boundingBox], [centerGraph] and [setRotation] *)

Section BoxFacts.
Context `{Platform}.

(** The second branch of the update is only looked at when the first one
    is not taken; the high end is therefore always the running maximum. *)
Lemma widen_high (lo hi v_lo v_hi : Q) :
  snd (Graph.widen lo hi v_lo v_hi) == Qmax hi v_hi.
Proof.
  unfold Graph.widen.
  destruct (Qlt_le_dec hi v_hi); [|destruct (Qlt_le_dec v_lo lo)]; simpl;
    destruct (Q.max_spec hi v_hi) as [[? E]|[? E]]; lra.
Qed.

Lemma widen_low (lo hi v_lo v_hi : Q) :
  fst (Graph.widen lo hi v_lo v_hi) = lo \/ fst (Graph.widen lo hi v_lo v_hi) = v_lo.
Proof.
  unfold Graph.widen.
  destruct (Qlt_le_dec hi v_hi); [|destruct (Qlt_le_dec v_lo lo)]; simpl; auto.
Qed.

(** With candidates that agree, the update is the running minimum and
    maximum. *)
Lemma widen_agree (lo hi v_lo v_hi : Q) :
  lo <= hi -> v_lo == v_hi ->
  fst (Graph.widen lo hi v_lo v_hi) == Qmin lo v_lo /\
  fst (Graph.widen lo hi v_lo v_hi) <= snd (Graph.widen lo hi v_lo v_hi).
Proof.
  intros Hle Hv. unfold Graph.widen.
  destruct (Qlt_le_dec hi v_hi); [|destruct (Qlt_le_dec v_lo lo)]; simpl;
    destruct (Q.min_spec lo v_lo) as [[? ?]|[? ?]]; split; lra.
Qed.

(** One iteration at a node, before and after the first node. *)
Lemma step_node_first (g : Graph.t) (u : bool) (a : Graph.Acc) (n : Node.t) :
  Graph.firstNode a = true ->
  Graph.step g u a (NodeItem n)
  = Graph.mkAcc (lowX g u n) (highX g u n) (lowY g u n) (highY g u n)
                (px (Node.pos n)) (px (Node.pos n)) (py (Node.pos n)) (py (Node.pos n)) false.
Proof. intros Hf. unfold Graph.step. rewrite Hf. reflexivity. Qed.

Lemma step_node_next (g : Graph.t) (u : bool) (a : Graph.Acc) (n : Node.t) :
  Graph.firstNode a = false ->
  let a' := Graph.step g u a (NodeItem n) in
  Graph.firstNode a' = false /\
  Graph.minx a' = fst (Graph.widen (Graph.minx a) (Graph.maxx a) (lowX g u n) (highX g u n)) /\
  Graph.maxx a' = snd (Graph.widen (Graph.minx a) (Graph.maxx a) (lowX g u n) (highX g u n)) /\
  Graph.miny a' = fst (Graph.widen (Graph.miny a) (Graph.maxy a) (lowY g u n) (highY g u n)) /\
  Graph.maxy a' = snd (Graph.widen (Graph.miny a) (Graph.maxy a) (lowY g u n) (highY g u n)).
Proof.
  intros Hf. unfold Graph.step. rewrite Hf.
  unfold lowX, highX, lowY, highY, sceneX, sceneY.
  destruct (Graph.widen (Graph.minx a) _ _ _) as [a1 a2].
  destruct (Graph.widen (Graph.miny a) _ _ _) as [b1 b2].
  destruct (Graph.widen (Graph.RGminx a) _ _ _) as [c1 c2].
  destruct (Graph.widen (Graph.RGminy a) _ _ _) as [d1 d2].
  repeat split.
Qed.

(** The scene part of the accumulator once a first node has been seen. *)
Lemma fold_step_high (g : Graph.t) (u : bool) (items : list Item) (a : Graph.Acc) :
  Graph.firstNode a = false ->
  let a' := fold_left (Graph.step g u) items a in
  Graph.maxx a' == fold_left Qmax (map (highX g u) (Graph.nodesOf items)) (Graph.maxx a) /\
  Graph.maxy a' == fold_left Qmax (map (highY g u) (Graph.nodesOf items)) (Graph.maxy a) /\
  (Graph.minx a' = Graph.minx a \/
   Exists (fun n => Graph.minx a' = lowX g u n) (Graph.nodesOf items)) /\
  (Graph.miny a' = Graph.miny a \/
   Exists (fun n => Graph.miny a' = lowY g u n) (Graph.nodesOf items)).
Proof.
  revert a; induction items as [|it items IH]; intros a Hf.
  - cbn. repeat split; auto; reflexivity.
  - destruct it as [n|e]; [|cbn [fold_left Graph.nodesOf]; apply IH; assumption].
    cbn [fold_left Graph.nodesOf map].
    destruct (step_node_next g u a n Hf) as (F & X1 & X2 & Y1 & Y2).
    destruct (IH _ F) as (I1 & I2 & I3 & I4). cbv zeta.
    split; [|split; [|split]].
    + rewrite I1. apply fold_max_compat. rewrite X2. apply widen_high.
    + rewrite I2. apply fold_max_compat. rewrite Y2. apply widen_high.
    + destruct I3 as [E|E]; [|right; now apply Exists_cons_tl].
      rewrite E, X1.
      destruct (widen_low (Graph.minx a) (Graph.maxx a) (lowX g u n) (highX g u n)) as [->| ->];
        [now left|right; now apply Exists_cons_hd].
    + destruct I4 as [E|E]; [|right; now apply Exists_cons_tl].
      rewrite E, Y1.
      destruct (widen_low (Graph.miny a) (Graph.maxy a) (lowY g u n) (highY g u n)) as [->| ->];
        [now left|right; now apply Exists_cons_hd].
Qed.

Lemma fold_step_high_first (g : Graph.t) (u : bool) (items : list Item) (a : Graph.Acc) :
  Graph.firstNode a = true ->
  Graph.nodesOf items <> [] ->
  let a' := fold_left (Graph.step g u) items a in
  Graph.maxx a' == maxOf (map (highX g u) (Graph.nodesOf items)) /\
  Graph.maxy a' == maxOf (map (highY g u) (Graph.nodesOf items)) /\
  Exists (fun n => Graph.minx a' = lowX g u n) (Graph.nodesOf items) /\
  Exists (fun n => Graph.miny a' = lowY g u n) (Graph.nodesOf items).
Proof.
  revert a; induction items as [|[n|e] items IH]; intros a Hf Hn.
  - cbn in Hn. congruence.
  - cbn [fold_left Graph.nodesOf map maxOf]. rewrite (step_node_first g u a n Hf).
    match goal with |- context [fold_left _ items ?acc] =>
      destruct (fold_step_high g u items acc eq_refl) as (I1 & I2 & I3 & I4) end.
    cbn [Graph.minx Graph.maxx Graph.miny Graph.maxy] in I1, I2, I3, I4. cbv zeta.
    split; [exact I1|]. split; [exact I2|]. split.
    + destruct I3 as [E|E]; [left; exact E|now right].
    + destruct I4 as [E|E]; [left; exact E|now right].
  - cbn [fold_left Graph.nodesOf]. apply IH; assumption.
Qed.

Lemma Qmin_compat_r (a x y : Q) : x == y -> Qmin a x == Qmin a y.
Proof. intros E. now rewrite E. Qed.

(** Without node sizes the low and the high candidate of a node agree,
    and the scene part of the accumulator is the running minimum and
    maximum of the node centres. *)
Lemma fold_step_tight (g : Graph.t) (items : list Item) (a : Graph.Acc) :
  Graph.firstNode a = false ->
  Graph.minx a <= Graph.maxx a ->
  Graph.miny a <= Graph.maxy a ->
  let a' := fold_left (Graph.step g false) items a in
  Graph.minx a' == fold_left Qmin (map (sceneX g) (Graph.nodesOf items)) (Graph.minx a) /\
  Graph.miny a' == fold_left Qmin (map (sceneY g) (Graph.nodesOf items)) (Graph.miny a).
Proof.
  revert a; induction items as [|it items IH]; intros a Hf Hx Hy.
  - cbn. split; reflexivity.
  - destruct it as [n|e]; [|cbn [fold_left Graph.nodesOf]; apply IH; assumption].
    cbn [fold_left Graph.nodesOf map].
    destruct (step_node_next g false a n Hf) as (F & X1 & X2 & Y1 & Y2).
    assert (Lx : lowX g false n == sceneX g n) by (unfold lowX, Graph.radius; lra).
    assert (Ly : lowY g false n == sceneY g n) by (unfold lowY, Graph.radius; lra).
    assert (Ex : lowX g false n == highX g false n) by (unfold lowX, highX, Graph.radius; lra).
    assert (Ey : lowY g false n == highY g false n) by (unfold lowY, highY, Graph.radius; lra).
    pose proof (widen_agree _ _ _ _ Hx Ex) as (Ax & Bx).
    pose proof (widen_agree _ _ _ _ Hy Ey) as (Ay & By).
    rewrite <- X1, <- X2 in Bx. rewrite <- Y1, <- Y2 in By.
    destruct (IH _ F Bx By) as (I1 & I2). cbv zeta. split.
    + rewrite I1. apply fold_min_compat. rewrite X1, Ax. now apply Qmin_compat_r.
    + rewrite I2. apply fold_min_compat. rewrite Y1, Ay. now apply Qmin_compat_r.
Qed.

Lemma fold_step_tight_first (g : Graph.t) (items : list Item) (a : Graph.Acc) :
  Graph.firstNode a = true ->
  Graph.nodesOf items <> [] ->
  let a' := fold_left (Graph.step g false) items a in
  Graph.minx a' == minOf (map (sceneX g) (Graph.nodesOf items)) /\
  Graph.miny a' == minOf (map (sceneY g) (Graph.nodesOf items)).
Proof.
  revert a; induction items as [|[n|e] items IH]; intros a Hf Hn.
  - cbn in Hn. congruence.
  - cbn [fold_left Graph.nodesOf map minOf]. rewrite (step_node_first g false a n Hf).
    match goal with |- context [fold_left _ items ?acc] =>
      pose proof (fold_step_tight g items acc eq_refl) as HT end.
    cbn [Graph.minx Graph.maxx Graph.miny Graph.maxy] in HT.
    assert (Hx : lowX g false n <= highX g false n) by (unfold lowX, highX, Graph.radius; lra).
    assert (Hy : lowY g false n <= highY g false n) by (unfold lowY, highY, Graph.radius; lra).
    destruct (HT Hx Hy) as (I1 & I2). cbv zeta. split.
    + rewrite I1. apply fold_min_compat. unfold lowX, Graph.radius. lra.
    + rewrite I2. apply fold_min_compat. unfold lowY, Graph.radius. lra.
  - cbn [fold_left Graph.nodesOf]. apply IH; assumption.
Qed.

End BoxFacts.

Lemma fold_max_map_compat {A : Type} (f f' : A -> Q) (l : list A) (a b : Q) :
  (forall x, f x == f' x) -> a == b ->
  fold_left Qmax (map f l) a == fold_left Qmax (map f' l) b.
Proof.
  intros Hf. revert a b; induction l as [|x l IH]; intros a b E; cbn; [exact E|].
  apply IH. now rewrite E, (Hf x).
Qed.

Lemma maxOf_map_compat {A : Type} (f f' : A -> Q) (l : list A) :
  (forall x, f x == f' x) -> maxOf (map f l) == maxOf (map f' l).
Proof.
  intros Hf. destruct l as [|x l]; cbn; [reflexivity|].
  apply fold_max_map_compat; auto.
Qed.

(** X1.  A graph without nodes (no children at all, or edges only): the
    rectangle returned is (0, 0, 0, 0) and both centres are (0, 0),
    whether node sizes are asked for or not. *)
Theorem boundingBox_no_nodes `{Platform} (g : Graph.t) (u : bool) :
  Graph.nodes g = [] ->
  rect_x (boxRect g u) == 0 /\ rect_y (boxRect g u) == 0 /\
  rect_w (boxRect g u) == 0 /\ rect_h (boxRect g u) == 0 /\
  peq (boxCenter g u) origin /\ peq (boxRGcenter g u) origin.
Proof.
  intros Hn. unfold boxRect, boxCenter, boxRGcenter, Graph.boundingBox, Graph.accumulate.
  rewrite (fold_step_no_node g u _ _ Hn). cbn.
  repeat split; cbn; reflexivity.
Qed.

Lemma boundingBox_no_nodes_witness :
  let g := Graph.mk (mkPoint 3 4) 90 [EdgeItem (exEdge 1 1 2 0)] in
  Graph.nodes g = [] /\
  (rect_x (boxRect g true) == 0 /\ rect_y (boxRect g true) == 0 /\
   rect_w (boxRect g true) == 0 /\ rect_h (boxRect g true) == 0 /\
   peq (boxCenter g true) origin /\ peq (boxRGcenter g true) origin).
Proof.
  split; [reflexivity|].
  apply (@boundingBox_no_nodes screen (Graph.mk (mkPoint 3 4) 90 [EdgeItem (exEdge 1 1 2 0)]) true).
  reflexivity.
Defined.

(** X2.  The rectangle of a graph with a node.  Its width is the greatest
    x any node covers (radius counted when node sizes are asked for) less
    its left edge, and its height the greatest y any node covers less its
    top edge; the left and the top edge are each the lowest x,
    respectively y, that some node of the graph covers. *)
Theorem boundingBox_width_height `{Platform} (g : Graph.t) (u : bool) :
  Graph.nodes g <> [] ->
  rect_w (boxRect g u) == maxOf (map (highX g u) (Graph.nodes g)) - rect_x (boxRect g u) /\
  rect_h (boxRect g u) == maxOf (map (highY g u) (Graph.nodes g)) - rect_y (boxRect g u) /\
  Exists (fun n => rect_x (boxRect g u) == lowX g u n) (Graph.nodes g) /\
  Exists (fun n => rect_y (boxRect g u) == lowY g u n) (Graph.nodes g).
Proof.
  intros Hn.
  destruct (fold_step_high_first g u (Graph.childItems g) Graph.acc0 eq_refl Hn)
    as (E1 & E2 & E3 & E4).
  unfold boxRect, Graph.boundingBox, Graph.accumulate, Graph.nodes.
  cbn [fst snd rect_x rect_y rect_w rect_h]. cbv zeta in E1, E2, E3, E4.
  split; [rewrite <- E1; reflexivity|]. split; [rewrite <- E2; reflexivity|]. split.
  - eapply Exists_impl; [|exact E3]. intros n ->. reflexivity.
  - eapply Exists_impl; [|exact E4]. intros n ->. reflexivity.
Qed.

Lemma boundingBox_width_height_witness :
  Graph.nodes gNested <> [] /\
  (rect_w (boxRect gNested true)
   == maxOf (map (highX gNested true) (Graph.nodes gNested)) - rect_x (boxRect gNested true) /\
   rect_h (boxRect gNested true)
   == maxOf (map (highY gNested true) (Graph.nodes gNested)) - rect_y (boxRect gNested true) /\
   Exists (fun n => rect_x (boxRect gNested true) == lowX gNested true n) (Graph.nodes gNested) /\
   Exists (fun n => rect_y (boxRect gNested true) == lowY gNested true n) (Graph.nodes gNested)).
Proof.
  split; [discriminate|].
  apply (@boundingBox_width_height screen gNested true). discriminate.
Defined.

(** X3.  When node sizes are not asked for, the rectangle is the tight
    box of the node centres in the scene: its left and top edge are the
    least x and y of a centre, its width and height the greatest less the
    least, and the centre returned is half the sum of the greatest and
    the least. *)
Theorem boundingBox_tight_without_sizes `{Platform} (g : Graph.t) :
  Graph.nodes g <> [] ->
  rect_x (boxRect g false) == minOf (sceneXs g) /\
  rect_w (boxRect g false) == maxOf (sceneXs g) - minOf (sceneXs g) /\
  rect_y (boxRect g false) == minOf (sceneYs g) /\
  rect_h (boxRect g false) == maxOf (sceneYs g) - minOf (sceneYs g) /\
  px (boxCenter g false) == (maxOf (sceneXs g) + minOf (sceneXs g)) / 2 /\
  py (boxCenter g false) == (maxOf (sceneYs g) + minOf (sceneYs g)) / 2.
Proof.
  intros Hn.
  destruct (fold_step_high_first g false (Graph.childItems g) Graph.acc0 eq_refl Hn)
    as (E1 & E2 & _ & _).
  destruct (fold_step_tight_first g (Graph.childItems g) Graph.acc0 eq_refl Hn)
    as (L1 & L2).
  cbv zeta in E1, E2, L1, L2.
  assert (Hx : maxOf (map (highX g false) (Graph.nodes g)) == maxOf (sceneXs g)).
  { apply maxOf_map_compat. intros n. unfold highX, Graph.radius. lra. }
  assert (Hy : maxOf (map (highY g false) (Graph.nodes g)) == maxOf (sceneYs g)).
  { apply maxOf_map_compat. intros n. unfold highY, Graph.radius. lra. }
  unfold Graph.nodes in Hx, Hy. rewrite Hx in E1. rewrite Hy in E2.
  fold (Graph.nodes g) in L1, L2. fold (sceneXs g) in L1. fold (sceneYs g) in L2.
  unfold boxRect, boxCenter, Graph.boundingBox, Graph.accumulate.
  cbn [fst snd rect_x rect_y rect_w rect_h px py].
  rewrite <- E1, <- E2, <- L1, <- L2.
  repeat split; reflexivity.
Qed.

Lemma boundingBox_tight_without_sizes_witness :
  Graph.nodes gPair <> [] /\
  (rect_x (boxRect gPair false) == minOf (sceneXs gPair) /\
   rect_w (boxRect gPair false) == maxOf (sceneXs gPair) - minOf (sceneXs gPair) /\
   rect_y (boxRect gPair false) == minOf (sceneYs gPair) /\
   rect_h (boxRect gPair false) == maxOf (sceneYs gPair) - minOf (sceneYs gPair) /\
   px (boxCenter gPair false) == (maxOf (sceneXs gPair) + minOf (sceneXs gPair)) / 2 /\
   py (boxCenter gPair false) == (maxOf (sceneYs gPair) + minOf (sceneYs gPair)) / 2).
Proof.
  split; [discriminate|].
  apply (@boundingBox_tight_without_sizes screen gPair). discriminate.
Defined.

(** The graph-relative part of the accumulator does not look at the
    rotation of the graph or of its children. *)
Lemma fold_step_turned `{Platform} (g g' : Graph.t) (u : bool) (r : Q) (items : list Item)
      (a a' : Graph.Acc) :
  Graph.firstNode a' = Graph.firstNode a ->
  Graph.RGminx a' = Graph.RGminx a -> Graph.RGmaxx a' = Graph.RGmaxx a ->
  Graph.RGminy a' = Graph.RGminy a -> Graph.RGmaxy a' = Graph.RGmaxy a ->
  let b := fold_left (Graph.step g u) items a in
  let b' := fold_left (Graph.step g' u) (map (Graph.turnChild r) items) a' in
  Graph.RGminx b' = Graph.RGminx b /\ Graph.RGmaxx b' = Graph.RGmaxx b /\
  Graph.RGminy b' = Graph.RGminy b /\ Graph.RGmaxy b' = Graph.RGmaxy b.
Proof.
  revert a a'; induction items as [|[n|e] items IH]; intros a a' Hf H1 H2 H3 H4.
  - cbn. auto.
  - cbn [fold_left map Graph.turnChild]. apply IH; unfold Graph.step;
      rewrite Hf, H1, H2, H3, H4; cbn [Node.pos Node.setRotation];
      destruct (Graph.firstNode a); try reflexivity;
      repeat match goal with |- context [Graph.widen ?p ?q ?r0 ?s] =>
        destruct (Graph.widen p q r0 s) end; reflexivity.
  - cbn [fold_left map Graph.turnChild Graph.step]. now apply IH.
Qed.

Lemma RGcenter_setRotation `{Platform} (g : Graph.t) (amount : Q) (relative : bool) (u : bool) :
  snd (Graph.boundingBox (Graph.setRotation g amount relative) u)
  = snd (Graph.boundingBox g u).
Proof.
  unfold Graph.boundingBox, Graph.accumulate. cbn [snd].
  set (r := if relative then Graph.getRotation g + amount else amount).
  change (Graph.childItems (Graph.setRotation g amount relative))
    with (map (Graph.turnChild r) (Graph.childItems g)).
  destruct (fold_step_turned g (Graph.setRotation g amount relative) u r
              (Graph.childItems g) Graph.acc0 Graph.acc0
              eq_refl eq_refl eq_refl eq_refl eq_refl) as (E1 & E2 & E3 & E4).
  cbv zeta in E1, E2, E3, E4. rewrite E1, E2, E3, E4. reflexivity.
Qed.

Lemma recenter_turnChild (c : QPointF) (r : Q) (it : Item) :
  Graph.recenter c (Graph.turnChild r it) = Graph.turnChild r (Graph.recenter c it).
Proof. destruct it; reflexivity. Qed.

(** X4.  Centring and turning a graph can be done in either order: the
    centre [centerGraph] works with is taken from the positions of the
    nodes in the graph, which [setRotation] leaves alone. *)
Theorem centerGraph_setRotation_commute `{Platform} (g : Graph.t) (amount : Q) (relative : bool) :
  Graph.centerGraph (Graph.setRotation g amount relative)
  = Graph.setRotation (Graph.centerGraph g) amount relative.
Proof.
  rewrite (centerGraph_unfold (Graph.setRotation g amount relative)).
  rewrite RGcenter_setRotation.
  unfold Graph.setRotation, Graph.centerGraph, Graph.getRotation.
  cbn [Graph.pos Graph.rotation Graph.childItems].
  f_equal. rewrite !map_map. apply map_ext. intros it. apply recenter_turnChild.
Qed.

(** * Properties of [Node]: the edge list and the diameter *)

Lemma removeAtFirst_removeOne (edge : nat) (l : list nat) :
  fst (Node.removeAtFirst edge l) = removeOne edge l.
Proof.
  induction l as [|y r IH]; cbn; [reflexivity|].
  destruct (Nat.eqb y edge); [reflexivity|].
  destruct (Node.removeAtFirst edge r) as [r' found]. cbn in *. now rewrite IH.
Qed.

Lemma removeAtFirst_found (edge : nat) (l : list nat) :
  snd (Node.removeAtFirst edge l) = contains l edge.
Proof.
  induction l as [|y r IH]; cbn; [reflexivity|].
  rewrite (Nat.eqb_sym edge y).
  destruct (Nat.eqb y edge); [reflexivity|].
  destruct (Node.removeAtFirst edge r) as [r' found]. cbn in *. exact IH.
Qed.

Lemma removeAtFirst_absent (edge : nat) (l : list nat) :
  ~ In edge l -> Node.removeAtFirst edge l = (l, false).
Proof.
  induction l as [|y r IH]; intros Hn; cbn; [reflexivity|].
  destruct (Nat.eqb_spec y edge) as [->|Hne]; [exfalso; apply Hn; now left|].
  rewrite IH; [reflexivity|]. intros F. apply Hn. now right.
Qed.

Lemma removeAtFirst_last (edge : nat) (l : list nat) :
  ~ In edge l -> Node.removeAtFirst edge (l ++ [edge]) = (l, true).
Proof.
  induction l as [|y r IH]; intros Hn; cbn.
  - now rewrite Nat.eqb_refl.
  - destruct (Nat.eqb_spec y edge) as [->|Hne]; [exfalso; apply Hn; now left|].
    rewrite IH; [reflexivity|]. intros F. apply Hn. now right.
Qed.

Lemma removeAtFirst_present (edge : nat) (l : list nat) :
  In edge l ->
  exists l1 l2, l = l1 ++ edge :: l2 /\ ~ In edge l1 /\
                Node.removeAtFirst edge l = (l1 ++ l2, true).
Proof.
  induction l as [|y r IH]; intros Hin; [contradiction|]. cbn.
  destruct (Nat.eqb_spec y edge) as [->|Hne].
  - exists [], r. repeat split. intros [].
  - destruct Hin as [E|Hin]; [contradiction|].
    destruct (IH Hin) as (l1 & l2 & -> & Hn & E). rewrite E.
    exists (y :: l1), l2. repeat split. intros [F|F]; [contradiction|now apply Hn].
Qed.

(** [removeEdge] agrees with the edge list the split and join code
    works on, and its result tells whether the edge was in the list. *)
Lemma removeEdgeReturning_spec (n : Node.t) (edge : nat) :
  fst (Node.removeEdgeReturning n edge) = Node.removeEdge n edge /\
  snd (Node.removeEdgeReturning n edge) = contains (Node.edges n) edge.
Proof.
  unfold Node.removeEdgeReturning, Node.removeEdge, Node.edges.
  pose proof (removeAtFirst_removeOne edge (Node.edgeList n)) as E1.
  pose proof (removeAtFirst_found edge (Node.edgeList n)) as E2.
  destruct (Node.removeAtFirst edge (Node.edgeList n)) as [l found]. cbn in *.
  now subst.
Qed.

(** X5.  For an edge that is not in the list of a node: [removeEdge]
    returns false and changes nothing, and after [addEdge] it returns true
    and gives the node back as it was. *)
Theorem removeEdge_addEdge (n : Node.t) (edge : nat) :
  ~ In edge (Node.edges n) ->
  Node.removeEdgeReturning n edge = (n, false) /\
  Node.removeEdgeReturning (Node.addEdge n edge) edge = (n, true).
Proof.
  intros Hn. destruct n as [i p r d dpi es c l]. unfold Node.edges in Hn. cbn in Hn.
  unfold Node.removeEdgeReturning, Node.addEdge, Node.setEdgeList. cbn.
  rewrite (removeAtFirst_absent _ _ Hn), (removeAtFirst_last _ _ Hn). split; reflexivity.
Qed.

Lemma removeEdge_addEdge_witness :
  let n := exNode 1 0 0 0 2 [4%nat; 5%nat] in
  ~ In 7%nat (Node.edges n) /\
  (Node.removeEdgeReturning n 7 = (n, false) /\
   Node.removeEdgeReturning (Node.addEdge n 7) 7 = (n, true)).
Proof.
  assert (Hn : ~ In 7%nat (Node.edges (exNode 1 0 0 0 2 [4%nat; 5%nat]))).
  { cbn. intros [F|[F|[]]]; discriminate. }
  split; [exact Hn|]. exact (removeEdge_addEdge (exNode 1 0 0 0 2 [4%nat; 5%nat]) 7 Hn).
Defined.

(** X6.  For an edge that is in the list, [removeEdge] returns true and
    takes out its first entry and nothing else: the entries before it and
    after it stay, in their order. *)
Theorem removeEdge_first_entry (n : Node.t) (edge : nat) :
  In edge (Node.edges n) ->
  exists before after,
    Node.edges n = before ++ edge :: after /\ ~ In edge before /\
    Node.removeEdgeReturning n edge = (Node.setEdgeList n (before ++ after), true).
Proof.
  intros Hin. unfold Node.edges in *.
  destruct (removeAtFirst_present _ _ Hin) as (l1 & l2 & E & Hn & R).
  exists l1, l2. split; [exact E|]. split; [exact Hn|].
  unfold Node.removeEdgeReturning. now rewrite R.
Qed.

Lemma removeEdge_first_entry_witness :
  let n := exNode 1 0 0 0 2 [4%nat; 5%nat; 4%nat] in
  In 4%nat (Node.edges n) /\
  exists before after,
    Node.edges n = before ++ 4%nat :: after /\ ~ In 4%nat before /\
    Node.removeEdgeReturning n 4 = (Node.setEdgeList n (before ++ after), true).
Proof.
  assert (Hin : In 4%nat (Node.edges (exNode 1 0 0 0 2 [4%nat; 5%nat; 4%nat]))) by (now left).
  split; [exact Hin|].
  exact (removeEdge_first_entry (exNode 1 0 0 0 2 [4%nat; 5%nat; 4%nat]) 4 Hin).
Defined.


(** * Properties of the label code (html-label.cpp) *)

Section LabelFacts.
Import HTML_Label.
Local Open Scope string_scope.
Local Open Scope outcome_scope.
Local Notation "a =c b" := (Ascii.eqb a b%char) (at level 70).

Lemma indexOf_Some (c : ascii) (chars : list ascii) (from j : nat) :
  indexOf c from chars = Some j ->
  (from <= j < List.length chars)%nat /\ byteAt chars j = c.
Proof.
  revert from j; induction chars as [|x r IH]; intros from j E; cbn in E; [discriminate|].
  destruct from as [|from'].
  - destruct (Ascii.eqb_spec x c) as [->|Hne].
    + injection E as <-. cbn. split; [lia|reflexivity].
    + destruct (indexOf c 0 r) as [k|] eqn:Ek; [|discriminate].
      injection E as <-. destruct (IH _ _ Ek) as (Hb & Hc). cbn. split; [lia|exact Hc].
  - destruct (indexOf c from' r) as [k|] eqn:Ek; [|discriminate].
    injection E as <-. destruct (IH _ _ Ek) as (Hb & Hc). cbn. split; [lia|exact Hc].
Qed.

Lemma indexOf_None (c : ascii) (chars : list ascii) (from : nat) :
  ~ In c chars -> indexOf c from chars = None.
Proof.
  revert from; induction chars as [|x r IH]; intros from Hn; cbn; [reflexivity|].
  assert (Hr : ~ In c r) by (intros F; apply Hn; now right).
  destruct from as [|from'].
  - destruct (Ascii.eqb_spec x c) as [->|Hne]; [exfalso; apply Hn; now left|].
    now rewrite IH.
  - now rewrite IH.
Qed.

(** The loop that skips escaped signs ends, at an index of the array. *)
Lemma skipEscaped_ends (fuel : nat) (chars : list ascii) (first : option nat) :
  (forall k, first = Some k -> (k < List.length chars <= fuel + k)%nat) ->
  exists r, skipEscaped fuel chars first = Returns r /\
            (forall j, r = Some j -> (j < List.length chars)%nat).
Proof.
  revert first; induction fuel as [|fuel IH]; intros first Hb.
  - destruct first as [[|k]|]; cbn.
    + exists (Some O). split; [reflexivity|]. intros j [= <-]. now apply (Hb O).
    + specialize (Hb _ eq_refl). lia.
    + exists None. split; [reflexivity|]. discriminate.
  - destruct first as [[|k]|]; cbn.
    + exists (Some O). split; [reflexivity|]. intros j [= <-]. now apply (Hb O).
    + destruct (byteAt chars k =c "\").
      * apply IH. intros j Ej. apply indexOf_Some in Ej. specialize (Hb _ eq_refl). lia.
      * exists (Some (S k)). split; [reflexivity|]. intros j [= <-]. now apply (Hb (S k)).
    + exists None. split; [reflexivity|]. discriminate.
Qed.

Lemma skipEscaped_first (c : ascii) (chars : list ascii) :
  exists r, skipEscaped (List.length chars) chars (indexOf c 0 chars) = Returns r /\
            (forall j, r = Some j -> (j < List.length chars)%nat).
Proof.
  apply skipEscaped_ends. intros k Ek. apply indexOf_Some in Ek. lia.
Qed.

Lemma firstBraceFrom_ends (fuel : nat) (chars : list ascii) (fb : nat) :
  (List.length chars + 2 <= fuel + fb)%nat -> (fb <= List.length chars + 1)%nat ->
  firstBraceFrom fuel chars fb = ReadsPastEnd \/
  exists k, firstBraceFrom fuel chars fb = Returns k /\ (fb <= k < List.length chars)%nat.
Proof.
  revert fb; induction fuel as [|fuel IH]; intros fb Hb Hfb; [lia|].
  cbn [firstBraceFrom].
  destruct (Nat.ltb_spec (List.length chars) fb) as [Hlt|Hge]; [now left|].
  destruct (byteAt chars fb =c "{") eqn:Eb; cbn [negb orb].
  - destruct (negb (fb =? 0)%nat && (byteAt chars (fb - 1) =c "\")).
    + destruct (IH (S fb)) as [E|(k & E & Hk)]; [lia|lia|now left|].
      right. exists k. split; [exact E|lia].
    + right. exists fb. split; [reflexivity|]. split; [lia|].
      destruct (Nat.eq_dec fb (List.length chars)) as [->|Hne]; [|lia].
      unfold byteAt in Eb. rewrite nth_overflow in Eb by lia. discriminate.
  - destruct (IH (S fb)) as [E|(k & E & Hk)]; [lia|lia|now left|].
    right. exists k. split; [exact E|lia].
Qed.

Lemma closing_bounds (n : nat) (chars : list ascii) (from : nat) (depth : Z) :
  (from <= closing n chars from depth)%nat /\
  (closing n chars from depth <= Nat.max from (List.length chars))%nat.
Proof.
  revert from depth; induction n as [|n IH]; intros from depth; cbn [closing]; [lia|].
  destruct (Nat.ltb_spec from (List.length chars)) as [Hlt|Hge]; cbn [andb]; [|lia].
  destruct (0 <? depth)%Z; [|lia].
  destruct (IH (S from) (braceStep chars depth from)). lia.
Qed.

Lemma length_mid_rest (chars : list ascii) (pos : nat) :
  (0 < pos)%nat -> chars <> [] ->
  (List.length (mid chars pos (-1)) < List.length chars)%nat.
Proof.
  intros Hp Hc. unfold mid. change (-1 <? 0)%Z with true. cbv iota.
  rewrite length_skipn. destruct chars; [congruence|]. cbn [List.length]. lia.
Qed.

Lemma length_mid (chars : list ascii) (pos : nat) (len : Z) :
  (List.length (mid chars pos len) <= List.length chars - pos)%nat.
Proof.
  unfold mid. destruct (len <? 0)%Z.
  - rewrite length_skipn. lia.
  - rewrite length_firstn, length_skipn. lia.
Qed.

Lemma length_left (chars : list ascii) (n : nat) :
  (n < List.length chars)%nat -> (List.length (left chars n) < List.length chars)%nat.
Proof. intros Hn. unfold left. rewrite length_firstn. lia. Qed.

(** The body of [strToHtml2], for rewriting. *)
Lemma strToHtml2_S (fuel : nat) (chars : list ascii) :
  strToHtml2 (S fuel) chars =
      let length := List.length chars in
      firstUnderscore <- skipEscaped length chars (indexOf "_"%char 0 chars) ;;
      firstCircumflex <- skipEscaped length chars (indexOf "^"%char 0 chars) ;;
      match firstUnderscore, firstCircumflex with
      | None, None => Returns (mathFontify chars)
      | _, _ =>
          let first :=
            match firstUnderscore, firstCircumflex with
            | None, Some c => c
            | Some u, None => u
            | Some u, Some c => if (u <? c)%nat then u else c
            | None, None => O
            end in
          if (first =? 0)%nat then
            if negb (byteAt chars 1 =c "{") then
              if (byteAt chars 1 =c "\") && (length =? 2)%nat then Returns ""
              else
                let chrs := if byteAt chars 1 =c "\" then 2%nat else 1%nat in
                rest <- strToHtml2 fuel (mid chars (chrs + 1) (-1)) ;;
                Returns (scripted (byteAt chars 0)
                                  (mathFontify (mid chars 1 (Z.of_nat chrs))) ++ rest)
            else
              let end_ := (Z.of_nat (closing length chars 2 1) - 1)%Z in
              inner <- strToHtml2 fuel (mid chars 2 (end_ - 2)) ;;
              if (end_ <? Z.of_nat length - 1)%Z then
                rest <- strToHtml2 fuel (mid chars (Z.to_nat (end_ + 1)) (-1)) ;;
                Returns (scripted (byteAt chars 0) inner ++ rest)
              else Returns (scripted (byteAt chars 0) inner)
          else if (depthBefore chars first =? 0)%Z then
            before <- strToHtml2 fuel (left chars first) ;;
            rest <- strToHtml2 fuel (mid chars first (-1)) ;;
            Returns (before ++ rest)
          else
            firstBrace <- firstBraceFrom (length + 2) chars 0 ;;
            prefix <- (if (firstBrace =? 0)%nat then Returns ""
                       else strToHtml2 fuel (left chars firstBrace)) ;;
            let end_ := (Z.of_nat (closing length chars (firstBrace + 1) 1) - 1)%Z in
            inner <- strToHtml2 fuel
                       (mid chars (firstBrace + 1) (end_ - Z.of_nat firstBrace - 1)) ;;
            rest <- (if (end_ <? Z.of_nat length - 1)%Z
                     then strToHtml2 fuel (mid chars (Z.to_nat (end_ + 1)) (-1))
                     else Returns "") ;;
            Returns (prefix ++ inner ++ rest)
      end.
Proof. reflexivity. Qed.

Lemma andThen_fuel {A B : Type} (o : Outcome A) (k : A -> Outcome B) :
  o <> MoreFuel -> (forall a, o = Returns a -> k a <> MoreFuel) -> andThen o k <> MoreFuel.
Proof. intros Ho Hk. destruct o; cbn; [now apply Hk|discriminate|congruence]. Qed.

(** The pieces [strToHtml2] calls itself on are shorter than what it was
    given, so the number of steps [strToHtml] allows is never used up. *)
Lemma strToHtml2_fuel (fuel : nat) (chars : list ascii) :
  (List.length chars < fuel)%nat -> strToHtml2 fuel chars <> MoreFuel.
Proof.
  revert chars; induction fuel as [|fuel IH]; intros chars Hlen; [lia|].
  rewrite strToHtml2_S. cbv zeta.
  destruct (skipEscaped_first "_"%char chars) as (u & -> & Hu).
  destruct (skipEscaped_first "^"%char chars) as (c & -> & Hc).
  cbn [andThen].
  assert (Short : forall l, (List.length l < List.length chars)%nat ->
                            strToHtml2 fuel l <> MoreFuel)
    by (intros l Hl; apply IH; lia).
  assert (Main : forall first, (first < List.length chars)%nat ->
    (if (first =? 0)%nat then
            if negb (byteAt chars 1 =c "{") then
              if (byteAt chars 1 =c "\") && (List.length chars =? 2)%nat then Returns ""
              else
                rest <- strToHtml2 fuel (mid chars ((if byteAt chars 1 =c "\" then 2%nat else 1%nat) + 1) (-1)) ;;
                Returns (scripted (byteAt chars 0)
                                  (mathFontify (mid chars 1 (Z.of_nat (if byteAt chars 1 =c "\" then 2%nat else 1%nat)))) ++ rest)
            else
              inner <- strToHtml2 fuel (mid chars 2 (Z.of_nat (closing (List.length chars) chars 2 1) - 1 - 2)) ;;
              if (Z.of_nat (closing (List.length chars) chars 2 1) - 1 <? Z.of_nat (List.length chars) - 1)%Z then
                rest <- strToHtml2 fuel (mid chars (Z.to_nat (Z.of_nat (closing (List.length chars) chars 2 1) - 1 + 1)) (-1)) ;;
                Returns (scripted (byteAt chars 0) inner ++ rest)
              else Returns (scripted (byteAt chars 0) inner)
          else if (depthBefore chars first =? 0)%Z then
            before <- strToHtml2 fuel (left chars first) ;;
            rest <- strToHtml2 fuel (mid chars first (-1)) ;;
            Returns (before ++ rest)
          else
            firstBrace <- firstBraceFrom (List.length chars + 2) chars 0 ;;
            prefix <- (if (firstBrace =? 0)%nat then Returns ""
                       else strToHtml2 fuel (left chars firstBrace)) ;;
            inner <- strToHtml2 fuel
                       (mid chars (firstBrace + 1) (Z.of_nat (closing (List.length chars) chars (firstBrace + 1) 1) - 1 - Z.of_nat firstBrace - 1)) ;;
            rest <- (if (Z.of_nat (closing (List.length chars) chars (firstBrace + 1) 1) - 1 <? Z.of_nat (List.length chars) - 1)%Z
                     then strToHtml2 fuel (mid chars (Z.to_nat (Z.of_nat (closing (List.length chars) chars (firstBrace + 1) 1) - 1 + 1)) (-1))
                     else Returns "") ;;
            Returns (prefix ++ inner ++ rest)) <> MoreFuel).
  { intros first Hf.
    assert (Hne : chars <> []) by (destruct chars; [cbn in Hf; lia|discriminate]).
    destruct (first =? 0)%nat eqn:E0.
    - destruct (negb (byteAt chars 1 =c "{")).
      + destruct ((byteAt chars 1 =c "\") && (List.length chars =? 2)%nat); [discriminate|].
        apply andThen_fuel; [|discriminate].
        apply Short, length_mid_rest; [lia|exact Hne].
      + apply andThen_fuel.
        * apply Short. pose proof (length_mid chars 2 (Z.of_nat (closing (List.length chars) chars 2 1) - 1 - 2)). lia.
        * intros inner _.
          destruct (_ <? _)%Z; [|discriminate].
          apply andThen_fuel; [|discriminate].
          apply Short, length_mid_rest; [|exact Hne].
          pose proof (closing_bounds (List.length chars) chars 2 1). lia.
    - apply Nat.eqb_neq in E0.
      destruct (depthBefore chars first =? 0)%Z.
      + apply andThen_fuel; [apply Short, length_left; lia|]. intros before _.
        apply andThen_fuel; [|discriminate].
        apply Short, length_mid_rest; [lia|exact Hne].
      + destruct (firstBraceFrom_ends (List.length chars + 2) chars 0) as [E|(k & E & Hk)];
          [lia|lia|rewrite E; discriminate|]. rewrite E. cbn [andThen].
        apply andThen_fuel.
        { destruct (k =? 0)%nat; [discriminate|]. apply Short, length_left. lia. }
        intros prefix _. apply andThen_fuel.
        { apply Short.
          pose proof (length_mid chars (k + 1)
            (Z.of_nat (closing (List.length chars) chars (k + 1) 1) - 1 - Z.of_nat k - 1)). lia. }
        intros inner _. apply andThen_fuel; [|discriminate].
        destruct (_ <? _)%Z; [|discriminate].
        apply Short, length_mid_rest; [|exact Hne].
        pose proof (closing_bounds (List.length chars) chars (k + 1) 1). lia. }
  destruct u as [u|], c as [c|]; try discriminate.
  - apply Main. destruct (u <? c)%nat; [now apply Hu|now apply Hc].
  - apply Main. now apply Hu.
  - apply Main. now apply Hc.
Qed.


(** *** Labels of plain characters *)

Lemma plain_cases (c : ascii) :
  plain c ->
  (c =c "\") = false /\ (c =c "{") = false /\ (c =c "}") = false /\ (c =c " ") = false /\
  (c =c "<") = false /\ (c =c ">") = false /\ (c =c "^") = false /\ (c =c "_") = false /\
  (c =c "'") = false.
Proof.
  intros Hp. unfold plain, special in Hp.
  repeat split; apply Ascii.eqb_neq; intros ->; apply Hp; cbn; tauto.
Qed.

Lemma plain_not_in (c : ascii) (l : list ascii) :
  In c special -> Forall plain l -> ~ In c l.
Proof.
  intros Hs Hl Hin. rewrite Forall_forall in Hl. exact (Hl c Hin Hs).
Qed.

Lemma append_assoc (a b c : string) : (a ++ b) ++ c = a ++ (b ++ c).
Proof. induction a as [|x a IH]; cbn; [reflexivity|now rewrite IH]. Qed.

Lemma append_nil_r (a : string) : a ++ "" = a.
Proof. induction a as [|x a IH]; cbn; [reflexivity|now rewrite IH]. Qed.

Lemma string_of_list_app (l1 l2 : list ascii) :
  string_of_list_ascii (l1 ++ l2)%list = string_of_list_ascii l1 ++ string_of_list_ascii l2.
Proof. induction l1 as [|x l1 IH]; cbn; [reflexivity|now rewrite IH]. Qed.

Lemma list_of_string_app (a b : string) :
  list_ascii_of_string (a ++ b) = (list_ascii_of_string a ++ list_ascii_of_string b)%list.
Proof. induction a as [|x a IH]; cbn; [reflexivity|now rewrite IH]. Qed.

(** [mathFontify] copies plain characters. *)
Lemma mathFontifyFrom_plain (b : bool) (l rest : list ascii) :
  Forall plain l -> l <> [] ->
  mathFontifyFrom b (l ++ rest)%list = string_of_list_ascii l ++ mathFontifyFrom false rest.
Proof.
  intros Hl. revert b; induction Hl as [|c l Hc Hl IH]; intros b Hne; [congruence|].
  destruct (plain_cases c Hc) as (E1 & E2 & E3 & E4 & E5 & E6 & E7 & E8 & E9).
  cbn [app mathFontifyFrom string_of_list_ascii].
  rewrite E1, E2, E3, E4, E5, E6, E7, E8, E9. cbn [andb orb].
  destruct l as [|d l]; [reflexivity|].
  rewrite IH by discriminate. reflexivity.
Qed.

Lemma mathFontify_plain (l : list ascii) :
  Forall plain l -> mathFontify l = string_of_list_ascii l.
Proof.
  intros Hl. destruct l as [|c l]; [reflexivity|].
  unfold mathFontify. rewrite <- (app_nil_r (c :: l)) at 1.
  rewrite mathFontifyFrom_plain by (assumption || discriminate).
  cbn [mathFontifyFrom]. apply append_nil_r.
Qed.

Lemma skipEscaped_None (fuel : nat) (chars : list ascii) :
  skipEscaped fuel chars None = Returns None.
Proof. destruct fuel; reflexivity. Qed.

(** Case 1 of [strToHtml2]. *)
Lemma strToHtml2_plain (fuel : nat) (l : list ascii) :
  Forall plain l -> strToHtml2 (S fuel) l = Returns (string_of_list_ascii l).
Proof.
  intros Hl. rewrite strToHtml2_S. cbv zeta.
  rewrite (indexOf_None "_"%char l 0), (indexOf_None "^"%char l 0), !skipEscaped_None
    by (apply plain_not_in; [cbn; tauto|assumption]).
  cbn [andThen]. now rewrite mathFontify_plain.
Qed.

Lemma check_plain (l rest : list ascii) (depth : Z) (prev : Prev) :
  Forall plain l -> l <> [] -> (0 <= depth)%Z ->
  check (l ++ rest)%list depth prev = check rest depth other.
Proof.
  intros Hl. revert prev; induction Hl as [|c l Hc Hl IH]; intros prev Hne Hd; [congruence|].
  destruct (plain_cases c Hc) as (E1 & E2 & E3 & E4 & E5 & E6 & E7 & E8 & E9).
  cbn [app check]. rewrite E1, E2, E3, E7, E8. cbn [orb].
  destruct (Z.ltb_spec depth 0); [lia|].
  destruct l as [|d l]; [reflexivity|]. now apply IH.
Qed.

(** X8.  A label of plain characters (none of backslash, braces, space,
    angle brackets, circumflex, underscore and apostrophe), such as the
    numbers the joins give to the nodes, is shown as it is, in the font
    of the labels. *)
Theorem strToHtml_plain (str : string) :
  str <> "" -> plainLabel str ->
  strToHtml str = Returns (inLabelFont str).
Proof.
  intros Hne Hp. unfold plainLabel in Hp. unfold strToHtml.
  destruct (list_ascii_of_string str) as [|c0 rest] eqn:El.
  { destruct str; [congruence|discriminate]. }
  pose proof Hp as Hall. inversion Hp as [|? ? Hc Hrest]; subst.
  destruct (plain_cases c0 Hc) as (E1 & E2 & E3 & E4 & E5 & E6 & E7 & E8 & E9).
  rewrite E1, E2, E3, E7, E8. cbn [orb].
  assert (Ec : check rest 0 other = Some (0%Z, other)).
  { destruct rest as [|d rest']; [reflexivity|].
    rewrite <- (app_nil_r (d :: rest')).
    rewrite check_plain by (assumption || discriminate || lia). reflexivity. }
  rewrite Ec. cbn [Z.eqb negb orb isBackslash isScript].
  rewrite strToHtml2_plain by exact Hall. cbn [andThen].
  rewrite <- El, string_of_list_ascii_of_string.
  destruct str as [|a str']; [congruence|]. reflexivity.
Qed.

Lemma strToHtml_plain_witness :
  "12" <> "" /\ plainLabel "12" /\ strToHtml "12" = Returns (inLabelFont "12").
Proof.
  assert (Hne : "12" <> "") by discriminate.
  assert (Hp : plainLabel "12").
  { repeat constructor; intros F; cbn in F;
      repeat (destruct F as [F|F]; [discriminate|]); exact F. }
  split; [exact Hne|]. split; [exact Hp|]. exact (strToHtml_plain "12" Hne Hp).
Defined.

(** X9.  A label that is not empty never comes back empty.  Whatever
    [strToHtml] returns for it is either the label as it was typed, or
    the text [strToHtml2] has made of it, which is then not empty,
    between the font tags.  The label comes back as typed when it starts
    with a closing brace, a circumflex or an underscore, and when
    [strToHtml2] makes the empty text of it. *)
Theorem strToHtml_not_empty (str : string) :
  str <> "" ->
  (forall html, strToHtml str = Returns html ->
     html <> "" /\
     (html = str \/
      exists text,
        strToHtml2 (S (List.length (list_ascii_of_string str))) (list_ascii_of_string str)
        = Returns text
        /\ text <> "" /\ html = inLabelFont text)) /\
  (forall c rest, str = String c rest -> c = "}"%char \/ c = "^"%char \/ c = "_"%char ->
                  strToHtml str = Returns str) /\
  (strToHtml2 (S (List.length (list_ascii_of_string str))) (list_ascii_of_string str)
   = Returns "" ->
   strToHtml str = Returns str).
Proof.
  intros Hne. split; [|split].
  - intros html. unfold strToHtml.
    destruct (list_ascii_of_string str) as [|c0 rest] eqn:El.
    { destruct str; [congruence|discriminate]. }
    assert (Hs : Returns str = Returns html -> html <> "" /\
               (html = str \/
                exists text,
                  strToHtml2 (S (List.length (c0 :: rest))) (c0 :: rest) = Returns text
                  /\ text <> "" /\ html = inLabelFont text)).
    { intros E. injection E as <-. split; [exact Hne|now left]. }
    destruct ((c0 =c "}") || (c0 =c "^") || (c0 =c "_")); [exact Hs|].
    destruct (check rest _ _) as [[depth prev]|]; [|exact Hs].
    destruct (negb (depth =? 0)%Z || isBackslash prev || isScript prev); [exact Hs|].
    destruct (strToHtml2 _ _) as [text| |] eqn:E2; cbn [andThen]; try discriminate.
    destruct (String.length text =? 0)%nat eqn:Elen; [exact Hs|].
    intros E. injection E as <-. split; [discriminate|]. right. exists text.
    split; [reflexivity|]. split; [|reflexivity].
    intros ->. discriminate Elen.
  - intros c rest -> Hc. unfold strToHtml. cbn [list_ascii_of_string].
    destruct Hc as [-> | [-> | ->]]; reflexivity.
  - intros E2. unfold strToHtml.
    destruct (list_ascii_of_string str) as [|c0 rest] eqn:El.
    { destruct str; [congruence|discriminate]. }
    destruct ((c0 =c "}") || (c0 =c "^") || (c0 =c "_")); [reflexivity|].
    destruct (check rest _ _) as [[depth prev]|]; [|reflexivity].
    destruct (negb (depth =? 0)%Z || isBackslash prev || isScript prev); [reflexivity|].
    rewrite E2. reflexivity.
Qed.

Lemma strToHtml_not_empty_witness :
  "a_" <> "" /\
  (forall html, strToHtml "a_" = Returns html ->
     html <> "" /\
     (html = "a_" \/
      exists text,
        strToHtml2 (S (List.length (list_ascii_of_string "a_"))) (list_ascii_of_string "a_")
        = Returns text
        /\ text <> "" /\ html = inLabelFont text)).
Proof.
  assert (Hne : "a_" <> "") by discriminate.
  split; [exact Hne|]. exact (proj1 (strToHtml_not_empty "a_" Hne)).
Defined.

End LabelFacts.

(** * Labels: braces that match *)

Section LabelBraces.
Import HTML_Label.
Local Open Scope string_scope.
Local Open Scope outcome_scope.
Local Notation "a =c b" := (Ascii.eqb a b%char) (at level 70).

Lemma stepRel_shift (bs : bool) (c : ascii) (d k : Z) :
  stepRel bs c (d + k) = (stepRel bs c d + k)%Z.
Proof.
  unfold stepRel. destruct ((c =c "{") && negb bs); [lia|].
  destruct ((c =c "}") && negb bs); lia.
Qed.

Lemma stepRel_bounds (bs : bool) (c : ascii) (d : Z) :
  (d - 1 <= stepRel bs c d <= d + 1)%Z.
Proof.
  unfold stepRel. destruct ((c =c "{") && negb bs); [lia|].
  destruct ((c =c "}") && negb bs); lia.
Qed.

Lemma stepRel_down (bs : bool) (c : ascii) (d : Z) :
  stepRel bs c d = (d - 1)%Z -> c = "}"%char /\ bs = false.
Proof.
  unfold stepRel. destruct (Ascii.eqb_spec c "{"); cbn [andb].
  - destruct bs; cbn [negb]; [|lia]. destruct (c =c "}"); cbn; lia.
  - destruct (Ascii.eqb_spec c "}"); cbn [andb]; [|lia].
    destruct bs; cbn [negb]; [lia|]. intros _. now split.
Qed.

Lemma stepRel_other (bs bs' : bool) (c : ascii) (d : Z) :
  c <> "{"%char -> c <> "}"%char -> stepRel bs c d = d.
Proof.
  intros H1 H2. unfold stepRel.
  apply Ascii.eqb_neq in H1, H2. now rewrite H1, H2.
Qed.

Lemma stepRel_escaped (c : ascii) (d : Z) : stepRel true c d = d.
Proof. unfold stepRel. now rewrite !andb_false_r. Qed.

Lemma bsAfter_app (bs : bool) (a b : list ascii) :
  bsAfter bs (a ++ b)%list = bsAfter (bsAfter bs a) b.
Proof. unfold bsAfter. apply fold_left_app. Qed.

Lemma bsAfter_snoc (bs : bool) (a : list ascii) (c : ascii) :
  bsAfter bs (a ++ [c])%list = (c =c "\").
Proof. rewrite bsAfter_app. reflexivity. Qed.

Lemma depthRel_app (bs : bool) (a b : list ascii) (d : Z) :
  depthRel bs (a ++ b)%list d = depthRel (bsAfter bs a) b (depthRel bs a d).
Proof.
  revert bs d; induction a as [|c a IH]; intros bs d; cbn; [reflexivity|].
  now rewrite IH.
Qed.

Lemma nestedRel_app (bs : bool) (a b : list ascii) (d : Z) :
  nestedRel bs (a ++ b)%list d <->
  nestedRel bs a d /\ nestedRel (bsAfter bs a) b (depthRel bs a d).
Proof.
  revert bs d; induction a as [|c a IH]; intros bs d; cbn.
  - split; [intros Hn; split; [|exact Hn]|tauto].
    destruct b; cbn in Hn; tauto.
  - rewrite IH. tauto.
Qed.

Lemma nestedRel_start (bs : bool) (l : list ascii) (d : Z) :
  nestedRel bs l d -> (0 <= d)%Z.
Proof. destruct l; cbn; tauto. Qed.

(** What the loops read at an index, in terms of the list before it. *)
Lemma firstn_snoc (chars : list ascii) (i : nat) :
  (i < List.length chars)%nat ->
  firstn (S i) chars = (firstn i chars ++ [byteAt chars i])%list.
Proof.
  revert i; induction chars as [|c r IH]; intros i Hi; cbn in Hi; [lia|].
  destruct i as [|i]; [reflexivity|].
  change (firstn (S (S i)) (c :: r)) with (c :: firstn (S i) r).
  change (firstn (S i) (c :: r)) with (c :: firstn i r).
  change (byteAt (c :: r) (S i)) with (byteAt r i).
  rewrite (IH i) by lia. reflexivity.
Qed.

Lemma skipn_cons (chars : list ascii) (i : nat) :
  (i < List.length chars)%nat ->
  skipn i chars = byteAt chars i :: skipn (S i) chars.
Proof.
  revert i; induction chars as [|c r IH]; intros i Hi; cbn in Hi; [lia|].
  destruct i as [|i]; [reflexivity|].
  change (skipn (S i) (c :: r)) with (skipn i r).
  change (skipn (S (S i)) (c :: r)) with (skipn (S i) r).
  change (byteAt (c :: r) (S i)) with (byteAt r i).
  apply IH. lia.
Qed.

Lemma bsAfter_firstn (chars : list ascii) (i : nat) :
  (i <= List.length chars)%nat ->
  bsAfter false (firstn i chars) = negb (notAfterBackslash chars i).
Proof.
  intros Hi. unfold notAfterBackslash. destruct i as [|i]; [reflexivity|].
  rewrite firstn_snoc by lia. rewrite bsAfter_snoc.
  cbn [Nat.eqb orb]. rewrite negb_involutive.
  replace (S i - 1)%nat with i by lia. reflexivity.
Qed.

Lemma braceStep_rel (chars : list ascii) (d : Z) (i : nat) :
  (i <= List.length chars)%nat ->
  braceStep chars d i = stepRel (bsAfter false (firstn i chars)) (byteAt chars i) d.
Proof.
  intros Hi. unfold braceStep, stepRel. rewrite (bsAfter_firstn chars i Hi).
  now rewrite negb_involutive.
Qed.

Lemma depthBefore_rel (chars : list ascii) (first : nat) :
  (first <= List.length chars)%nat ->
  depthBefore chars first = depthRel false (firstn first chars) 0.
Proof.
  unfold depthBefore. induction first as [|k IH]; intros Hk; [reflexivity|].
  rewrite seq_S, fold_left_app. cbn [fold_left Nat.add].
  rewrite IH by lia. rewrite firstn_snoc by lia.
  rewrite depthRel_app. cbn [depthRel]. apply braceStep_rel. lia.
Qed.

Lemma closing_rel (n : nat) (chars : list ascii) (from : nat) (d : Z) :
  (from <= List.length chars)%nat -> (List.length chars <= n + from)%nat ->
  closing n chars from d
  = (from + matchRel (bsAfter false (firstn from chars)) (skipn from chars) d)%nat.
Proof.
  revert from d; induction n as [|n IH]; intros from d Hf Hn.
  - assert (from = List.length chars) by lia. subst from.
    rewrite skipn_all. cbn. lia.
  - cbn [closing]. destruct (Nat.ltb_spec from (List.length chars)) as [Hlt|Hge].
    + rewrite (skipn_cons chars from Hlt). cbn [andb matchRel].
      destruct (0 <? d)%Z; [|lia].
      rewrite IH by lia. rewrite (firstn_snoc chars from Hlt), bsAfter_snoc.
      rewrite braceStep_rel by lia. lia.
    + assert (from = List.length chars) by lia. subst from.
      rewrite skipn_all. cbn. lia.
Qed.

(** The first opening brace that counts. *)
Lemma firstBraceFrom_found (fuel : nat) (chars : list ascii) (fb k : nat) :
  (fb <= k < List.length chars)%nat -> (k < fuel + fb)%nat ->
  byteAt chars k = "{"%char -> notAfterBackslash chars k = true ->
  exists j, firstBraceFrom fuel chars fb = Returns j /\ (fb <= j <= k)%nat /\
            byteAt chars j = "{"%char /\ notAfterBackslash chars j = true /\
            (forall i, (fb <= i < j)%nat ->
                       (byteAt chars i =c "{") && notAfterBackslash chars i = false).
Proof.
  revert fb; induction fuel as [|fuel IH]; intros fb Hk Hfuel Hb Hn; [lia|].
  cbn [firstBraceFrom].
  destruct (Nat.ltb_spec (List.length chars) fb) as [Hlt|Hge]; [lia|].
  assert (Ec : (negb (fb =? 0)%nat && (byteAt chars (fb - 1) =c "\"))
               = negb (notAfterBackslash chars fb)).
  { unfold notAfterBackslash. now rewrite negb_orb, negb_involutive. }
  rewrite Ec.
  destruct (byteAt chars fb =c "{") eqn:Eb; cbn [negb orb].
  - destruct (notAfterBackslash chars fb) eqn:En; cbn [negb].
    + exists fb. split; [reflexivity|]. split; [lia|].
      split; [now apply Ascii.eqb_eq|]. split; [exact En|]. intros i Hi. lia.
    + assert (fb <> k) by (intros ->; congruence).
      destruct (IH (S fb)) as (j & E & Hj & Bj & Nj & Hbefore); try assumption; try lia.
      exists j. split; [exact E|]. split; [lia|]. split; [exact Bj|]. split; [exact Nj|].
      intros i Hi. destruct (Nat.eq_dec i fb) as [->|Hne]; [now rewrite Eb, En|].
      apply Hbefore. lia.
  - assert (fb <> k).
    { intros ->. rewrite Hb in Eb. discriminate. }
    destruct (IH (S fb)) as (j & E & Hj & Bj & Nj & Hbefore); try assumption; try lia.
    exists j. split; [exact E|]. split; [lia|]. split; [exact Bj|]. split; [exact Nj|].
    intros i Hi. destruct (Nat.eq_dec i fb) as [->|Hne]; [now rewrite Eb|].
    apply Hbefore. lia.
Qed.


Lemma bsAfter_cons (bs : bool) (c : ascii) (a : list ascii) :
  bsAfter bs (c :: a) = bsAfter (c =c "\") a.
Proof. reflexivity. Qed.

Lemma matchRel_zero (bs : bool) (l : list ascii) : matchRel bs l 0 = O.
Proof. destruct l; reflexivity. Qed.

Lemma nestedRel_final (bs : bool) (l : list ascii) (d : Z) :
  nestedRel bs l d -> (0 <= depthRel bs l d)%Z.
Proof.
  revert bs d; induction l as [|c r IH]; intros bs d Hn; cbn in *; [tauto|].
  apply IH. tauto.
Qed.

(** From a depth of one or more down to zero: the list splits at the
    closing brace that brings the depth to zero. *)
Lemma match_split (l : list ascii) (bs : bool) (d : Z) :
  (1 <= d)%Z -> nestedRel bs l d -> depthRel bs l d = 0%Z ->
  exists inner rest,
    l = (inner ++ "}"%char :: rest)%list /\
    matchRel bs l d = S (List.length inner) /\
    nestedRel bs inner (d - 1) /\ depthRel bs inner (d - 1) = 0%Z /\
    nestedRel false rest 0 /\ depthRel false rest 0 = 0%Z.
Proof.
  revert bs d; induction l as [|c r IH]; intros bs d Hd Hn Hz.
  - cbn in Hz. lia.
  - cbn [nestedRel depthRel] in Hn, Hz. destruct Hn as (_ & Hn).
    pose proof (nestedRel_start _ _ _ Hn) as H0.
    pose proof (stepRel_bounds bs c d) as Hb.
    destruct (Z.eq_dec (stepRel bs c d) 0) as [E0|Hne].
    + assert (d = 1%Z) by lia. subst d.
      destruct (stepRel_down bs c 1) as (-> & ->); [lia|].
      exists [], r. cbn [app List.length matchRel].
      change (0 <? 1)%Z with true. cbv iota.
      change ("}" =c "\") with false in *. rewrite E0 in *.
      rewrite matchRel_zero. cbn. repeat split; try lia; assumption.
    + destruct (IH (c =c "\") (stepRel bs c d)) as (inner & rest & -> & M & N1 & D1 & N2 & D2);
        [lia|assumption|assumption|].
      exists (c :: inner), rest. cbn [app List.length matchRel nestedRel depthRel].
      destruct (Z.ltb_spec 0 d); [|lia].
      replace (stepRel bs c (d - 1)) with (stepRel bs c d - 1)%Z
        by (change (d - 1)%Z with (d + -1)%Z; rewrite stepRel_shift; lia).
      rewrite M. repeat split; try lia; assumption.
Qed.

(** The closing brace found by [match_split] counts. *)
Lemma match_split_counts (l : list ascii) (bs : bool) (d : Z) :
  (1 <= d)%Z -> nestedRel bs l d -> depthRel bs l d = 0%Z ->
  (matchRel bs l d <= List.length l)%nat.
Proof.
  intros Hd Hn Hz. destruct (match_split l bs d Hd Hn Hz) as (inner & rest & -> & M & _).
  rewrite M, length_app. cbn. lia.
Qed.

(** *** Pieces of a label without two backslashes in a row *)

Lemma noDoubleBackslash_tail (c : ascii) (l : list ascii) :
  noDoubleBackslash (c :: l) = true -> noDoubleBackslash l = true.
Proof. cbn [noDoubleBackslash]. intros E. apply andb_prop in E. tauto. Qed.

Lemma noDoubleBackslash_head (c d : ascii) (l : list ascii) :
  noDoubleBackslash (c :: d :: l) = true -> c = "\"%char -> d <> "\"%char.
Proof.
  cbn [noDoubleBackslash]. intros E -> ->. cbn in E. discriminate.
Qed.

Lemma noDoubleBackslash_skipn (n : nat) (l : list ascii) :
  noDoubleBackslash l = true -> noDoubleBackslash (skipn n l) = true.
Proof.
  revert l; induction n as [|n IH]; intros l E; [exact E|].
  destruct l as [|c l]; [exact E|]. cbn [skipn]. apply IH.
  now apply noDoubleBackslash_tail in E.
Qed.

Lemma noDoubleBackslash_firstn (n : nat) (l : list ascii) :
  noDoubleBackslash l = true -> noDoubleBackslash (firstn n l) = true.
Proof.
  revert l; induction n as [|n IH]; intros l E; [reflexivity|].
  destruct l as [|c l]; [reflexivity|]. cbn [firstn].
  pose proof (IH l (noDoubleBackslash_tail _ _ E)) as IHl.
  cbn [noDoubleBackslash]. rewrite IHl, andb_true_r.
  destruct n as [|n]; [reflexivity|]. destruct l as [|d l]; [reflexivity|].
  cbn [firstn]. cbn [noDoubleBackslash] in E. apply andb_prop in E. tauto.
Qed.

Lemma noDoubleBackslash_mid (l : list ascii) (pos : nat) (len : Z) :
  noDoubleBackslash l = true -> noDoubleBackslash (mid l pos len) = true.
Proof.
  intros E. unfold mid. destruct (len <? 0)%Z.
  - now apply noDoubleBackslash_skipn.
  - now apply noDoubleBackslash_firstn, noDoubleBackslash_skipn.
Qed.

Lemma braced_nil : braced [].
Proof. split; cbn; [split; [lia|exact I]|reflexivity]. Qed.

Lemma isSign_step (bs : bool) (c : ascii) (d : Z) : isSign c -> stepRel bs c d = d.
Proof. intros [-> | ->]; reflexivity. Qed.

Lemma isSign_not_backslash (c : ascii) : isSign c -> (c =c "\") = false.
Proof. intros [-> | ->]; reflexivity. Qed.

Lemma skipEscaped_sign (c : ascii) (fuel : nat) (chars : list ascii) (first : option nat) :
  (forall k, first = Some k ->
             (k < List.length chars <= fuel + k)%nat /\
             (byteAt chars k = "_"%char \/ byteAt chars k = c)) ->
  exists r, skipEscaped fuel chars first = Returns r /\
            (forall j, r = Some j ->
                       (j < List.length chars)%nat /\
                       (byteAt chars j = "_"%char \/ byteAt chars j = c)).
Proof.
  revert first; induction fuel as [|fuel IH]; intros first Hb.
  - destruct first as [[|k]|]; cbn.
    + exists (Some O). split; [reflexivity|]. intros j [= <-].
      destruct (Hb O eq_refl). split; [lia|assumption].
    + destruct (Hb _ eq_refl). lia.
    + exists None. split; [reflexivity|]. discriminate.
  - destruct first as [[|k]|]; cbn.
    + exists (Some O). split; [reflexivity|]. intros j [= <-].
      destruct (Hb O eq_refl). split; [lia|assumption].
    + destruct (byteAt chars k =c "\").
      * apply IH. intros j Ej. apply indexOf_Some in Ej. destruct (Hb _ eq_refl).
        split; [lia|]. left. tauto.
      * exists (Some (S k)). split; [reflexivity|]. intros j [= <-].
        destruct (Hb (S k) eq_refl). split; [lia|assumption].
    + exists None. split; [reflexivity|]. discriminate.
Qed.

Lemma skipEscaped_first_sign (c : ascii) (chars : list ascii) :
  isSign c ->
  exists r, skipEscaped (List.length chars) chars (indexOf c 0 chars) = Returns r /\
            (forall j, r = Some j -> (j < List.length chars)%nat /\ isSign (byteAt chars j)).
Proof.
  intros Hc.
  destruct (skipEscaped_sign c (List.length chars) chars (indexOf c 0 chars))
    as (r & E & Hr).
  { intros k Ek. apply indexOf_Some in Ek. split; [lia|]. right. tauto. }
  exists r. split; [exact E|]. intros j Ej. destruct (Hr j Ej) as (Hj & Hs).
  split; [exact Hj|]. unfold isSign. destruct Hs as [->| ->]; [now left|exact Hc].
Qed.

(** Case 2a: what follows the sign and its one token. *)
Lemma piece_after_token (l : list ascii) :
  braced l -> noDoubleBackslash l = true ->
  l <> [] -> isSign (byteAt l 0) ->
  (byteAt l 1 =c "{") = false ->
  (byteAt l 1 =c "\") && (List.length l =? 2)%nat = false ->
  braced (mid l ((if byteAt l 1 =c "\" then 2%nat else 1%nat) + 1) (-1)).
Proof.
  intros (Hn & Hd) Hncb Hne Hs Hb Hl2. unfold mid. change (-1 <? 0)%Z with true. cbv iota.
  destruct l as [|s l']; [congruence|]. change (byteAt (s :: l') 0) with s in Hs.
  destruct l' as [|c1 l'']; [destruct (byteAt [s] 1 =c "\"); exact braced_nil|].
  change (byteAt (s :: c1 :: l'') 1) with c1 in *.
  cbn [nestedRel depthRel] in Hn, Hd.
  rewrite (isSign_step _ _ _ Hs), (isSign_not_backslash _ Hs) in Hn, Hd.
  destruct Hn as (_ & _ & Hn).
  destruct (Ascii.eqb_spec c1 "\") as [->|Hnb].
  - cbn [andb] in Hl2. destruct l'' as [|x l3]; [cbn in Hl2; discriminate|].
    cbn [Nat.add skipn]. cbn [nestedRel depthRel] in Hn, Hd.
    change (stepRel false "\" 0) with 0%Z in Hn, Hd.
    rewrite stepRel_escaped in Hn, Hd.
    assert (Hx : (x =c "\") = false).
    { apply Ascii.eqb_neq.
      apply (noDoubleBackslash_head "\" x l3); [|reflexivity].
      now apply noDoubleBackslash_tail in Hncb. }
    rewrite Hx in Hn, Hd. destruct Hn as (_ & Hn). split; assumption.
  - cbn [Nat.add skipn].
    apply Ascii.eqb_neq in Hnb.
    assert (E : stepRel false c1 0 = 0%Z).
    { pose proof (nestedRel_start _ _ _ Hn) as H0.
      unfold stepRel in *. rewrite Hb in *. cbn [andb negb] in *.
      destruct (c1 =c "}"); cbn [andb] in *; [lia|reflexivity]. }
    rewrite E in Hn, Hd. split; assumption.
Qed.

(** Cases 2b and 4: the group in braces that starts at [open], and what
    follows it. *)
Lemma piece_group (l : list ascii) (open : nat) :
  (open < List.length l)%nat ->
  byteAt l open = "{"%char ->
  nestedRel false (skipn (S open) l) 1 -> depthRel false (skipn (S open) l) 1 = 0%Z ->
  let end_ := (Z.of_nat (closing (List.length l) l (open + 1) 1) - 1)%Z in
  braced (mid l (open + 1) (end_ - Z.of_nat open - 1)) /\
  braced (mid l (Z.to_nat (end_ + 1)) (-1)) /\
  (0 < Z.to_nat (end_ + 1))%nat.
Proof.
  intros Ho Hb Hn Hd end_.
  destruct (match_split _ false 1 ltac:(lia) Hn Hd)
    as (inner & rest & El & M & N1 & D1 & N2 & D2).
  assert (Ec : closing (List.length l) l (open + 1) 1 = (open + 1 + S (List.length inner))%nat).
  { rewrite closing_rel by lia. replace (open + 1)%nat with (S open) by lia.
    rewrite (firstn_snoc l open Ho), bsAfter_snoc, Hb.
    change ("{" =c "\") with false. now rewrite M. }
  subst end_. rewrite Ec. unfold mid.
  replace (Z.of_nat (open + 1 + S (List.length inner)) - 1 - Z.of_nat open - 1)%Z
    with (Z.of_nat (List.length inner)) by lia.
  destruct (Z.ltb_spec (Z.of_nat (List.length inner)) 0); [lia|].
  rewrite Nat2Z.id. change (-1 <? 0)%Z with true. cbv iota.
  replace (Z.to_nat (Z.of_nat (open + 1 + S (List.length inner)) - 1 + 1))
    with (S (List.length inner) + S open)%nat by lia.
  replace (open + 1)%nat with (S open) by lia.
  rewrite <- skipn_skipn. rewrite El.
  assert (F : firstn (List.length inner) (inner ++ "}"%char :: rest) = inner).
  { rewrite <- (Nat.add_0_r (List.length inner)), firstn_app_2. cbn. apply app_nil_r. }
  assert (S_ : skipn (S (List.length inner)) (inner ++ "}"%char :: rest) = rest).
  { clear. induction inner as [|x inner IH]; [reflexivity|exact IH]. }
  rewrite F, S_.
  change (1 - 1)%Z with 0%Z in N1, D1.
  repeat split; try assumption. lia.
Qed.

(** Case 3: the text before the sign, and the text from the sign on. *)
Lemma piece_cut (l : list ascii) (first : nat) :
  braced l -> (first < List.length l)%nat -> isSign (byteAt l first) ->
  depthBefore l first = 0%Z ->
  braced (left l first) /\ braced (mid l first (-1)).
Proof.
  intros (Hn & Hd) Hf Hs Hz. unfold left, mid. change (-1 <? 0)%Z with true. cbv iota.
  rewrite depthBefore_rel in Hz by lia.
  rewrite <- (firstn_skipn first l) in Hn, Hd.
  apply nestedRel_app in Hn. destruct Hn as (N1 & N2).
  rewrite depthRel_app, Hz in Hd. rewrite Hz in N2.
  split; [split; assumption|].
  rewrite (skipn_cons l first Hf) in N2, Hd |- *. unfold braced.
  cbn [nestedRel depthRel] in N2, Hd |- *.
  rewrite (isSign_step _ _ _ Hs) in N2. rewrite (isSign_step _ _ _ Hs) in Hd.
  rewrite (isSign_step _ _ _ Hs).
  destruct N2 as (_ & N2). split; [split; [lia|exact N2]|exact Hd].
Qed.

(** Without an opening brace that counts, the depth does not go up. *)
Lemma depthRel_no_open (l : list ascii) (j : nat) :
  (j <= List.length l)%nat ->
  (forall i, (i < j)%nat -> (byteAt l i =c "{") && notAfterBackslash l i = false) ->
  (depthRel false (firstn j l) 0 <= 0)%Z.
Proof.
  induction j as [|j IH]; intros Hj Hno; [cbn; lia|].
  rewrite firstn_snoc by lia. rewrite depthRel_app. cbn [depthRel].
  rewrite bsAfter_firstn by lia.
  specialize (IH ltac:(lia) ltac:(intros i Hi; apply Hno; lia)).
  pose proof (Hno j ltac:(lia)) as Hjno.
  unfold stepRel. rewrite negb_involutive, Hjno.
  destruct ((byteAt l j =c "}") && notAfterBackslash l j); lia.
Qed.

(** With a depth above zero there is an opening brace that counts. *)
Lemma depthRel_open (l : list ascii) (j : nat) :
  (j <= List.length l)%nat -> (0 < depthRel false (firstn j l) 0)%Z ->
  exists k, (k < j)%nat /\ byteAt l k = "{"%char /\ notAfterBackslash l k = true.
Proof.
  intros Hj Hpos.
  destruct (Exists_dec (fun i => (byteAt l i =c "{") && notAfterBackslash l i = true)
                       (seq 0 j)) as [Hex|Hno].
  { intros i. destruct ((byteAt l i =c "{") && notAfterBackslash l i); [now left|now right]. }
  - apply Exists_exists in Hex. destruct Hex as (k & Hin & Hk).
    apply in_seq in Hin. apply andb_prop in Hk. destruct Hk as (Hb & Hn).
    exists k. split; [lia|]. split; [now apply Ascii.eqb_eq|exact Hn].
  - exfalso. assert (depthRel false (firstn j l) 0 <= 0)%Z; [|lia].
    apply depthRel_no_open; [exact Hj|]. intros i Hi.
    destruct ((byteAt l i =c "{") && notAfterBackslash l i) eqn:E; [|reflexivity].
    exfalso. apply Hno. apply Exists_exists. exists i. split; [apply in_seq; lia|exact E].
Qed.

(** Case 4: the text before the first opening brace, the group, and the
    rest. *)
Lemma piece_braces (l : list ascii) (first : nat) :
  braced l -> (first < List.length l)%nat -> depthBefore l first <> 0%Z ->
  exists fb,
    firstBraceFrom (List.length l + 2) l 0 = Returns fb /\
    (fb < List.length l)%nat /\
    braced (left l fb) /\
    let end_ := (Z.of_nat (closing (List.length l) l (fb + 1) 1) - 1)%Z in
    braced (mid l (fb + 1) (end_ - Z.of_nat fb - 1)) /\
    braced (mid l (Z.to_nat (end_ + 1)) (-1)) /\
    (0 < Z.to_nat (end_ + 1))%nat.
Proof.
  intros (Hn & Hd) Hf Hz.
  rewrite depthBefore_rel in Hz by lia.
  pose proof Hn as Hn0. rewrite <- (firstn_skipn first l) in Hn0.
  apply nestedRel_app in Hn0. destruct Hn0 as (N1 & _).
  apply nestedRel_final in N1.
  destruct (depthRel_open l first ltac:(lia) ltac:(lia)) as (k & Hk & Bk & Nk).
  destruct (firstBraceFrom_found (List.length l + 2) l 0 k ltac:(lia) ltac:(lia) Bk Nk)
    as (fb & E & Hfb & Bfb & Nfb & Hbefore).
  exists fb. split; [exact E|]. split; [lia|].
  pose proof Hn as Hn1. rewrite <- (firstn_skipn fb l) in Hn1.
  apply nestedRel_app in Hn1. destruct Hn1 as (P1 & P2).
  assert (Z0 : depthRel false (firstn fb l) 0 = 0%Z).
  { apply nestedRel_final in P1.
    pose proof (depthRel_no_open l fb ltac:(lia)
                  ltac:(intros i Hi; apply Hbefore; lia)). lia. }
  split; [split; assumption|].
  rewrite Z0 in P2. rewrite (skipn_cons l fb) in P2 by lia.
  cbn [nestedRel] in P2. destruct P2 as (_ & P2).
  rewrite Bfb, bsAfter_firstn, Nfb in P2 by lia.
  change (stepRel (negb true) "{" 0) with 1%Z in P2. change ("{" =c "\") with false in P2.
  assert (D2 : depthRel false (skipn (S fb) l) 1 = 0%Z).
  { rewrite <- (firstn_skipn fb l) in Hd. rewrite depthRel_app, Z0 in Hd.
    rewrite (skipn_cons l fb) in Hd by lia. cbn [depthRel] in Hd.
    rewrite Bfb, bsAfter_firstn, Nfb in Hd by lia. exact Hd. }
  apply (piece_group l fb); [lia|assumption..].
Qed.


Lemma andThen_returns {A B : Type} (o : Outcome A) (k : A -> Outcome B) :
  (exists a, o = Returns a) -> (forall a, exists b, k a = Returns b) ->
  exists b, andThen o k = Returns b.
Proof. intros (a & ->) Hk. cbn. apply Hk. Qed.

(** On a label whose braces match and that has no two backslashes in a
    row, [strToHtml2] returns: every piece it calls itself on is such a
    label again, and in case 4 the opening brace it looks for is there. *)
Lemma strToHtml2_braced (fuel : nat) (chars : list ascii) :
  (List.length chars < fuel)%nat -> braced chars -> noDoubleBackslash chars = true ->
  exists html, strToHtml2 fuel chars = Returns html.
Proof.
  revert chars; induction fuel as [|fuel IH]; intros chars Hlen Hbr Hncb; [lia|].
  rewrite strToHtml2_S. cbv zeta.
  destruct (skipEscaped_first_sign "_"%char chars ltac:(now left)) as (u & -> & Hu).
  destruct (skipEscaped_first_sign "^"%char chars ltac:(now right)) as (c & -> & Hc).
  cbn [andThen].
  assert (Short : forall l, (List.length l < List.length chars)%nat -> braced l ->
                            noDoubleBackslash l = true ->
                            exists html, strToHtml2 fuel l = Returns html)
    by (intros l Hl; apply IH; lia).
  assert (Main : forall first, (first < List.length chars)%nat -> isSign (byteAt chars first) ->
    exists html,
    (if (first =? 0)%nat then
            if negb (byteAt chars 1 =c "{") then
              if (byteAt chars 1 =c "\") && (List.length chars =? 2)%nat then Returns ""
              else
                rest <- strToHtml2 fuel (mid chars ((if byteAt chars 1 =c "\" then 2%nat else 1%nat) + 1) (-1)) ;;
                Returns (scripted (byteAt chars 0)
                                  (mathFontify (mid chars 1 (Z.of_nat (if byteAt chars 1 =c "\" then 2%nat else 1%nat)))) ++ rest)
            else
              inner <- strToHtml2 fuel (mid chars 2 (Z.of_nat (closing (List.length chars) chars 2 1) - 1 - 2)) ;;
              if (Z.of_nat (closing (List.length chars) chars 2 1) - 1 <? Z.of_nat (List.length chars) - 1)%Z then
                rest <- strToHtml2 fuel (mid chars (Z.to_nat (Z.of_nat (closing (List.length chars) chars 2 1) - 1 + 1)) (-1)) ;;
                Returns (scripted (byteAt chars 0) inner ++ rest)
              else Returns (scripted (byteAt chars 0) inner)
          else if (depthBefore chars first =? 0)%Z then
            before <- strToHtml2 fuel (left chars first) ;;
            rest <- strToHtml2 fuel (mid chars first (-1)) ;;
            Returns (before ++ rest)
          else
            firstBrace <- firstBraceFrom (List.length chars + 2) chars 0 ;;
            prefix <- (if (firstBrace =? 0)%nat then Returns ""
                       else strToHtml2 fuel (left chars firstBrace)) ;;
            inner <- strToHtml2 fuel
                       (mid chars (firstBrace + 1) (Z.of_nat (closing (List.length chars) chars (firstBrace + 1) 1) - 1 - Z.of_nat firstBrace - 1)) ;;
            rest <- (if (Z.of_nat (closing (List.length chars) chars (firstBrace + 1) 1) - 1 <? Z.of_nat (List.length chars) - 1)%Z
                     then strToHtml2 fuel (mid chars (Z.to_nat (Z.of_nat (closing (List.length chars) chars (firstBrace + 1) 1) - 1 + 1)) (-1))
                     else Returns "") ;;
            Returns (prefix ++ inner ++ rest)) = Returns html).
  { intros first Hf Hsign.
    assert (Hne : chars <> []) by (destruct chars; [cbn in Hf; lia|discriminate]).
    destruct (Nat.eqb_spec first 0) as [->|Hpos].
    - destruct (byteAt chars 1 =c "{") eqn:Eb; cbn [negb].
      + (* Case 2b *)
        assert (Hl : (1 < List.length chars)%nat).
        { destruct chars as [|a [|b r]]; cbn in *; try lia; try discriminate. }
        destruct Hbr as (Hn & Hd).
        assert (Hn1 : nestedRel false (skipn 2 chars) 1 /\ depthRel false (skipn 2 chars) 1 = 0%Z).
        { destruct chars as [|a [|b r]]; cbn in Hl; try lia.
          change (byteAt (a :: b :: r) 0) with a in Hsign.
          change (byteAt (a :: b :: r) 1) with b in Eb.
          apply Ascii.eqb_eq in Eb. subst b.
          cbn [nestedRel depthRel skipn] in *.
          rewrite (isSign_step _ _ _ Hsign), (isSign_not_backslash _ Hsign) in Hn, Hd.
          change (stepRel false "{" 0) with 1%Z in *. change ("{" =c "\") with false in *.
          split; tauto. }
        destruct Hn1 as (Hn1 & Hd1).
        destruct (piece_group chars 1 Hl ltac:(now apply Ascii.eqb_eq) Hn1 Hd1)
          as (B1 & B2 & Hp).
        cbv zeta in B1, B2, Hp. change (1 + 1)%nat with 2%nat in *.
        change (Z.of_nat 1) with 1%Z in B1.
        replace (Z.of_nat (closing (List.length chars) chars 2 1) - 1 - 1 - 1)%Z
          with (Z.of_nat (closing (List.length chars) chars 2 1) - 1 - 2)%Z in B1 by lia.
        apply andThen_returns.
        * apply Short; [|exact B1|now apply noDoubleBackslash_mid].
          pose proof (length_mid chars 2 (Z.of_nat (closing (List.length chars) chars 2 1) - 1 - 2)).
          lia.
        * intros inner. destruct (_ <? _)%Z; [|eexists; reflexivity].
          apply andThen_returns; [|intros rest; eexists; reflexivity].
          apply Short; [|exact B2|now apply noDoubleBackslash_mid].
          apply length_mid_rest; [exact Hp|exact Hne].
      + (* Case 2a *)
        destruct ((byteAt chars 1 =c "\") && (List.length chars =? 2)%nat) eqn:E2;
          [eexists; reflexivity|].
        apply andThen_returns; [|intros rest; eexists; reflexivity].
        apply Short; [|now apply piece_after_token|now apply noDoubleBackslash_mid].
        apply length_mid_rest; [lia|exact Hne].
    - destruct (Z.eqb_spec (depthBefore chars first) 0) as [Hz|Hnz].
      + (* Case 3 *)
        destruct (piece_cut chars first Hbr Hf Hsign Hz) as (B1 & B2).
        apply andThen_returns.
        * apply Short; [apply length_left; lia|exact B1|].
          now apply noDoubleBackslash_firstn.
        * intros before. apply andThen_returns; [|intros rest; eexists; reflexivity].
          apply Short; [|exact B2|now apply noDoubleBackslash_mid].
          apply length_mid_rest; [lia|exact Hne].
      + (* Case 4 *)
        destruct (piece_braces chars first Hbr Hf Hnz) as (fb & E & Hfb & B0 & B1 & B2 & Hp).
        rewrite E. cbn [andThen]. cbv zeta in B1, B2, Hp.
        apply andThen_returns.
        { destruct (fb =? 0)%nat; [eexists; reflexivity|].
          apply Short; [apply length_left; lia|exact B0|].
          now apply noDoubleBackslash_firstn. }
        intros prefix. apply andThen_returns.
        { apply Short; [|exact B1|now apply noDoubleBackslash_mid].
          pose proof (length_mid chars (fb + 1)
            (Z.of_nat (closing (List.length chars) chars (fb + 1) 1) - 1 - Z.of_nat fb - 1)).
          lia. }
        intros inner. apply andThen_returns; [|intros rest; eexists; reflexivity].
        destruct (_ <? _)%Z; [|eexists; reflexivity].
        apply Short; [|exact B2|now apply noDoubleBackslash_mid].
        apply length_mid_rest; [exact Hp|exact Hne]. }
  destruct u as [u|], c as [c|].
  - destruct (Hu u eq_refl), (Hc c eq_refl). apply Main; destruct (u <? c)%nat; assumption.
  - destruct (Hu u eq_refl). now apply Main.
  - destruct (Hc c eq_refl). now apply Main.
  - eexists; reflexivity.
Qed.

(** *** What the check of [strToHtml] lets through *)

Lemma check_negative (rest : list ascii) (depth : Z) (prev : Prev) :
  (depth < 0)%Z -> check rest depth prev = Some (depth, prev).
Proof.
  intros Hd. destruct rest as [|c r]; [reflexivity|]. cbn [check].
  destruct (Z.ltb_spec depth 0); [reflexivity|lia].
Qed.

Lemma check_braced (p : ascii) (rest : list ascii) (depth depth' : Z) (prev prev' : Prev) :
  isBackslash prev = (p =c "\") ->
  noDoubleBackslash (p :: rest) = true ->
  (0 <= depth)%Z -> (0 <= depth')%Z ->
  check rest depth prev = Some (depth', prev') ->
  nestedRel (p =c "\") rest depth /\ depthRel (p =c "\") rest depth = depth'.
Proof.
  revert p depth prev; induction rest as [|c r IH]; intros p depth prev Hp Hncb H0 H0' E.
  - cbn in E. injection E as <- <-. cbn. tauto.
  - cbn [check] in E. destruct (Z.ltb_spec depth 0); [lia|].
    pose proof (noDoubleBackslash_tail _ _ Hncb) as Hncb'.
    cbn [nestedRel depthRel]. rewrite <- Hp.
    assert (Step : forall d' pv,
               isBackslash pv = (c =c "\") -> stepRel (isBackslash prev) c depth = d' ->
               check r d' pv = Some (depth', prev') ->
               (0 <= depth)%Z /\ nestedRel (c =c "\") r (stepRel (isBackslash prev) c depth)
               /\ depthRel (c =c "\") r (stepRel (isBackslash prev) c depth) = depth').
    { intros d' pv Hpv Hs Ec. rewrite Hs.
      destruct (Z.ltb_spec d' 0) as [Hneg|Hge].
      - rewrite check_negative in Ec by exact Hneg. injection Ec as <- <-. lia.
      - destruct (IH c d' pv Hpv Hncb' Hge H0' Ec). tauto. }
    destruct (Ascii.eqb_spec c "{") as [->|N1].
    { destruct (isBackslash prev) eqn:Eb.
      - destruct (Step depth other) as (A & B & C); [reflexivity|reflexivity|exact E|tauto].
      - destruct (Step (depth + 1)%Z opening) as (A & B & C);
          [reflexivity|reflexivity|exact E|tauto]. }
    destruct (Ascii.eqb_spec c "}") as [->|N2].
    { destruct (isBackslash prev) eqn:Eb.
      - destruct (Step depth other) as (A & B & C); [reflexivity|reflexivity|exact E|tauto].
      - destruct (Step (depth - 1)%Z closingBrace) as (A & B & C);
          [reflexivity|reflexivity|exact E|tauto]. }
    destruct (Ascii.eqb_spec c "\") as [->|N3].
    { destruct (isBackslash prev) eqn:Eb.
      - exfalso. symmetry in Hp. apply Ascii.eqb_eq in Hp. subst p.
        cbn in Hncb. discriminate.
      - destruct (Step depth backslash) as (A & B & C);
          [reflexivity|reflexivity|exact E|tauto]. }
    assert (Hs : stepRel (isBackslash prev) c depth = depth).
    { unfold stepRel. apply Ascii.eqb_neq in N1, N2. now rewrite N1, N2. }
    apply Ascii.eqb_neq in N3.
    destruct ((c =c "^") || (c =c "_")).
    + destruct (isOpening prev); [discriminate|].
      destruct (match r with x :: _ => x =c "}" | [] => false end); [discriminate|].
      destruct (Step depth (if isBackslash prev then other else script)) as (A & B & C);
        [destruct (isBackslash prev); reflexivity|exact Hs|exact E|]. tauto.
    + destruct (Step depth other) as (A & B & C); [reflexivity|exact Hs|exact E|tauto].
Qed.

(** X10.  On a label in which no backslash follows another one,
    [strToHtml] returns: every read of the label is within its bytes and
    the pieces [strToHtml2] is called on get shorter and shorter. *)
Theorem strToHtml_returns (str : string) :
  noDoubleBackslash (list_ascii_of_string str) = true ->
  exists html, strToHtml str = Returns html.
Proof.
  intros Hncb. unfold strToHtml.
  destruct (list_ascii_of_string str) as [|c0 rest] eqn:El; [eexists; reflexivity|].
  destruct (Ascii.eqb_spec c0 "}") as [->|N0]; cbn [orb]; [eexists; reflexivity|].
  destruct ((c0 =c "^") || (c0 =c "_")); [eexists; reflexivity|].
  destruct (check rest _ _) as [[depth prev]|] eqn:Ec; [|eexists; reflexivity].
  destruct (Z.eqb_spec depth 0) as [->|Hd]; cbn [negb orb]; [|eexists; reflexivity].
  destruct (isBackslash prev || isScript prev); [eexists; reflexivity|].
  assert (Hbr : braced (c0 :: rest)).
  { assert (Hprev : isBackslash (if c0 =c "\" then backslash else other) = (c0 =c "\"))
      by (destruct (c0 =c "\"); reflexivity).
    assert (H0 : (0 <= (if c0 =c "{" then 1 else 0))%Z) by (destruct (c0 =c "{"); lia).
    destruct (check_braced c0 rest _ 0 _ prev Hprev Hncb H0 ltac:(lia) Ec) as (Hn & Hdp).
    assert (Es : stepRel false c0 0 = (if c0 =c "{" then 1 else 0)%Z).
    { unfold stepRel. cbn [negb]. rewrite !andb_true_r.
      destruct (c0 =c "{"); [reflexivity|].
      apply Ascii.eqb_neq in N0. now rewrite N0. }
    split; cbn [nestedRel depthRel]; rewrite Es; [split; [lia|exact Hn]|exact Hdp]. }
  destruct (strToHtml2_braced (S (List.length (c0 :: rest))) (c0 :: rest)
              ltac:(lia) Hbr Hncb) as (html & ->).
  cbn [andThen]. destruct (String.length html =? 0)%nat; eexists; reflexivity.
Qed.

Lemma strToHtml_returns_witness :
  noDoubleBackslash (list_ascii_of_string "x^{a_1}\{b\}") = true /\
  exists html, strToHtml "x^{a_1}\{b\}" = Returns html.
Proof.
  split; [reflexivity|]. apply (strToHtml_returns "x^{a_1}\{b\}"). reflexivity.
Defined.

End LabelBraces.

(** * Labels: escaped signs and braces *)

Section LabelCases.
Import HTML_Label.
Local Open Scope string_scope.
Local Open Scope outcome_scope.
Local Notation "a =c b" := (Ascii.eqb a b%char) (at level 70).

Lemma indexOf_skip (c : ascii) (p rest : list ascii) (from : nat) :
  ~ In c p ->
  indexOf c from (p ++ rest)%list
  = option_map (Nat.add (List.length p)) (indexOf c (from - List.length p) rest).
Proof.
  revert from; induction p as [|x p IH]; intros from Hn.
  - cbn [app List.length]. rewrite Nat.sub_0_r. destruct (indexOf c from rest); reflexivity.
  - assert (Hx : (x =c c) = false) by (apply Ascii.eqb_neq; intros ->; apply Hn; now left).
    assert (Hp : ~ In c p) by (intros F; apply Hn; now right).
    cbn [app indexOf List.length]. destruct from as [|from].
    + rewrite Hx, (IH 0%nat Hp). cbn [Nat.sub].
      destruct (indexOf c 0 rest); reflexivity.
    + rewrite (IH from Hp). cbn [Nat.sub].
      destruct (indexOf c (from - List.length p) rest); reflexivity.
Qed.

Lemma byteAt_app (p rest : list ascii) (i : nat) :
  byteAt (p ++ rest)%list (List.length p + i) = byteAt rest i.
Proof. unfold byteAt. apply app_nth2_plus. Qed.

Lemma byteAt_app_last (p rest : list ascii) :
  byteAt (p ++ rest)%list (List.length p) = byteAt rest 0.
Proof. pose proof (byteAt_app p rest 0) as E. now rewrite Nat.add_0_r in E. Qed.

Lemma plain_not (c x : ascii) : plain c -> In x special -> c <> x.
Proof. intros Hp Hx ->. exact (Hp Hx). Qed.

(** Without an opening brace that counts, the search for one runs past
    the end of the label. *)
Lemma firstBraceFrom_none (fuel : nat) (chars : list ascii) (fb : nat) :
  (forall i, (fb <= i)%nat -> (byteAt chars i =c "{") && notAfterBackslash chars i = false) ->
  (List.length chars + 2 <= fuel + fb)%nat -> (fb <= List.length chars + 1)%nat ->
  firstBraceFrom fuel chars fb = ReadsPastEnd.
Proof.
  revert fb; induction fuel as [|fuel IH]; intros fb Hno Hf Hfb; [lia|].
  cbn [firstBraceFrom].
  destruct (Nat.ltb_spec (List.length chars) fb) as [Hlt|Hge]; [reflexivity|].
  assert (Ec : (negb (fb =? 0)%nat && (byteAt chars (fb - 1) =c "\"))
               = negb (notAfterBackslash chars fb)).
  { unfold notAfterBackslash. now rewrite negb_orb, negb_involutive. }
  rewrite Ec. pose proof (Hno fb ltac:(lia)) as Hfbno.
  destruct (byteAt chars fb =c "{"); cbn [negb orb andb] in *.
  - rewrite Hfbno. cbn [negb]. apply IH; [|lia|lia]. intros i Hi. apply Hno. lia.
  - apply IH; [|lia|lia]. intros i Hi. apply Hno. lia.
Qed.

(** X11.  A label that starts with two backslashes and a pair of braces,
    followed by an underscore and plain characters, passes the check of
    [strToHtml]; [strToHtml2] then takes the underscore to be inside
    braces, looks for an opening brace that does not follow a backslash,
    and reads past the end of the label. *)
Theorem strToHtml_reads_past_end (c : ascii) (w : list ascii) :
  plain c -> Forall plain w ->
  strToHtml (String "\" (String "\" (String "{" (String "}" (String "_"
               (String c (string_of_list_ascii w)))))))
  = ReadsPastEnd.
Proof.
  intros Hc Hw.
  destruct (plain_cases c Hc) as (E1 & E2 & E3 & E4 & E5 & E6 & E7 & E8 & E9).
  assert (Hcw : Forall plain (c :: w)) by (now constructor).
  unfold strToHtml. cbn [list_ascii_of_string]. rewrite list_ascii_of_string_of_list_ascii.
  set (chars := ("\" :: "\" :: "{" :: "}" :: "_" :: c :: w)%char).
  change ("\" =c "}") with false. change ("\" =c "^") with false.
  change ("\" =c "_") with false. change ("\" =c "{") with false.
  change ("\" =c "\") with true. cbn [orb].
  assert (Ec : check ("\" :: "{" :: "}" :: "_" :: c :: w)%char 0 backslash = Some (0%Z, other)).
  { cbn [check isBackslash isOpening Z.ltb Z.compare].
    change ("\" =c "{") with false. change ("\" =c "}") with false.
    change ("\" =c "\") with true. change ("{" =c "{") with true.
    change ("}" =c "{") with false. change ("}" =c "}") with true.
    change ("_" =c "{") with false. change ("_" =c "}") with false.
    change ("_" =c "\") with false. change ("_" =c "^") with false.
    change ("_" =c "_") with true. cbv iota. cbn [orb].
    change (0 + 1 <? 0)%Z with false. change (0 + 1 - 1 <? 0)%Z with false. cbv iota.
    rewrite E3, E2, E1, E7, E8. cbn [orb]. change (0 + 1 - 1)%Z with 0%Z.
    destruct w as [|d w']; [reflexivity|]. rewrite <- (app_nil_r (d :: w')).
    rewrite check_plain by (assumption || discriminate || lia). reflexivity. }
  rewrite Ec. cbn [Z.eqb negb orb isBackslash isScript].
  rewrite strToHtml2_S. cbv zeta.
  assert (Iu : indexOf "_"%char 0 chars = Some 4%nat) by reflexivity.
  assert (Ic : indexOf "^"%char 0 chars = None).
  { change chars with (["\"; "\"; "{"; "}"; "_"]%char ++ c :: w)%list.
    rewrite indexOf_skip by (cbn; intros F; repeat (destruct F as [F|F]; [discriminate|]); exact F).
    rewrite indexOf_None; [reflexivity|]. apply plain_not_in; [cbn; tauto|exact Hcw]. }
  rewrite Iu, Ic, skipEscaped_None.
  assert (Su : skipEscaped (List.length chars) chars (Some 4%nat) = Returns (Some 4%nat))
    by reflexivity.
  rewrite Su. cbn [andThen Nat.eqb].
  assert (Ed : depthBefore chars 4 = (-1)%Z) by reflexivity.
  rewrite Ed. change (-1 =? 0)%Z with false. cbv iota.
  rewrite firstBraceFrom_none; [reflexivity| |lia|lia].
  intros i _. destruct i as [|[|[|[|[|i]]]]]; try reflexivity.
  change (byteAt chars (S (S (S (S (S i)))))) with (byteAt (c :: w) i).
  destruct (Nat.lt_ge_cases i (List.length (c :: w))) as [Hlt|Hge].
  - assert (Hp : plain (byteAt (c :: w) i)).
    { rewrite Forall_forall in Hcw. apply Hcw. unfold byteAt. now apply nth_In. }
    destruct (plain_cases _ Hp) as (_ & -> & _). reflexivity.
  - unfold byteAt. rewrite nth_overflow by lia. reflexivity.
Qed.

Lemma strToHtml_reads_past_end_witness :
  plain "a" /\ Forall plain [] /\ strToHtml "\\{}_a" = ReadsPastEnd.
Proof.
  assert (Hc : plain "a").
  { intros F; cbn in F; repeat (destruct F as [F|F]; [discriminate|]); exact F. }
  split; [exact Hc|]. split; [constructor|].
  exact (strToHtml_reads_past_end "a" [] Hc (Forall_nil _)).
Defined.


(** *** Escaped signs *)

Lemma indexOf_from_app (c : ascii) (a b : list ascii) (from : nat) :
  (List.length a <= from)%nat ->
  indexOf c from (a ++ b)%list
  = option_map (Nat.add (List.length a)) (indexOf c (from - List.length a) b).
Proof.
  revert from; induction a as [|x a IH]; intros from Hf.
  - cbn [app List.length]. rewrite Nat.sub_0_r. destruct (indexOf c from b); reflexivity.
  - cbn [List.length] in Hf. destruct from as [|from]; [lia|].
    cbn [app indexOf List.length Nat.sub]. rewrite (IH from) by lia.
    destruct (indexOf c (from - List.length a) b); reflexivity.
Qed.

Lemma mathFontifyFrom_plain_false (l rest : list ascii) :
  Forall plain l ->
  mathFontifyFrom false (l ++ rest)%list = string_of_list_ascii l ++ mathFontifyFrom false rest.
Proof.
  intros Hl. destruct l as [|x l]; [reflexivity|].
  apply mathFontifyFrom_plain; [assumption|discriminate].
Qed.

Lemma check_plain_any (l rest : list ascii) (depth : Z) (prev : Prev) :
  Forall plain l -> (0 <= depth)%Z ->
  check (l ++ rest)%list depth prev
  = check rest depth (match l with [] => prev | _ => other end).
Proof.
  intros Hl Hd. destruct l as [|x l]; [reflexivity|].
  apply check_plain; [assumption|discriminate|assumption].
Qed.

Lemma depthRel_no_brace (bs : bool) (l : list ascii) (d : Z) :
  ~ In "{"%char l -> ~ In "}"%char l -> depthRel bs l d = d.
Proof.
  revert bs d; induction l as [|x l IH]; intros bs d H1 H2; [reflexivity|].
  cbn [depthRel]. rewrite (stepRel_other bs bs x d).
  - apply IH; intros F; [apply H1|apply H2]; now right.
  - intros ->. apply H1. now left.
  - intros ->. apply H2. now left.
Qed.

Lemma check_step (c : ascii) (rest' : list ascii) (depth : Z) (prev : Prev) :
  check (c :: rest') depth prev =
      if (depth <? 0)%Z then Some (depth, prev)
      else if c =c "{" then
        if isBackslash prev then check rest' depth other
        else check rest' (depth + 1)%Z opening
      else if c =c "}" then
        if isBackslash prev then check rest' depth other
        else check rest' (depth - 1)%Z closingBrace
      else if c =c "\" then
        if isBackslash prev then check rest' depth other
        else check rest' depth backslash
      else if (c =c "^") || (c =c "_") then
        if isOpening prev then None
        else if match rest' with x :: _ => x =c "}" | [] => false end then None
        else check rest' depth (if isBackslash prev then other else script)
      else check rest' depth other.
Proof. reflexivity. Qed.

(** The check of [strToHtml] on a label [p \s q s c r] where [s] is a
    sign and the rest is plain. *)
Lemma check_after_backslash (s : ascii) (q r : list ascii) (c : ascii) :
  isSign s -> Forall plain q -> plain c -> Forall plain r ->
  check (s :: q ++ s :: c :: r)%list 0 backslash = Some (0%Z, other).
Proof.
  intros Hs Hq Hc Hr.
  destruct (plain_cases c Hc) as (E1 & E2 & E3 & E4 & E5 & E6 & E7 & E8 & E9).
  assert (S1 : (s =c "{") = false) by (destruct Hs as [->| ->]; reflexivity).
  assert (S2 : (s =c "}") = false) by (destruct Hs as [->| ->]; reflexivity).
  assert (S3 : (s =c "\") = false) by (destruct Hs as [->| ->]; reflexivity).
  assert (S4 : (s =c "^") || (s =c "_") = true) by (destruct Hs as [->| ->]; reflexivity).
  rewrite check_step. change (0 <? 0)%Z with false. cbv iota.
  rewrite S1, S2, S3, S4. cbn [isBackslash isOpening].
  assert (Hhead : match (q ++ s :: c :: r)%list with
                  | [] => false | x :: _ => x =c "}" end = false).
  { destruct q as [|x q']; [exact S2|]. cbn [app].
    inversion Hq; subst. now destruct (plain_cases x ltac:(assumption)) as (_ & _ & -> & _). }
  rewrite Hhead. rewrite check_plain_any by (assumption || lia).
  rewrite check_step. change (0 <? 0)%Z with false. cbv iota.
  rewrite S1, S2, S3, S4, E3.
  assert (Ho : isOpening (match q with [] => other | _ => other end) = false)
    by (destruct q; reflexivity).
  assert (Hb : isBackslash (match q with [] => other | _ => other end) = false)
    by (destruct q; reflexivity).
  rewrite Ho, Hb.
  assert (Hcr : Forall plain (c :: r)) by (now constructor).
  rewrite <- (app_nil_r (c :: r)).
  rewrite (check_plain (c :: r) [] 0 script) by (assumption || discriminate || lia).
  reflexivity.
Qed.

Lemma check_escaped_sign (s : ascii) (p q r : list ascii) (c : ascii) (prev : Prev) :
  isSign s -> Forall plain p -> Forall plain q -> plain c -> Forall plain r ->
  isBackslash prev = false ->
  check (p ++ "\"%char :: s :: q ++ s :: c :: r)%list 0 prev = Some (0%Z, other).
Proof.
  intros Hs Hp Hq Hc Hr Hprev.
  rewrite check_plain_any by (assumption || lia).
  set (prev1 := match p with [] => prev | _ => other end).
  assert (Hprev1 : isBackslash prev1 = false) by (subst prev1; destruct p; auto).
  rewrite check_step. change (0 <? 0)%Z with false. cbv iota.
  change ("\" =c "{") with false. change ("\" =c "}") with false.
  change ("\" =c "\") with true. cbv iota. rewrite Hprev1.
  now apply check_after_backslash.
Qed.

Lemma mathFontifyFrom_hat (rest : list ascii) :
  mathFontifyFrom false ("^"%char :: rest) = "^" ++ mathFontifyFrom false rest.
Proof. reflexivity. Qed.

Lemma mathFontifyFrom_escaped_hat (rest : list ascii) :
  mathFontifyFrom false ("\"%char :: "^"%char :: rest) = "^" ++ mathFontifyFrom false rest.
Proof. reflexivity. Qed.

Lemma mathFontifyFrom_escaped_under (rest : list ascii) :
  mathFontifyFrom false ("\"%char :: "_"%char :: rest) = "_" ++ mathFontifyFrom false rest.
Proof. reflexivity. Qed.

Lemma notin_plain (x : ascii) (l : list ascii) : In x special -> Forall plain l -> ~ In x l.
Proof. intros Hx Hl. now apply plain_not_in. Qed.

Lemma notin_app (x : ascii) (a b : list ascii) : ~ In x a -> ~ In x b -> ~ In x (a ++ b)%list.
Proof. intros H1 H2 F. apply in_app_or in F. tauto. Qed.

Lemma notin_cons (x y : ascii) (l : list ascii) : x <> y -> ~ In x l -> ~ In x (y :: l).
Proof. intros H1 H2 [F|F]; [now subst|auto]. Qed.

Lemma byteAt_app_left (a b : list ascii) (i : nat) :
  (i < List.length a)%nat -> byteAt (a ++ b)%list i = byteAt a i.
Proof. intros Hi. unfold byteAt. now apply app_nth1. Qed.

Lemma firstn_length_app (a b : list ascii) : firstn (List.length a) (a ++ b)%list = a.
Proof. rewrite <- (Nat.add_0_r (List.length a)), firstn_app_2. cbn. apply app_nil_r. Qed.

Lemma skipn_length_app (a b : list ascii) : skipn (List.length a) (a ++ b)%list = b.
Proof. induction a as [|x a IH]; [reflexivity|exact IH]. Qed.

(** The text before the second underscore of [p\_q_cr]. *)
Lemma strToHtml2_escaped_under (fuel : nat) (p q : list ascii) :
  Forall plain p -> Forall plain q ->
  strToHtml2 (S fuel) (p ++ "\"%char :: "_"%char :: q)%list
  = Returns (string_of_list_ascii (p ++ "_"%char :: q)%list).
Proof.
  intros Hp Hq. set (chars := (p ++ "\"%char :: "_"%char :: q)%list).
  rewrite strToHtml2_S. cbv zeta.
  assert (Iu : indexOf "_"%char 0 chars = Some (S (List.length p))).
  { subst chars. rewrite indexOf_skip by (apply notin_plain; [cbn; tauto|assumption]).
    cbn [Nat.sub indexOf]. change ("\" =c "_") with false. change ("_" =c "_") with true.
    cbn [option_map]. f_equal. lia. }
  assert (Ic : indexOf "^"%char 0 chars = None).
  { apply indexOf_None. subst chars.
    apply notin_app; [apply notin_plain; [cbn; tauto|assumption]|].
    apply notin_cons; [discriminate|]. apply notin_cons; [discriminate|].
    apply notin_plain; [cbn; tauto|assumption]. }
  assert (Inext : indexOf "_"%char (S (S (List.length p))) chars = None).
  { subst chars.
    change (p ++ "\"%char :: "_"%char :: q)%list
      with (p ++ ["\"%char; "_"%char] ++ q)%list.
    rewrite app_assoc. rewrite indexOf_from_app by (rewrite length_app; cbn [List.length]; lia).
    rewrite indexOf_None; [reflexivity|]. apply notin_plain; [cbn; tauto|assumption]. }
  rewrite Iu, Ic, skipEscaped_None.
  assert (Hlen : exists n, List.length chars = S n).
  { subst chars. rewrite length_app. cbn. eexists. rewrite Nat.add_succ_r. reflexivity. }
  destruct Hlen as (n & ->). cbn [skipEscaped].
  assert (Eb : byteAt chars (List.length p) = "\"%char).
  { subst chars. now rewrite byteAt_app_last. }
  rewrite Eb. change ("\" =c "\") with true. cbv iota.
  rewrite Inext, skipEscaped_None. cbn [andThen].
  unfold mathFontify. subst chars.
  rewrite mathFontifyFrom_plain_false by assumption.
  rewrite mathFontifyFrom_escaped_under.
  rewrite <- (app_nil_r q) at 1.
  rewrite mathFontifyFrom_plain_false by assumption.
  cbn [mathFontifyFrom]. rewrite append_nil_r.
  rewrite !string_of_list_app. reflexivity.
Qed.

(** The text from the second underscore of [p\_q_cr] on. *)
Lemma strToHtml2_under (fuel : nat) (c : ascii) (r : list ascii) :
  plain c -> Forall plain r ->
  strToHtml2 (S (S fuel)) ("_"%char :: c :: r)
  = Returns ("<sub>" ++ String c "</sub>" ++ string_of_list_ascii r).
Proof.
  intros Hc Hr.
  destruct (plain_cases c Hc) as (E1 & E2 & E3 & E4 & E5 & E6 & E7 & E8 & E9).
  assert (Hcr : Forall plain (c :: r)) by (now constructor).
  rewrite strToHtml2_S. cbv zeta.
  assert (Iu : indexOf "_"%char 0 ("_"%char :: c :: r) = Some O) by reflexivity.
  assert (Ic : indexOf "^"%char 0 ("_"%char :: c :: r) = None).
  { apply indexOf_None. apply notin_cons; [discriminate|].
    apply notin_plain; [cbn; tauto|assumption]. }
  rewrite Iu, Ic, skipEscaped_None.
  change (skipEscaped (List.length ("_"%char :: c :: r)) ("_"%char :: c :: r) (Some O))
    with (@Returns (option nat) (Some O)).
  cbn [andThen Nat.eqb].
  change (byteAt ("_"%char :: c :: r) 1) with c.
  change (byteAt ("_"%char :: c :: r) 0) with "_"%char.
  rewrite E2, E1. cbn [negb andb Nat.add].
  change (mid ("_"%char :: c :: r) 2 (-1)) with r.
  change (mid ("_"%char :: c :: r) 1 (Z.of_nat 1)) with [c].
  rewrite (strToHtml2_plain fuel r Hr). cbn [andThen].
  rewrite mathFontify_plain by (constructor; [assumption|constructor]).
  unfold scripted. change ("_" =c "^") with false. cbv iota.
  cbn [string_of_list_ascii]. rewrite !append_assoc. reflexivity.
Qed.

(** X12.  An escaped circumflex hides the superscripts after it.  In a
    label [p\^q^cr] of otherwise plain characters both circumflexes are
    shown as they are and nothing is raised, whereas in [p\_q_cr] the
    first underscore is shown and the second one lowers [c]: the loop that
    skips an escaped circumflex goes on to look for an underscore. *)
Theorem escaped_circumflex_hides_superscripts (p q r : list ascii) (c : ascii) :
  Forall plain p -> Forall plain q -> plain c -> Forall plain r ->
  strToHtml (string_of_list_ascii (p ++ "\"%char :: "^"%char :: q ++ "^"%char :: c :: r)%list)
  = Returns (inLabelFont (string_of_list_ascii (p ++ "^"%char :: q ++ "^"%char :: c :: r)%list)) /\
  strToHtml (string_of_list_ascii (p ++ "\"%char :: "_"%char :: q ++ "_"%char :: c :: r)%list)
  = Returns (inLabelFont (string_of_list_ascii (p ++ "_"%char :: q)%list
                          ++ "<sub>" ++ String c "</sub>" ++ string_of_list_ascii r)).
Proof.
  intros Hp Hq Hc Hr.
  destruct (plain_cases c Hc) as (E1 & E2 & E3 & E4 & E5 & E6 & E7 & E8 & E9).
  assert (Hcr : Forall plain (c :: r)) by (now constructor).
  assert (Top : forall s, isSign s ->
     forall html : string, html <> "" ->
     strToHtml2 (S (List.length (p ++ "\"%char :: s :: q ++ s :: c :: r)%list))
                (p ++ "\"%char :: s :: q ++ s :: c :: r)%list = Returns html ->
     strToHtml (string_of_list_ascii (p ++ "\"%char :: s :: q ++ s :: c :: r)%list)
     = Returns (inLabelFont html)).
  { intros s Hs html Hne E2h.
    assert (S0 : (s =c "}") || (s =c "^") || (s =c "_") = true)
      by (destruct Hs as [->| ->]; reflexivity).
    unfold strToHtml. rewrite list_ascii_of_string_of_list_ascii.
    destruct p as [|a p'].
    - cbn [app] in *. change ("\" =c "}") with false. change ("\" =c "^") with false.
      change ("\" =c "_") with false. change ("\" =c "{") with false.
      change ("\" =c "\") with true. cbn [orb].
      rewrite (check_after_backslash s q r c Hs Hq Hc Hr). cbn [Z.eqb negb orb isBackslash isScript].
      rewrite E2h. cbn [andThen]. destruct html; [congruence|reflexivity].
    - cbn [app] in *. inversion Hp as [|? ? Ha Hp']; subst.
      destruct (plain_cases a Ha) as (A1 & A2 & A3 & A4 & A5 & A6 & A7 & A8 & A9).
      rewrite A1, A2, A3, A7, A8. cbn [orb].
      rewrite (check_escaped_sign s p' q r c other Hs Hp' Hq Hc Hr eq_refl).
      cbn [Z.eqb negb orb isBackslash isScript].
      rewrite E2h. cbn [andThen]. destruct html; [congruence|reflexivity]. }
  split.
  - (* the circumflex *)
    set (chars := (p ++ "\"%char :: "^"%char :: q ++ "^"%char :: c :: r)%list).
    assert (E : strToHtml2 (S (List.length chars)) chars
                = Returns (string_of_list_ascii (p ++ "^"%char :: q ++ "^"%char :: c :: r)%list)).
    { rewrite strToHtml2_S. cbv zeta.
      assert (Hnu : ~ In "_"%char chars).
      { subst chars.
        apply notin_app; [apply notin_plain; [cbn; tauto|assumption]|].
        apply notin_cons; [discriminate|]. apply notin_cons; [discriminate|].
        apply notin_app; [apply notin_plain; [cbn; tauto|assumption]|].
        apply notin_cons; [discriminate|]. apply notin_plain; [cbn; tauto|assumption]. }
      assert (Iu : indexOf "_"%char 0 chars = None) by (now apply indexOf_None).
      assert (Ic : indexOf "^"%char 0 chars = Some (S (List.length p))).
      { subst chars. rewrite indexOf_skip by (apply notin_plain; [cbn; tauto|assumption]).
        cbn [Nat.sub indexOf]. change ("\" =c "^") with false. change ("^" =c "^") with true.
        cbn [option_map]. f_equal. lia. }
      assert (Inext : indexOf "_"%char (S (S (List.length p))) chars = None)
        by (now apply indexOf_None).
      rewrite Iu, Ic, skipEscaped_None. cbn [andThen].
      assert (Hlen : exists n, List.length chars = S n).
      { subst chars. rewrite length_app. cbn. exists (List.length p + S (List.length (q ++ "^"%char :: c :: r)))%nat. lia. }
      destruct Hlen as (n & ->). cbn [skipEscaped].
      assert (Eb : byteAt chars (List.length p) = "\"%char).
      { subst chars. now rewrite byteAt_app_last. }
      rewrite Eb. change ("\" =c "\") with true. cbv iota.
      rewrite Inext, skipEscaped_None. cbn [andThen].
      unfold mathFontify. subst chars.
      rewrite mathFontifyFrom_plain_false by assumption.
      rewrite mathFontifyFrom_escaped_hat.
      rewrite mathFontifyFrom_plain_false by assumption.
      rewrite mathFontifyFrom_hat.
      rewrite <- (app_nil_r (c :: r)) at 1.
      rewrite mathFontifyFrom_plain by (assumption || discriminate).
      cbn [mathFontifyFrom]. rewrite append_nil_r.
      rewrite !string_of_list_app. cbn [string_of_list_ascii append].
      rewrite !string_of_list_app. reflexivity. }
    apply (Top "^"%char ltac:(now right)); [|exact E].
    rewrite string_of_list_app. destruct p; cbn; discriminate.
  - (* the underscore *)
    set (before := (p ++ "\"%char :: "_"%char :: q)%list).
    assert (Echars : (p ++ "\"%char :: "_"%char :: q ++ "_"%char :: c :: r)%list
                     = (before ++ "_"%char :: c :: r)%list).
    { subst before. rewrite <- app_assoc. reflexivity. }
    set (chars := (before ++ "_"%char :: c :: r)%list).
    assert (Hnb : ~ In "{"%char before /\ ~ In "}"%char before /\ ~ In "^"%char before).
    { subst before. repeat split;
        (apply notin_app; [apply notin_plain; [cbn; tauto|assumption]|];
         apply notin_cons; [discriminate|]; apply notin_cons; [discriminate|];
         apply notin_plain; [cbn; tauto|assumption]). }
    destruct Hnb as (Hn1 & Hn2 & Hn3).
    assert (Hb2 : (2 <= List.length before)%nat).
    { subst before. rewrite length_app. cbn. lia. }
    assert (E : strToHtml2 (S (List.length chars)) chars
                = Returns (string_of_list_ascii (p ++ "_"%char :: q)%list
                           ++ "<sub>" ++ String c "</sub>" ++ string_of_list_ascii r)).
    { rewrite strToHtml2_S. cbv zeta.
      assert (Iu : indexOf "_"%char 0 chars = Some (S (List.length p))).
      { subst chars before. rewrite <- app_assoc.
        rewrite indexOf_skip by (apply notin_plain; [cbn; tauto|assumption]).
        cbn [Nat.sub indexOf app]. change ("\" =c "_") with false.
        change ("_" =c "_") with true. cbn [option_map]. f_equal. lia. }
      assert (Ic : indexOf "^"%char 0 chars = None).
      { apply indexOf_None. subst chars. apply notin_app; [exact Hn3|].
        apply notin_cons; [discriminate|]. apply notin_plain; [cbn; tauto|now constructor]. }
      assert (Inext : indexOf "_"%char (S (S (List.length p))) chars
                      = Some (List.length before)).
      { subst chars before.
        change (p ++ "\"%char :: "_"%char :: q)%list
          with (p ++ ["\"%char; "_"%char] ++ q)%list.
        rewrite (app_assoc p), <- (app_assoc (p ++ _)).
        rewrite indexOf_from_app by (rewrite length_app; cbn [List.length]; lia).
        replace (S (S (List.length p)) - List.length (p ++ ["\"%char; "_"%char]))%nat
          with 0%nat by (rewrite length_app; cbn [List.length]; lia).
        rewrite indexOf_skip by (apply notin_plain; [cbn; tauto|assumption]).
        cbn [Nat.sub indexOf].
        change ("_" =c "_") with true. cbn [option_map]. f_equal.
        rewrite !length_app. cbn. lia. }
      rewrite Iu, Ic, skipEscaped_None.
      assert (Hlen : exists n, List.length chars = S (S (S n))).
      { subst chars. rewrite length_app. cbn. exists (List.length before - 2 + S (List.length r))%nat. lia. }
      destruct Hlen as (n & Hlen). rewrite Hlen. cbn [skipEscaped].
      assert (Eb : byteAt chars (List.length p) = "\"%char).
      { subst chars before. rewrite <- app_assoc. now rewrite byteAt_app_last. }
      rewrite Eb. change ("\" =c "\") with true. cbv iota. rewrite Inext.
      assert (Hlast : exists k, List.length before = S k /\ (byteAt chars k =c "\") = false).
      { exists (List.length before - 1)%nat. split; [lia|].
        subst chars. rewrite byteAt_app_left by lia. subst before.
        change (p ++ "\"%char :: "_"%char :: q)%list
          with (p ++ ["\"%char] ++ "_"%char :: q)%list.
        rewrite app_assoc.
        replace (List.length ((p ++ ["\"%char]) ++ "_"%char :: q) - 1)%nat
          with (List.length (p ++ ["\"%char]) + List.length q)%nat
          by (rewrite !length_app; cbn [List.length]; lia).
        rewrite byteAt_app.
        assert (Hin : In (byteAt ("_"%char :: q) (List.length q)) ("_"%char :: q))
          by (apply nth_In; cbn; lia).
        destruct Hin as [<-|Hin]; [reflexivity|].
        rewrite Forall_forall in Hq. now destruct (plain_cases _ (Hq _ Hin)) as (-> & _). }
      destruct Hlast as (k & Ek & Hk). rewrite Ek.
      cbn [skipEscaped]. rewrite Hk. cbn [andThen Nat.eqb].
      rewrite <- Ek.
      assert (Ed : depthBefore chars (List.length before) = 0%Z).
      { rewrite depthBefore_rel by (subst chars; rewrite length_app; lia).
        subst chars. rewrite firstn_length_app. now apply depthRel_no_brace. }
      rewrite Ed. change (0 =? 0)%Z with true. cbv iota.
      unfold left, mid. change (-1 <? 0)%Z with true. cbv iota.
      subst chars. rewrite firstn_length_app, skipn_length_app.
      subst before. rewrite strToHtml2_escaped_under by assumption. cbn [andThen].
      rewrite strToHtml2_under by assumption. cbn [andThen]. reflexivity. }
    subst chars. rewrite <- Echars in E.
    apply (Top "_"%char ltac:(now left)); [|exact E].
    rewrite string_of_list_app. destruct p; cbn; discriminate.
Qed.

Lemma escaped_circumflex_hides_superscripts_witness :
  Forall plain ["a"%char] /\ Forall plain ["b"%char] /\ plain "c" /\ Forall plain [] /\
  (strToHtml "a\^b^c" = Returns (inLabelFont "a^b^c") /\
   strToHtml "a\_b_c" = Returns (inLabelFont "a_b<sub>c</sub>")).
Proof.
  assert (Ha : plain "a")
    by (intros F; cbn in F; repeat (destruct F as [F|F]; [discriminate|]); exact F).
  assert (Hb : plain "b")
    by (intros F; cbn in F; repeat (destruct F as [F|F]; [discriminate|]); exact F).
  assert (Hc : plain "c")
    by (intros F; cbn in F; repeat (destruct F as [F|F]; [discriminate|]); exact F).
  assert (Hp : Forall plain ["a"%char]) by (repeat constructor; exact Ha).
  assert (Hq : Forall plain ["b"%char]) by (repeat constructor; exact Hb).
  split; [exact Hp|]. split; [exact Hq|]. split; [exact Hc|]. split; [constructor|].
  exact (escaped_circumflex_hides_superscripts ["a"%char] ["b"%char] [] "c"
           Hp Hq Hc (Forall_nil _)).
Defined.

End LabelCases.

(** * The mouse and the keys: what the handlers of the scene keep *)

Section PointerFacts.
Context `{Platform}.

(** ** Changes that keep the views *)

Lemma Stable_views (mode : CanvasScene.Mode) (s : CanvasScene.t) (gs' : Graphs) :
  Stable (mode, s) -> NoDup (keys gs') -> NoDup (refs gs') ->
  (forall gid nid es c, NodeT gs' gid nid es c <-> NodeT (CanvasScene.graphs s) gid nid es c) ->
  (forall gid eid a b, EdgeT gs' gid eid a b <-> EdgeT (CanvasScene.graphs s) gid eid a b) ->
  Stable (mode, CanvasScene.setGraphs s gs').
Proof.
  intros (Hwf & Hconn & Hsel & Hmode) Hk Hr HN HE. simpl in Hwf, Hconn, Hsel, Hmode.
  destruct (views_transfer _ gs' Hwf Hconn Hk Hr HN HE) as (Hwf' & Hconn').
  assert (HH : forall k x, hasNode gs' k x <-> hasNode (CanvasScene.graphs s) k x).
  { intros k x. unfold hasNode. split; intros (es & c & T); exists es, c; now apply HN. }
  unfold Stable. cbn [fst snd CanvasScene.graphs CanvasScene.setGraphs].
  split; [exact Hwf'|]. split; [exact Hconn'|]. split; [|exact Hmode].
  constructor; cbn [CanvasScene.graphs CanvasScene.setGraphs CanvasScene.connectNode1a
                      CanvasScene.connectNode1b CanvasScene.connectNode2a
                      CanvasScene.connectNode2b].
  - intros a Ea. destruct (sel_1a _ Hsel a Ea) as (k & Hk'). exists k. now apply HH.
  - intros b Eb. destruct (sel_1b _ Hsel b Eb) as (a & k & Ea & Ha & Hb & Hab).
    exists a, k. repeat split; try assumption; now apply HH.
  - intros c Ec. destruct (sel_2a _ Hsel c Ec) as (k & Hk'). exists k. now apply HH.
  - intros d Ed. destruct (sel_2b _ Hsel d Ed) as (c & k & Ec & Hc & Hd & Hcd).
    exists c, k. repeat split; try assumption; now apply HH.
Qed.

(** A scene with the same graphs and the same picked nodes. *)
Lemma Stable_same (mode : CanvasScene.Mode) (s s' : CanvasScene.t) :
  CanvasScene.graphs s' = CanvasScene.graphs s -> picksOf s' = picksOf s ->
  Stable (mode, s) -> Stable (mode, s').
Proof.
  intros G P (Hwf & Hconn & Hsel & Hmode). simpl in Hwf, Hconn, Hsel, Hmode.
  unfold picksOf in P. inversion P as [[Pa Pb Pc Pd]].
  unfold Stable. cbn [fst snd]. rewrite G.
  split; [exact Hwf|]. split; [exact Hconn|]. split.
  - constructor; rewrite G, ?Pa, ?Pb, ?Pc, ?Pd.
    + exact (sel_1a _ Hsel).
    + exact (sel_1b _ Hsel).
    + exact (sel_2a _ Hsel).
    + exact (sel_2b _ Hsel).
  - intros Hm. destruct (Hmode Hm) as (A & B & C & D).
    unfold nothingPicked. rewrite Pa, Pb, Pc, Pd. tauto.
Qed.

Lemma NodeT_setPos_node (n : nat) (q : QPointF) (gs : Graphs) (gid nid : nat)
      (es : list nat) (c : Z) :
  NodeT (Items.updateNode n (fun nd => Node.setPos nd q) gs) gid nid es c
  <-> NodeT gs gid nid es c.
Proof.
  rewrite (NodeT_updateNode n (fun nd => Node.setPos nd q) (fun l => l) (fun z => z)).
  - split.
    + intros (es0 & c0 & T & -> & ->). now destruct (Nat.eqb nid n).
    + intros T. exists es, c. now destruct (Nat.eqb nid n).
  - intros nd. now destruct nd.
Qed.

Lemma hasNode_setPos_node (n : nat) (q : QPointF) (gs : Graphs) (gid nid : nat) :
  hasNode (Items.updateNode n (fun nd => Node.setPos nd q) gs) gid nid <-> hasNode gs gid nid.
Proof.
  unfold hasNode. split; intros (es & c & T); exists es, c;
    [now apply NodeT_setPos_node in T|now apply NodeT_setPos_node].
Qed.

Lemma Stable_setPos_node (mode : CanvasScene.Mode) (s : CanvasScene.t) (n : nat) (q : QPointF) :
  Stable (mode, s) ->
  Stable (mode, CanvasScene.setGraphs s
                  (Items.updateNode n (fun nd => Node.setPos nd q) (CanvasScene.graphs s))).
Proof.
  intros Hst. pose proof Hst as (Hwf & _). simpl in Hwf.
  apply Stable_views; [exact Hst| | | |].
  - rewrite keys_updateNode. exact (wf_keys _ Hwf).
  - rewrite refs_updateNode; [exact (wf_refs _ Hwf)|]. intros nd. now destruct nd.
  - intros. apply NodeT_setPos_node.
  - intros. apply EdgeT_updateNode.
Qed.

Lemma Stable_setPos_graph (mode : CanvasScene.Mode) (s : CanvasScene.t) (g : nat) (q : QPointF) :
  Stable (mode, s) ->
  Stable (mode, CanvasScene.setGraphs s
                  (Items.updateGraph g (fun gr => Graph.setPos gr q) (CanvasScene.graphs s))).
Proof.
  intros Hst. pose proof Hst as (Hwf & _). simpl in Hwf.
  pose proof (topoStep_setPos g q (CanvasScene.graphs s)) as T.
  apply Stable_views; [exact Hst| | | |].
  - destruct T as (K & _). rewrite K. exact (wf_keys _ Hwf).
  - destruct T as (_ & R & _). rewrite R. exact (wf_refs _ Hwf).
  - intros. now apply NodeT_topoStep.
  - intros. now apply EdgeT_topoStep.
Qed.

(** ** Removing a graph with all it holds *)

Lemma hasNode_removeGraph (k : nat) (gs : Graphs) (gid nid : nat) :
  hasNode (Items.removeGraph k gs) gid nid <-> hasNode gs gid nid /\ gid <> k.
Proof.
  unfold hasNode. split.
  - intros (es & c & T). apply NodeT_removeGraph in T. destruct T as (T & N).
    split; [now exists es, c|exact N].
  - intros ((es & c & T) & N). exists es, c. apply NodeT_removeGraph. now split.
Qed.

Lemma reach_removeGraph (k : nat) (gs : Graphs) (gid u v : nat) :
  gid <> k -> (reach (Items.removeGraph k gs) gid u v <-> reach gs gid u v).
Proof.
  intros N. split.
  - induction 1 as [|u v w _ IH (e & A)]; [apply reach_refl|].
    eapply reach_step; [exact IH|]. exists e.
    destruct A as [A|A]; apply EdgeT_removeGraph in A; tauto.
  - induction 1 as [|u v w _ IH (e & A)]; [apply reach_refl|].
    eapply reach_step; [exact IH|]. exists e.
    destruct A as [A|A]; [left|right]; apply EdgeT_removeGraph; tauto.
Qed.

Lemma removeGraph_sound (k : nat) (gs : Graphs) :
  WellFormed gs -> Connected gs ->
  WellFormed (Items.removeGraph k gs) /\ Connected (Items.removeGraph k gs).
Proof.
  intros Hwf Hconn. split.
  - constructor.
    + apply NoDup_keys_removeGraph. exact (wf_keys _ Hwf).
    + apply NoDup_refs_removeGraph. exact (wf_refs _ Hwf).
    + intros gid eid s d T. apply EdgeT_removeGraph in T. destruct T as (T & N).
      destruct (wf_ends _ Hwf _ _ _ _ T) as (A & B & C).
      repeat split; try assumption; apply hasNode_removeGraph; now split.
    + intros gid nid es c x T Hx. apply NodeT_removeGraph in T. destruct T as (T & N).
      destruct (wf_listed _ Hwf _ _ _ _ _ T Hx) as (s & d & E & Hsd).
      exists s, d. split; [|exact Hsd]. apply EdgeT_removeGraph. now split.
    + intros gid eid s d nid es c E T Hsd.
      apply EdgeT_removeGraph in E. apply NodeT_removeGraph in T.
      exact (wf_lists _ Hwf _ _ _ _ _ _ _ (proj1 E) (proj1 T) Hsd).
    + intros gid nid es c T. apply NodeT_removeGraph in T.
      exact (wf_once _ Hwf _ _ _ _ (proj1 T)).
    + intros gid nid es c T. apply NodeT_removeGraph in T.
      exact (wf_unchecked _ Hwf _ _ _ _ (proj1 T)).
  - intros gid u Hu v. apply hasNode_removeGraph in Hu. destruct Hu as (Hu & N).
    rewrite (reach_removeGraph k gs gid u v N), hasNode_removeGraph.
    rewrite (Hconn gid u Hu v). tauto.
Qed.

(** ** The parts of a press *)

Lemma present_node (gs : Graphs) (n : nat) :
  Pointer.present gs (Pointer.HitNode n) = true -> exists g, hasNode gs g n.
Proof.
  cbn [Pointer.present]. destruct (Items.findNode gs n) as [nd|] eqn:F; [|discriminate].
  intros _. destruct (findNode_NodeT _ _ _ F) as (g & T). exists g. eexists; eexists; exact T.
Qed.

Lemma pickFrom_cases (hits : list Pointer.Hit) (s : CanvasScene.t) :
  (forall n, In (Pointer.HitNode n) hits -> exists g, hasNode (CanvasScene.graphs s) g n) ->
  Pointer.pickFrom hits s = s
  \/ exists n g, hasNode (CanvasScene.graphs s) g n
                 /\ Pointer.pickFrom hits s = CanvasScene.pickNode n s.
Proof.
  induction hits as [|h rest IH]; intros Hin; [now left|].
  assert (Hrest : forall n, In (Pointer.HitNode n) rest ->
                            exists g, hasNode (CanvasScene.graphs s) g n)
    by (intros n Hn; apply Hin; now right).
  destruct h as [n|e|o|g]; cbn [Pointer.pickFrom]; try exact (IH Hrest).
  destruct (Pointer.samePicks s (CanvasScene.pickNode n s)); [exact (IH Hrest)|].
  right. destruct (Hin n (or_introl eq_refl)) as (g & Hg). now exists n, g.
Qed.

Lemma filter_present_node (gs : Graphs) (l : list Pointer.Hit) (n : nat) :
  In (Pointer.HitNode n) (filter (Pointer.present gs) l) -> exists g, hasNode gs g n.
Proof.
  intros Hin. apply filter_In in Hin. exact (present_node gs n (proj2 Hin)).
Qed.

Lemma forget_nil (n : nat) : Pointer.forget n [] = [].
Proof. reflexivity. Qed.

Lemma deleteFrom_steady (hits : list Pointer.Hit) (p : Pointer.t) :
  Pointer.modeType p = CanvasScene.del -> Steady p ->
  exists p', Pointer.deleteFrom hits p = Some p' /\ Steady p'
             /\ Pointer.modeType p' = Pointer.modeType p.
Proof.
  intros Hm HS. pose proof HS as (Hst & Hundo & Hall).
  rewrite Hm in Hst. destruct Hst as (Hwf & Hconn & Hsel & Hmode).
  simpl in Hwf, Hconn, Hsel, Hmode.
  assert (Hnone : nothingPicked (Pointer.scene p)) by (apply Hmode; discriminate).
  assert (Hu : Pointer.undoPositions p = []) by (apply Hundo; rewrite Hm; discriminate).
  induction hits as [|h rest IH]; [now exists p|].
  destruct h as [n|e|o|g]; cbn [Pointer.deleteFrom]; try exact IH.
  - destruct (deleteNode_sound n (Pointer.scene p) Hwf Hconn) as (s' & Hrun & Hwf' & Hconn').
    rewrite Hrun. eexists. split; [reflexivity|]. split; [|reflexivity].
    pose proof (nothingPicked_picksOf _ s' (deleteNode_picks n _ s' Hrun) Hnone) as Hnone'.
    unfold Steady, Pointer.graphs.
    cbn [Pointer.setUndoPositions Pointer.setScene Pointer.scene Pointer.modeType
           Pointer.undoPositions].
    rewrite Hu, Hm. cbn [Pointer.forget]. split; [|split; [reflexivity|constructor]].
    unfold Stable. cbn [fst snd]. split; [exact Hwf'|]. split; [exact Hconn'|].
    split; [now apply nothingPicked_Selected|now intros _].
  - destruct (deleteEdge_sound e (Pointer.scene p) Hwf Hconn) as (s' & Hrun & Hwf' & Hconn').
    rewrite Hrun. eexists. split; [reflexivity|]. split; [|reflexivity].
    pose proof (nothingPicked_picksOf _ s' (deleteEdge_picks e _ s' Hrun) Hnone) as Hnone'.
    unfold Steady, Pointer.graphs.
    cbn [Pointer.setUndoPositions Pointer.setScene Pointer.scene Pointer.modeType
           Pointer.undoPositions].
    rewrite Hu, Hm. split; [|split; [reflexivity|constructor]].
    unfold Stable. cbn [fst snd]. split; [exact Hwf'|]. split; [exact Hconn'|].
    split; [now apply nothingPicked_Selected|now intros _].
Qed.

Lemma editFrom_steady (ev : Pointer.MouseEvent) (hits : list Pointer.Hit) (p : Pointer.t) :
  Pointer.modeType p = CanvasScene.edit -> Steady p ->
  Steady (Pointer.editFrom ev hits p)
  /\ Pointer.modeType (Pointer.editFrom ev hits p) = Pointer.modeType p.
Proof.
  intros Hm HS. induction hits as [|h rest IH]; [now split|].
  destruct h as [n|e|o|g]; cbn [Pointer.editFrom]; try exact IH.
  destruct (Items.findNode (Pointer.graphs p) n) as [nd|] eqn:F; [|exact IH].
  split; [|reflexivity]. destruct HS as (Hst & Hundo & Hall).
  unfold Steady, Pointer.graphs in *.
  cbn [Pointer.scene Pointer.modeType Pointer.undoPositions].
  split; [exact Hst|]. split; [intros N; now rewrite Hm in N|].
  apply Forall_app. split; [exact Hall|]. constructor; [|constructor].
  cbn [Pointer.node]. destruct (findNode_NodeT _ _ _ F) as (g & T). exists g. eexists; eexists; exact T.
Qed.

Lemma grab_same (ev : Pointer.MouseEvent) (g : nat) (p : Pointer.t) :
  Pointer.scene (Pointer.grab ev g p) = Pointer.scene p
  /\ Pointer.modeType (Pointer.grab ev g p) = Pointer.modeType p
  /\ Pointer.undoPositions (Pointer.grab ev g p) = Pointer.undoPositions p.
Proof.
  unfold Pointer.grab. now destruct (Items.lookupGraph (Pointer.graphs p) g).
Qed.

Lemma dragFrom_same (ev : Pointer.MouseEvent) (hits : list Pointer.Hit) (p : Pointer.t) :
  Pointer.scene (Pointer.dragFrom ev hits p) = Pointer.scene p
  /\ Pointer.modeType (Pointer.dragFrom ev hits p) = Pointer.modeType p
  /\ Pointer.undoPositions (Pointer.dragFrom ev hits p) = Pointer.undoPositions p.
Proof.
  unfold Pointer.dragFrom.
  destruct (find (fun h => negb (Pointer.isGraphHit h)) hits) as [h|].
  - destruct (Pointer.topLevel (Pointer.graphs p) h); [apply grab_same|now repeat split].
  - destruct (find Pointer.isGraphHit hits) as [[n|e|o|g]|]; try now repeat split.
    apply grab_same.
Qed.

(** The three members the invariant looks at. *)
Lemma Steady_same (p p' : Pointer.t) :
  Pointer.scene p' = Pointer.scene p -> Pointer.modeType p' = Pointer.modeType p ->
  Pointer.undoPositions p' = Pointer.undoPositions p -> Steady p -> Steady p'.
Proof.
  unfold Steady, Pointer.graphs. intros -> -> ->. tauto.
Qed.

Lemma mousePressEvent_steady (ev : Pointer.MouseEvent) (p : Pointer.t) :
  Steady p ->
  exists p', Pointer.mousePressEvent ev p = Some p' /\ Steady p'
             /\ Pointer.modeType p' = Pointer.modeType p.
Proof.
  intros HS. unfold Pointer.mousePressEvent.
  pose proof (filter_present_node (Pointer.graphs p) (Pointer.itemList ev)) as Hnodes.
  destruct (filter (Pointer.present (Pointer.graphs p)) (Pointer.itemList ev)) as [|h rest].
  { eexists. split; [reflexivity|]. split; [|reflexivity].
    now apply (Steady_same p). }
  set (hits := h :: rest) in *.
  destruct (Pointer.modeType p) eqn:Hm.
  - (* drag *)
    eexists. split; [reflexivity|].
    destruct (dragFrom_same ev hits p) as (A & B & C).
    split; [now apply (Steady_same p)|]. now rewrite B.
  - (* join *)
    eexists. split; [reflexivity|]. split; [|exact Hm].
    destruct HS as (Hst & Hundo & Hall). rewrite Hm in Hst, Hundo.
    pose proof Hst as (Hwf & Hconn & Hsel & Hmode). simpl in Hwf, Hconn, Hsel, Hmode.
    assert (Hu : Pointer.undoPositions p = []) by (apply Hundo; discriminate).
    unfold Steady, Pointer.graphs.
    cbn [Pointer.setScene Pointer.scene Pointer.modeType Pointer.undoPositions].
    rewrite Hm, Hu. split; [|split; [reflexivity|constructor]].
    destruct (pickFrom_cases hits (Pointer.scene p) Hnodes) as [->|(n & g & Hg & ->)];
      [exact Hst|].
    unfold Stable. cbn [fst snd]. rewrite pickNode_graphs.
    split; [exact Hwf|]. split; [exact Hconn|]. split; [|congruence].
    exact (pickNode_Selected n g _ (wf_refs _ Hwf) Hsel Hg).
  - (* del *)
    destruct (deleteFrom_steady hits p Hm HS) as (p' & Hrun & HS' & Hm').
    exists p'. split; [exact Hrun|]. split; [exact HS'|]. now rewrite Hm'.
  - (* edit *)
    eexists. split; [reflexivity|]. destruct (Pointer.leftButton ev).
    + destruct (editFrom_steady ev hits p Hm HS) as (A & B). split; [exact A|]. now rewrite B.
    + now split.
  - eexists. split; [reflexivity|]. now split.
  - eexists. split; [reflexivity|]. now split.
Qed.

(** ** Moving and letting go *)

Lemma Steady_setPos_graph (p : Pointer.t) (g : nat) (q : QPointF) (p' : Pointer.t) :
  Pointer.scene p'
  = CanvasScene.setGraphs (Pointer.scene p)
      (Items.updateGraph g (fun gr => Graph.setPos gr q) (Pointer.graphs p)) ->
  Pointer.modeType p' = Pointer.modeType p ->
  Pointer.undoPositions p' = Pointer.undoPositions p ->
  Steady p -> Steady p'.
Proof.
  intros Es Em Eu (Hst & Hundo & Hall). unfold Steady, Pointer.graphs in *.
  rewrite Es, Em, Eu. split; [now apply Stable_setPos_graph|]. split; [exact Hundo|].
  cbn [CanvasScene.graphs CanvasScene.setGraphs].
  eapply Forall_impl; [|exact Hall]. intros u (k & Hk). exists k.
  apply (hasNode_topoStep _ _ _ _ (topoStep_setPos g q (CanvasScene.graphs (Pointer.scene p)))).
  exact Hk.
Qed.

Lemma Steady_setPos_node (p : Pointer.t) (n : nat) (q : QPointF) (p' : Pointer.t) :
  Pointer.scene p'
  = CanvasScene.setGraphs (Pointer.scene p)
      (Items.updateNode n (fun nd => Node.setPos nd q) (Pointer.graphs p)) ->
  Pointer.modeType p' = Pointer.modeType p ->
  (exists rest, Pointer.undoPositions p = Pointer.undoPositions p' ++ rest) ->
  Steady p -> Steady p'.
Proof.
  intros Es Em (rest & Eu) (Hst & Hundo & Hall). unfold Steady, Pointer.graphs in *.
  rewrite Es, Em. split; [now apply Stable_setPos_node|]. split.
  - intros N. specialize (Hundo N). rewrite Eu in Hundo.
    now destruct (app_eq_nil _ _ Hundo).
  - cbn [CanvasScene.graphs CanvasScene.setGraphs]. rewrite Eu in Hall.
    apply Forall_app in Hall. destruct Hall as (Hall & _).
    eapply Forall_impl; [|exact Hall]. intros u (k & Hk). exists k.
    now apply hasNode_setPos_node.
Qed.

Lemma Steady_emit (p p' : Pointer.t) (sig : Signal) :
  Pointer.scene p' = CanvasScene.emit (Pointer.scene p) sig ->
  Pointer.modeType p' = Pointer.modeType p ->
  Pointer.undoPositions p' = Pointer.undoPositions p ->
  Steady p -> Steady p'.
Proof.
  intros Es Em Eu (Hst & Hundo & Hall). unfold Steady, Pointer.graphs in *.
  rewrite Es, Em, Eu. split; [|split; [exact Hundo|exact Hall]].
  now apply (Stable_same _ (Pointer.scene p)).
Qed.

Lemma mouseMoveEvent_steady (ev : Pointer.MouseEvent) (p p' : Pointer.t) :
  Steady p -> Pointer.mouseMoveEvent ev p = Some p' ->
  Steady p' /\ Pointer.modeType p' = Pointer.modeType p.
Proof.
  intros HS. unfold Pointer.mouseMoveEvent.
  destruct (Pointer.mDragged p) as [[g|n]|]; destruct (Pointer.dragging p);
    try (intros E; inversion E; subst; now split).
  - destruct (Items.lookupGraph (Pointer.graphs p) g); [|discriminate].
    intros E. inversion E; subst. split; [|reflexivity].
    now apply (Steady_setPos_graph p g (psub (Pointer.scenePos ev) (Pointer.mDragOffset p))).
  - destruct (Items.findNode (Pointer.graphs p) n); [|discriminate].
    intros E. inversion E; subst. split; [|reflexivity].
    apply (Steady_setPos_node p n (Pointer.inParent ev)); try reflexivity; [|exact HS].
    exists []. cbn. now rewrite app_nil_r.
Qed.

Lemma snapped_steady_graph (p : Pointer.t) (g : nat) (q : QPointF) :
  Steady p ->
  Steady (Pointer.dropped
            (Pointer.snapped p (Items.updateGraph g (fun gr => Graph.setPos gr q)
                                                  (Pointer.graphs p)))).
Proof.
  intros HS.
  pose proof (Steady_setPos_graph p g q
                (Pointer.setMoved
                   (Pointer.setGraphs p (Items.updateGraph g (fun gr => Graph.setPos gr q)
                                                           (Pointer.graphs p))) false)
                eq_refl eq_refl eq_refl HS) as H1.
  unfold Pointer.dropped, Pointer.snapped.
  destruct (Pointer.modeType p);
    try (eapply Steady_same; [| | |exact H1]; reflexivity).
  eapply Steady_same; [reflexivity|reflexivity|reflexivity|].
  eapply Steady_emit; [| | |exact H1]; reflexivity.
Qed.

Lemma snapped_steady_node (p : Pointer.t) (n : nat) (q : QPointF) :
  Steady p ->
  Steady (Pointer.dropped
            (Pointer.snapped p (Items.updateNode n (fun nd => Node.setPos nd q)
                                                 (Pointer.graphs p)))).
Proof.
  intros HS.
  assert (H1 : Steady (Pointer.setMoved
                   (Pointer.setGraphs p (Items.updateNode n (fun nd => Node.setPos nd q)
                                                          (Pointer.graphs p))) false)).
  { apply (Steady_setPos_node p n q); try reflexivity; [|exact HS].
    exists []. cbn. now rewrite app_nil_r. }
  unfold Pointer.dropped, Pointer.snapped.
  destruct (Pointer.modeType p);
    try (eapply Steady_same; [| | |exact H1]; reflexivity).
  eapply Steady_same; [reflexivity|reflexivity|reflexivity|].
  eapply Steady_emit; [| | |exact H1]; reflexivity.
Qed.

Lemma snapped_modeType (p : Pointer.t) (gs : Graphs) :
  Pointer.modeType (Pointer.dropped (Pointer.snapped p gs)) = Pointer.modeType p.
Proof.
  unfold Pointer.dropped, Pointer.snapped.
  destruct (Pointer.modeType p) eqn:E; cbn; exact E.
Qed.

Lemma mouseReleaseEvent_steady (p p' : Pointer.t) :
  Steady p -> Pointer.mouseReleaseEvent p = Some p' ->
  Steady p' /\ Pointer.modeType p' = Pointer.modeType p.
Proof.
  intros HS. unfold Pointer.mouseReleaseEvent.
  assert (Hd : Steady (Pointer.dropped p)) by now apply (Steady_same p).
  destruct (Pointer.mDragged p) as [[g|n]|];
    [| |intros E; inversion E; subst; now split];
    (destruct (Pointer.snapToGrid p && Pointer.moved p && Pointer.dragging p);
     [|intros E; inversion E; subst; now split]).
  - destruct (Items.lookupGraph (Pointer.graphs p) g) as [gr|]; [|discriminate].
    destruct (Pointer.snapDown (px (Graph.pos gr)) (fst (Pointer.mCellSize p))) as [x|];
      [|discriminate].
    destruct (Pointer.snapDown (py (Graph.pos gr)) (snd (Pointer.mCellSize p))) as [y|];
      [|discriminate].
    intros E. inversion E; subst. split; [now apply snapped_steady_graph|].
    apply snapped_modeType.
  - destruct (Items.findNode (Pointer.graphs p) n) as [nd|]; [|discriminate].
    destruct (Pointer.snapNear (px (Node.pos nd)) (fst (Pointer.mCellSize p))) as [x|];
      [|discriminate].
    destruct (Pointer.snapNear (py (Node.pos nd)) (snd (Pointer.mCellSize p))) as [y|];
      [|discriminate].
    intros E. inversion E; subst. split; [now apply snapped_steady_node|].
    apply snapped_modeType.
Qed.

(** ** The double click, the keys and the mode *)

Lemma mouseDoubleClickEvent_steady (ev : Pointer.MouseEvent) (p : Pointer.t) :
  Steady p ->
  Steady (Pointer.mouseDoubleClickEvent ev p)
  /\ Pointer.modeType (Pointer.mouseDoubleClickEvent ev p) = Pointer.modeType p.
Proof.
  intros HS. unfold Pointer.mouseDoubleClickEvent.
  destruct (Pointer.modeType p) eqn:Hm; try (split; [exact HS|exact Hm]).
  destruct (filter (Pointer.present (Pointer.graphs p)) (Pointer.itemList ev)) as [|h rest];
    [split; [exact HS|exact Hm]|].
  assert (Hgo : forall g,
             Steady (Pointer.setScene p
                (CanvasScene.emit
                   (CanvasScene.setCanvasGraphList
                      (CanvasScene.setGraphs (Pointer.scene p)
                         (Items.removeGraph g (CanvasScene.graphs (Pointer.scene p))))
                      (removeOne g (CanvasScene.canvasGraphList (Pointer.scene p))))
                   somethingChanged))).
  { intros g. destruct HS as (Hst & Hundo & Hall). rewrite Hm in Hst, Hundo.
    destruct Hst as (Hwf & Hconn & Hsel & Hmode). simpl in Hwf, Hconn, Hsel, Hmode.
    assert (Hnone : nothingPicked (Pointer.scene p)) by (apply Hmode; discriminate).
    assert (Hu : Pointer.undoPositions p = []) by (apply Hundo; discriminate).
    destruct (removeGraph_sound g _ Hwf Hconn) as (Hwf' & Hconn').
    unfold Steady, Pointer.graphs.
    cbn [Pointer.setScene Pointer.scene Pointer.modeType Pointer.undoPositions].
    rewrite Hm, Hu. split; [|split; [reflexivity|constructor]].
    unfold Stable. cbn [fst snd CanvasScene.graphs CanvasScene.emit
                          CanvasScene.setCanvasGraphList CanvasScene.setGraphs].
    split; [exact Hwf'|]. split; [exact Hconn'|].
    assert (Hnone' : nothingPicked
              (CanvasScene.emit
                 (CanvasScene.setCanvasGraphList
                    (CanvasScene.setGraphs (Pointer.scene p)
                       (Items.removeGraph g (CanvasScene.graphs (Pointer.scene p))))
                    (removeOne g (CanvasScene.canvasGraphList (Pointer.scene p))))
                 somethingChanged)) by exact Hnone.
    split; [now apply nothingPicked_Selected|now intros _]. }
  destruct h as [n|e|o|g];
    try (destruct (Pointer.topLevel (Pointer.graphs p) _);
         [split; [apply Hgo|exact Hm]|split; [exact HS|exact Hm]]).
  split; [exact HS|exact Hm].
Qed.

Lemma keyReleaseEvent_J_nothing (s : CanvasScene.t) :
  nothingPicked s -> CanvasScene.keyReleaseEvent_J s = Some (CanvasScene.unselect s).
Proof.
  intros (A & B & C & D). unfold CanvasScene.keyReleaseEvent_J. now rewrite A.
Qed.

Lemma takeLast_app {A : Type} (l front : list A) (x : A) :
  Pointer.takeLast l = Some (front, x) -> l = front ++ [x].
Proof.
  revert front. induction l as [|y rest IH]; intros front; [discriminate|].
  cbn [Pointer.takeLast]. destruct rest as [|z rest'].
  - intros E. now inversion E.
  - destruct (Pointer.takeLast (z :: rest')) as [[f l0]|]; [|discriminate].
    intros E. inversion E; subst. cbn. f_equal. now apply IH.
Qed.

Lemma takeLast_snoc {A : Type} (front : list A) (x : A) :
  Pointer.takeLast (front ++ [x]) = Some (front, x).
Proof.
  induction front as [|y rest IH]; [reflexivity|].
  cbn [app Pointer.takeLast]. rewrite IH. now destruct rest.
Qed.

Lemma keyReleaseEvent_steady (k : Pointer.Key) (p : Pointer.t) :
  Steady p ->
  exists p', Pointer.keyReleaseEvent k p = Some p' /\ Steady p'
             /\ Pointer.modeType p' = Pointer.modeType p.
Proof.
  intros HS. destruct k; cbn [Pointer.keyReleaseEvent].
  - (* 'j' *)
    pose proof HS as (Hst & Hundo & Hall).
    pose proof Hst as (Hwf & Hconn & Hsel & Hmode). simpl in Hwf, Hconn, Hsel, Hmode.
    assert (Hdec : Pointer.modeType p = CanvasScene.join
                   \/ Pointer.modeType p <> CanvasScene.join)
      by (destruct (Pointer.modeType p); (now left) || (right; discriminate)).
    destruct Hdec as [Hj|Hj].
    + destruct (keyReleaseEvent_J_sound _ Hwf Hconn Hsel) as (s' & Hrun & Hwf' & Hconn' & Hn').
      rewrite Hrun. eexists. split; [reflexivity|]. split; [|reflexivity].
      assert (Hu : Pointer.undoPositions p = []) by (apply Hundo; rewrite Hj; discriminate).
      unfold Steady, Pointer.graphs.
      cbn [Pointer.setScene Pointer.scene Pointer.modeType Pointer.undoPositions].
      rewrite Hu. split; [|split; [reflexivity|constructor]].
      unfold Stable. cbn [fst snd]. split; [exact Hwf'|]. split; [exact Hconn'|].
      split; [now apply nothingPicked_Selected|now intros _].
    + rewrite (keyReleaseEvent_J_nothing _ (Hmode Hj)).
      eexists. split; [reflexivity|]. split; [|reflexivity].
      unfold Steady, Pointer.graphs.
      cbn [Pointer.setScene Pointer.scene Pointer.modeType Pointer.undoPositions].
      split; [|split; [exact Hundo|exact Hall]].
      now apply (Stable_same _ (Pointer.scene p)); [| |exact Hst];
        [reflexivity|destruct (Hmode Hj) as (A & B & C & D); unfold picksOf;
                     cbn; now rewrite A, B, C, D].
  - (* Escape *)
    destruct (Pointer.takeLast (Pointer.undoPositions p)) as [[front u]|] eqn:T;
      [|now exists p].
    apply takeLast_app in T.
    pose proof HS as (_ & _ & Hall). rewrite T in Hall. apply Forall_app in Hall.
    destruct Hall as (_ & Hu). inversion Hu as [|? ? (g & Hg) _]; subst.
    destruct (hasNode_findNode _ _ _ Hg) as (nd & F & _).
    unfold Pointer.graphs in F |- *. rewrite F.
    eexists. split; [reflexivity|]. split; [|reflexivity].
    eapply Steady_emit; [reflexivity|reflexivity|reflexivity|].
    apply (Steady_setPos_node p (Pointer.node u) (Pointer.pos u)); try reflexivity;
      [|exact HS].
    exists [u]. exact T.
  - now exists p.
Qed.

Lemma setCanvasMode_steady (mode : CanvasScene.Mode) (p : Pointer.t) :
  Steady p -> Steady (Pointer.setCanvasMode mode p).
Proof.
  intros ((Hwf & Hconn & _ & _) & _ & _). simpl in Hwf, Hconn.
  unfold Steady, Pointer.graphs.
  cbn [Pointer.setCanvasMode Pointer.scene Pointer.modeType Pointer.undoPositions].
  split; [|split; [reflexivity|constructor]].
  unfold Stable. cbn [fst snd]. split; [exact Hwf|]. split; [exact Hconn|].
  split; [apply nothingPicked_Selected|intros _]; unfold nothingPicked; simpl; tauto.
Qed.

Lemma setRotation_steady (g : nat) (amount : Q) (relative : bool) (p : Pointer.t) :
  Steady p ->
  Steady (Pointer.setGraphs p
            (Items.updateGraph g (fun x => Graph.setRotation x amount relative)
                               (Pointer.graphs p))).
Proof.
  intros (Hst & Hundo & Hall). unfold Steady, Pointer.graphs.
  cbn [Pointer.setGraphs Pointer.setScene Pointer.scene Pointer.modeType
         Pointer.undoPositions].
  split; [now apply rotate_sound|]. split; [exact Hundo|].
  cbn [CanvasScene.graphs CanvasScene.setGraphs].
  eapply Forall_impl; [|exact Hall]. intros u (k & Hk). exists k.
  apply (hasNode_topoStep _ _ _ _
           (topoStep_setRotation g amount relative (CanvasScene.graphs (Pointer.scene p)))).
  exact Hk.
Qed.

End PointerFacts.

(** ** Looking up what was changed *)

Lemma lookupGraph_updateGraph (k : nat) (f : Graph.t -> Graph.t) (gs : Graphs) :
  Items.lookupGraph (Items.updateGraph k f gs) k = option_map f (Items.lookupGraph gs k).
Proof.
  unfold Items.lookupGraph, Items.updateGraph.
  induction gs as [|[k' g'] gs IH]; [reflexivity|].
  cbn [map find fst snd]. destruct (Nat.eqb k' k) eqn:Ek; cbn [fst snd].
  - rewrite Ek. reflexivity.
  - rewrite Ek. exact IH.
Qed.

Lemma lookupGraph_updateGraph_other (k : nat) (f : Graph.t -> Graph.t) (gs : Graphs) (gid : nat) :
  gid <> k ->
  Items.lookupGraph (Items.updateGraph k f gs) gid = Items.lookupGraph gs gid.
Proof.
  intros Hne. unfold Items.lookupGraph, Items.updateGraph.
  induction gs as [|[k' g'] gs IH]; [reflexivity|].
  cbn [map find fst snd]. destruct (Nat.eqb k' k) eqn:Ek; cbn [fst snd].
  - apply Nat.eqb_eq in Ek. subst k'.
    destruct (Nat.eqb k gid) eqn:Eg; [apply Nat.eqb_eq in Eg; congruence|exact IH].
  - destruct (Nat.eqb k' gid); [reflexivity|exact IH].
Qed.

Lemma findIn_map (F : Item -> Item) (items : list Item) (r : ItemRef) :
  (forall it, refOf (F it) = refOf it) ->
  Items.findIn (map F items) r = option_map F (Items.findIn items r).
Proof.
  intros HF. unfold Items.findIn. induction items as [|it rest IH]; [reflexivity|].
  cbn [map find]. rewrite HF. destruct (refEqb (refOf it) r); [reflexivity|exact IH].
Qed.

Lemma findItem_mapItems (F : Item -> Item) (gs : Graphs) (r : ItemRef) :
  (forall it, refOf (F it) = refOf it) ->
  Items.findItem (Items.mapItems F gs) r
  = option_map (fun x => (fst x, F (snd x))) (Items.findItem gs r).
Proof.
  intros HF. induction gs as [|[k g] gs IH]; [reflexivity|].
  cbn [Items.mapItems map Items.findItem fst snd Items.setChildren Graph.childItems].
  rewrite (findIn_map F _ r HF).
  destruct (Items.findIn (Graph.childItems g) r); [reflexivity|exact IH].
Qed.

Lemma findNode_updateNode (n : nat) (f : Node.t -> Node.t) (gs : Graphs) :
  (forall nd, Node.id (f nd) = Node.id nd) ->
  Items.findNode (Items.updateNode n f gs) n = option_map f (Items.findNode gs n).
Proof.
  intros Hf. unfold Items.findNode, Items.updateNode. rewrite findItem_mapItems.
  - destruct (Items.findItem gs (NodeRef n)) as [[k it]|] eqn:F; [|reflexivity].
    cbn [option_map fst snd]. destruct it as [nd|e]; [|reflexivity].
    destruct (findItem_Some _ _ _ _ F) as (_ & E). cbn [refOf] in E.
    inversion E as [E']. rewrite E', Nat.eqb_refl. reflexivity.
  - intros [nd|e]; [|reflexivity].
    destruct (Nat.eqb (Node.id nd) n); cbn [refOf]; now rewrite ?Hf.
Qed.

(** ** The arithmetic of the grid *)

Lemma two_pow_30 : (2 ^ 30 = 1073741824)%Z.
Proof. reflexivity. Qed.

Lemma two_pow_31 : (2 ^ 31 = 2147483648)%Z.
Proof. reflexivity. Qed.

Lemma isInt_bounds (x : Z) :
  (- 2 ^ 31 <= x <= 2 ^ 31 - 1)%Z -> Pointer.isInt x = true.
Proof.
  intros (A & B). unfold Pointer.isInt. apply andb_true_intro.
  split; now apply Z.leb_le.
Qed.

Lemma inject_Z_lt (a b : Z) : (a < b)%Z <-> inject_Z a < inject_Z b.
Proof. now rewrite Zlt_Qlt. Qed.

Lemma inject_Z_le (a b : Z) : (a <= b)%Z <-> inject_Z a <= inject_Z b.
Proof. now rewrite Zle_Qle. Qed.

Lemma cell_scale (v : Q) (w : Z) :
  (0 < w)%Z -> v / inject_Z w * inject_Z w == v.
Proof.
  intros Hw. field. intros E. apply (inject_Z_lt 0 w) in Hw. rewrite E in Hw.
  exact (Qlt_irrefl _ Hw).
Qed.

Lemma snapDown_spec (v : Q) (w : Z) :
  (0 < w <= 2 ^ 30)%Z -> - inject_Z (2 ^ 30) <= v <= inject_Z (2 ^ 30) ->
  exists i, Pointer.snapDown v w = Some (i * w)%Z
            /\ inject_Z (i * w) <= v /\ v < inject_Z (i * w) + inject_Z w.
Proof.
  intros (Hw & Hw') (Hlo & Hhi). exists (Qfloor (v / inject_Z w)).
  pose proof (cell_scale v w Hw) as Ev.
  pose proof (Qfloor_le (v / inject_Z w)) as Fl.
  pose proof (Qlt_floor (v / inject_Z w)) as Fu.
  rewrite inject_Z_plus in Fu. change (inject_Z 1) with 1 in Fu.
  assert (HW : 0 < inject_Z w) by now apply (inject_Z_lt 0 w).
  set (x := v / inject_Z w) in *. set (i := Qfloor x) in *.
  assert (A : inject_Z (i * w) <= v).
  { rewrite inject_Z_mult, <- Ev. apply Qmult_le_compat_r; [exact Fl|now apply Qlt_le_weak]. }
  assert (B : v < inject_Z (i * w) + inject_Z w).
  { rewrite inject_Z_mult, <- Ev.
    setoid_replace (inject_Z i * inject_Z w + inject_Z w)
      with ((inject_Z i + 1) * inject_Z w) by ring.
    now apply Qmult_lt_compat_r. }
  split; [|split; [exact A|exact B]].
  unfold Pointer.snapDown. fold x. fold i.
  destruct (Z.eqb_spec w 0) as [E|_]; [lia|].
  rewrite isInt_bounds; [reflexivity|].
  assert (A' : (i * w <= 2 ^ 30)%Z) by (apply inject_Z_le; now apply (Qle_trans _ v)).
  assert (B' : (- 2 ^ 30 - w < i * w)%Z).
  { apply inject_Z_lt. unfold Z.sub. rewrite inject_Z_plus, !inject_Z_opp.
    apply (Qplus_lt_l _ _ (inject_Z w)).
    apply (Qle_lt_trans _ v); [|exact B].
    setoid_replace (- inject_Z (2 ^ 30) + - inject_Z w + inject_Z w)
      with (- inject_Z (2 ^ 30)) by ring.
    exact Hlo. }
  rewrite two_pow_30 in *. rewrite two_pow_31. lia.
Qed.

Lemma round_near (x : Q) :
  x - (1 # 2) <= inject_Z (Pointer.round x) /\ inject_Z (Pointer.round x) <= x + (1 # 2).
Proof.
  unfold Pointer.round. destruct (Qle_bool 0 x).
  - pose proof (Qfloor_le (x + (1 # 2))) as Fl.
    pose proof (Qlt_floor (x + (1 # 2))) as Fu. rewrite inject_Z_plus in Fu.
    change (inject_Z 1) with 1 in Fu. split; [|exact Fl]. lra.
  - pose proof (Qfloor_le (- x + (1 # 2))) as Fl.
    pose proof (Qlt_floor (- x + (1 # 2))) as Fu. rewrite inject_Z_plus in Fu.
    change (inject_Z 1) with 1 in Fu. rewrite inject_Z_opp. split; lra.
Qed.

Lemma snapNear_spec (v : Q) (w : Z) :
  (0 < w <= 2 ^ 30)%Z -> - inject_Z (2 ^ 30) <= v <= inject_Z (2 ^ 30) ->
  exists i, Pointer.snapNear v w = Some (i * w)%Z
            /\ v - (1 # 2) * inject_Z w <= inject_Z (i * w)
            /\ inject_Z (i * w) <= v + (1 # 2) * inject_Z w.
Proof.
  intros (Hw & Hw') (Hlo & Hhi). exists (Pointer.round (v / inject_Z w)).
  pose proof (cell_scale v w Hw) as Ev.
  destruct (round_near (v / inject_Z w)) as (Rl & Ru).
  assert (HW : 0 < inject_Z w) by now apply (inject_Z_lt 0 w).
  assert (HW' : inject_Z w <= inject_Z (2 ^ 30)) by (apply -> inject_Z_le; exact Hw').
  set (x := v / inject_Z w) in *. set (i := Pointer.round x) in *.
  assert (A : v - (1 # 2) * inject_Z w <= inject_Z (i * w)).
  { rewrite inject_Z_mult, <- Ev.
    setoid_replace (x * inject_Z w - (1 # 2) * inject_Z w)
      with ((x - (1 # 2)) * inject_Z w) by ring.
    apply Qmult_le_compat_r; [exact Rl|now apply Qlt_le_weak]. }
  assert (B : inject_Z (i * w) <= v + (1 # 2) * inject_Z w).
  { rewrite inject_Z_mult, <- Ev.
    setoid_replace (x * inject_Z w + (1 # 2) * inject_Z w)
      with ((x + (1 # 2)) * inject_Z w) by ring.
    apply Qmult_le_compat_r; [exact Ru|now apply Qlt_le_weak]. }
  split; [|split; [exact A|exact B]].
  unfold Pointer.snapNear. fold x. fold i.
  destruct (Z.eqb_spec w 0) as [E|_]; [lia|].
  rewrite isInt_bounds; [reflexivity|].
  assert (A' : (- 2 ^ 31 <= i * w)%Z).
  { apply inject_Z_le. apply (Qle_trans _ (v - (1 # 2) * inject_Z w)); [|exact A].
    rewrite inject_Z_opp. rewrite two_pow_30 in *. rewrite two_pow_31.
    change (inject_Z 2147483648) with (2 * inject_Z 1073741824). lra. }
  assert (B' : (i * w <= 2 ^ 31 - 1)%Z).
  { apply inject_Z_le. apply (Qle_trans _ (v + (1 # 2) * inject_Z w)); [exact B|].
    rewrite two_pow_30 in *. rewrite two_pow_31.
    change (inject_Z (2147483648 - 1)) with (inject_Z 1073741824 + inject_Z 1073741823).
    assert (inject_Z 1073741824 <= 2 * inject_Z 1073741823) by (vm_compute; discriminate).
    lra. }
  split; assumption.
Qed.

(** * The mouse and the keys: sequences of inputs, the grid, undoing *)

Section PointerInputs.
Context `{Platform}.

Lemma input_steady (i : Input) (p p' : Pointer.t) :
  Steady p -> input i p = Some p' -> Steady p'.
Proof.
  intros HS. destruct i as [mode|ev|ev| |ev|k|snap|size|g amount relative]; cbn [input].
  - intros E. inversion E; subst. now apply setCanvasMode_steady.
  - intros E. destruct (mousePressEvent_steady ev p HS) as (q & Hq & HSq & _). congruence.
  - intros E. exact (proj1 (mouseMoveEvent_steady ev p p' HS E)).
  - intros E. exact (proj1 (mouseReleaseEvent_steady p p' HS E)).
  - intros E. inversion E; subst. exact (proj1 (mouseDoubleClickEvent_steady ev p HS)).
  - intros E. destruct (keyReleaseEvent_steady k p HS) as (q & Hq & HSq & _). congruence.
  - intros E. inversion E; subst. now apply (Steady_same p).
  - intros E. inversion E; subst. now apply (Steady_same p).
  - intros E. inversion E; subst. now apply setRotation_steady.
Qed.



End PointerInputs.

Lemma pointerStart_Steady : Steady pointerStart.
Proof.
  split; [|split; [reflexivity|constructor]].
  split; [exact sceneStart_WellFormed|]. split; [exact sceneStart_Connected|].
  split; [apply nothingPicked_Selected|intros _]; repeat split.
Qed.



(** ** Letting go with the grid on *)

Section PointerGrid.



End PointerGrid.



(** ** From the press to the release *)

Section PointerGestures.
Context `{Platform}.

Lemma inputs_app (l1 l2 : list Input) (p : Pointer.t) :
  inputs (l1 ++ l2) p
  = match inputs l1 p with
    | Some q => inputs l2 q
    | None => None
    end.
Proof.
  revert p. induction l1 as [|i rest IH]; intros p; [reflexivity|].
  cbn [app inputs]. destruct (input i p); [apply IH|reflexivity].
Qed.

Lemma mapItems_ext (F G : Item -> Item) (gs : Graphs) :
  (forall it, F it = G it) -> Items.mapItems F gs = Items.mapItems G gs.
Proof.
  intros E. unfold Items.mapItems. apply map_ext. intros kg.
  now rewrite (map_ext F G E).
Qed.

Lemma mapItems_mapItems (F G : Item -> Item) (gs : Graphs) :
  Items.mapItems F (Items.mapItems G gs) = Items.mapItems (fun it => F (G it)) gs.
Proof.
  unfold Items.mapItems. rewrite map_map. apply map_ext. intros kg.
  cbn [fst snd Items.setChildren Graph.childItems Graph.pos Graph.rotation].
  now rewrite map_map.
Qed.

Lemma mapItems_fixed (F : Item -> Item) (gs : Graphs) :
  (forall gid it, InGraph gs gid it -> F it = it) -> Items.mapItems F gs = gs.
Proof.
  induction gs as [|[k g] gs IH]; intros Hfix; [reflexivity|].
  unfold Items.mapItems in *. cbn [map fst snd]. f_equal.
  - destruct g as [pos rot items]. unfold Items.setChildren.
    cbn [Graph.pos Graph.rotation Graph.childItems]. do 2 f_equal.
    rewrite <- (map_id items) at 2. apply map_ext_in. intros it Hin.
    apply (Hfix k). exists (Graph.mk pos rot items). split; [now left|exact Hin].
  - apply IH. intros gid it (g' & Hg' & Hin). apply (Hfix gid).
    exists g'. split; [now right|exact Hin].
Qed.

Lemma updateNode_setPos_twice (n : nat) (a b : QPointF) (gs : Graphs) :
  Items.updateNode n (fun x => Node.setPos x b)
                   (Items.updateNode n (fun x => Node.setPos x a) gs)
  = Items.updateNode n (fun x => Node.setPos x b) gs.
Proof.
  unfold Items.updateNode. rewrite mapItems_mapItems. apply mapItems_ext.
  intros [nd|e]; [|reflexivity].
  destruct (Nat.eqb (Node.id nd) n) eqn:E; [|now rewrite E].
  cbn [Node.setPos Node.id]. now rewrite E.
Qed.

Lemma updateNode_setPos_same (n : nat) (nd : Node.t) (gs : Graphs) :
  NoDup (refs gs) -> Items.findNode gs n = Some nd ->
  Items.updateNode n (fun x => Node.setPos x (Node.pos nd)) gs = gs.
Proof.
  intros Hr F. destruct (findNode_Some _ _ _ F) as ((g0 & Hat) & Hid).
  apply mapItems_fixed. intros gid [m|e] Hin; [|reflexivity].
  destruct (Nat.eqb (Node.id m) n) eqn:E; [|reflexivity].
  apply Nat.eqb_eq in E.
  destruct (InGraph_unique gs gid g0 (NodeItem m) (NodeItem nd) Hr Hin Hat) as (_ & Em).
  { cbn [refOf]. congruence. }
  inversion Em; subst. now destruct nd.
Qed.

Lemma editFrom_cases (ev : Pointer.MouseEvent) (hits : list Pointer.Hit) (p : Pointer.t) :
  Pointer.editFrom ev hits p = p
  \/ exists n nd,
       Items.findNode (Pointer.graphs p) n = Some nd
       /\ Pointer.editFrom ev hits p
          = Pointer.mk (Pointer.scene p) (Pointer.modeType p) (Pointer.snapToGrid p)
              (Pointer.moved p) (Pointer.mCellSize p) (Some (Pointer.DraggedNode n))
              (if Pointer.snapToGrid p then psub (Pointer.scenePos ev) (Node.pos nd)
               else Pointer.mDragOffset p)
              (Pointer.undoPositions p ++ [Pointer.mkUndo (Node.pos nd) n]).
Proof.
  induction hits as [|h rest IH]; [now left|].
  destruct h as [n|e|o|g]; cbn [Pointer.editFrom]; try exact IH.
  destruct (Items.findNode (Pointer.graphs p) n) as [nd|] eqn:F; [|exact IH].
  right. now exists n, nd.
Qed.

Lemma press_EditingNode (ev : Pointer.MouseEvent) (p p1 : Pointer.t) (n : nat) :
  NoDup (refs (Pointer.graphs p)) ->
  Pointer.modeType p = CanvasScene.edit -> Pointer.mDragged p = None ->
  Pointer.mousePressEvent ev p = Some p1 ->
  Pointer.mDragged p1 = Some (Pointer.DraggedNode n) ->
  exists nd, Items.findNode (Pointer.graphs p) n = Some nd /\ EditingNode p n nd p1.
Proof.
  intros Hr Hm Hd. unfold Pointer.mousePressEvent. rewrite Hm.
  destruct (filter (Pointer.present (Pointer.graphs p)) (Pointer.itemList ev)) as [|h rest].
  { intros E. inversion E; subst. cbn. discriminate. }
  destruct (Pointer.leftButton ev);
    [|intros E; inversion E; subst; rewrite Hd; discriminate].
  destruct (editFrom_cases ev (h :: rest) p) as [->|(n' & nd & F & ->)];
    [intros E; inversion E; subst; rewrite Hd; discriminate|].
  intros E. inversion E; subst. cbn [Pointer.mDragged]. intros En. inversion En; subst.
  exists nd. split; [exact F|]. unfold EditingNode, Pointer.graphs.
  cbn [Pointer.modeType Pointer.mDragged Pointer.undoPositions Pointer.scene].
  repeat split; try assumption. exists (Node.pos nd).
  symmetry. now apply updateNode_setPos_same.
Qed.

Lemma findNode_EditingNode (p : Pointer.t) (n : nat) (nd : Node.t) (q : Pointer.t) :
  Items.findNode (Pointer.graphs p) n = Some nd -> EditingNode p n nd q ->
  exists nd', Items.findNode (Pointer.graphs q) n = Some nd'.
Proof.
  intros F (_ & _ & _ & a & G). rewrite G, findNode_updateNode, F.
  - now eexists.
  - intros x. now destruct x.
Qed.

Lemma move_EditingNode (ev : Pointer.MouseEvent) (p : Pointer.t) (n : nat) (nd : Node.t)
      (q : Pointer.t) :
  Items.findNode (Pointer.graphs p) n = Some nd -> EditingNode p n nd q ->
  exists q', Pointer.mouseMoveEvent ev q = Some q' /\ EditingNode p n nd q'.
Proof.
  intros F E. destruct (findNode_EditingNode p n nd q F E) as (nd' & F').
  destruct E as (Hm & Hd & Hu & a & G).
  unfold Pointer.mouseMoveEvent, Pointer.dragging. rewrite Hd, Hm, F'.
  eexists. split; [reflexivity|]. unfold EditingNode, Pointer.graphs in *.
  cbn [Pointer.setGraphs Pointer.setScene Pointer.setMoved Pointer.modeType Pointer.mDragged
         Pointer.undoPositions Pointer.scene CanvasScene.graphs CanvasScene.setGraphs].
  repeat split; try assumption. exists (Pointer.inParent ev).
  rewrite G. apply updateNode_setPos_twice.
Qed.

Lemma moves_EditingNode (evs : list Pointer.MouseEvent) (p : Pointer.t) (n : nat) (nd : Node.t)
      (q : Pointer.t) :
  Items.findNode (Pointer.graphs p) n = Some nd -> EditingNode p n nd q ->
  exists q', inputs (map MouseMove evs) q = Some q' /\ EditingNode p n nd q'.
Proof.
  intros F. revert q. induction evs as [|ev rest IH]; intros q E; [now exists q|].
  cbn [map inputs input]. destruct (move_EditingNode ev p n nd q F E) as (q1 & -> & E1).
  exact (IH q1 E1).
Qed.

Lemma release_EditingNode (p : Pointer.t) (n : nat) (nd : Node.t) (q q' : Pointer.t) :
  EditingNode p n nd q -> Pointer.mouseReleaseEvent q = Some q' ->
  Pointer.undoPositions q' = Pointer.undoPositions p ++ [Pointer.mkUndo (Node.pos nd) n]
  /\ exists a, Pointer.graphs q'
               = Items.updateNode n (fun x => Node.setPos x a) (Pointer.graphs p).
Proof.
  intros (Hm & Hd & Hu & a & G). unfold Pointer.mouseReleaseEvent. rewrite Hd.
  destruct (Pointer.snapToGrid q && Pointer.moved q && Pointer.dragging q).
  - destruct (Items.findNode (Pointer.graphs q) n) as [nd'|]; [|discriminate].
    destruct (Pointer.snapNear (px (Node.pos nd')) (fst (Pointer.mCellSize q))) as [x|];
      [|discriminate].
    destruct (Pointer.snapNear (py (Node.pos nd')) (snd (Pointer.mCellSize q))) as [y|];
      [|discriminate].
    intros E. inversion E; subst. unfold Pointer.dropped, Pointer.snapped. rewrite Hm.
    unfold Pointer.graphs in *.
    cbn [Pointer.setGraphs Pointer.setScene Pointer.setMoved Pointer.setDragged
           Pointer.modeType Pointer.mDragged Pointer.undoPositions Pointer.scene
           CanvasScene.graphs CanvasScene.setGraphs CanvasScene.emit].
    split; [exact Hu|]. exists (mkPoint (inject_Z x) (inject_Z y)).
    rewrite G. apply updateNode_setPos_twice.
  - intros E. inversion E; subst. split; [exact Hu|]. now exists a.
Qed.

Lemma sameContents_refl (gs : Graphs) : sameContents gs gs.
Proof.
  intros k. destruct (Items.lookupGraph gs k) as [g|]; [|exact I].
  split; [reflexivity|]. split; [reflexivity|apply Permutation_refl].
Qed.


Lemma grab_cases (ev : Pointer.MouseEvent) (g : nat) (p : Pointer.t) :
  Pointer.grab ev g p = p
  \/ exists gr, Items.lookupGraph (Pointer.graphs p) g = Some gr
                /\ Pointer.grab ev g p
                   = Pointer.setDragged p (Some (Pointer.DraggedGraph g))
                                        (psub (Pointer.scenePos ev) (Graph.pos gr)).
Proof.
  unfold Pointer.grab. destruct (Items.lookupGraph (Pointer.graphs p) g) as [gr|];
    [right; now exists gr|now left].
Qed.

Lemma dragFrom_cases (ev : Pointer.MouseEvent) (hits : list Pointer.Hit) (p : Pointer.t) :
  Pointer.dragFrom ev hits p = p
  \/ exists g gr, Items.lookupGraph (Pointer.graphs p) g = Some gr
                  /\ Pointer.dragFrom ev hits p
                     = Pointer.setDragged p (Some (Pointer.DraggedGraph g))
                                          (psub (Pointer.scenePos ev) (Graph.pos gr)).
Proof.
  unfold Pointer.dragFrom.
  destruct (find (fun h => negb (Pointer.isGraphHit h)) hits) as [h|].
  - destruct (Pointer.topLevel (Pointer.graphs p) h) as [g|]; [|now left].
    destruct (grab_cases ev g p) as [->|(gr & L & ->)]; [now left|right; now exists g, gr].
  - destruct (find Pointer.isGraphHit hits) as [[n|e|o|g]|]; try now left.
    destruct (grab_cases ev g p) as [->|(gr & L & ->)]; [now left|right; now exists g, gr].
Qed.

Lemma press_DraggingGraph (ev : Pointer.MouseEvent) (p p1 : Pointer.t) (g : nat)
      (gr : Graph.t) :
  Pointer.modeType p = CanvasScene.drag -> Pointer.mDragged p = None ->
  Pointer.mousePressEvent ev p = Some p1 ->
  Pointer.mDragged p1 = Some (Pointer.DraggedGraph g) ->
  Items.lookupGraph (Pointer.graphs p) g = Some gr ->
  DraggingGraph p g gr (psub (Pointer.scenePos ev) (Graph.pos gr)) p1.
Proof.
  intros Hm Hd. unfold Pointer.mousePressEvent. rewrite Hm.
  destruct (filter (Pointer.present (Pointer.graphs p)) (Pointer.itemList ev)) as [|h rest].
  { intros E. inversion E; subst. cbn. discriminate. }
  destruct (dragFrom_cases ev (h :: rest) p) as [->|(g' & gr' & L & ->)];
    [intros E; inversion E; subst; rewrite Hd; discriminate|].
  intros E. inversion E; subst. cbn [Pointer.setDragged Pointer.mDragged].
  intros Eg. inversion Eg; subst. intros L'. rewrite L in L'. inversion L'; subst.
  unfold DraggingGraph, Pointer.graphs in *.
  cbn [Pointer.modeType Pointer.mDragged Pointer.mDragOffset Pointer.scene].
  repeat split; try assumption. exists (Graph.pos gr).
  cbn [Pointer.setDragged Pointer.scene]. rewrite L. now destruct gr.
Qed.

Lemma move_DraggingGraph (ev : Pointer.MouseEvent) (p : Pointer.t) (g : nat) (gr : Graph.t)
      (offset : QPointF) (q : Pointer.t) :
  DraggingGraph p g gr offset q ->
  exists q', Pointer.mouseMoveEvent ev q = Some q'
             /\ DraggingGraph p g gr offset q'
             /\ Items.lookupGraph (Pointer.graphs q') g
                = Some (Graph.setPos gr (psub (Pointer.scenePos ev) offset)).
Proof.
  intros (Hm & Hd & Ho & (a & L) & Hk).
  unfold Pointer.mouseMoveEvent, Pointer.dragging. rewrite Hd, Hm, L, Ho.
  eexists. split; [reflexivity|].
  assert (G : Items.lookupGraph
                (Items.updateGraph g (fun x => Graph.setPos x (psub (Pointer.scenePos ev) offset))
                                   (Pointer.graphs q)) g
              = Some (Graph.setPos gr (psub (Pointer.scenePos ev) offset)))
    by now rewrite lookupGraph_updateGraph, L.
  unfold DraggingGraph, Pointer.graphs in *.
  cbn [Pointer.setGraphs Pointer.setScene Pointer.setMoved Pointer.modeType Pointer.mDragged
         Pointer.mDragOffset Pointer.scene CanvasScene.graphs CanvasScene.setGraphs].
  repeat split; try assumption.
  - eexists. exact G.
  - intros k Hne. rewrite lookupGraph_updateGraph_other by exact Hne. now apply Hk.
Qed.


End PointerGestures.



(** * Labels with a subscript *)

Section LabelSubscript.
Import HTML_Label.
Local Open Scope string_scope.
Local Open Scope outcome_scope.
Local Notation "a =c b" := (Ascii.eqb a b%char) (at level 70).

Lemma matchRel_plain_close (s : list ascii) :
  Forall plain s -> matchRel false (s ++ ["}"%char])%list 1 = S (List.length s).
Proof.
  induction 1 as [|c s Hc Hs IH]; [reflexivity|].
  destruct (plain_cases c Hc) as (E1 & E2 & E3 & _).
  cbn [app matchRel List.length]. change (0 <? 1)%Z with true. cbv iota.
  unfold stepRel. rewrite E1, E2, E3. cbn [andb]. now rewrite IH.
Qed.

(** The subscript in braces, from the underscore on. *)
Lemma strToHtml2_under_braced (fuel : nat) (s : list ascii) :
  Forall plain s ->
  strToHtml2 (S (S fuel)) ("_"%char :: "{"%char :: s ++ ["}"%char])%list
  = Returns ("<sub>" ++ string_of_list_ascii s ++ "</sub>").
Proof.
  intros Hs. set (chars := ("_"%char :: "{"%char :: s ++ ["}"%char])%list).
  rewrite strToHtml2_S. cbv zeta.
  assert (Iu : indexOf "_"%char 0 chars = Some O) by reflexivity.
  assert (Ic : indexOf "^"%char 0 chars = None).
  { apply indexOf_None. subst chars. apply notin_cons; [discriminate|].
    apply notin_cons; [discriminate|].
    apply notin_app; [apply notin_plain; [cbn; tauto|assumption]|].
    apply notin_cons; [discriminate|]. intros []. }
  rewrite Iu, Ic, skipEscaped_None.
  assert (Hlen : List.length chars = S (S (S (List.length s)))).
  { subst chars. cbn [List.length]. rewrite length_app. cbn [List.length]. lia. }
  rewrite Hlen. cbn [skipEscaped andThen Nat.eqb].
  change (byteAt chars 1) with "{"%char. change (byteAt chars 0) with "_"%char.
  change ("{" =c "{") with true. cbn [negb].
  assert (Ecl : closing (S (S (S (List.length s)))) chars 2 1 = S (S (S (List.length s)))).
  { rewrite closing_rel by (rewrite Hlen; lia).
    change (skipn 2 chars) with (s ++ ["}"%char])%list.
    change (bsAfter false (firstn 2 chars)) with false.
    now rewrite matchRel_plain_close. }
  rewrite Ecl.
  replace (Z.of_nat (S (S (S (List.length s)))) - 1 - 2)%Z with (Z.of_nat (List.length s))
    by lia.
  assert (Emid : mid chars 2 (Z.of_nat (List.length s)) = s).
  { unfold mid. destruct (Z.ltb_spec (Z.of_nat (List.length s)) 0) as [Hneg|_]; [lia|].
    rewrite Nat2Z.id. change (skipn 2 chars) with (s ++ ["}"%char])%list.
    apply firstn_length_app. }
  rewrite Emid, (strToHtml2_plain fuel s Hs). cbn [andThen].
  destruct (Z.ltb_spec (Z.of_nat (S (S (S (List.length s)))) - 1)
                       (Z.of_nat (S (S (S (List.length s)))) - 1)) as [Hlt|_]; [lia|].
  reflexivity.
Qed.

(** X19.  A label with a subscript, as [setNodeLabel(aLabel, subscript)]
    and [setEdgeLabel(aLabel, subscript)] make it.  With plain characters
    in both parts and a base that is not empty, the text given to the
    label item is the base followed by the subscript between <sub> and
    </sub>, in the font of the labels.  With an empty base the label
    starts with the underscore, and the text is the label as it is:
    nothing is lowered. *)
Theorem withSubscript_html (aLabel subscript : string) :
  plainLabel aLabel -> plainLabel subscript ->
  labelToHtml (withSubscript aLabel subscript)
  = Returns (match aLabel with
             | EmptyString => withSubscript aLabel subscript
             | _ => inLabelFont (aLabel ++ "<sub>" ++ subscript ++ "</sub>")
             end).
Proof.
  intros Ha Hs. unfold plainLabel in Ha, Hs. unfold labelToHtml, withSubscript.
  destruct aLabel as [|c0 base]; [reflexivity|].
  set (b := list_ascii_of_string base) in *.
  set (s := list_ascii_of_string subscript) in *.
  cbn [list_ascii_of_string] in Ha. fold b in Ha. inversion Ha as [|? ? Hc0 Hb]; subst.
  destruct (plain_cases c0 Hc0) as (E1 & E2 & E3 & E4 & E5 & E6 & E7 & E8 & E9).
  set (tail := ("_"%char :: "{"%char :: s ++ ["}"%char])%list).
  assert (Echars : list_ascii_of_string (String c0 base ++ "_{" ++ subscript ++ "}")
                   = (c0 :: b ++ tail)%list).
  { cbn [append list_ascii_of_string]. rewrite list_of_string_app.
    cbn [append list_ascii_of_string]. now rewrite list_of_string_app. }
  unfold strToHtml. rewrite Echars. rewrite E3, E7, E8, E2, E1. cbn [orb].
  assert (Echeck : check (b ++ tail)%list 0 other = Some (0%Z, closingBrace)).
  { rewrite check_plain_any by (assumption || lia).
    replace (match b with [] => other | _ => other end) with other by now destruct b.
    subst tail. rewrite check_step. change (0 <? 0)%Z with false.
    change ("_" =c "{") with false. change ("_" =c "}") with false.
    change ("_" =c "\") with false. change ("_" =c "^") with false.
    change ("_" =c "_") with true. change ("{" =c "}") with false.
    cbn [orb isOpening isBackslash]. cbv iota.
    rewrite check_step. change (0 <? 0)%Z with false. change ("{" =c "{") with true.
    cbn [isBackslash]. cbv iota. change (0 + 1)%Z with 1%Z.
    rewrite check_plain_any by (assumption || lia).
    rewrite check_step. change (0 <? 1)%Z with true || change (1 <? 0)%Z with false.
    change ("}" =c "{") with false. change ("}" =c "}") with true.
    cbv iota. now destruct s. }
  rewrite Echeck. cbn [Z.eqb negb orb isBackslash isScript].
  set (chars := (c0 :: b ++ tail)%list).
  assert (Hcb : Forall plain (c0 :: b)) by now constructor.
  assert (Echars' : chars = ((c0 :: b) ++ tail)%list) by reflexivity.
  assert (E : strToHtml2 (S (List.length chars)) chars
              = Returns (string_of_list_ascii (c0 :: b)
                         ++ "<sub>" ++ string_of_list_ascii s ++ "</sub>")).
  { rewrite strToHtml2_S. cbv zeta.
    assert (Iu : indexOf "_"%char 0 chars = Some (List.length (c0 :: b))).
    { rewrite Echars'. rewrite indexOf_skip by (apply notin_plain; [cbn; tauto|assumption]).
      subst tail. cbn [Nat.sub indexOf]. change ("_" =c "_") with true.
      cbn [option_map]. f_equal. lia. }
    assert (Ic : indexOf "^"%char 0 chars = None).
    { apply indexOf_None. rewrite Echars'.
      apply notin_app; [apply notin_plain; [cbn; tauto|assumption]|].
      subst tail. apply notin_cons; [discriminate|]. apply notin_cons; [discriminate|].
      apply notin_app; [apply notin_plain; [cbn; tauto|assumption]|].
      apply notin_cons; [discriminate|]. intros []. }
    rewrite Iu, Ic, skipEscaped_None.
    assert (Hlen : exists n, List.length chars = S (S (S n))).
    { rewrite Echars', length_app. subst tail. cbn [List.length].
      exists (List.length b + List.length (s ++ ["}"%char]))%nat. lia. }
    destruct Hlen as (n & Hlen). rewrite Hlen.
    change (List.length (c0 :: b)) with (S (List.length b)). cbn [skipEscaped].
    assert (Hk : (byteAt chars (List.length b) =c "\") = false).
    { rewrite Echars', byteAt_app_left by (cbn [List.length]; lia).
      assert (Hin : In (byteAt (c0 :: b) (List.length b)) (c0 :: b))
        by (apply nth_In; cbn [List.length]; lia).
      rewrite Forall_forall in Hcb. now destruct (plain_cases _ (Hcb _ Hin)) as (-> & _). }
    rewrite Hk. cbn [andThen Nat.eqb].
    change (S (List.length b)) with (List.length (c0 :: b)).
    assert (Ed : depthBefore chars (List.length (c0 :: b)) = 0%Z).
    { rewrite depthBefore_rel by (rewrite Echars', length_app; lia).
      rewrite Echars', firstn_length_app.
      apply depthRel_no_brace; apply notin_plain; (cbn; tauto) || assumption. }
    rewrite Ed. change (0 =? 0)%Z with true. cbv iota.
    unfold left, mid. change (-1 <? 0)%Z with true. cbv iota.
    rewrite Echars', firstn_length_app, skipn_length_app.
    rewrite (strToHtml2_plain (S (S n)) (c0 :: b) Hcb). cbn [andThen].
    subst tail. rewrite (strToHtml2_under_braced (S n) s Hs). reflexivity. }
  rewrite E. cbn [andThen]. subst s b.
  change (string_of_list_ascii (c0 :: list_ascii_of_string base))
    with (String c0 (string_of_list_ascii (list_ascii_of_string base))).
  rewrite !string_of_list_ascii_of_string.
  set (html := String c0 base ++ "<sub>" ++ subscript ++ "</sub>").
  assert (Hne : (String.length html =? 0)%nat = false) by reflexivity.
  rewrite Hne. reflexivity.
Qed.

Lemma withSubscript_html_witness :
  plainLabel "v" /\ plainLabel "12" /\
  labelToHtml (withSubscript "v" "12") = Returns (inLabelFont "v<sub>12</sub>").
Proof.
  assert (Hp : forall c, In c ["v"; "1"; "2"]%char -> plain c).
  { intros c Hc F. cbn in Hc, F.
    destruct Hc as [<-|[<-|[<-|[]]]];
      repeat (destruct F as [F|F]; [discriminate|]); exact F. }
  assert (Hv : plainLabel "v") by (repeat constructor; apply Hp; cbn; tauto).
  assert (H12 : plainLabel "12") by (repeat constructor; apply Hp; cbn; tauto).
  split; [exact Hv|]. split; [exact H12|].
  exact (withSubscript_html "v" "12" Hv H12).
Defined.

End LabelSubscript.

(** * Freestyle mode: nodes and edges drawn by hand *)

(** ** An edge between two nodes, their graphs becoming one

    The graphs [gs'] hold the nodes and the edges of [gs], each graph [g]
    under the name [phi g], and one more edge [e] from [a] to [b], which
    is in the lists of both. *)
Section Linking.
Variables (gs gs' : Graphs) (phi : nat -> nat) (a b e pa pb : nat).
Hypothesis Hwf : WellFormed gs.
Hypothesis Hk : NoDup (keys gs').
Hypothesis Hr : NoDup (refs gs').
Hypothesis Hab : a <> b.
Hypothesis Ha : hasNode gs pa a.
Hypothesis Hb : hasNode gs pb b.
Hypothesis Hphi : phi pa = phi pb.
Hypothesis He : forall g s d, ~ EdgeT gs g e s d.
Hypothesis HN : forall gid nid es c,
    NodeT gs' gid nid es c <->
    exists g0 es0, NodeT gs g0 nid es0 c /\ gid = phi g0 /\ es = es0 ++ extraEdge a b e nid.
Hypothesis HE : forall gid eid s d,
    EdgeT gs' gid eid s d <->
    (exists g0, EdgeT gs g0 eid s d /\ gid = phi g0)
    \/ (gid = phi pa /\ eid = e /\ s = a /\ d = b).

Lemma linked_hasNode (gid nid : nat) :
  hasNode gs' gid nid <-> exists g0, hasNode gs g0 nid /\ gid = phi g0.
Proof.
  unfold hasNode. split.
  - intros (es & c & T). apply HN in T. destruct T as (g0 & es0 & T & -> & _).
    exists g0. split; [now exists es0, c|reflexivity].
  - intros (g0 & (es0 & c & T) & ->). exists (es0 ++ extraEdge a b e nid), c.
    apply HN. now exists g0, es0.
Qed.

Lemma extraEdge_In (nid x : nat) : In x (extraEdge a b e nid) -> x = e /\ (nid = a \/ nid = b).
Proof.
  unfold extraEdge. destruct (Nat.eqb nid a) eqn:E1; cbn [orb].
  - intros [<-|[]]. apply Nat.eqb_eq in E1. auto.
  - destruct (Nat.eqb nid b) eqn:E2; [|intros []].
    intros [<-|[]]. apply Nat.eqb_eq in E2. auto.
Qed.

Lemma extraEdge_end (nid : nat) : nid = a \/ nid = b -> extraEdge a b e nid = [e].
Proof.
  unfold extraEdge. intros [-> | ->]; rewrite Nat.eqb_refl; [reflexivity|].
  now destruct (Nat.eqb b a).
Qed.

Lemma linked_WellFormed : WellFormed gs'.
Proof.
  pose proof (wf_refs _ Hwf) as Hr0.
  constructor; [exact Hk|exact Hr| | | | |].
  - intros gid eid s d T. apply HE in T.
    destruct T as [(g0 & T & ->)|(-> & -> & -> & ->)].
    + destruct (wf_ends _ Hwf _ _ _ _ T) as (A & B & C).
      split; [|split; [|exact C]]; apply linked_hasNode; now exists g0.
    + split; [|split; [|exact Hab]]; apply linked_hasNode;
        [now exists pa|exists pb; now split].
  - intros gid nid es c x T Hx. apply HN in T. destruct T as (g0 & es0 & T & -> & ->).
    apply in_app_or in Hx. destruct Hx as [Hx|Hx].
    + destruct (wf_listed _ Hwf _ _ _ _ _ T Hx) as (s & d & E & Hsd).
      exists s, d. split; [|exact Hsd]. apply HE. left. now exists g0.
    + apply extraEdge_In in Hx. destruct Hx as (-> & Hn).
      exists a, b. split; [|destruct Hn; auto]. apply HE. right.
      assert (Hg : hasNode gs g0 nid) by now exists es0, c.
      destruct Hn as [-> | ->].
      * now rewrite (hasNode_unique _ _ _ _ Hr0 Hg Ha).
      * now rewrite (hasNode_unique _ _ _ _ Hr0 Hg Hb).
  - intros gid eid s d nid es c T N Hsd. apply HN in N.
    destruct N as (g1 & es0 & N & E1 & ->). apply in_or_app. apply HE in T.
    destruct T as [(g0 & T & E0)|(_ & -> & -> & ->)].
    + left. destruct (wf_ends _ Hwf _ _ _ _ T) as (A & B & _).
      assert (Hg : hasNode gs g1 nid) by now exists es0, c.
      assert (g1 = g0).
      { destruct Hsd as [<- | <-];
          [exact (hasNode_unique _ _ _ _ Hr0 Hg A)|exact (hasNode_unique _ _ _ _ Hr0 Hg B)]. }
      subst g1. exact (wf_lists _ Hwf _ _ _ _ _ _ _ T N Hsd).
    + right. rewrite extraEdge_end; [now left|]. destruct Hsd; auto.
  - intros gid nid es c N. apply HN in N. destruct N as (g0 & es0 & N & _ & ->).
    pose proof (wf_once _ Hwf _ _ _ _ N) as Hnd.
    assert (Hfresh : ~ In e es0).
    { intros Hin. destruct (wf_listed _ Hwf _ _ _ _ _ N Hin) as (s & d & E & _).
      exact (He _ _ _ E). }
    unfold extraEdge. destruct (Nat.eqb nid a || Nat.eqb nid b).
    + apply NoDup_app; [exact Hnd|repeat constructor; intros []|].
      intros x Hx [<-|[]]. exact (Hfresh Hx).
    + now rewrite app_nil_r.
  - intros gid nid es c N. apply HN in N. destruct N as (g0 & es0 & N & _ & _).
    exact (wf_unchecked _ Hwf _ _ _ _ N).
Qed.

Lemma linked_reach (g0 u v : nat) : reach gs g0 u v -> reach gs' (phi g0) u v.
Proof.
  induction 1 as [|u v w _ IH (x & A)]; [apply reach_refl|].
  eapply reach_step; [exact IH|]. exists x.
  destruct A as [A|A]; [left|right]; apply HE; left; now exists g0.
Qed.

Hypothesis Hconn : Connected gs.
Hypothesis Hmerge : forall g g', In g (keys gs) -> In g' (keys gs) -> phi g = phi g' ->
    g = g' \/ ((g = pa /\ g' = pb) \/ (g = pb /\ g' = pa)).

Lemma linked_Connected : Connected gs'.
Proof.
  intros gid u Hu v. split; [now apply (reach_closed gs' linked_WellFormed)|].
  intros Hv. apply linked_hasNode in Hu, Hv.
  destruct Hu as (g0 & Hu & ->). destruct Hv as (g1 & Hv & E).
  assert (Hbridge : reach gs' (phi pa) a b).
  { eapply reach_step; [apply reach_refl|]. exists e. left. apply HE. right. now repeat split. }
  destruct (Hmerge _ _ (hasNode_key _ _ _ Hu) (hasNode_key _ _ _ Hv) E)
    as [->|[(-> & ->)|(-> & ->)]].
  - apply linked_reach. now apply (Hconn g1 u Hu v).
  - apply (reach_trans _ _ _ a); [apply linked_reach; now apply (Hconn pa u Hu a)|].
    apply (reach_trans _ _ _ b); [exact Hbridge|].
    rewrite Hphi. apply linked_reach. now apply (Hconn pb b Hb v).
  - apply (reach_trans _ _ _ b); [apply linked_reach; now apply (Hconn pb u Hu b)|].
    apply (reach_trans _ _ _ a); [rewrite <- Hphi; apply reach_sym; exact Hbridge|].
    rewrite <- Hphi. apply linked_reach. now apply (Hconn pa a Ha v).
Qed.

End Linking.

Section Freestyle.
Context `{Platform}.

(** ** New nodes and edges *)

Lemma freshEdge_absent (gs : Graphs) (g s d : nat) : ~ EdgeT gs g (CanvasView.freshEdge gs) s d.
Proof.
  intros (ed & Hat & Eid & _).
  assert (Hin : In (Edge.id ed) (map Edge.id (Items.allEdges gs))).
  { apply in_map. apply allEdges_In. now exists g. }
  apply list_max_ge in Hin. rewrite Eid in Hin. unfold CanvasView.freshEdge in Hin. lia.
Qed.

Lemma freshEdge_ref (gs : Graphs) : ~ In (EdgeRef (CanvasView.freshEdge gs)) (refs gs).
Proof.
  intros Hin. apply In_refs in Hin. destruct Hin as (g & it & Hit & E).
  destruct it as [n|ed]; [discriminate|]. cbn [refOf] in E. inversion E as [E'].
  apply (freshEdge_absent gs g (Edge.source ed) (Edge.dest ed)). now exists ed.
Qed.

Lemma allNodes_In (gs : Graphs) (n : Node.t) :
  In n (Items.allNodes gs) <-> exists gid, nodeAt gs gid n.
Proof.
  unfold Items.allNodes, Items.allItems, nodeAt, InGraph. rewrite nodesOf_In, in_flat_map.
  split.
  - intros ([k g] & Hg & Hit). exists k, g. now split.
  - intros (k & g & Hg & Hit). exists (k, g). now split.
Qed.

Lemma freshNode_absent (gs : Graphs) (g : nat) : ~ hasNode gs g (CanvasView.freshNode gs).
Proof.
  intros (es & c & n & Hat & Eid & _).
  assert (Hin : In (Node.id n) (map Node.id (Items.allNodes gs))).
  { apply in_map. apply allNodes_In. now exists g. }
  apply list_max_ge in Hin. rewrite Eid in Hin. unfold CanvasView.freshNode in Hin. lia.
Qed.

Lemma freshNode_ref (gs : Graphs) : ~ In (NodeRef (CanvasView.freshNode gs)) (refs gs).
Proof.
  intros Hin. apply In_refs in Hin. destruct Hin as (g & it & Hit & E).
  destruct it as [n|ed]; [|discriminate]. cbn [refOf] in E. inversion E as [E'].
  apply (freshNode_absent gs g). exists (Node.edgeList n), (Node.checked n), n.
  now repeat split.
Qed.

(** ** One more child *)

Lemma NodeT_attach_edge (k : nat) (ed : Edge.t) (gs : Graphs) (gid nid : nat)
      (es : list nat) (c : Z) :
  NodeT (Items.attach k (EdgeItem ed) gs) gid nid es c <-> NodeT gs gid nid es c.
Proof.
  unfold NodeT, nodeAt. split; intros (n & Hin & E); exists n; (split; [|exact E]).
  - apply InGraph_attach in Hin. destruct Hin as [Hin|(_ & F & _)]; [exact Hin|discriminate].
  - apply InGraph_attach. now left.
Qed.

Lemma EdgeT_attach_edge (k : nat) (ed : Edge.t) (gs : Graphs) (gid eid s d : nat) :
  In k (keys gs) ->
  (EdgeT (Items.attach k (EdgeItem ed) gs) gid eid s d <->
   EdgeT gs gid eid s d
   \/ (gid = k /\ eid = Edge.id ed /\ s = Edge.source ed /\ d = Edge.dest ed)).
Proof.
  intros Hk. unfold EdgeT, edgeAt. split.
  - intros (x & Hin & E1 & E2 & E3). apply InGraph_attach in Hin.
    destruct Hin as [Hin|(-> & Ex & _)].
    + left. now exists x.
    + right. inversion Ex; subst. now repeat split.
  - intros [(x & Hin & E)|(-> & -> & -> & ->)].
    + exists x. split; [|exact E]. apply InGraph_attach. now left.
    + exists ed. split; [|now repeat split]. apply InGraph_attach. right. now repeat split.
Qed.

Lemma NodeT_attach_node (k : nat) (n : Node.t) (gs : Graphs) (gid nid : nat)
      (es : list nat) (c : Z) :
  In k (keys gs) ->
  (NodeT (Items.attach k (NodeItem n) gs) gid nid es c <->
   NodeT gs gid nid es c
   \/ (gid = k /\ nid = Node.id n /\ es = Node.edgeList n /\ c = Node.checked n)).
Proof.
  intros Hk. unfold NodeT, nodeAt. split.
  - intros (x & Hin & E1 & E2 & E3). apply InGraph_attach in Hin.
    destruct Hin as [Hin|(-> & Ex & _)].
    + left. now exists x.
    + right. inversion Ex; subst. now repeat split.
  - intros [(x & Hin & E)|(-> & -> & -> & ->)].
    + exists x. split; [|exact E]. apply InGraph_attach. now left.
    + exists n. split; [|now repeat split]. apply InGraph_attach. right. now repeat split.
Qed.

Lemma EdgeT_attach_node (k : nat) (n : Node.t) (gs : Graphs) (gid eid s d : nat) :
  EdgeT (Items.attach k (NodeItem n) gs) gid eid s d <-> EdgeT gs gid eid s d.
Proof.
  unfold EdgeT, edgeAt. split; intros (x & Hin & E); exists x; (split; [|exact E]).
  - apply InGraph_attach in Hin. destruct Hin as [Hin|(_ & F & _)]; [exact Hin|discriminate].
  - apply InGraph_attach. now left.
Qed.

(** ** The children of a graph taken over by another *)

Lemma adopt_InGraph (parent root : nat) (gs : Graphs) :
  NoDup (keys gs) -> NoDup (refs gs) -> In root (keys gs) ->
  let gs' := CanvasView.adopt parent root gs in
  (forall gid it',
      InGraph gs' gid it' <->
      (InGraph gs gid it' /\ gid <> parent) \/
      (gid = root /\ exists g it, In (parent, g) gs /\ In it (Graph.childItems g) /\
                                 it' = place it (Graph.scenePos g it))) /\
  keys gs' = keys gs /\ NoDup (refs gs').
Proof.
  intros Hkeys Hrefs Hnew. unfold CanvasView.adopt.
  destruct (Items.lookupGraph gs parent) as [g|] eqn:L.
  - apply lookupGraph_In in L.
    pose proof (NoDup_children_refs _ _ _ Hrefs L) as Hnd.
    destruct (fold_reparent root (fun item => Graph.scenePos g item)
                            (Graph.childItems g) Hnd gs Hnew) as (I1 & I2 & I3).
    split; [|split; [assumption|now apply I3]].
    intros gid it'. unfold place in I1. rewrite I1. split.
    + intros [[Hin Hnot]|(-> & it & Hit & ->)].
      * left. split; [assumption|]. intros ->. apply Hnot.
        destruct Hin as (g' & Hg' & Hit). rewrite (In_same_key _ _ _ _ Hkeys L Hg').
        now apply in_map.
      * right. split; [reflexivity|]. exists g, it. now repeat split.
    + intros [[Hin Hne]|(-> & g' & it & Hg' & Hit & ->)].
      * left. split; [assumption|]. intros Hr. apply in_map_iff in Hr.
        destruct Hr as (it0 & E0 & Hit0).
        assert (Hin0 : InGraph gs parent it0) by now exists g.
        destruct (InGraph_unique _ _ _ _ _ Hrefs Hin Hin0); congruence.
      * right. split; [reflexivity|]. rewrite (In_same_key _ _ _ _ Hkeys Hg' L) in *.
        exists it. now split.
  - split; [|split; [reflexivity|assumption]].
    intros gid it'. split.
    + intros Hin. left. split; [assumption|]. intros ->.
      destruct Hin as (g & Hg & _). apply lookupGraph_None in L. apply L.
      now apply In_keys with g.
    + intros [[Hin _]|(-> & g & it & Hg & _)]; [assumption|].
      exfalso. apply lookupGraph_None in L. apply L. now apply In_keys with g.
Qed.

Lemma adopt_views (parent root : nat) (gs : Graphs) :
  NoDup (keys gs) -> NoDup (refs gs) -> In root (keys gs) ->
  let gs' := CanvasView.adopt parent root gs in
  (forall gid nid es c,
      NodeT gs' gid nid es c <->
      (NodeT gs gid nid es c /\ gid <> parent) \/ (gid = root /\ NodeT gs parent nid es c)) /\
  (forall gid eid s d,
      EdgeT gs' gid eid s d <->
      (EdgeT gs gid eid s d /\ gid <> parent) \/ (gid = root /\ EdgeT gs parent eid s d)) /\
  keys gs' = keys gs /\ NoDup (refs gs').
Proof.
  intros Hkeys Hrefs Hnew.
  destruct (adopt_InGraph parent root gs Hkeys Hrefs Hnew) as (I & K & R).
  split; [|split; [|split; assumption]].
  - intros gid nid es c. unfold NodeT, nodeAt. split.
    + intros (n & Hin & E1 & E2 & E3). apply I in Hin.
      destruct Hin as [[Hin Hne]|(-> & g & it & Hg & Hit & Eit)].
      * left. split; [now exists n|assumption].
      * right. split; [reflexivity|]. destruct it as [n0|e0]; [|discriminate].
        inversion Eit; subst n. exists n0. split; [now exists g|]. now repeat split.
    + intros [[(n & Hin & E) Hne]|(-> & n & (g & Hg & Hit) & E1 & E2 & E3)].
      * exists n. split; [|assumption]. apply I. now left.
      * eexists. split.
        -- apply I. right. split; [reflexivity|]. exists g, (NodeItem n). now repeat split.
        -- now repeat split.
  - intros gid eid s d. unfold EdgeT, edgeAt. split.
    + intros (e & Hin & E1 & E2 & E3). apply I in Hin.
      destruct Hin as [[Hin Hne]|(-> & g & it & Hg & Hit & Eit)].
      * left. split; [now exists e|assumption].
      * right. split; [reflexivity|]. destruct it as [n0|e0]; [discriminate|].
        inversion Eit; subst e. exists e0. split; [now exists g|]. now repeat split.
    + intros [[(e & Hin & E) Hne]|(-> & e & (g & Hg & Hit) & E1 & E2 & E3)].
      * exists e. split; [|assumption]. apply I. now left.
      * eexists. split.
        -- apply I. right. split; [reflexivity|]. exists g, (EdgeItem e). now repeat split.
        -- now repeat split.
Qed.

(** ** The edge in the lists of its two ends *)

Lemma addEdge_views (gs : Graphs) (a b e : nat) :
  a <> b ->
  let gs2 := Items.updateNode b (fun n => Node.addEdge n e)
               (Items.updateNode a (fun n => Node.addEdge n e) gs) in
  (forall gid nid es c,
      NodeT gs2 gid nid es c <->
      exists es0, NodeT gs gid nid es0 c /\ es = es0 ++ extraEdge a b e nid) /\
  (forall gid eid s d, EdgeT gs2 gid eid s d <-> EdgeT gs gid eid s d) /\
  keys gs2 = keys gs /\ refs gs2 = refs gs.
Proof.
  intros Hab. cbv zeta.
  assert (Hf : forall n : Node.t,
             Node.id (Node.addEdge n e) = Node.id n
             /\ Node.edgeList (Node.addEdge n e) = (fun l => l ++ [e]) (Node.edgeList n)
             /\ Node.checked (Node.addEdge n e) = (fun z : Z => z) (Node.checked n))
    by (intros n; now destruct n).
  split; [|split; [|split]].
  - intros gid nid es c.
    rewrite (NodeT_updateNode b _ (fun l => l ++ [e]) (fun z => z) _ _ _ _ _ Hf).
    unfold extraEdge. split.
    + intros (es1 & c1 & T & -> & ->).
      apply (NodeT_updateNode a _ (fun l => l ++ [e]) (fun z => z) _ _ _ _ _ Hf) in T.
      destruct T as (es0 & c0 & T & -> & ->). exists es0.
      destruct (Nat.eqb_spec nid a) as [Ea|Ha]; destruct (Nat.eqb_spec nid b) as [Eb|Hb];
        cbn [orb]; try congruence.
      * now split.
      * now split.
      * split; [exact T|]. now rewrite app_nil_r.
    + intros (es0 & T & ->).
      exists (if Nat.eqb nid a then es0 ++ [e] else es0), c. split; [|split].
      * apply (NodeT_updateNode a _ (fun l => l ++ [e]) (fun z => z) _ _ _ _ _ Hf).
        exists es0, c. split; [exact T|]. split; now destruct (Nat.eqb nid a).
      * destruct (Nat.eqb_spec nid a) as [Ea|Ha]; destruct (Nat.eqb_spec nid b) as [Eb|Hb];
          cbn [orb]; try congruence; try reflexivity. now rewrite app_nil_r.
      * now destruct (Nat.eqb nid b).
  - intros gid eid s d. now rewrite !EdgeT_updateNode.
  - now rewrite !keys_updateNode.
  - rewrite !refs_updateNode; [reflexivity| |]; intros n; now destruct n.
Qed.

(** ** Two graphs taken over by a new one *)

Lemma mergedTo_cases (pa pb root g : nat) :
  (g <> pa /\ g <> pb /\ mergedTo pa pb root g = g)
  \/ ((g = pa \/ g = pb) /\ mergedTo pa pb root g = root).
Proof.
  unfold mergedTo. destruct (Nat.eqb_spec g pa) as [->|Ha]; cbn [orb]; [right; auto|].
  destruct (Nat.eqb_spec g pb) as [->|Hb]; [right; auto|left; auto].
Qed.

Lemma merged_views (gs2 : Graphs) (pa pb root fg : nat) (renew : bool) (ed : Edge.t) :
  NoDup (keys gs2) -> NoDup (refs gs2) -> In pa (keys gs2) -> In pb (keys gs2) ->
  ~ In root (keys gs2) -> fg <> root -> ~ In fg (keys gs2) ->
  (forall g s d, ~ EdgeT gs2 g (Edge.id ed) s d) ->
  let gs6 := Items.attach root (EdgeItem ed)
               (CanvasView.adopt pb root
                  (CanvasView.adopt pa root (gs2 ++ [(root, Graph.new)]))) in
  let gs8 := Items.removeGraph pb
               (Items.removeGraph pa (if renew then gs6 ++ [(fg, Graph.new)] else gs6)) in
  (forall gid nid es c,
      NodeT gs8 gid nid es c <->
      exists g0, NodeT gs2 g0 nid es c /\ gid = mergedTo pa pb root g0) /\
  (forall gid eid s d,
      EdgeT gs8 gid eid s d <->
      (exists g0, EdgeT gs2 g0 eid s d /\ gid = mergedTo pa pb root g0)
      \/ (gid = root /\ eid = Edge.id ed /\ s = Edge.source ed /\ d = Edge.dest ed)) /\
  NoDup (keys gs8) /\ NoDup (refs gs8) /\
  In root (keys gs8) /\ (renew = true -> In fg (keys gs8)).
Proof.
  intros Hk Hr Hpa Hpb Hroot Hfg Hfg2 Hfresh. cbv zeta.
  assert (Hra : root <> pa) by (intros ->; contradiction).
  assert (Hrb : root <> pb) by (intros ->; contradiction).
  set (gs3 := gs2 ++ [(root, Graph.new)]).
  assert (K3 : keys gs3 = keys gs2 ++ [root]) by apply keys_app_new.
  assert (Hk3 : NoDup (keys gs3)) by now apply NoDup_keys_app_new.
  assert (Hr3 : NoDup (refs gs3)) by (unfold gs3; now rewrite refs_app_new).
  assert (Hin3 : In root (keys gs3)) by (rewrite K3; apply in_or_app; right; now left).
  destruct (adopt_views pa root gs3 Hk3 Hr3 Hin3) as (N4 & E4 & K4 & Hr4).
  set (gs4 := CanvasView.adopt pa root gs3) in *.
  assert (Hk4 : NoDup (keys gs4)) by now rewrite K4.
  assert (Hin4 : In root (keys gs4)) by now rewrite K4.
  destruct (adopt_views pb root gs4 Hk4 Hr4 Hin4) as (N5 & E5 & K5 & Hr5).
  set (gs5 := CanvasView.adopt pb root gs4) in *.
  assert (Hk5 : NoDup (keys gs5)) by now rewrite K5.
  assert (Hin5 : In root (keys gs5)) by now rewrite K5.
  assert (NoRoot : forall nid es c, ~ NodeT gs2 root nid es c)
    by (intros nid es c T; apply Hroot; exact (NodeT_key _ _ _ _ _ T)).
  assert (NoRootE : forall eid s d, ~ EdgeT gs2 root eid s d)
    by (intros eid s d T; apply Hroot; exact (EdgeT_key _ _ _ _ _ T)).
  assert (N5' : forall gid nid es c,
             NodeT gs5 gid nid es c <->
             exists g0, NodeT gs2 g0 nid es c /\
                        ((g0 <> pa /\ g0 <> pb /\ gid = g0) \/ ((g0 = pa \/ g0 = pb) /\ gid = root))).
  { intros gid nid es c. rewrite N5, !N4. unfold gs3. rewrite !NodeT_app_new. split.
    - intros [[[[T Ha]|[-> T]] Hb]|[-> [[T Ha]|[E T]]]].
      + exists gid. split; [exact T|]. left. auto.
      + exists pa. split; [exact T|]. right. auto.
      + exists pb. split; [exact T|]. right. auto.
      + exists pa. split; [exact T|]. right. auto.
    - intros (g0 & T & [(Ha & Hb & ->)|([-> | ->] & ->)]).
      + left. split; [|exact Hb]. left. now split.
      + left. split; [|exact Hrb]. right. now split.
      + destruct (Nat.eq_dec pb pa) as [E|Hne].
        * left. split; [|exact Hrb]. right. split; [reflexivity|]. now rewrite <- E.
        * right. split; [reflexivity|]. left. now split. }
  assert (E5' : forall gid eid s d,
             EdgeT gs5 gid eid s d <->
             exists g0, EdgeT gs2 g0 eid s d /\
                        ((g0 <> pa /\ g0 <> pb /\ gid = g0) \/ ((g0 = pa \/ g0 = pb) /\ gid = root))).
  { intros gid eid s d. rewrite E5, !E4. unfold gs3. rewrite !EdgeT_app_new. split.
    - intros [[[[T Ha]|[-> T]] Hb]|[-> [[T Ha]|[E T]]]].
      + exists gid. split; [exact T|]. left. auto.
      + exists pa. split; [exact T|]. right. auto.
      + exists pb. split; [exact T|]. right. auto.
      + exists pa. split; [exact T|]. right. auto.
    - intros (g0 & T & [(Ha & Hb & ->)|([-> | ->] & ->)]).
      + left. split; [|exact Hb]. left. now split.
      + left. split; [|exact Hrb]. right. now split.
      + destruct (Nat.eq_dec pb pa) as [E|Hne].
        * left. split; [|exact Hrb]. right. split; [reflexivity|]. now rewrite <- E.
        * right. split; [reflexivity|]. left. now split. }
  set (gs6 := Items.attach root (EdgeItem ed) gs5).
  assert (K6 : keys gs6 = keys gs5) by apply keys_attach.
  assert (Hk6 : NoDup (keys gs6)) by now rewrite K6.
  assert (Hr6 : NoDup (refs gs6)).
  { apply NoDup_refs_attach; [exact Hk5|exact Hr5|]. intros Hin. apply In_refs in Hin.
    destruct Hin as (g & it & Hit & E). destruct it as [n|x]; [discriminate|].
    cbn [refOf] in E. inversion E as [E'].
    assert (T : EdgeT gs5 g (Edge.id ed) (Edge.source x) (Edge.dest x)) by now exists x.
    apply E5' in T. destruct T as (g0 & T & _). exact (Hfresh _ _ _ T). }
  match goal with |- context [Items.removeGraph pa ?x] => set (gs7 := x) end.
  assert (Hfg6 : ~ In fg (keys gs6)).
  { rewrite K6, K5, K4, K3. intros Hin. apply in_app_or in Hin.
    destruct Hin as [Hin|[E|[]]]; [contradiction|congruence]. }
  assert (N7 : forall gid nid es c, NodeT gs7 gid nid es c <-> NodeT gs5 gid nid es c).
  { intros. unfold gs7. destruct renew; [rewrite NodeT_app_new|]; apply NodeT_attach_edge. }
  assert (E7 : forall gid eid s d,
             EdgeT gs7 gid eid s d <->
             EdgeT gs5 gid eid s d
             \/ (gid = root /\ eid = Edge.id ed /\ s = Edge.source ed /\ d = Edge.dest ed)).
  { intros. unfold gs7. destruct renew; [rewrite EdgeT_app_new|];
      now apply EdgeT_attach_edge. }
  assert (Hk7 : NoDup (keys gs7)).
  { unfold gs7. destruct renew; [|exact Hk6]. now apply NoDup_keys_app_new. }
  assert (Hr7 : NoDup (refs gs7)).
  { unfold gs7. destruct renew; [|exact Hr6]. now rewrite refs_app_new. }
  assert (Hin7 : In root (keys gs7)).
  { unfold gs7. destruct renew; [rewrite keys_app_new; apply in_or_app; left|];
      now rewrite K6. }
  assert (Hfg7 : renew = true -> In fg (keys gs7)).
  { intros ->. unfold gs7. rewrite keys_app_new. apply in_or_app. right. now left. }
  clearbody gs7.
  split; [|split; [|split; [|split; [|split]]]].
  - intros gid nid es c. rewrite !NodeT_removeGraph, N7, N5'. split.
    + intros (((g0 & T & Hc) & Ha) & Hb). exists g0. split; [exact T|].
      destruct (mergedTo_cases pa pb root g0) as [(A & B & ->)|(A & ->)];
        destruct Hc as [(A' & B' & ->)|(A' & ->)]; try reflexivity; tauto.
    + intros (g0 & T & ->).
      destruct (mergedTo_cases pa pb root g0) as [(A & B & ->)|(A & ->)].
      * split; [split; [|exact A]|exact B]. exists g0. split; [exact T|]. left. auto.
      * split; [split; [|exact Hra]|exact Hrb]. exists g0. split; [exact T|]. right. auto.
  - intros gid eid s d. rewrite !EdgeT_removeGraph, E7, E5'. split.
    + intros (([(g0 & T & Hc)|Hnew] & Ha) & Hb); [left|right; exact Hnew].
      exists g0. split; [exact T|].
      destruct (mergedTo_cases pa pb root g0) as [(A & B & ->)|(A & ->)];
        destruct Hc as [(A' & B' & ->)|(A' & ->)]; try reflexivity; tauto.
    + intros [(g0 & T & ->)|(-> & Hnew)].
      * destruct (mergedTo_cases pa pb root g0) as [(A & B & ->)|(A & ->)].
        -- split; [split; [|exact A]|exact B]. left. exists g0. split; [exact T|]. left. auto.
        -- split; [split; [|exact Hra]|exact Hrb]. left. exists g0.
           split; [exact T|]. right. auto.
      * split; [split; [|exact Hra]|exact Hrb]. right. now split.
  - now apply NoDup_keys_removeGraph, NoDup_keys_removeGraph.
  - now apply NoDup_refs_removeGraph, NoDup_refs_removeGraph.
  - rewrite !keys_removeGraph. apply filter_In. split.
    + apply filter_In. split; [exact Hin7|]. now apply Bool.negb_true_iff, Nat.eqb_neq.
    + now apply Bool.negb_true_iff, Nat.eqb_neq.
  - intros Hrenew. rewrite !keys_removeGraph.
    assert (Hfa : fg <> pa) by (intros ->; contradiction).
    assert (Hfb : fg <> pb) by (intros ->; contradiction).
    apply filter_In. split.
    + apply filter_In. split; [now apply Hfg7|now apply Bool.negb_true_iff, Nat.eqb_neq].
    + now apply Bool.negb_true_iff, Nat.eqb_neq.
Qed.

Lemma adopt_keys (parent root : nat) (gs : Graphs) :
  keys (CanvasView.adopt parent root gs) = keys gs.
Proof.
  unfold CanvasView.adopt. destruct (Items.lookupGraph gs parent) as [g|]; [|reflexivity].
  generalize (Graph.childItems g). intros l. revert gs.
  induction l as [|it l IH]; intros gs; [reflexivity|].
  cbn [fold_left]. now rewrite IH, keys_reparent.
Qed.

(** ** Where the graphs are *)

Lemma lookupGraph_map_graphs (G : nat * Graph.t -> Graph.t) (gs : Graphs) (k : nat) :
  Items.lookupGraph (map (fun kg => (fst kg, G kg)) gs) k
  = option_map (fun g => G (k, g)) (Items.lookupGraph gs k).
Proof.
  unfold Items.lookupGraph. induction gs as [|[k' g] gs IH]; [reflexivity|].
  cbn [map find fst snd]. destruct (Nat.eqb_spec k' k) as [->|Hne]; [reflexivity|exact IH].
Qed.

Lemma lookupGraph_removeGraph_other (k' : nat) (gs : Graphs) (k : nat) :
  k <> k' -> Items.lookupGraph (Items.removeGraph k' gs) k = Items.lookupGraph gs k.
Proof.
  intros Hne. unfold Items.lookupGraph, Items.removeGraph.
  induction gs as [|[k0 g] gs IH]; [reflexivity|].
  cbn [filter find fst snd]. destruct (Nat.eqb_spec k0 k') as [->|H0]; cbn [negb].
  - destruct (Nat.eqb_spec k' k) as [E|_]; [now elim Hne|exact IH].
  - cbn [find fst snd]. destruct (Nat.eqb k0 k); [reflexivity|exact IH].
Qed.

Lemma lookupGraph_app_new (gs : Graphs) (k' k : nat) :
  Items.lookupGraph (gs ++ [(k', Graph.new)]) k
  = match Items.lookupGraph gs k with
    | Some g => Some g
    | None => if Nat.eqb k' k then Some Graph.new else None
    end.
Proof.
  unfold Items.lookupGraph. induction gs as [|[k0 g] gs IH].
  - cbn [app find fst snd]. now destruct (Nat.eqb k' k).
  - cbn [app find fst snd]. destruct (Nat.eqb k0 k); [reflexivity|exact IH].
Qed.

Lemma frameOf_map_graphs (G : nat * Graph.t -> Graph.t) (gs : Graphs) (k : nat) :
  (forall kg, Graph.pos (G kg) = Graph.pos (snd kg)
              /\ Graph.rotation (G kg) = Graph.rotation (snd kg)) ->
  frameOf (map (fun kg => (fst kg, G kg)) gs) k = frameOf gs k.
Proof.
  intros HG. unfold frameOf. rewrite lookupGraph_map_graphs.
  destruct (Items.lookupGraph gs k) as [g|]; [|reflexivity]. cbn [option_map].
  destruct (HG (k, g)) as (E1 & E2). cbn [snd] in E1, E2. now rewrite E1, E2.
Qed.

Lemma frameOf_updateGraph (k' : nat) (f : Graph.t -> Graph.t) (gs : Graphs) (k : nat) :
  (forall g, Graph.pos (f g) = Graph.pos g /\ Graph.rotation (f g) = Graph.rotation g) ->
  frameOf (Items.updateGraph k' f gs) k = frameOf gs k.
Proof.
  intros Hf. rewrite updateGraph_as_map. apply frameOf_map_graphs.
  intros [k0 g]. cbn [fst snd]. destruct (Nat.eqb k0 k'); [apply Hf|now split].
Qed.

Lemma frameOf_mapItems (f : Item -> Item) (gs : Graphs) (k : nat) :
  frameOf (Items.mapItems f gs) k = frameOf gs k.
Proof.
  apply (frameOf_map_graphs
           (fun kg => Items.setChildren (snd kg) (map f (Graph.childItems (snd kg))))).
  intros kg. now split.
Qed.

Lemma frameOf_updateNode (nid : nat) (f : Node.t -> Node.t) (gs : Graphs) (k : nat) :
  frameOf (Items.updateNode nid f gs) k = frameOf gs k.
Proof. apply frameOf_mapItems. Qed.

Lemma frameOf_detach (r : ItemRef) (gs : Graphs) (k : nat) :
  frameOf (Items.detach r gs) k = frameOf gs k.
Proof.
  apply (frameOf_map_graphs
           (fun kg => Items.setChildren (snd kg)
                        (filter (fun it => negb (refEqb (refOf it) r))
                                (Graph.childItems (snd kg))))).
  intros kg. now split.
Qed.

Lemma frameOf_attach (k' : nat) (it : Item) (gs : Graphs) (k : nat) :
  frameOf (Items.attach k' it gs) k = frameOf gs k.
Proof. apply frameOf_updateGraph. intros g. now split. Qed.

Lemma frameOf_reparent (k' : nat) (it : Item) (p : QPointF) (gs : Graphs) (k : nat) :
  frameOf (Items.reparent k' it p gs) k = frameOf gs k.
Proof. unfold Items.reparent. now rewrite frameOf_attach, frameOf_detach. Qed.

Lemma frameOf_adopt (parent root : nat) (gs : Graphs) (k : nat) :
  frameOf (CanvasView.adopt parent root gs) k = frameOf gs k.
Proof.
  unfold CanvasView.adopt. destruct (Items.lookupGraph gs parent) as [g|]; [|reflexivity].
  generalize (Graph.childItems g). intros l. revert gs.
  induction l as [|it l IH]; intros gs; [reflexivity|].
  cbn [fold_left]. now rewrite IH, frameOf_reparent.
Qed.

Lemma frameOf_app_new (gs : Graphs) (k' k : nat) :
  frameOf (gs ++ [(k', Graph.new)]) k
  = match frameOf gs k with
    | Some x => Some x
    | None => if Nat.eqb k' k then Some (origin, 0) else None
    end.
Proof.
  unfold frameOf. rewrite lookupGraph_app_new.
  destruct (Items.lookupGraph gs k) as [g|]; [reflexivity|].
  now destruct (Nat.eqb k' k).
Qed.

Lemma frameOf_removeGraph (k' : nat) (gs : Graphs) (k : nat) :
  k <> k' -> frameOf (Items.removeGraph k' gs) k = frameOf gs k.
Proof. intros Hne. unfold frameOf. now rewrite lookupGraph_removeGraph_other. Qed.

Lemma frameOf_absent (gs : Graphs) (k : nat) : ~ In k (keys gs) -> frameOf gs k = None.
Proof. intros Hk. unfold frameOf. now rewrite (proj2 (lookupGraph_None gs k) Hk). Qed.

Lemma AtOrigin_frameOf (v : CanvasView.t) :
  AtOrigin v <->
  exists fg, CanvasView.freestyleGraph v = Some fg
             /\ frameOf (CanvasView.graphs v) fg = Some (origin, 0).
Proof.
  unfold AtOrigin, frameOf. split.
  - intros (fg & g & Efg & L & Ep & Er). exists fg. split; [exact Efg|].
    rewrite L. cbn [option_map]. now rewrite Ep, Er.
  - intros (fg & Efg & F). exists fg.
    destruct (Items.lookupGraph (CanvasView.graphs v) fg) as [g|]; [|discriminate].
    exists g. cbn [option_map] in F. injection F as Ep Er. now repeat split.
Qed.

(** ** addEdgeToScene *)

(** The graph a child of [g] is in after the edge from a node of [pa] to
    a node of [pb] is drawn. *)
Lemma addEdgeToScene_sound (a b pa pb : nat) (v : CanvasView.t) :
  WellFormed (CanvasView.graphs v) -> a <> b ->
  hasNode (CanvasView.graphs v) pa a -> hasNode (CanvasView.graphs v) pb b ->
  exists v' root,
    CanvasView.addEdgeToScene a b v = Some v'
    /\ ~ In root (keys (CanvasView.graphs v))
    /\ WellFormed (CanvasView.graphs v')
    /\ (Connected (CanvasView.graphs v) -> Connected (CanvasView.graphs v'))
    /\ (forall gid nid,
          hasNode (CanvasView.graphs v') gid nid <->
          exists g0, hasNode (CanvasView.graphs v) g0 nid
                     /\ gid = (if Nat.eqb pa pb then g0 else mergedTo pa pb root g0))
    /\ (forall gid eid s d,
          EdgeT (CanvasView.graphs v') gid eid s d <->
          (exists g0, EdgeT (CanvasView.graphs v) g0 eid s d
                      /\ gid = (if Nat.eqb pa pb then g0 else mergedTo pa pb root g0))
          \/ (gid = (if Nat.eqb pa pb then pa else root)
              /\ eid = CanvasView.freshEdge (CanvasView.graphs v) /\ s = a /\ d = b))
    /\ CanvasView.modeType v' = CanvasView.modeType v
    /\ CanvasView.node1 v' = CanvasView.node1 v
    /\ CanvasView.node2 v' = CanvasView.node2 v
    /\ (forall fg, CanvasView.freestyleGraph v = Some fg ->
                   In fg (keys (CanvasView.graphs v)) ->
                   exists fg', CanvasView.freestyleGraph v' = Some fg'
                               /\ In fg' (keys (CanvasView.graphs v')))
    /\ (AtOrigin v -> AtOrigin v').
Proof.
  intros Hwf Hab Ha Hb.
  set (gs0 := CanvasView.graphs v) in *.
  pose proof (wf_keys _ Hwf) as Hk0. pose proof (wf_refs _ Hwf) as Hr0.
  destruct (hasNode_findNode _ _ _ Ha) as (na & Fa & Ia).
  destruct (hasNode_findNode _ _ _ Hb) as (nb & Fb & Ib).
  set (e := CanvasView.freshEdge gs0).
  destruct (addEdge_views gs0 a b e Hab) as (N2 & E2 & K2 & R2).
  set (gs2 := Items.updateNode b (fun n => Node.addEdge n e)
                (Items.updateNode a (fun n => Node.addEdge n e) gs0)) in *.
  assert (Hk2 : NoDup (keys gs2)) by now rewrite K2.
  assert (Hr2 : NoDup (refs gs2)) by now rewrite R2.
  assert (H2 : forall g n, hasNode gs0 g n -> hasNode gs2 g n).
  { intros g n (es & c & T). exists (es ++ extraEdge a b e n), c. apply N2. now exists es. }
  assert (Pa : Items.parentItem gs2 (NodeRef a) = Some pa)
    by (apply parentItem_hasNode; [exact Hr2|now apply H2]).
  assert (Pb : Items.parentItem gs2 (NodeRef b) = Some pb)
    by (apply parentItem_hasNode; [exact Hr2|now apply H2]).
  assert (Hpa : In pa (keys gs2)) by (rewrite K2; exact (hasNode_key _ _ _ Ha)).
  assert (Hpb : In pb (keys gs2)) by (rewrite K2; exact (hasNode_key _ _ _ Hb)).
  assert (Hfresh : forall g s d, ~ EdgeT gs0 g e s d) by (intros; apply freshEdge_absent).
  set (ed := CanvasView.createEdge e na nb).
  assert (Eed : Edge.id ed = e /\ Edge.source ed = a /\ Edge.dest ed = b)
    by (subst ed; cbn; auto).
  destruct Eed as (Eid & Esrc & Edst).
  unfold CanvasView.addEdgeToScene. fold gs0. rewrite Fa, Fb. cbv zeta. fold e. fold gs2.
  rewrite Pa, Pb. fold ed.
  destruct (Nat.eqb_spec pa pb) as [Epp|Hpp].
  - (* one graph *)
    subst pb. set (gs' := Items.attach pa (EdgeItem ed) gs2).
    assert (HN : forall gid nid es c,
               NodeT gs' gid nid es c <->
               exists g0 es0, NodeT gs0 g0 nid es0 c /\ gid = (fun g => g) g0
                              /\ es = es0 ++ extraEdge a b e nid).
    { intros gid nid es c. unfold gs'. rewrite NodeT_attach_edge, N2. split.
      - intros (es0 & T & ->). now exists gid, es0.
      - intros (g0 & es0 & T & -> & ->). now exists es0. }
    assert (HE : forall gid eid s d,
               EdgeT gs' gid eid s d <->
               (exists g0, EdgeT gs0 g0 eid s d /\ gid = (fun g => g) g0)
               \/ (gid = (fun g => g) pa /\ eid = e /\ s = a /\ d = b)).
    { intros gid eid s d. unfold gs'. rewrite (EdgeT_attach_edge _ _ _ _ _ _ _ Hpa), E2.
      rewrite Eid, Esrc, Edst. split.
      - intros [T|Hnew]; [left; now exists gid|now right].
      - intros [(g0 & T & ->)|Hnew]; [now left|now right]. }
    assert (Hk' : NoDup (keys gs')) by (unfold gs'; now rewrite keys_attach).
    assert (Hr' : NoDup (refs gs')).
    { unfold gs'. apply NoDup_refs_attach; [exact Hk2|exact Hr2|].
      cbn [refOf]. rewrite Eid, R2. apply freshEdge_ref. }
    pose proof (linked_WellFormed gs0 gs' (fun g => g) a b e pa pa Hwf Hk' Hr' Hab Ha Hb
                                  eq_refl Hfresh HN HE) as Hwf'.
    exists (CanvasView.setGraphs v gs'), (Items.fresh gs0 []).
    split; [reflexivity|]. split; [apply fresh_not_key|].
    change (CanvasView.graphs (CanvasView.setGraphs v gs')) with gs'.
    split; [exact Hwf'|]. split.
    { intros Hconn.
      apply (linked_Connected gs0 gs' (fun g => g) a b e pa pa Hwf Hk' Hr' Hab Ha Hb
                              eq_refl Hfresh HN HE Hconn).
      intros g g' _ _ E. now left. }
    split.
    { intros gid nid.
      apply (linked_hasNode gs0 gs' (fun g => g) a b e HN). }
    split; [exact HE|]. split; [reflexivity|]. split; [reflexivity|]. split; [reflexivity|].
    split.
    { intros fg Efg Hin. exists fg. split; [exact Efg|]. unfold gs'.
      now rewrite keys_attach, K2. }
    intros HO. apply AtOrigin_frameOf in HO. destruct HO as (fg & Efg & F).
    apply AtOrigin_frameOf. exists fg. split; [exact Efg|].
    change (frameOf gs' fg = Some (origin, 0)). unfold gs', gs2.
    now rewrite frameOf_attach, !frameOf_updateNode.
  - (* two graphs *)
    set (l := CanvasView.canvasGraphList v).
    set (root := Items.fresh gs2 l).
    set (gs6 := Items.attach root (EdgeItem ed)
                  (CanvasView.adopt pb root
                     (CanvasView.adopt pa root (gs2 ++ [(root, Graph.new)])))).
    set (renew := CanvasView.isGraph (CanvasView.freestyleGraph v) pa
                  || CanvasView.isGraph (CanvasView.freestyleGraph v) pb).
    set (fg' := Items.fresh gs6 (l ++ [root])).
    assert (Hroot : ~ In root (keys gs2)) by apply fresh_not_key.
    assert (K6 : keys gs6 = keys gs2 ++ [root]).
    { unfold gs6. now rewrite keys_attach, !adopt_keys, keys_app_new. }
    assert (Hfg6 : ~ In fg' (keys gs6)) by apply fresh_not_key.
    assert (Hfg1 : fg' <> root).
    { intros E. apply Hfg6. rewrite K6, E. apply in_or_app. right. now left. }
    assert (Hfg2 : ~ In fg' (keys gs2)).
    { intros Hin. apply Hfg6. rewrite K6. apply in_or_app. now left. }
    assert (Hfresh2 : forall g s d, ~ EdgeT gs2 g (Edge.id ed) s d).
    { intros g s d T. rewrite Eid in T. apply E2 in T. exact (Hfresh _ _ _ T). }
    destruct (merged_views gs2 pa pb root fg' renew ed Hk2 Hr2 Hpa Hpb Hroot Hfg1 Hfg2 Hfresh2)
      as (N8 & E8 & Hk8 & Hr8 & Hin8 & Hfg8).
    fold gs6 in N8, E8, Hk8, Hr8, Hin8, Hfg8.
    set (gs8 := Items.removeGraph pb
                  (Items.removeGraph pa
                     (if renew then gs6 ++ [(fg', Graph.new)] else gs6))) in *.
    assert (HN : forall gid nid es c,
               NodeT gs8 gid nid es c <->
               exists g0 es0, NodeT gs0 g0 nid es0 c /\ gid = mergedTo pa pb root g0
                              /\ es = es0 ++ extraEdge a b e nid).
    { intros gid nid es c. rewrite N8. split.
      - intros (g0 & T & ->). apply N2 in T. destruct T as (es0 & T & ->). now exists g0, es0.
      - intros (g0 & es0 & T & -> & ->). exists g0. split; [|reflexivity].
        apply N2. now exists es0. }
    assert (Hmr : mergedTo pa pb root pa = root).
    { unfold mergedTo. now rewrite Nat.eqb_refl. }
    assert (Hmr' : mergedTo pa pb root pb = root).
    { unfold mergedTo. rewrite Nat.eqb_refl. now destruct (Nat.eqb pb pa). }
    assert (HE : forall gid eid s d,
               EdgeT gs8 gid eid s d <->
               (exists g0, EdgeT gs0 g0 eid s d /\ gid = mergedTo pa pb root g0)
               \/ (gid = mergedTo pa pb root pa /\ eid = e /\ s = a /\ d = b)).
    { intros gid eid s d. rewrite E8, Eid, Esrc, Edst, Hmr. split.
      - intros [(g0 & T & ->)|Hnew]; [left|now right]. exists g0. split; [|reflexivity].
        now apply E2.
      - intros [(g0 & T & ->)|Hnew]; [left|now right]. exists g0. split; [|reflexivity].
        now apply E2. }
    pose proof (linked_WellFormed gs0 gs8 (mergedTo pa pb root) a b e pa pb Hwf Hk8 Hr8 Hab
                                  Ha Hb (eq_trans Hmr (eq_sym Hmr')) Hfresh HN HE) as Hwf'.
    assert (Hroot0 : ~ In root (keys gs0)) by now rewrite <- K2.
    eexists. exists root. split; [reflexivity|]. split; [exact Hroot0|].
    assert (G : forall w, CanvasView.graphs
                            (CanvasView.setCanvasGraphList
                               (CanvasView.setGraphs w gs8)
                               (removeOne pb (removeOne pa (l ++ [root])))) = gs8)
      by reflexivity.
    rewrite G. split; [exact Hwf'|]. split.
    { intros Hconn.
      apply (linked_Connected gs0 gs8 (mergedTo pa pb root) a b e pa pb Hwf Hk8 Hr8 Hab
                              Ha Hb (eq_trans Hmr (eq_sym Hmr')) Hfresh HN HE Hconn).
      intros g g' Hg Hg' E.
      destruct (mergedTo_cases pa pb root g) as [(A & B & Eg)|(A & Eg)];
        destruct (mergedTo_cases pa pb root g') as [(A' & B' & Eg')|(A' & Eg')];
        rewrite Eg, Eg' in E.
      - now left.
      - exfalso. apply Hroot0. now rewrite <- E.
      - exfalso. apply Hroot0. now rewrite E.
      - destruct A as [-> | ->]; destruct A' as [-> | ->]; auto. }
    split.
    { intros gid nid.
      apply (linked_hasNode gs0 gs8 (mergedTo pa pb root) a b e HN). }
    split.
    { intros gid eid s d. rewrite HE, Hmr. reflexivity. }
    split; [now destruct renew|]. split; [now destruct renew|]. split; [now destruct renew|].
    split.
    { intros fg Efg Hin. destruct renew eqn:Er.
      + exists fg'. split; [reflexivity|]. now apply Hfg8.
      + exists fg. split; [exact Efg|].
        unfold renew in Er. rewrite Efg in Er. cbn [CanvasView.isGraph] in Er.
        apply Bool.orb_false_iff in Er. destruct Er as (Er1 & Er2).
        apply Nat.eqb_neq in Er1, Er2.
        unfold gs8. rewrite !keys_removeGraph. apply filter_In. split.
        * apply filter_In. split; [|now apply Bool.negb_true_iff, Nat.eqb_neq].
          rewrite K6. apply in_or_app. left. now rewrite K2.
        * now apply Bool.negb_true_iff, Nat.eqb_neq. }
    intros HO. apply AtOrigin_frameOf in HO. destruct HO as (fg & Efg & F).
    apply AtOrigin_frameOf.
    assert (F6 : forall k, frameOf gs6 k = frameOf (gs2 ++ [(root, Graph.new)]) k).
    { intros k. unfold gs6. now rewrite frameOf_attach, !frameOf_adopt. }
    assert (F2 : forall k, frameOf gs2 k = frameOf gs0 k).
    { intros k. unfold gs2. now rewrite !frameOf_updateNode. }
    assert (Hfa : fg' <> pa) by (intros E; apply Hfg2; now rewrite E).
    assert (Hfb : fg' <> pb) by (intros E; apply Hfg2; now rewrite E).
    destruct renew eqn:Er.
    + exists fg'. split; [reflexivity|].
      change (frameOf gs8 fg' = Some (origin, 0)). unfold gs8.
      rewrite (frameOf_removeGraph pb _ fg' Hfb), (frameOf_removeGraph pa _ fg' Hfa).
      rewrite frameOf_app_new, (frameOf_absent gs6 fg' Hfg6). now rewrite Nat.eqb_refl.
    + exists fg. split; [exact Efg|].
      unfold renew in Er. rewrite Efg in Er. cbn [CanvasView.isGraph] in Er.
      apply Bool.orb_false_iff in Er. destruct Er as (Er1 & Er2).
      apply Nat.eqb_neq in Er1, Er2.
      change (frameOf gs8 fg = Some (origin, 0)). unfold gs8.
      rewrite (frameOf_removeGraph pb _ fg Er2), (frameOf_removeGraph pa _ fg Er1).
      rewrite F6, frameOf_app_new, F2. unfold gs0. now rewrite F.
Qed.

(** ** createNode *)

Lemma createNode_sound (pos : QPointF) (v : CanvasView.t) (fg : nat) :
  WellFormed (CanvasView.graphs v) ->
  CanvasView.freestyleGraph v = Some fg -> In fg (keys (CanvasView.graphs v)) ->
  exists v',
    CanvasView.createNode pos v = Some v'
    /\ WellFormed (CanvasView.graphs v')
    /\ (forall gid nid es c,
          NodeT (CanvasView.graphs v') gid nid es c <->
          NodeT (CanvasView.graphs v) gid nid es c
          \/ (gid = fg /\ nid = CanvasView.freshNode (CanvasView.graphs v)
              /\ es = [] /\ c = 0%Z))
    /\ (forall gid eid s d,
          EdgeT (CanvasView.graphs v') gid eid s d <-> EdgeT (CanvasView.graphs v) gid eid s d)
    /\ keys (CanvasView.graphs v') = keys (CanvasView.graphs v)
    /\ CanvasView.modeType v' = CanvasView.modeType v
    /\ CanvasView.freestyleGraph v' = CanvasView.freestyleGraph v
    /\ CanvasView.node1 v' = CanvasView.node1 v
    /\ CanvasView.node2 v' = CanvasView.node2 v
    /\ (AtOrigin v -> AtOrigin v').
Proof.
  intros Hwf Efg Hin. set (gs := CanvasView.graphs v) in *.
  destruct (lookupGraph_key _ _ Hin) as (g & L).
  unfold CanvasView.createNode. fold gs. rewrite Efg, L.
  set (node := Node.setPos
                 (Node.setRotation
                    (Node.setDiameter (CanvasView.newNode (CanvasView.freshNode gs))
                                      (CanvasView.nodeParams_diameter v)) 0) pos).
  set (gs' := Items.attach fg (NodeItem node) gs).
  assert (HN : forall gid nid es c,
             NodeT gs' gid nid es c <->
             NodeT gs gid nid es c
             \/ (gid = fg /\ nid = CanvasView.freshNode gs /\ es = [] /\ c = 0%Z)).
  { intros. unfold gs'. now rewrite (NodeT_attach_node _ _ _ _ _ _ _ Hin). }
  assert (HE : forall gid eid s d, EdgeT gs' gid eid s d <-> EdgeT gs gid eid s d)
    by (intros; apply EdgeT_attach_node).
  assert (HH : forall gid nid, hasNode gs gid nid -> hasNode gs' gid nid).
  { intros gid nid (es & c & T). exists es, c. apply HN. now left. }
  eexists. split; [reflexivity|].
  change (CanvasView.graphs (CanvasView.setGraphs v gs')) with gs'.
  split.
  2:{ split; [exact HN|]. split; [exact HE|]. split; [apply keys_attach|].
      split; [reflexivity|]. split; [exact Efg|]. split; [reflexivity|].
      split; [reflexivity|].
      intros HO. apply AtOrigin_frameOf in HO. destruct HO as (fg0 & Efg0 & F).
      apply AtOrigin_frameOf. exists fg0. split; [exact Efg0|].
      change (frameOf gs' fg0 = Some (origin, 0)). unfold gs'. now rewrite frameOf_attach. }
  constructor.
  - unfold gs'. rewrite keys_attach. exact (wf_keys _ Hwf).
  - unfold gs'. apply NoDup_refs_attach; [exact (wf_keys _ Hwf)|exact (wf_refs _ Hwf)|].
    apply freshNode_ref.
  - intros gid eid s d T. apply HE in T. destruct (wf_ends _ Hwf _ _ _ _ T) as (A & B & C).
    split; [now apply HH|]. split; [now apply HH|exact C].
  - intros gid nid es c x T Hx. apply HN in T. destruct T as [T|(_ & _ & -> & _)]; [|destruct Hx].
    destruct (wf_listed _ Hwf _ _ _ _ _ T Hx) as (s & d & E & Hsd).
    exists s, d. split; [now apply HE|exact Hsd].
  - intros gid eid s d nid es c T N Hsd. apply HE in T. apply HN in N.
    destruct N as [N|(_ & -> & _ & _)].
    + exact (wf_lists _ Hwf _ _ _ _ _ _ _ T N Hsd).
    + exfalso. destruct (wf_ends _ Hwf _ _ _ _ T) as (A & B & _).
      destruct Hsd as [-> | ->]; [exact (freshNode_absent _ _ A)|exact (freshNode_absent _ _ B)].
  - intros gid nid es c N. apply HN in N. destruct N as [N|(_ & _ & -> & _)]; [|constructor].
    exact (wf_once _ Hwf _ _ _ _ N).
  - intros gid nid es c N. apply HN in N. destruct N as [N|(_ & _ & _ & ->)]; [|reflexivity].
    exact (wf_unchecked _ Hwf _ _ _ _ N).
Qed.

(** ** The press in freestyle mode *)

Lemma edgeBetween_returns (gs : Graphs) (a b : nat) (l : list nat) :
  (forall x, In x l -> exists ed, Items.findEdge gs x = Some ed) ->
  exists r, CanvasView.edgeBetween gs a b l = Some r.
Proof.
  induction l as [|x l IH]; intros Hl; [now exists false|].
  cbn [CanvasView.edgeBetween]. destruct (Hl x (or_introl eq_refl)) as (ed & ->).
  destruct IH as (r & ->); [intros y Hy; apply Hl; now right|]. now eexists.
Qed.

Lemma Sketching_setNodes (v : CanvasView.t) (n1 : option nat) :
  Sketching v ->
  (forall a, n1 = Some a -> exists g, hasNode (CanvasView.graphs v) g a) ->
  Sketching (CanvasView.setNodes v n1 None).
Proof.
  intros (Hm & Hwf & Hfg & _ & _) Hn. unfold Sketching.
  split; [exact Hm|]. split; [exact Hwf|]. split; [exact Hfg|]. split; [exact Hn|reflexivity].
Qed.

Lemma connect_sound (a b : nat) (v : CanvasView.t) :
  CanvasView.modeType v = CanvasScene.freestyle ->
  WellFormed (CanvasView.graphs v) ->
  (exists fg, CanvasView.freestyleGraph v = Some fg /\ In fg (keys (CanvasView.graphs v))) ->
  a <> b ->
  (exists g, hasNode (CanvasView.graphs v) g a) ->
  (exists g, hasNode (CanvasView.graphs v) g b) ->
  exists v', CanvasView.connect a b v = Some v' /\ Sketching v' /\ (AtOrigin v -> AtOrigin v').
Proof.
  intros Hm Hwf (fg & Efg & Hfg) Hab (pa & Ha) (pb & Hb).
  destruct Ha as (esa & ca & Ta).
  destruct (NodeT_findNode _ _ _ _ _ (wf_refs _ Hwf) Ta) as (na & Fa & _ & Ea & _).
  unfold CanvasView.connect. rewrite Fa. unfold Node.edges. rewrite Ea.
  destruct (edgeBetween_returns (CanvasView.graphs v) a b esa) as (r & ->).
  { intros x Hx. destruct (wf_listed _ Hwf _ _ _ _ _ Ta Hx) as (s & d & E & _).
    destruct (EdgeT_findEdge _ _ _ _ _ (wf_refs _ Hwf) E) as (ed & F & _). now exists ed. }
  destruct r.
  - eexists. split; [reflexivity|]. split; [|exact (fun HO => HO)]. unfold Sketching.
    split; [exact Hm|]. split; [exact Hwf|]. split; [now exists fg|].
    split; [|reflexivity]. intros x Ex. inversion Ex; subst. now exists pb.
  - destruct (addEdgeToScene_sound a b pa pb v Hwf Hab (ex_intro _ esa (ex_intro _ ca Ta)) Hb)
      as (v' & root & -> & _ & Hwf' & _ & HH & _ & Hm' & _ & _ & Hfg' & HO').
    destruct (Hfg' fg Efg Hfg) as (fg' & Efg' & Hin').
    rewrite Efg'. destruct (lookupGraph_key _ _ Hin') as (g' & ->).
    eexists. split; [reflexivity|]. split; [|exact HO']. unfold Sketching.
    split; [now rewrite <- Hm|]. split; [exact Hwf'|]. split; [now exists fg'|].
    split; [|reflexivity]. intros x Ex. inversion Ex; subst.
    eexists. apply HH. exists pb. split; [exact Hb|reflexivity].
Qed.

Lemma pressItems_sound (hits : list Pointer.Hit) (v : CanvasView.t) (empty : bool) :
  Sketching v ->
  (forall n, In (Pointer.HitNode n) hits -> exists g, hasNode (CanvasView.graphs v) g n) ->
  exists v' empty',
    CanvasView.pressItems hits v empty = Some (v', empty')
    /\ Sketching v' /\ (AtOrigin v -> AtOrigin v').
Proof.
  revert v empty. induction hits as [|h rest IH]; intros v empty HS Hhits.
  { exists v, empty. split; [reflexivity|]. split; [exact HS|exact (fun HO => HO)]. }
  assert (Hrest : forall n, In (Pointer.HitNode n) rest ->
                            exists g, hasNode (CanvasView.graphs v) g n)
    by (intros n Hn; apply Hhits; now right).
  pose proof HS as (Hm & Hwf & Hfg & Hn1 & Hn2).
  cbn [CanvasView.pressItems].
  destruct h as [n|e|o|g]; cbn [CanvasView.pick];
    try (rewrite Hn2; destruct (CanvasView.node1 v); exact (IH v _ HS Hrest)).
  destruct (CanvasView.node1 v) as [a|] eqn:E1.
  - rewrite Hn2. destruct (Nat.eqb_spec n a) as [->|Hne].
    + rewrite E1, Hn2. exact (IH v _ HS Hrest).
    + cbn [CanvasView.setNodes CanvasView.node1 CanvasView.node2].
      destruct (Nat.eqb_spec a n) as [E|_]; [congruence|].
      destruct (connect_sound a n (CanvasView.setNodes v (Some a) (Some n)))
        as (v2 & -> & HS2 & HO2); try assumption.
      * intros E. now subst.
      * now apply Hn1.
      * apply Hhits. now left.
      * exists v2, (empty && negb (CanvasView.isNodeHit (Pointer.HitNode n))).
        split; [reflexivity|]. split; [exact HS2|exact HO2].
  - cbn [CanvasView.setNodes CanvasView.node1 CanvasView.node2].
    apply (IH (CanvasView.setNodes v (Some n) None)); [|exact Hrest].
    apply Sketching_setNodes; [exact HS|].
    intros x Ex. inversion Ex; subst. apply Hhits. now left.
Qed.

Lemma mousePressEvent_sketching (ev : Pointer.MouseEvent) (v : CanvasView.t) :
  Sketching v ->
  exists v', CanvasView.mousePressEvent ev v = Some v'
             /\ Sketching v' /\ (AtOrigin v -> AtOrigin v').
Proof.
  intros HS. pose proof HS as (Hm & Hwf & Hfg & Hn1 & Hn2).
  unfold CanvasView.mousePressEvent. rewrite Hm.
  destruct (Pointer.leftButton ev).
  - destruct (pressItems_sound
                (filter (Pointer.present (CanvasView.graphs v)) (Pointer.itemList ev))
                v true HS) as (v' & empty' & -> & HS' & HO').
    { intros n Hn. exact (filter_present_node _ _ _ Hn). }
    eexists. split; [reflexivity|]. destruct empty'; [|split; [exact HS'|exact HO']].
    split; [|exact HO']. apply Sketching_setNodes; [exact HS'|discriminate].
  - eexists. split; [reflexivity|]. split; [|exact (fun HO => HO)].
    apply Sketching_setNodes; [exact HS|discriminate].
Qed.

Lemma mouseDoubleClickEvent_sketching (ev : Pointer.MouseEvent) (v : CanvasView.t) :
  Sketching v ->
  exists v', CanvasView.mouseDoubleClickEvent ev v = Some v'
             /\ Sketching v' /\ (AtOrigin v -> AtOrigin v').
Proof.
  intros (Hm & Hwf & (fg & Efg & Hfg) & Hn1 & Hn2).
  unfold CanvasView.mouseDoubleClickEvent. rewrite Hm.
  destruct (createNode_sound (Pointer.scenePos ev) v fg Hwf Efg Hfg)
    as (v1 & -> & Hwf1 & _ & _ & K1 & Hm1 & Efg1 & _ & _ & HO1).
  rewrite Efg. eexists. split; [reflexivity|].
  assert (HS1 : Sketching (CanvasView.setNodes v1 None None)).
  { unfold Sketching. split; [now rewrite <- Hm|]. split; [exact Hwf1|].
    split; [exists fg; split; [now rewrite <- Efg|]|].
    { change (In fg (keys (CanvasView.graphs v1))). now rewrite K1. }
    split; [discriminate|reflexivity]. }
  destruct (Items.lookupGraph (CanvasView.graphs v1) fg) as [g|];
    [|split; [exact HS1|exact HO1]].
  destruct (List.length (Graph.childItems g) =? 1)%nat; (split; [exact HS1|exact HO1]).
Qed.

End Freestyle.

(** ** What freestyle mode does to the graphs *)

Section FreestyleFacts.

Context `{Platform}.

Lemma strokes_sound (l : list Stroke) (v : CanvasView.t) :
  Sketching v ->
  exists v', strokes l v = Some v' /\ Sketching v' /\ (AtOrigin v -> AtOrigin v').
Proof.
  revert v. induction l as [|s l IH]; intros v HS.
  { exists v. split; [reflexivity|]. split; [exact HS|exact (fun HO => HO)]. }
  cbn [strokes]. destruct s as [ev|ev]; cbn [stroke].
  - destruct (mousePressEvent_sketching ev v HS) as (v1 & -> & HS1 & HO1).
    destruct (IH v1 HS1) as (v' & E & HS' & HO'). exists v'.
    split; [exact E|]. split; [exact HS'|]. intros HO. exact (HO' (HO1 HO)).
  - destruct (mouseDoubleClickEvent_sketching ev v HS) as (v1 & -> & HS1 & HO1).
    destruct (IH v1 HS1) as (v' & E & HS' & HO'). exists v'.
    split; [exact E|]. split; [exact HS'|]. intros HO. exact (HO' (HO1 HO)).
Qed.

(** X20.  Freestyle mode.  From a view in freestyle mode whose graphs are
    well formed, whose freestyle graph is in the scene and whose first
    node, if there is one, is in the scene, every sequence of presses and
    double clicks is handled to the end, and the view is again such a
    view: the edge lists still agree with the edges, the freestyle graph
    is still there (a new one when the old one was merged away), and the
    node kept for the next edge is a node of the scene. *)
Theorem strokes_keep_sketching (l : list Stroke) (v : CanvasView.t) :
  Sketching v -> exists v', strokes l v = Some v' /\ Sketching v'.
Proof.
  intros HS. destruct (strokes_sound l v HS) as (v' & E & HS' & _). now exists v'.
Qed.

(** X21.  An edge between two graphs.  When [node1] and [node2] are nodes of
    two different graphs, [addEdgeToScene] returns; the nodes and the
    edges of the two graphs are then the children of one graph that was
    not in the scene before, the other graphs keep theirs, and the new
    edge, from [node1] to [node2], is an edge of the new graph.  The
    graphs stay well formed, and if every graph was connected before,
    every graph is connected afterwards. *)
Theorem addEdgeToScene_merges (a b pa pb : nat) (v : CanvasView.t) :
  WellFormed (CanvasView.graphs v) ->
  CanvasView.node1 v = Some a -> CanvasView.node2 v = Some b -> a <> b ->
  hasNode (CanvasView.graphs v) pa a -> hasNode (CanvasView.graphs v) pb b -> pa <> pb ->
  exists v' root,
    CanvasView.addEdgeToScene a b v = Some v'
    /\ ~ In root (keys (CanvasView.graphs v))
    /\ WellFormed (CanvasView.graphs v')
    /\ (Connected (CanvasView.graphs v) -> Connected (CanvasView.graphs v'))
    /\ (forall gid nid,
          hasNode (CanvasView.graphs v') gid nid <->
          exists g0, hasNode (CanvasView.graphs v) g0 nid /\ gid = mergedTo pa pb root g0)
    /\ (forall gid eid s d,
          EdgeT (CanvasView.graphs v') gid eid s d <->
          (exists g0, EdgeT (CanvasView.graphs v) g0 eid s d /\ gid = mergedTo pa pb root g0)
          \/ (gid = root /\ eid = CanvasView.freshEdge (CanvasView.graphs v)
              /\ s = a /\ d = b)).
Proof.
  intros Hwf _ _ Hab Ha Hb Hne.
  destruct (addEdgeToScene_sound a b pa pb v Hwf Hab Ha Hb)
    as (v' & root & E & Hroot & Hwf' & HC & HN & HE & _).
  apply Nat.eqb_neq in Hne. rewrite Hne in HN, HE.
  exists v', root. split; [exact E|]. split; [exact Hroot|]. split; [exact Hwf'|].
  split; [exact HC|]. split; [exact HN|exact HE].
Qed.

(** X22.  An edge inside a graph.  When [node1] and [node2] are two nodes of
    one graph, [addEdgeToScene] returns; every node is in the graph it
    was in, every edge too, and the new edge, from [node1] to [node2],
    is an edge of their graph.  The graphs stay well formed, and if
    every graph was connected before, every graph is connected
    afterwards. *)
Theorem addEdgeToScene_within (a b pa : nat) (v : CanvasView.t) :
  WellFormed (CanvasView.graphs v) ->
  CanvasView.node1 v = Some a -> CanvasView.node2 v = Some b -> a <> b ->
  hasNode (CanvasView.graphs v) pa a -> hasNode (CanvasView.graphs v) pa b ->
  exists v',
    CanvasView.addEdgeToScene a b v = Some v'
    /\ WellFormed (CanvasView.graphs v')
    /\ (Connected (CanvasView.graphs v) -> Connected (CanvasView.graphs v'))
    /\ (forall gid nid,
          hasNode (CanvasView.graphs v') gid nid <-> hasNode (CanvasView.graphs v) gid nid)
    /\ (forall gid eid s d,
          EdgeT (CanvasView.graphs v') gid eid s d <->
          EdgeT (CanvasView.graphs v) gid eid s d
          \/ (gid = pa /\ eid = CanvasView.freshEdge (CanvasView.graphs v)
              /\ s = a /\ d = b)).
Proof.
  intros Hwf _ _ Hab Ha Hb.
  destruct (addEdgeToScene_sound a b pa pa v Hwf Hab Ha Hb)
    as (v' & root & E & Hroot & Hwf' & HC & HN & HE & _).
  rewrite Nat.eqb_refl in HN, HE.
  exists v'. split; [exact E|]. split; [exact Hwf'|]. split; [exact HC|]. split.
  - intros gid nid. rewrite HN. split.
    + intros (g0 & T & ->). exact T.
    + intros T. now exists gid.
  - intros gid eid s d. rewrite HE. split.
    + intros [(g0 & T & ->)|T]; [now left|now right].
    + intros [T|T]; [left; now exists gid|now right].
Qed.

(** X23.  A second node.  A double click in freestyle mode, when the
    freestyle graph has a node already, returns and leaves the freestyle
    graph with a node that no path of edges joins to the nodes it had:
    the graphs of the scene are then not all connected. *)
Theorem new_node_is_apart (ev : Pointer.MouseEvent) (v : CanvasView.t) (fg u : nat) :
  Sketching v -> CanvasView.freestyleGraph v = Some fg ->
  hasNode (CanvasView.graphs v) fg u ->
  exists v',
    CanvasView.mouseDoubleClickEvent ev v = Some v'
    /\ hasNode (CanvasView.graphs v') fg u
    /\ hasNode (CanvasView.graphs v') fg (CanvasView.freshNode (CanvasView.graphs v))
    /\ ~ reach (CanvasView.graphs v') fg u (CanvasView.freshNode (CanvasView.graphs v))
    /\ ~ Connected (CanvasView.graphs v').
Proof.
  intros (Hm & Hwf & (fg0 & Efg0 & Hfg) & _ & _) Efg Hu.
  rewrite Efg in Efg0. injection Efg0 as <-.
  destruct (createNode_sound (Pointer.scenePos ev) v fg Hwf Efg Hfg)
    as (v1 & Ec & Hwf1 & HN & HE & _).
  set (w := CanvasView.freshNode (CanvasView.graphs v)) in *.
  assert (Hv' : exists v', CanvasView.mouseDoubleClickEvent ev v = Some v'
                           /\ CanvasView.graphs v' = CanvasView.graphs v1).
  { unfold CanvasView.mouseDoubleClickEvent. rewrite Hm, Ec, Efg.
    eexists. split; [reflexivity|].
    destruct (Items.lookupGraph (CanvasView.graphs v1) fg) as [g|]; [|reflexivity].
    destruct (List.length (Graph.childItems g) =? 1)%nat; reflexivity. }
  destruct Hv' as (v' & Ev' & Eg). exists v'. split; [exact Ev'|]. rewrite Eg.
  assert (Hu1 : hasNode (CanvasView.graphs v1) fg u).
  { destruct Hu as (es & c & T). exists es, c. apply HN. now left. }
  assert (Hw1 : hasNode (CanvasView.graphs v1) fg w).
  { exists [], 0%Z. apply HN. right. repeat split. }
  assert (Hne : u <> w).
  { intros E. rewrite E in Hu. exact (freshNode_absent _ _ Hu). }
  assert (Hnr : ~ reach (CanvasView.graphs v1) fg u w).
  { intros R. inversion R as [x|x y z R1 A]; subst; [now apply Hne|].
    destruct A as (eid & [T|T]); apply HE in T;
      destruct (wf_ends _ Hwf _ _ _ _ T) as (A1 & A2 & _);
      [exact (freshNode_absent _ _ A2)|exact (freshNode_absent _ _ A1)]. }
  split; [exact Hu1|]. split; [exact Hw1|]. split; [exact Hnr|].
  intros HC. apply Hnr. now apply (HC fg u Hu1 w).
Qed.

Lemma recentre_nodes (c : QPointF) (items : list Item) :
  Graph.nodesOf (map (CanvasView.recentre c) items)
  = map (fun n => Node.setPos n (psub (Node.pos n) c)) (Graph.nodesOf items).
Proof.
  induction items as [|[n|e] items IH]; cbn [map CanvasView.recentre Graph.nodesOf];
    [reflexivity|now rewrite IH|exact IH].
Qed.

Lemma recentre_edges (c : QPointF) (items : list Item) :
  Graph.edgesOf (map (CanvasView.recentre c) items) = Graph.edgesOf items.
Proof.
  induction items as [|[n|e] items IH]; cbn [map CanvasView.recentre Graph.edgesOf];
    [reflexivity|exact IH|now rewrite IH].
Qed.

Lemma WellFormed_same_views (gs gs' : Graphs) :
  WellFormed gs -> NoDup (keys gs') -> NoDup (refs gs') ->
  (forall gid nid es c, NodeT gs' gid nid es c <-> NodeT gs gid nid es c) ->
  (forall gid eid s d, EdgeT gs' gid eid s d <-> EdgeT gs gid eid s d) ->
  WellFormed gs'.
Proof.
  intros Hwf K R N E. apply WellFormed_Merging.
  apply (Merging_same_views [] [] gs gs'); try assumption. now apply WellFormed_Merging.
Qed.

Lemma WellFormed_app_new (k : nat) (gs : Graphs) :
  WellFormed gs -> ~ In k (keys gs) -> WellFormed (gs ++ [(k, Graph.new)]).
Proof.
  intros Hwf Hk. apply (WellFormed_same_views gs).
  - exact Hwf.
  - apply NoDup_keys_app_new; [exact (wf_keys _ Hwf)|exact Hk].
  - rewrite refs_app_new. exact (wf_refs _ Hwf).
  - intros. apply NodeT_app_new.
  - intros. apply EdgeT_app_new.
Qed.

Lemma InGraph_same_views (gs gs' : Graphs) (F : nat -> Item -> Item) :
  (forall gid it', InGraph gs' gid it' <-> exists it, InGraph gs gid it /\ it' = F gid it) ->
  (forall gid n, exists n', F gid (NodeItem n) = NodeItem n' /\ Node.id n' = Node.id n
                            /\ Node.edgeList n' = Node.edgeList n
                            /\ Node.checked n' = Node.checked n) ->
  (forall gid e, F gid (EdgeItem e) = EdgeItem e) ->
  (forall gid nid es c, NodeT gs' gid nid es c <-> NodeT gs gid nid es c)
  /\ (forall gid eid s d, EdgeT gs' gid eid s d <-> EdgeT gs gid eid s d).
Proof.
  intros I FN FE. split.
  - intros gid nid es c. unfold NodeT, nodeAt. split.
    + intros (n' & Hin & E1 & E2 & E3). apply I in Hin. destruct Hin as ([n|e] & Hin & Eit).
      * destruct (FN gid n) as (n2 & E & A1 & A2 & A3). rewrite E in Eit.
        injection Eit as ->. exists n. split; [exact Hin|]. now rewrite <- A1, <- A2, <- A3.
      * rewrite FE in Eit. discriminate.
    + intros (n & Hin & E1 & E2 & E3). destruct (FN gid n) as (n2 & E & A1 & A2 & A3).
      exists n2. split; [|now rewrite A1, A2, A3].
      apply I. exists (NodeItem n). split; [exact Hin|now rewrite E].
  - intros gid eid s d. unfold EdgeT, edgeAt. split.
    + intros (e' & Hin & E). apply I in Hin. destruct Hin as ([n|e] & Hin & Eit).
      * destruct (FN gid n) as (n2 & E2 & _). rewrite E2 in Eit. discriminate.
      * rewrite FE in Eit. injection Eit as ->. now exists e.
    + intros (e & Hin & E). exists e. split; [|exact E].
      apply I. exists (EdgeItem e). split; [exact Hin|now rewrite FE].
Qed.

Lemma recentred_WellFormed (c : QPointF) (fg : nat) (gs : Graphs) :
  WellFormed gs ->
  WellFormed
    (Items.updateGraph fg
       (fun g0 => Graph.setPos
                    (Items.setChildren g0 (map (CanvasView.recentre c) (Graph.childItems g0)))
                    c) gs).
Proof.
  intros Hwf.
  set (f := fun g0 : Graph.t =>
              Graph.setPos
                (Items.setChildren g0 (map (CanvasView.recentre c) (Graph.childItems g0))) c).
  set (F := fun (gid : nat) (it : Item) =>
              if Nat.eqb gid fg then CanvasView.recentre c it else it).
  assert (I : forall gid it',
             InGraph (Items.updateGraph fg f gs) gid it'
             <-> exists it, InGraph gs gid it /\ it' = F gid it).
  { intros gid it'. rewrite InGraph_updateGraph. unfold InGraph, F. split.
    - intros (g & Hg & Hit). destruct (Nat.eqb gid fg).
      + cbn in Hit. apply in_map_iff in Hit. destruct Hit as (it & <- & Hit).
        exists it. split; [now exists g|reflexivity].
      + exists it'. split; [now exists g|reflexivity].
    - intros (it & (g & Hg & Hit) & ->). exists g. split; [exact Hg|].
      destruct (Nat.eqb gid fg); [cbn; now apply in_map|exact Hit]. }
  destruct (InGraph_same_views gs (Items.updateGraph fg f gs) F I) as (N & E).
  { intros gid n. unfold F. destruct (Nat.eqb gid fg); eexists; (split; [reflexivity|]);
      now repeat split. }
  { intros gid e. unfold F. now destruct (Nat.eqb gid fg). }
  apply (WellFormed_same_views gs); try assumption.
  - rewrite keys_updateGraph. exact (wf_keys _ Hwf).
  - rewrite refs_updateGraph; [exact (wf_refs _ Hwf)|].
    intros g. unfold f. cbn. rewrite map_map. apply map_ext. now intros [n|e].
Qed.

Lemma removed_empty_WellFormed (fg : nat) (g : Graph.t) (gs : Graphs) :
  WellFormed gs -> Items.lookupGraph gs fg = Some g -> Graph.childItems g = [] ->
  WellFormed (Items.removeGraph fg gs).
Proof.
  intros Hwf L Hc.
  assert (I : forall gid it',
             InGraph (Items.removeGraph fg gs) gid it'
             <-> exists it, InGraph gs gid it /\ it' = (fun (_ : nat) (x : Item) => x) gid it).
  { intros gid it'. rewrite InGraph_removeGraph. split.
    - intros (Hin & _). now exists it'.
    - intros (it & Hin & ->). split; [exact Hin|]. intros ->.
      destruct Hin as (g' & Hg' & Hit).
      rewrite (In_lookupGraph _ _ _ (wf_keys _ Hwf) Hg') in L. injection L as ->.
      rewrite Hc in Hit. destruct Hit. }
  destruct (InGraph_same_views gs (Items.removeGraph fg gs) _ I) as (N & E).
  { intros gid n. exists n. now repeat split. }
  { reflexivity. }
  apply (WellFormed_same_views gs); try assumption.
  - apply NoDup_keys_removeGraph. exact (wf_keys _ Hwf).
  - apply NoDup_refs_removeGraph. exact (wf_refs _ Hwf).
Qed.

Lemma setMode_enters_freestyle (v : CanvasView.t) :
  CanvasView.modeType v <> CanvasScene.freestyle -> WellFormed (CanvasView.graphs v) ->
  exists v0,
    CanvasView.setMode CanvasScene.freestyle v = Some v0 /\ Sketching v0 /\ AtOrigin v0.
Proof.
  intros Hm Hwf.
  set (k := Items.fresh (CanvasView.graphs v) (CanvasView.canvasGraphList v)).
  set (gs' := CanvasView.graphs v ++ [(k, Graph.new)]).
  set (v0 := CanvasView.mk
               (Pointer.setCanvasMode CanvasScene.freestyle
                  (Pointer.setGraphs (CanvasView.aScene v) gs'))
               CanvasScene.freestyle (Some k) None None (CanvasView.nodeParams_diameter v)).
  assert (E : CanvasView.setMode CanvasScene.freestyle v = Some v0).
  { unfold CanvasView.setMode. destruct (CanvasView.modeType v) eqn:Em;
      try reflexivity. congruence. }
  assert (G : CanvasView.graphs v0 = gs') by reflexivity.
  exists v0. split; [exact E|]. split.
  - unfold Sketching. rewrite G. split; [reflexivity|].
    split; [apply WellFormed_app_new; [exact Hwf|apply fresh_not_key]|].
    split; [|split; [discriminate|reflexivity]].
    exists k. split; [reflexivity|]. unfold gs'. rewrite keys_app_new.
    apply in_or_app. right. now left.
  - exists k, Graph.new. rewrite G. split; [reflexivity|]. split; [|now split].
    unfold gs'. rewrite lookupGraph_app_new.
    rewrite (proj2 (lookupGraph_None (CanvasView.graphs v) k) (fresh_not_key _ _)).
    now rewrite Nat.eqb_refl.
Qed.

Lemma setMode_leaves_freestyle (m : CanvasScene.Mode) (v : CanvasView.t) (fg : nat)
      (g : Graph.t) :
  CanvasView.modeType v = CanvasScene.freestyle -> m <> CanvasScene.freestyle ->
  WellFormed (CanvasView.graphs v) ->
  CanvasView.freestyleGraph v = Some fg ->
  Items.lookupGraph (CanvasView.graphs v) fg = Some g ->
  exists v2,
    CanvasView.setMode m v = Some v2
    /\ CanvasView.modeType v2 = m
    /\ CanvasView.freestyleGraph v2 = None
    /\ WellFormed (CanvasView.graphs v2)
    /\ (forall k, k <> fg ->
                  Items.lookupGraph (CanvasView.graphs v2) k
                  = Items.lookupGraph (CanvasView.graphs v) k)
    /\ match Graph.childItems g with
       | [] => Items.lookupGraph (CanvasView.graphs v2) fg = None
       | _ :: _ =>
           exists g',
             Items.lookupGraph (CanvasView.graphs v2) fg = Some g'
             /\ Graph.pos g' = snd (fst (Graph.boundingBox g false))
             /\ (forall n',
                   In n' (Graph.nodes g') <->
                   exists n, In n (Graph.nodes g)
                             /\ n' = Node.setPos n (psub (Node.pos n) (Graph.pos g')))
             /\ Graph.edges g' = Graph.edges g
       end.
Proof.
  intros Hm Hne Hwf Efg L.
  set (c := snd (fst (Graph.boundingBox g false))).
  set (f := fun g0 : Graph.t =>
              Graph.setPos
                (Items.setChildren g0 (map (CanvasView.recentre c) (Graph.childItems g0))) c).
  set (after := fun gs2 : Graphs =>
                  CanvasView.mk
                    (Pointer.setCanvasMode m (Pointer.setGraphs (CanvasView.aScene v) gs2))
                    m None None (CanvasView.node2 v) (CanvasView.nodeParams_diameter v)).
  assert (G : forall gs2, CanvasView.graphs (after gs2) = gs2) by reflexivity.
  assert (E : CanvasView.setMode m v
              = Some (after (match Graph.childItems g with
                             | [] => Items.removeGraph fg (CanvasView.graphs v)
                             | _ :: _ => Items.updateGraph fg f (CanvasView.graphs v)
                             end))).
  { unfold CanvasView.setMode, CanvasView.finalize. rewrite Hm, Efg, L. fold c.
    destruct (Graph.childItems g) as [|it its]; destruct m; try reflexivity; now elim Hne. }
  eexists. split; [exact E|]. split; [reflexivity|]. split; [reflexivity|]. rewrite G.
  destruct (Graph.childItems g) as [|it its] eqn:Ech.
  - split; [now apply (removed_empty_WellFormed fg g)|].
    split; [intros k Hk; now apply lookupGraph_removeGraph_other|].
    apply lookupGraph_None. rewrite keys_removeGraph. intros Hin.
    apply filter_In in Hin. destruct Hin as (_ & Hin). now rewrite Nat.eqb_refl in Hin.
  - split; [now apply recentred_WellFormed|].
    split; [intros k Hk; now apply lookupGraph_updateGraph_other|].
    exists (f g). split; [now rewrite lookupGraph_updateGraph, L|]. split; [reflexivity|].
    split; [|apply recentre_edges].
    intros n'. unfold f, Graph.nodes.
    cbn [Graph.setPos Items.setChildren Graph.childItems Graph.pos].
    rewrite recentre_nodes, in_map_iff. split.
    + intros (n & En & Hin). exists n. split; [exact Hin|now rewrite <- En].
    + intros (n & Hin & ->). exists n. split; [reflexivity|exact Hin].
Qed.


End FreestyleFacts.

Lemma viewFreestyle_Sketching : Sketching viewFreestyle.
Proof.
  split; [reflexivity|]. split; [apply wellFormedb_sound; vm_compute; reflexivity|].
  split; [exists 3%nat; split; [reflexivity|vm_compute; tauto]|].
  split; [discriminate|reflexivity].
Qed.

Lemma strokes_keep_sketching_witness :
  Sketching viewFreestyle /\
  exists v', strokes sampleStrokes viewFreestyle = Some v' /\ Sketching v'.
Proof.
  split; [exact viewFreestyle_Sketching|].
  exact (@strokes_keep_sketching screen sampleStrokes viewFreestyle viewFreestyle_Sketching).
Defined.

Lemma addEdgeToScene_merges_witness :
  exists v' root,
    CanvasView.addEdgeToScene 2 3 (viewPicked 2 3) = Some v'
    /\ ~ In root (keys (CanvasView.graphs (viewPicked 2 3)))
    /\ WellFormed (CanvasView.graphs v')
    /\ (Connected (CanvasView.graphs (viewPicked 2 3)) -> Connected (CanvasView.graphs v'))
    /\ (forall gid nid,
          hasNode (CanvasView.graphs v') gid nid <->
          exists g0, hasNode (CanvasView.graphs (viewPicked 2 3)) g0 nid
                     /\ gid = mergedTo 1 2 root g0)
    /\ (forall gid eid s d,
          EdgeT (CanvasView.graphs v') gid eid s d <->
          (exists g0, EdgeT (CanvasView.graphs (viewPicked 2 3)) g0 eid s d
                      /\ gid = mergedTo 1 2 root g0)
          \/ (gid = root /\ eid = CanvasView.freshEdge (CanvasView.graphs (viewPicked 2 3))
              /\ s = 2%nat /\ d = 3%nat)).
Proof.
  apply (@addEdgeToScene_merges screen 2 3 1 2 (viewPicked 2 3));
    try reflexivity; try discriminate;
    try (apply hasNodeb_hasNode; vm_compute; reflexivity).
  apply wellFormedb_sound; vm_compute; reflexivity.
Defined.

Lemma addEdgeToScene_within_witness :
  exists v',
    CanvasView.addEdgeToScene 3 4 (viewPicked 3 4) = Some v'
    /\ WellFormed (CanvasView.graphs v')
    /\ (Connected (CanvasView.graphs (viewPicked 3 4)) -> Connected (CanvasView.graphs v'))
    /\ (forall gid nid,
          hasNode (CanvasView.graphs v') gid nid
          <-> hasNode (CanvasView.graphs (viewPicked 3 4)) gid nid)
    /\ (forall gid eid s d,
          EdgeT (CanvasView.graphs v') gid eid s d <->
          EdgeT (CanvasView.graphs (viewPicked 3 4)) gid eid s d
          \/ (gid = 2%nat /\ eid = CanvasView.freshEdge (CanvasView.graphs (viewPicked 3 4))
              /\ s = 3%nat /\ d = 4%nat)).
Proof.
  apply (@addEdgeToScene_within screen 3 4 2 (viewPicked 3 4));
    try reflexivity; try discriminate;
    try (apply hasNodeb_hasNode; vm_compute; reflexivity).
  apply wellFormedb_sound; vm_compute; reflexivity.
Defined.

Lemma viewOneNode_Sketching : Sketching viewOneNode.
Proof.
  split; [reflexivity|]. split; [apply wellFormedb_sound; vm_compute; reflexivity|].
  split; [exists 3%nat; split; [reflexivity|vm_compute; tauto]|].
  split; [discriminate|reflexivity].
Qed.

Lemma new_node_is_apart_witness :
  exists v',
    CanvasView.mouseDoubleClickEvent (clickAt 260 30 []) viewOneNode = Some v'
    /\ hasNode (CanvasView.graphs v') 3 5
    /\ hasNode (CanvasView.graphs v') 3 (CanvasView.freshNode (CanvasView.graphs viewOneNode))
    /\ ~ reach (CanvasView.graphs v') 3 5
               (CanvasView.freshNode (CanvasView.graphs viewOneNode))
    /\ ~ Connected (CanvasView.graphs v').
Proof.
  apply (@new_node_is_apart screen (clickAt 260 30 []) viewOneNode 3 5);
    [exact viewOneNode_Sketching|reflexivity|].
  apply hasNodeb_hasNode; vm_compute; reflexivity.
Defined.

